(** * Arbitrary-precision signed integers: a shallow embedding of the bignum core

    The C library stores a magnitude as little-endian 32-bit limbs with a
    sign flag, and narrows to 16-bit half-limbs for division and for decimal
    printing.  This development embeds the routines of the core as Rocq
    functions and states the properties of the specification over them.

    Conventions of the embedding.
    - A [uint16_t] or [uint32_t] is a [Z]; every C operation that can wrap or
      truncate is followed by the reduction [u16] or [u32].
    - An array is a [list Z] indexed by [nat]; [u.[i]] reads (0 outside the
      list, where C leaves the read undefined) and [<[i:=x]> u] writes.
      The arrays of [short_division] and of [multiply_add] live in stricter
      models, a store of named arrays and a bounds-checked buffer, because
      properties below are about their aliasing and their bounds.
    - A C [assert] that fails aborts the program: the routines containing
      one return [option], with [None] for the abort.
    - Lengths and loop counters ([int] in C) are [nat]: the embedding does
      not bound the number of limbs, and allocation never fails.
    - A [while] loop whose exit depends on the data takes a fuel argument
      and returns [None] when it runs out; the callers pass a fuel that is
      shown to be enough. *)

From Stdlib Require Import ZArith List Lia Bool Ascii String.
From stdpp Require Import base option list gmap.

Local Open Scope Z_scope.

(** ** Machine integers *)

Definition UINT16_MAX : Z := 65535.

Definition u16 (x : Z) : Z := x mod 65536.
Definition u32 (x : Z) : Z := x mod 4294967296.

Definition is_u16 (x : Z) : Prop := 0 <= x <= 65535.
Definition is_u32 (x : Z) : Prop := 0 <= x < 4294967296.

(** C's conversion of a comparison to 0 or 1. *)
Definition b2z (b : bool) : Z := if b then 1 else 0.

(** [assert(c)]: continue when [c] holds, abort otherwise. *)
Definition assert (c : bool) : option unit := if c then Some tt else None.

Notation "u .[ i ]" := (nth i u 0) (at level 1, left associativity, format "u .[ i ]").

(** [for (i = lo; i < lo + cnt; i++) body]: the body transforms the loop
    state and sees the counter. *)
Definition for_loop {S : Type} (lo cnt : nat) (body : nat -> S -> S) (s : S) : S :=
  fold_left (fun st i => body i st) (seq lo cnt) s.

(** The same with a body that can abort. *)
Definition for_loop_opt {S : Type} (lo cnt : nat) (body : nat -> S -> option S)
    (s : S) : option S :=
  fold_left (fun st i => s' ← st; body i s') (seq lo cnt) (Some s).

(** Little-endian value of a limb array in base [B]. *)
Fixpoint value (B : Z) (l : list Z) : Z :=
  match l with
  | [] => 0
  | x :: l' => x + B * value B l'
  end.

Definition B16 : Z := 65536.
Definition B32 : Z := 4294967296.

(** ** The array store

    [short_division] receives its dividend and its quotient through
    pointers which the callers may or may not make equal.  To speak about
    that, the routine is embedded over a store of named arrays; an access
    through an unknown name or outside the array is undefined in C and is
    [None] here. *)

Definition ptr := nat.
Abbreviation store := (gmap nat (list Z)).

Definition load (s : store) (p : ptr) (i : nat) : option Z :=
  a ← s !! p; a !! i.

Definition store_at (s : store) (p : ptr) (i : nat) (x : Z) : option store :=
  a ← s !! p;
  if decide (i < length a)%nat then Some (<[p := <[i := x]> a]> s) else None.

(** Names for the two arrays a caller hands to [short_division]. *)
Definition P_U : ptr := 0%nat.
Definition P_Q : ptr := 1%nat.

(** ** 32-by-16 division and short division (part_001, lines 132-160) *)

Definition div_32_by_16 (u_hi u_lo v : Z) : option (Z * Z) :=
  let u := Z.lor (u32 (Z.shiftl u_hi 16)) u_lo in
  _ ← assert (0 <? v);
  _ ← assert (u / v <=? UINT16_MAX);
  Some (u16 (u / v), u16 (u mod v)).

(** The sweep [for (i = n - 1; i >= 0; i--)]; the first argument is [i + 1]. *)
Fixpoint short_division_loop (i1 : nat) (pu : ptr) (v : Z) (pq : ptr)
    (k : Z) (s : store) : option (Z * store) :=
  match i1 with
  | O => Some (k, s)
  | S i =>
      ui ← load s pu i;
      '(qi, k') ← div_32_by_16 k ui v;
      s' ← store_at s pq i qi;
      short_division_loop i pu v pq k' s'
  end.

(** [short_division(n, u, v, q, &r)]: returns the scalar remainder and the
    store after the quotient digits have been written through [q]. *)
Definition short_division (n : nat) (pu : ptr) (v : Z) (pq : ptr)
    (s : store) : option (Z * store) :=
  _ ← assert (0 <? v);
  _ ← assert (0 <? n)%nat;
  short_division_loop n pu v pq 0 s.

(** The calls [div_32_by_16(k, u[i], v, ...)] that the sweep makes, in order,
    as pairs [(k, u[i])]; the list stops after a call that aborts. *)
Fixpoint short_division_calls (i1 : nat) (pu : ptr) (v : Z) (pq : ptr)
    (k : Z) (s : store) : list (Z * Z) :=
  match i1 with
  | O => []
  | S i =>
      match load s pu i with
      | None => []
      | Some ui =>
          (k, ui) ::
          match div_32_by_16 k ui v with
          | None => []
          | Some (qi, k') =>
              match store_at s pq i qi with
              | None => []
              | Some s' => short_division_calls i pu v pq k' s'
              end
          end
      end
  end.

(** ** Normalization helpers (part_001, lines 162-214) *)

(** [while (x <= UINT16_MAX / 2) { x <<= 1; n++; }] *)
Fixpoint leading_zeros_loop (fuel : nat) (x : Z) (n : nat) : option nat :=
  match fuel with
  | O => None
  | S fuel' =>
      if x <=? UINT16_MAX / 2
      then leading_zeros_loop fuel' (u16 (Z.shiftl x 1)) (S n)
      else Some n
  end.

Definition leading_zeros (x : Z) : option nat :=
  _ ← assert (negb (x =? 0));
  leading_zeros_loop 16 x 0.

Definition shift_left_body (m : Z) (i : nat) (st : list Z * Z) : list Z * Z :=
  let '(u, k) := st in
  let t := u16 (Z.shiftr u.[i] (16 - m)) in
  (<[i := u16 (Z.lor (Z.shiftl u.[i] m) k)]> u, t).

Definition shift_left (n : nat) (u : list Z) (m : Z) : option (list Z) :=
  _ ← assert (0 <? m);
  _ ← assert (m <? 16);
  let '(u', k) := for_loop 0 n (shift_left_body m) (u, 0) in
  _ ← assert (k =? 0);
  Some u'.

(** [for (i = n - 1; i >= 0; i--)], first argument [i + 1]. *)
Fixpoint shift_right_loop (i1 : nat) (u : list Z) (m : Z) (k : Z) : list Z * Z :=
  match i1 with
  | O => (u, k)
  | S i =>
      let t := u16 (Z.shiftl u.[i] (16 - m)) in
      shift_right_loop i (<[i := u16 (Z.lor (Z.shiftr u.[i] m) k)]> u) m t
  end.

Definition shift_right (n : nat) (u : list Z) (m : Z) : option (list Z) :=
  _ ← assert (0 <? m);
  _ ← assert (m <? 16);
  let '(u', k) := shift_right_loop n u m 0 in
  _ ← assert (k =? 0);
  Some u'.

(** ** Long division: Algorithm D (part_001, lines 216-296) *)

(** The estimate-correction loop [while (true) { ... }] of lines 249-260.
    [vn1], [vn2] and [ujn2] stand for [v[n-1]], [v[n-2]] and [u[j+n-2]],
    which the loop does not change.  The right operand of [||] is evaluated
    only when the left one is false. *)
Definition qhat_test (vn2 ujn2 qhat rhat : Z) : bool :=
  if qhat >? UINT16_MAX then true
  else u32 (qhat * vn2) >? Z.lor (u32 (Z.shiftl rhat 16)) ujn2.

Fixpoint qhat_loop (fuel : nat) (n : nat) (vn1 vn2 ujn2 : Z) (qhat rhat : Z)
    : option (Z * Z) :=
  match fuel with
  | O => None
  | S fuel' =>
      _ ← assert (2 <=? n)%nat;
      if qhat_test vn2 ujn2 qhat rhat then
        let qhat := u32 (qhat - 1) in
        let rhat := u32 (rhat + vn1) in
        if rhat <=? UINT16_MAX
        then qhat_loop fuel' n vn1 vn2 ujn2 qhat rhat
        else Some (qhat, rhat)
      else Some (qhat, rhat)
  end.

(** The pairs [(qhat, rhat)] at which the loop evaluates the comparison
    [qhat * v[n-2] > ((rhat << 16) | u[j+n-2])], in order. *)
Fixpoint qhat_loop_comparisons (fuel : nat) (n : nat) (vn1 vn2 ujn2 : Z)
    (qhat rhat : Z) : list (Z * Z) :=
  match fuel with
  | O => []
  | S fuel' =>
      if (2 <=? n)%nat then
        (if qhat >? UINT16_MAX then [] else [(qhat, rhat)]) ++
        (if qhat_test vn2 ujn2 qhat rhat then
           let qhat := u32 (qhat - 1) in
           let rhat := u32 (rhat + vn1) in
           if rhat <=? UINT16_MAX
           then qhat_loop_comparisons fuel' n vn1 vn2 ujn2 qhat rhat
           else []
         else [])
      else []
  end.

(** Each round adds [v[n-1] >= 1] to [rhat] and the loop is left once
    [rhat] exceeds [UINT16_MAX]. *)
Definition qhat_fuel : nat := Z.to_nat 65537.

(** Body of the multiply-and-subtract loop [for (i = 0; i <= n; i++)]. *)
Definition mulsub_body (n j : nat) (qhat : Z) (v : list Z) (i : nat)
    (st : list Z * Z) : list Z * Z :=
  let '(u, k) := st in
  let p := u32 (qhat * (if (i =? n)%nat then 0 else v.[i])) in
  let k2 := u16 (Z.shiftr p 16) in
  let d := u16 (u.[j + i] - u16 p) in
  let k2 := u16 (k2 + b2z (d >? u.[j + i])) in
  let u := <[(j + i)%nat := u16 (d - k)]> u in
  let k2 := u16 (k2 + b2z (u.[j + i] >? d)) in
  (u, k2).

(** Body of the add-back loop [for (i = 0; i < n; i++)]. *)
Definition addback_body (j : nat) (v : list Z) (i : nat)
    (st : list Z * Z) : list Z * Z :=
  let '(u, k) := st in
  let t := u32 (u.[j + i] + v.[i] + k) in
  (<[(j + i)%nat := u16 t]> u, u16 (Z.shiftr t 16)).

(** One round of the main loop, for quotient position [j]. *)
Definition algorithm_d_step (n : nat) (v : list Z) (j : nat)
    (st : list Z * list Z) : option (list Z * list Z) :=
  let '(u, q) := st in
  let t := Z.lor (u32 (Z.shiftl u.[j + n] 16)) u.[j + n - 1] in
  let qhat := t / v.[n - 1] in
  let rhat := t mod v.[n - 1] in
  '(qhat, rhat) ← qhat_loop qhat_fuel n v.[n - 1] v.[n - 2] u.[j + n - 2] qhat rhat;
  let '(u, k) := for_loop 0 (n + 1) (mulsub_body n j qhat v) (u, 0) in
  let q := <[j := u16 qhat]> q in
  if negb (k =? 0) then
    let q := <[j := u16 (q.[j] - 1)]> q in
    let '(u, k) := for_loop 0 n (addback_body j v) (u, 0) in
    let u := <[(j + n)%nat := u16 (u.[j + n] + k)]> u in
    Some (u, q)
  else Some (u, q).

(** [for (j = m; j >= 0; j--)], first argument [j + 1]. *)
Fixpoint algorithm_d_loop (j1 : nat) (n : nat) (v : list Z)
    (st : list Z * list Z) : option (list Z * list Z) :=
  match j1 with
  | O => Some st
  | S j => st' ← algorithm_d_step n v j st; algorithm_d_loop j n v st'
  end.

(** [algorithm_d(m, n, u, v, q)] returns the three arrays as it leaves
    them: [u] holds the remainder in its first [n] places, [v] stays
    shifted, [q] holds the quotient. *)
Definition algorithm_d (m n : nat) (u v q : list Z)
    : option (list Z * list Z * list Z) :=
  _ ← assert (0 <? n)%nat;
  _ ← assert (negb (v.[n - 1] =? 0));
  if (n =? 1)%nat then
    '(r, s) ← short_division (m + n) P_U v.[0] P_Q (<[P_U := u]> {[P_Q := q]});
    u' ← s !! P_U;
    q' ← s !! P_Q;
    Some (<[0%nat := r]> u', v, q')
  else
    let u := <[(m + n)%nat := 0]> u in
    shift ← leading_zeros v.[n - 1];
    '(u, v) ← (if negb (shift =? 0)%nat then
                 v' ← shift_left n v (Z.of_nat shift);
                 u' ← shift_left (m + n + 1) u (Z.of_nat shift);
                 Some (u', v')
               else Some (u, v));
    '(u, q) ← algorithm_d_loop (m + 1) n v (u, q);
    u ← (if negb (shift =? 0)%nat then shift_right n u (Z.of_nat shift)
         else Some u);
    Some (u, v, q).

(** ** The half-limb bridge (part_001, lines 298-358) *)

Definition u32_to_u16 (n : nat) (a32 : list Z) (a16 : list Z) : list Z :=
  for_loop 0 n
    (fun i a =>
       <[(i * 2 + 1)%nat := u16 (Z.shiftr a32.[i] 16)]>
         (<[(i * 2 + 0)%nat := u16 a32.[i]]> a))
    a16.

(** [for (i = 0; i < n; i += 2)]; round [h] has [i = 2 * h]. *)
Definition u16_to_u32 (n : nat) (a16 : list Z) (a32 : list Z) : option (list Z) :=
  _ ← assert (n mod 2 =? 0)%nat;
  Some (for_loop 0 ((n + 1) / 2)
          (fun h a =>
             let i := (2 * h)%nat in
             <[(i / 2)%nat := Z.lor a16.[i] (u32 (Z.shiftl a16.[i + 1] 16))]> a)
          a32).

(** The local arrays [u16], [v16] and [q16] are not initialized in C; they
    start as zeros here.  [q] and [r] are the caller's arrays. *)
Definition algorithm_d_wrapper (m n : nat) (u v q r : list Z)
    : option (list Z * list Z) :=
  let a_u16 := replicate ((m + n) * 2 + 1) 0 in
  let a_v16 := replicate (n * 2) 0 in
  let a_q16 := replicate ((m + 1) * 2) 0 in
  _ ← assert (0 <? n)%nat;
  _ ← assert (negb (v.[n - 1] =? 0));
  let a_u16 := u32_to_u16 (m + n) u a_u16 in
  let a_v16 := u32_to_u16 n v a_v16 in
  let v_zero := a_v16.[n * 2 - 1] =? 0 in
  let vz := if v_zero then 1%nat else 0%nat in
  '(a_u16, _, a_q16) ← algorithm_d (m * 2 + vz) (n * 2 - vz) a_u16 a_v16 a_q16;
  let a_u16 := if v_zero then <[(n * 2 - 1)%nat := 0]> a_u16 else a_u16 in
  let a_q16 := if v_zero then a_q16 else <[((m + 1) * 2 - 1)%nat := 0]> a_q16 in
  q' ← u16_to_u32 ((m + 1) * 2) a_q16 q;
  r' ← u16_to_u32 (n * 2) a_u16 r;
  Some (q', r').

(** ** Base conversion (part_001, lines 360-463) *)

(** [mul_32_by_32(x, y, &z_hi, &z_lo)], returning [(z_hi, z_lo)]; the
    64-bit product of two 32-bit numbers does not wrap. *)
Definition mul_32_by_32 (x y : Z) : Z * Z :=
  let prod := (x * y) mod 18446744073709551616 in
  (u32 (Z.shiftr prod 32), u32 prod).

(** A bounds-checked write into the limb buffer of [from_string]. *)
Definition poke (u : list Z) (i : nat) (x : Z) : option (list Z) :=
  if decide (i < length u)%nat then Some (<[i := x]> u) else None.

Definition multiply_add_body (x : Z) (i : nat) (st : list Z * Z)
    : option (list Z * Z) :=
  let '(u, k) := st in
  let '(hi_prod, lo_prod) := mul_32_by_32 u.[i] x in
  let lo_prod := u32 (lo_prod + k) in
  let k := u32 (hi_prod + b2z (lo_prod <? k)) in
  u' ← poke u i lo_prod;
  Some (u', k).

(** [multiply_add(u, &m, x, y)] returns the buffer and the new [*m]. *)
Definition multiply_add (u : list Z) (m : nat) (x y : Z) : option (list Z * nat) :=
  '(u, k) ← for_loop_opt 0 m (multiply_add_body x) (u, y);
  if negb (k =? 0) then
    u' ← poke u m k;
    Some (u', S m)
  else Some (u, m).

Definition pow10s : list Z :=
  [1000000000; 10; 100; 1000; 10000; 100000; 1000000; 10000000; 100000000].

Definition NUL : ascii := Ascii.zero.

Definition char_code (c : ascii) : Z := Z.of_nat (nat_of_ascii c).
Definition char_of (x : Z) : ascii := ascii_of_nat (Z.to_nat x).

(** Body of [for (i = 1; i <= n; i++)] in [from_string]; [*str++] reads
    the character at index [i - 1].  The state is [(chunk, u_len, u)]. *)
Definition from_string_body (n : nat) (str : list ascii) (i : nat)
    (st : Z * nat * list Z) : option (Z * nat * list Z) :=
  let '(chunk, u_len, u) := st in
  let c := char_code (nth (i - 1) str NUL) in
  _ ← assert ((48 <=? c) && (c <=? 57));
  let chunk := u32 (chunk * 10 + c - 48) in
  if ((i mod 9 =? 0)%nat || (i =? n)%nat) then
    '(u, u_len) ← multiply_add u u_len pow10s.[i mod 9] chunk;
    Some (0, u_len, u)
  else Some (chunk, u_len, u).

(** [from_string(n, str, &u_len, u)] returns [(u_len, u)]. *)
Definition from_string (n : nat) (str : list ascii) (u : list Z)
    : option (nat * list Z) :=
  '(_, u_len, u) ← for_loop_opt 1 n (from_string_body n str) (0, 0%nat, u);
  Some (u_len, u).

(** [while (n && v[n - 1] == 0) n--;], the loop that [to_string] runs twice
    and [bigint_create] runs once. *)
Fixpoint strip_zeros (n : nat) (v : list Z) : nat :=
  match n with
  | O => O
  | S n' => if v.[n'] =? 0 then strip_zeros n' v else n
  end.

(** [for (i = 0; (n != 0 && i < 4) || k; i++) { *s++ = '0' + (k % 10); k /= 10; }]
    where [s] is the list of characters written so far. *)
Fixpoint emit_digits (fuel : nat) (n i : nat) (k : Z) (s : list ascii)
    : option (list ascii) :=
  match fuel with
  | O => None
  | S fuel' =>
      if (negb (n =? 0)%nat && (i <? 4)%nat) || negb (k =? 0)
      then emit_digits fuel' n (S i) (u16 (k / 10)) (s ++ [char_of (48 + k mod 10)])
      else Some s
  end.

(** [while (n != 0) { ... }] of [to_string]; the scratch array [v] is both
    the dividend and the quotient of [short_division]. *)
Fixpoint to_string_loop (fuel : nat) (n : nat) (v : list Z) (s : list ascii)
    : option (list ascii) :=
  match fuel with
  | O => None
  | S fuel' =>
      if (n =? 0)%nat then Some s
      else
        '(k, st) ← short_division n P_U 10000 P_U {[P_U := v]};
        v ← st !! P_U;
        let n := strip_zeros n v in
        s ← emit_digits 6 n 0 k s;
        to_string_loop fuel' n v s
  end.

(** [while (str < s) { t = *str; *str++ = *s; *s-- = t; }] with the two
    pointers as indices into the buffer. *)
Fixpoint reverse_loop (fuel : nat) (lo hi : nat) (buf : list ascii)
    : option (list ascii) :=
  match fuel with
  | O => None
  | S fuel' =>
      if (lo <? hi)%nat then
        let t := nth lo buf NUL in
        let buf := <[lo := nth hi buf NUL]> buf in
        let buf := <[hi := t]> buf in
        reverse_loop fuel' (S lo) (hi - 1) buf
      else Some buf
  end.

(** [to_string(n, u, str)] returns the characters written from [str] on,
    the terminating NUL included. *)
Definition to_string (n : nat) (u : list Z) : option (list ascii) :=
  let v := u32_to_u16 n u (replicate (n * 2) 0) in
  let n := (n * 2)%nat in
  let n := strip_zeros n v in
  if (n =? 0)%nat then Some ["0"%char; NUL]
  else
    s ← to_string_loop (2 * n + 1) n v [];
    reverse_loop (S (length s)) 0 (length s - 1) (s ++ [NUL]).

(** C's [strlen]: the number of characters before the first NUL. *)
Fixpoint strlen (s : list ascii) : nat :=
  match s with
  | [] => O
  | c :: s' => if Ascii.eqb c NUL then O else S (strlen s')
  end.

(** ** The signed value (part_001, lines 465-738)

    [struct bigint_t] has a 31-bit [length], a 1-bit [negative] and the limbs
    [data]; the embedding keeps [negative] and [data], and [length] is the
    length of [data]. *)

Record bigint_t : Type := { negative : bool; data : list Z }.

Definition set_negative (z : bigint_t) (b : bool) : bigint_t :=
  {| negative := b; data := data z |}.

Definition bigint_create (n : nat) (u : list Z) (neg : bool) : bigint_t :=
  let n := strip_zeros n u in
  if (n =? 0)%nat then {| negative := false; data := [] |}
  else {| negative := neg; data := take n u |}.

Definition bigint_create_str (n : nat) (str : list ascii) : option bigint_t :=
  let u := replicate (n / 9 + 1) 0 in
  _ ← assert (0 <? n)%nat;
  '(neg, str, n) ←
    (if Ascii.eqb (nth 0 str NUL) "-"%char then
       _ ← assert (1 <? n)%nat;
       Some (true, drop 1 str, (n - 1)%nat)
     else Some (false, str, n));
  '(u_length, u) ← from_string n str u;
  Some (bigint_create u_length u neg).

Definition bigint_max_stringlen (x : bigint_t) : nat :=
  if (length (data x) =? 0)%nat then 1%nat
  else (length (data x) * 10 + (if negative x then 1 else 0))%nat.

(** [bigint_tostring(x, str)] returns the characters written from the
    caller's [str] on, the terminating NUL included. *)
Definition bigint_tostring (x : bigint_t) : option (list ascii) :=
  let pre := if negative x then ["-"%char] else [] in
  str ← to_string (length (data x)) (data x);
  _ ← assert (strlen str <=? bigint_max_stringlen x)%nat;
  Some (pre ++ str).

Definition divrem (x_len : nat) (x : list Z) (y_len : nat) (y : list Z)
    (remainder : bool) : option bigint_t :=
  let q := replicate (x_len - y_len + 1) 0 in
  let r := replicate y_len 0 in
  _ ← assert (y_len <=? x_len)%nat;
  '(q, r) ← algorithm_d_wrapper (x_len - y_len) y_len x y q r;
  if remainder then Some (bigint_create y_len r false)
  else Some (bigint_create (x_len - y_len + 1) q false).

Definition bigint_div (x y : bigint_t) : option bigint_t :=
  if (length (data x) <? length (data y))%nat then
    Some (bigint_create 0 [] false)
  else
    z ← divrem (length (data x)) (data x) (length (data y)) (data y) false;
    Some (set_negative z (xorb (negative x) (negative y))).

Definition bigint_rem (x y : bigint_t) : option bigint_t :=
  z ← (if (length (data x) <? length (data y))%nat then
         Some (bigint_create (length (data x)) (data x) false)
       else divrem (length (data x)) (data x) (length (data y)) (data y) true);
  Some (set_negative z (negative x)).

Definition bigint_neg (x : bigint_t) : bigint_t :=
  bigint_create (length (data x)) (data x) (xorb (negative x) true).

Definition bigint_is_zero (x : bigint_t) : bool := (length (data x) =? 0)%nat.

(** ** What the specification says about values *)

(** The integer a value represents (I3). *)
Definition sign_of (b : bool) : Z := if b then -1 else 1.

Definition to_Z (x : bigint_t) : Z :=
  sign_of (negative x) * value B32 (data x).

(** I1 and I2: no most-significant zero limb, and zero is not negative. *)
Definition canonical (x : bigint_t) : Prop :=
  last (data x) <> Some 0 /\ (data x = [] -> negative x = false).

(** A well-formed value is canonical and its limbs are 32-bit numbers. *)
Definition well_formed (x : bigint_t) : Prop :=
  Forall is_u32 (data x) /\ canonical x.

(** ** Predicates used in the statements *)

(** A call [div_32_by_16(k, ui, v, ...)] fits: it starts from a remainder
    below [v], its quotient needs no more than 16 bits, and it passes the
    assertions of [div_32_by_16]. *)
Definition call_fits (v : Z) (c : Z * Z) : Prop :=
  0 <= c.1 < v /\
  Z.lor (u32 (Z.shiftl c.1 16)) c.2 / v <= UINT16_MAX /\
  is_Some (div_32_by_16 c.1 c.2 v).

(** Two runs of [short_division] over [n] places, the first writing the
    quotient through [pq] and the second through [pu] itself, end alike:
    both abort, or both return the same remainder and the same [n] quotient
    digits, the first leaving the dividend [u] in place. *)
Definition same_outcome (n : nat) (pu pq : ptr) (u : list Z)
    (r1 r2 : option (Z * store)) : Prop :=
  match r1, r2 with
  | Some (k1, s1), Some (k2, s2) =>
      k1 = k2 /\
      exists q1 u2 : list Z,
        s1 !! pq = Some q1 /\ s2 !! pu = Some u2 /\
        take n q1 = take n u2 /\ s1 !! pu = Some u
  | None, None => True
  | _, _ => False
  end.


(** The 32-bit comparison of the estimate-correction loop, evaluated at
    [(qhat, rhat)], is exact: neither side needs more than 32 bits and the
    machine comparison is the comparison of the integers. *)
Definition comparison_exact (vn2 ujn2 : Z) (c : Z * Z) : Prop :=
  0 <= c.1 <= UINT16_MAX /\ 0 <= c.2 <= UINT16_MAX /\
  0 <= c.1 * vn2 < 2 ^ 32 /\ 0 <= c.2 * 2 ^ 16 + ujn2 < 2 ^ 32 /\
  (u32 (c.1 * vn2) >? Z.lor (u32 (Z.shiftl c.2 16)) ujn2) =
  (c.1 * vn2 >? c.2 * 2 ^ 16 + ujn2).

(** The half-limbs of a limb array, low half first: what [u32_to_u16]
    writes. *)
Definition split16 (l : list Z) : list Z :=
  flat_map (fun x => [x mod 65536; x / 65536]) l.

(** ** Decimal strings *)

Definition is_digit (c : ascii) : Prop := 48 <= char_code c <= 57.

Definition digit_value (c : ascii) : Z := char_code c - 48.

(** The number a list of digits denotes, least significant digit first:
    the order in which [to_string] writes them. *)
Definition digits_value (s : list ascii) : Z := value 10 (map digit_value s).

(** The number a string of digits denotes, most significant digit first. *)
Definition decimal_value (s : list ascii) : Z := digits_value (rev s).

(** One or more digits without a leading zero, except ["0"] itself. *)
Definition canonical_digits (d : list ascii) : Prop :=
  d <> [] /\ Forall is_digit d /\ (d = ["0"%char] \/ head d <> Some "0"%char).

(** The strings of the round-trip property: [-]?[0-9]+ without leading
    zeros (except ["0"] itself) and not ["-0"]. *)
Definition canonical_decimal (s : list ascii) : Prop :=
  match s with
  | "-"%char :: d => canonical_digits d /\ d <> ["0"%char]
  | _ => canonical_digits s
  end.

(** ** Addition, comparison, subtraction (part_001, lines 9-76)

    [add] and [sub] hand the same work array to [algorithm_a] and to
    [algorithm_s] as the operand [v] and as the result [w]; the two
    routines are therefore embedded over the array store, as
    [short_division] is. *)

(** Body of [for (j = 0; j < n; j++)] in [algorithm_a]; the state is
    [(carry, store)]. *)
Definition algorithm_a_body (pu pv pw : ptr) (j : nat) (st : bool * store)
    : option (bool * store) :=
  let '(carry, s) := st in
  uj ← load s pu j;
  let sum_a := u32 (uj + b2z carry) in
  let carry_a := sum_a <? uj in
  vj ← load s pv j;
  let sum_b := u32 (sum_a + vj) in
  let carry_b := sum_b <? sum_a in
  s ← store_at s pw j sum_b;
  _ ← assert (b2z carry_a + b2z carry_b <=? 1);
  Some (negb (b2z carry_a + b2z carry_b =? 0), s).

(** [algorithm_a(n, u, v, w)]: the store after [w] has been written. *)
Definition algorithm_a (n : nat) (pu pv pw : ptr) (s : store) : option store :=
  '(carry, s) ← for_loop_opt 0 n (algorithm_a_body pu pv pw) (false, s);
  store_at s pw n (b2z carry).

(** The scan [for (i = u_len - 1; i >= 0; i--)] of [cmp]; the first
    argument is [i + 1]. *)
Fixpoint cmp_loop (i1 : nat) (u v : list Z) : Z :=
  match i1 with
  | O => 0
  | S i =>
      if negb (u.[i] =? v.[i]) then (if u.[i] <? v.[i] then -1 else 1)
      else cmp_loop i u v
  end.

Definition cmp (u_len : nat) (u : list Z) (v_len : nat) (v : list Z) : Z :=
  if negb (u_len =? v_len)%nat then (if (u_len <? v_len)%nat then -1 else 1)
  else cmp_loop u_len u v.

(** Body of the loop of [algorithm_s]; the state is [(borrow, store)]. *)
Definition algorithm_s_body (pu pv pw : ptr) (j : nat) (st : bool * store)
    : option (bool * store) :=
  let '(borrow, s) := st in
  uj ← load s pu j;
  let diff_a := u32 (uj - b2z borrow) in
  let borrow_a := diff_a >? uj in
  vj ← load s pv j;
  let diff_b := u32 (diff_a - vj) in
  let borrow_b := diff_b >? diff_a in
  s ← store_at s pw j diff_b;
  _ ← assert (b2z borrow_a + b2z borrow_b <=? 1);
  Some (negb (b2z borrow_a + b2z borrow_b =? 0), s).

(** [algorithm_s(n, u, v, w)]: the store after [w] has been written. *)
Definition algorithm_s (n : nat) (pu pv pw : ptr) (s : store) : option store :=
  u ← s !! pu;
  v ← s !! pv;
  _ ← assert (0 <=? cmp n u n v);
  '(borrow, s) ← for_loop_opt 0 n (algorithm_s_body pu pv pw) (false, s);
  _ ← assert (negb borrow);
  Some s.

(** ** Multiplication (part_001, lines 94-130) *)

(** Body of the inner loop [for (i = 0; i < m; i++)] of [algorithm_m] for
    the multiplier digit [vj = v[j]]; the state is [(w, k)]. *)
Definition algorithm_m_inner (u : list Z) (vj : Z) (j i : nat) (st : list Z * Z)
    : option (list Z * Z) :=
  let '(w, k) := st in
  let '(hi_prod, lo_prod) := mul_32_by_32 u.[i] vj in
  let lo_prod := u32 (lo_prod + k) in
  let carry_a := lo_prod <? k in
  let w := <[(i + j)%nat := u32 (w.[i + j] + lo_prod)]> w in
  let carry_b := w.[i + j] <? lo_prod in
  let k := u32 (hi_prod + b2z carry_a + b2z carry_b) in
  _ ← assert (hi_prod <=? k);
  Some (w, k).

(** Body of the outer loop [for (j = 0; j < n; j++)]. *)
Definition algorithm_m_outer (m : nat) (u v : list Z) (j : nat) (w : list Z)
    : option (list Z) :=
  if v.[j] =? 0 then Some (<[(j + m)%nat := 0]> w)
  else
    '(w, k) ← for_loop_opt 0 m (algorithm_m_inner u v.[j] j) (w, 0);
    Some (<[(j + m)%nat := k]> w).

(** [algorithm_m(m, n, u, v, w)], with [w] an array of its own. *)
Definition algorithm_m (m n : nat) (u v w : list Z) : option (list Z) :=
  let w := for_loop 0 m (fun i w => <[i := 0]> w) w in
  for_loop_opt 0 n (algorithm_m_outer m u v) w.

(** ** Signed addition, subtraction, multiplication and comparison
    (part_001, lines 544-733) *)

(** Names for the operand [x] and for the work array [w] of [add] and
    [sub]. *)
Definition P_X : ptr := 0%nat.
Definition P_W : ptr := 1%nat.

(** The two loops that copy [y] into [w] and pad it with zeros up to
    [x_len]. *)
Definition copy_and_pad (x_len y_len : nat) (y w : list Z) : list Z :=
  let w := for_loop 0 y_len (fun i w => <[i := y.[i]]> w) w in
  for_loop y_len (x_len - y_len) (fun i w => <[i := 0]> w) w.

(** [add(x_len, x, y_len, y)].  The routine calls itself with the operands
    exchanged; the fuel bounds the depth of these calls. *)
Fixpoint add (fuel : nat) (x_len : nat) (x : list Z) (y_len : nat) (y : list Z)
    : option bigint_t :=
  match fuel with
  | O => None
  | S fuel' =>
      if (x_len <? y_len)%nat then add fuel' y_len y x_len x
      else
        let w_len := (x_len + 1)%nat in
        let w := replicate w_len 0 in
        _ ← assert (y_len <=? x_len)%nat;
        let w := copy_and_pad x_len y_len y w in
        s ← algorithm_a x_len P_X P_W P_W {[P_X := x; P_W := w]};
        w ← s !! P_W;
        Some (bigint_create w_len w false)
  end.

(** [sub(x_len, x, y_len, y)], with fuel as for [add]. *)
Fixpoint sub (fuel : nat) (x_len : nat) (x : list Z) (y_len : nat) (y : list Z)
    : option bigint_t :=
  match fuel with
  | O => None
  | S fuel' =>
      if cmp x_len x y_len y <? 0 then
        z ← sub fuel' y_len y x_len x;
        Some (set_negative z true)
      else
        let w := replicate x_len 0 in
        _ ← assert (y_len <=? x_len)%nat;
        let w := copy_and_pad x_len y_len y w in
        s ← algorithm_s x_len P_X P_W P_W {[P_X := x; P_W := w]};
        w ← s !! P_W;
        Some (bigint_create x_len w false)
  end.

(** The depth the callers allow to [add] and [sub]: the call itself and
    one exchange of the operands. *)
Definition call_depth : nat := 2.

Definition bigint_add (x y : bigint_t) : option bigint_t :=
  if negative x && negative y then
    z ← add call_depth (length (data x)) (data x) (length (data y)) (data y);
    Some (set_negative z true)
  else if negative x then
    _ ← assert (negb (negative y));
    sub call_depth (length (data y)) (data y) (length (data x)) (data x)
  else if negative y then
    _ ← assert (negb (negative x));
    sub call_depth (length (data x)) (data x) (length (data y)) (data y)
  else
    _ ← assert (negb (negative x) && negb (negative y));
    add call_depth (length (data x)) (data x) (length (data y)) (data y).

Definition bigint_sub (x y : bigint_t) : option bigint_t :=
  if negative x && negative y then
    sub call_depth (length (data y)) (data y) (length (data x)) (data x)
  else if negative x then
    _ ← assert (negb (negative y));
    z ← add call_depth (length (data x)) (data x) (length (data y)) (data y);
    Some (set_negative z true)
  else if negative y then
    _ ← assert (negb (negative x));
    add call_depth (length (data x)) (data x) (length (data y)) (data y)
  else
    _ ← assert (negb (negative x) && negb (negative y));
    sub call_depth (length (data x)) (data x) (length (data y)) (data y).

Definition bigint_mul (x y : bigint_t) : option bigint_t :=
  let w := replicate (length (data x) + length (data y)) 0 in
  w ← algorithm_m (length (data x)) (length (data y)) (data x) (data y) w;
  Some (bigint_create (length (data x) + length (data y)) w
          (xorb (negative x) (negative y))).

Definition bigint_cmp (x y : bigint_t) : option Z :=
  if negb (eqb (negative x) (negative y)) then
    Some (if negative x then -1 else 1)
  else
    _ ← assert (eqb (negative x) (negative y));
    if negative x then
      Some (cmp (length (data y)) (data y) (length (data x)) (data x))
    else
      Some (cmp (length (data x)) (data x) (length (data y)) (data y)).

(** A magnitude without a most-significant zero limb, over 32-bit limbs:
    what [well_formed] asks of the limbs, whatever the sign flag. *)
Definition normal (u : list Z) : Prop := Forall is_u32 u /\ last u <> Some 0.

(** * The calculator front end (part_000)

    The front end reads characters from [stdin], keeps one token of
    lookahead in the global [current_token] and evaluates while it parses.
    The embedding passes the globals and the two streams as a state; a
    routine returns normally with a new state, leaves through [error]
    (which prints its message and calls [exit]), aborts on a failed
    assertion, or runs out of the fuel that bounds its recursion. *)

Module Calc.

Inductive token_kind : Type := ADD | SUB | MUL | DIV | LP | RP | NUM | EOL | END.

(** [struct token_t]; the pointer [value] is [None] when it is null. *)
Record token_t : Type := { kind : token_kind; value : option bigint_t }.

(** [#define BUFFER_SIZE (100*1024)] *)
Definition BUFFER_SIZE : nat := 100 * 1024.

Arguments BUFFER_SIZE : simpl never.

Record state : Type := {
  stdin : list ascii;
  stdout : list ascii;
  buffer : list ascii;
  current_token : token_t
}.

Inductive outcome (A : Type) : Type :=
| Return (a : A) (s : state)
| Exit (msg : string)
| Abort
| OutOfFuel.

Arguments Return {A} a s.
Arguments Exit {A} msg.
Arguments Abort {A}.
Arguments OutOfFuel {A}.

Definition M (A : Type) : Type := state -> outcome A.

Definition ret {A : Type} (a : A) : M A := fun s => Return a s.

Definition bind {A B : Type} (m : M A) (k : A -> M B) : M B :=
  fun s =>
    match m s with
    | Return a s' => k a s'
    | Exit msg => Exit msg
    | Abort => Abort
    | OutOfFuel => OutOfFuel
    end.

Notation "'let!' x ':=' m 'in' k" := (bind m (fun x => k))
  (at level 10, x name, m at level 100, k at level 200).

(** [error(msg, ...)]: the formatted message, without the prefix and the
    newline that every message gets. *)
Definition error {A : Type} (msg : string) : M A := fun _ => Exit msg.

(** A call into the bignum core that aborts on a failed assertion. *)
Definition lift {A : Type} (o : option A) : M A :=
  fun s => match o with Some a => Return a s | None => Abort end.

Definition out_of_fuel {A : Type} : M A := fun _ => OutOfFuel.

Definition get_token : M token_t := fun s => Return (current_token s) s.

Definition set_kind (k : token_kind) : M unit :=
  fun s =>
    Return tt {| stdin := stdin s; stdout := stdout s; buffer := buffer s;
                 current_token := {| kind := k; value := value (current_token s) |} |}.

Definition set_stdin (input : list ascii) : M unit :=
  fun s =>
    Return tt {| stdin := input; stdout := stdout s; buffer := buffer s;
                 current_token := current_token s |}.

(** Writing characters to [stdout]. *)
Definition write (chars : list ascii) : M unit :=
  fun s =>
    Return tt {| stdin := stdin s; stdout := stdout s ++ chars; buffer := buffer s;
                 current_token := current_token s |}.

(** The value [getchar] returns at the end of the input. *)
Definition EOF : Z := -1.

Definition is_blank (c : Z) : bool := (c =? 32) || (c =? 9).

Definition is_digit_code (c : Z) : bool := (48 <=? c) && (c <=? 57).

(** [do { c = getchar(); } while (c == ' ' || c == '\t');] on the unread
    input: the character that ends the loop and the input left after it. *)
Fixpoint skip_blanks (input : list ascii) : Z * list ascii :=
  match input with
  | [] => (EOF, [])
  | c :: rest => if is_blank (char_code c) then skip_blanks rest else (char_code c, rest)
  end.

(** [while (c >= '0' && c <= '9') { ... buffer[len++] = c; c = getchar(); }]
    started with the character [c] and [len]; [None] is the exit through
    [error("number too long!")].  At the end of the input [getchar] returns
    [EOF], which ends the loop. *)
Fixpoint read_digits (input : list ascii) (c : Z) (len : nat) (buf : list ascii)
    : option (Z * list ascii * nat * list ascii) :=
  if is_digit_code c then
    if (len =? BUFFER_SIZE)%nat then None
    else
      let buf := <[len := char_of c]> buf in
      match input with
      | [] => Some (EOF, [], S len, buf)
      | c' :: rest => read_digits rest (char_code c') (S len) buf
      end
  else Some (c, input, len, buf).

(** [ungetc(c, stdin)]: nothing is pushed back at the end of the input. *)
Definition ungetc (c : Z) (input : list ascii) : list ascii :=
  if c =? EOF then input else char_of c :: input.

(** The part of [next_token] after its assertion. *)
Definition scan_token : M unit :=
  fun s =>
    let '(c, input) := skip_blanks (stdin s) in
    if c =? 43 then (let! _ := set_stdin input in set_kind ADD) s
    else if c =? 45 then (let! _ := set_stdin input in set_kind SUB) s
    else if c =? 42 then (let! _ := set_stdin input in set_kind MUL) s
    else if c =? 47 then (let! _ := set_stdin input in set_kind DIV) s
    else if c =? 40 then (let! _ := set_stdin input in set_kind LP) s
    else if c =? 41 then (let! _ := set_stdin input in set_kind RP) s
    else if c =? 10 then (let! _ := set_stdin input in set_kind EOL) s
    else if c =? EOF then (let! _ := set_stdin input in set_kind END) s
    else
      match read_digits input c 0 (buffer s) with
      | None => Exit "number too long!"
      | Some (c, input, len, buf) =>
          if (0 <? len)%nat then
            match bigint_create_str len buf with
            | None => Abort
            | Some v =>
                Return tt {| stdin := ungetc c input; stdout := stdout s;
                             buffer := buf;
                             current_token := {| kind := NUM; value := Some v |} |}
            end
          else
            Exit ("unexpected character: '" ++ String (char_of c) "'")
      end.

(** [next_token()]: [assert(current_token.kind != END)], then the scan. *)
Definition next_token : M unit :=
  fun s =>
    match kind (current_token s) with
    | END => Abort
    | _ => scan_token s
    end.

(** The parser.  [sum_loop] and [term_loop] are the [while (true)] loops
    of [sum] and [term] with the accumulator [x]. *)
Fixpoint sum (fuel : nat) : M bigint_t :=
  match fuel with
  | O => out_of_fuel
  | S fuel =>
      let! x := term fuel in
      sum_loop fuel x
  end
with sum_loop (fuel : nat) (x : bigint_t) : M bigint_t :=
  match fuel with
  | O => out_of_fuel
  | S fuel =>
      let! tok := get_token in
      match kind tok with
      | ADD =>
          let! _ := next_token in
          let! y := term fuel in
          let! t := lift (bigint_add x y) in
          sum_loop fuel t
      | SUB =>
          let! _ := next_token in
          let! y := term fuel in
          let! t := lift (bigint_sub x y) in
          sum_loop fuel t
      | _ => ret x
      end
  end
with term (fuel : nat) : M bigint_t :=
  match fuel with
  | O => out_of_fuel
  | S fuel =>
      let! x := factor fuel in
      term_loop fuel x
  end
with term_loop (fuel : nat) (x : bigint_t) : M bigint_t :=
  match fuel with
  | O => out_of_fuel
  | S fuel =>
      let! tok := get_token in
      match kind tok with
      | MUL =>
          let! _ := next_token in
          let! y := factor fuel in
          let! t := lift (bigint_mul x y) in
          term_loop fuel t
      | DIV =>
          let! _ := next_token in
          let! y := factor fuel in
          let! _ := (if bigint_is_zero y then error "division by zero!" else ret tt) in
          let! t := lift (bigint_div x y) in
          term_loop fuel t
      | _ => ret x
      end
  end
with factor (fuel : nat) : M bigint_t :=
  match fuel with
  | O => out_of_fuel
  | S fuel =>
      let! tok := get_token in
      match kind tok with
      | SUB =>
          let! _ := next_token in
          let! x := factor fuel in
          ret (bigint_neg x)
      | LP =>
          let! _ := next_token in
          let! res := sum fuel in
          let! tok := get_token in
          let! _ := (match kind tok with
                     | RP => ret tt
                     | _ => error "expected ')'"
                     end) in
          let! _ := next_token in
          ret res
      | NUM =>
          let! res := lift (value tok) in
          let! _ := next_token in
          ret res
      | _ => error "expected '-', number or '('"
      end
  end.

(** [expr()]; the null pointer it returns at the end of the input is
    [None]. *)
Definition expr (fuel : nat) : M (option bigint_t) :=
  let! tok := get_token in
  match kind tok with
  | END => ret None
  | _ =>
      let! res := sum fuel in
      let! tok := get_token in
      match kind tok with
      | EOL => ret (Some res)
      | _ => error "trailing character(s)"
      end
  end.

(** [bigint_print(x)] (part_001, lines 539-545): [bigint_tostring]
    builds the string and [puts] writes it and a newline.  The routine
    builds the string in a local array of [bigint_max_stringlen(x) + 1]
    characters and does not test that it fits; whether it does is a
    property of the string that [bigint_tostring] returns. *)
Definition bigint_print (x : bigint_t) : M unit :=
  let! str := lift (bigint_tostring x) in
  write (take (strlen str) str ++ [ascii_of_nat 10]).

(** The loop [for (;;)] of [main]. *)
Fixpoint main_loop (fuel : nat) : M Z :=
  match fuel with
  | O => out_of_fuel
  | S fuel =>
      let! _ := next_token in
      let! x := expr fuel in
      match x with
      | None => ret 0
      | Some x =>
          let! _ := bigint_print x in
          let! _ := write [ascii_of_nat 10] in
          main_loop fuel
      end
  end.

(** The state in which [main] starts: nothing written, the static buffer
    and the static token zeroed (the token kind 0 is [ADD]). *)
Definition initial_state (input : list ascii) : state :=
  {| stdin := input; stdout := []; buffer := replicate BUFFER_SIZE NUL;
     current_token := {| kind := ADD; value := None |} |}.

Definition main (fuel : nat) (input : list ascii) : outcome Z :=
  main_loop fuel (initial_state input).

(** ** Expressions of the grammar

    [<sum> ::= <term> (ADD <term> | SUB <term>)*],
    [<term> ::= <factor> (MUL <factor> | DIV <factor>)*],
    [<factor> ::= SUB <factor> | LP <sum> RP | <number>],
    as syntax trees that associate to the left.  Each token of the tree
    comes with the characters [b] written before it, which are blanks. *)
Inductive sum_t : Type :=
| S_term (t : term_t)
| S_add (s : sum_t) (b : list ascii) (t : term_t)
| S_sub (s : sum_t) (b : list ascii) (t : term_t)
with term_t : Type :=
| T_factor (f : factor_t)
| T_mul (t : term_t) (b : list ascii) (f : factor_t)
| T_div (t : term_t) (b : list ascii) (f : factor_t)
with factor_t : Type :=
| F_neg (b : list ascii) (f : factor_t)
| F_paren (b : list ascii) (s : sum_t) (b' : list ascii)
| F_num (b : list ascii) (d : list ascii).

Scheme sum_t_mut := Induction for sum_t Sort Prop
  with term_t_mut := Induction for term_t Sort Prop
  with factor_t_mut := Induction for factor_t Sort Prop.

Combined Scheme tree_mutind from sum_t_mut, term_t_mut, factor_t_mut.

(** The characters of an expression. *)
Fixpoint print_sum (s : sum_t) : list ascii :=
  match s with
  | S_term t => print_term t
  | S_add s b t => print_sum s ++ b ++ "+"%char :: print_term t
  | S_sub s b t => print_sum s ++ b ++ "-"%char :: print_term t
  end
with print_term (t : term_t) : list ascii :=
  match t with
  | T_factor f => print_factor f
  | T_mul t b f => print_term t ++ b ++ "*"%char :: print_factor f
  | T_div t b f => print_term t ++ b ++ "/"%char :: print_factor f
  end
with print_factor (f : factor_t) : list ascii :=
  match f with
  | F_neg b f => b ++ "-"%char :: print_factor f
  | F_paren b s b' => b ++ "("%char :: print_sum s ++ b' ++ [")"%char]
  | F_num b d => b ++ d
  end.

(** The integer an expression denotes; [None] when a divisor is zero.
    Division truncates toward zero. *)
Fixpoint eval_sum (s : sum_t) : option Z :=
  match s with
  | S_term t => eval_term t
  | S_add s _ t => x ← eval_sum s; y ← eval_term t; Some (x + y)
  | S_sub s _ t => x ← eval_sum s; y ← eval_term t; Some (x - y)
  end
with eval_term (t : term_t) : option Z :=
  match t with
  | T_factor f => eval_factor f
  | T_mul t _ f => x ← eval_term t; y ← eval_factor f; Some (x * y)
  | T_div t _ f =>
      x ← eval_term t; y ← eval_factor f;
      if y =? 0 then None else Some (Z.quot x y)
  end
with eval_factor (f : factor_t) : option Z :=
  match f with
  | F_neg _ f => x ← eval_factor f; Some (- x)
  | F_paren _ s _ => eval_sum s
  | F_num _ d => Some (decimal_value d)
  end.

(** Spaces and tabs. *)
Definition blanks (b : list ascii) : Prop :=
  Forall (fun c => c = " "%char \/ c = ascii_of_nat 9) b.

(** The numbers of an expression are digit strings that fit the buffer. *)
Definition number_ok (d : list ascii) : Prop :=
  d <> [] /\ Forall is_digit d /\ (length d <= BUFFER_SIZE)%nat.

Fixpoint sum_ok (s : sum_t) : Prop :=
  match s with
  | S_term t => term_ok t
  | S_add s b t | S_sub s b t => sum_ok s /\ blanks b /\ term_ok t
  end
with term_ok (t : term_t) : Prop :=
  match t with
  | T_factor f => factor_ok f
  | T_mul t b f | T_div t b f => term_ok t /\ blanks b /\ factor_ok f
  end
with factor_ok (f : factor_t) : Prop :=
  match f with
  | F_neg b f => blanks b /\ factor_ok f
  | F_paren b s b' => blanks b /\ sum_ok s /\ blanks b'
  | F_num b d => blanks b /\ number_ok d
  end.

(** A state about to read the characters [input]: the buffer has its
    size and the last token was not the end of the input. *)
Definition ready (input : list ascii) (s : state) : Prop :=
  stdin s = input /\ length (buffer s) = BUFFER_SIZE /\
  kind (current_token s) <> END.

(** ** Notions used in the statements about the parser *)

(** [m'] returns what [m] returns, except where [m] runs out of fuel. *)
Definition extends {A : Type} (m m' : M A) : Prop :=
  forall s r, m s = r -> r <> OutOfFuel -> m' s = r.

(** More fuel does not change an outcome. *)
Definition monotone {A : Type} (m : nat -> M A) : Prop :=
  forall f f', (f <= f')%nat -> extends (m f) (m f').

(** With enough fuel, [m] started in [s] has the outcome [r]. *)
Definition runs {A : Type} (m : nat -> M A) (s : state) (r : outcome A) : Prop :=
  exists fuel, m fuel s = r /\ r <> OutOfFuel.

(** The outcome [r] of a computation that goes on with [R] after a first
    part had the outcome [ra]: an exit or an abort of the first part is the
    outcome of the whole. *)
Definition follows {A B : Type} (ra : outcome A)
    (R : A -> state -> outcome B -> Prop) (r : outcome B) : Prop :=
  match ra with
  | Return a s => R a s r
  | Exit msg => r = Exit msg
  | Abort => r = Abort
  | OutOfFuel => False
  end.

(** With enough fuel, [m] started in [s] returns or leaves through
    [error]: no assertion fails.  [Q] holds of what it returns. *)
Definition halts {A : Type} (m : nat -> M A) (s : state)
    (Q : A -> state -> Prop) : Prop :=
  exists r, runs m s r /\ r <> Abort /\ forall a s', r = Return a s' -> Q a s'.

(** What holds of the globals between two tokens: the buffer has its size
    and the value of a [NUM] token is a well-formed bignum. *)
Definition token_ok (s : state) : Prop :=
  length (buffer s) = BUFFER_SIZE /\
  (kind (current_token s) = NUM ->
   exists z, value (current_token s) = Some z /\ well_formed z).

(** What is left to read: the unread characters, and the end of the input
    as long as [next_token] has not reported it. *)
Definition pending (s : state) : nat :=
  length (stdin s) + match kind (current_token s) with END => 0 | _ => 1 end.

(** A routine started in [s] returned [x] in [s']: the bignum has normal
    limbs, the globals are in order, and the routine has read something
    ([consumed]) or at least not unread anything ([kept]). *)
Definition consumed (s : state) (x : bigint_t) (s' : state) : Prop :=
  normal (data x) /\ token_ok s' /\ (pending s' < pending s)%nat.

Definition kept (s : state) (x : bigint_t) (s' : state) : Prop :=
  normal (data x) /\ token_ok s' /\ (pending s' <= pending s)%nat.

(** The characters [k] that follow a number do not go on with a digit. *)
Definition no_digit_head (k : list ascii) : Prop :=
  forall c, head k = Some c -> ~ is_digit c.

(** The characters [k] that follow a term or a factor: after blanks, the
    end of the input, or one of [)], newline and the four operators. *)
Definition term_end (k : list ascii) : Prop :=
  exists b k', blanks b /\ k = b ++ k' /\
    forall c, head k' = Some c ->
      c = ")"%char \/ c = ascii_of_nat 10 \/ c = "+"%char \/ c = "-"%char \/
      c = "*"%char \/ c = "/"%char.

(** The characters [k] that follow a sum: after blanks, the end of the
    input, or one of [)], newline, [+] and [-]. *)
Definition sum_end (k : list ascii) : Prop :=
  exists b k', blanks b /\ k = b ++ k' /\
    forall c, head k' = Some c ->
      c = ")"%char \/ c = ascii_of_nat 10 \/ c = "+"%char \/ c = "-"%char.

(** What a routine of the parser does on the characters [print e] of an
    expression, followed by characters [k] that [stop] describes, when
    [next_token] is about to read them.  The first token is read; if the
    expression has a value, the routine comes to a state about to read [k],
    with a bignum [z] of that value whose limbs are normal, and goes on as
    [loop] says; if a divisor is zero, the routine leaves through [error]. *)
Definition parses {T : Type} (print : T -> list ascii) (eval : T -> option Z)
    (stop : list ascii -> Prop) (routine : nat -> M bigint_t)
    (loop : bigint_t -> state -> outcome bigint_t -> Prop) (e : T) : Prop :=
  forall k s0, stop k -> ready (print e ++ k) s0 ->
  exists s,
    next_token s0 = Return tt s /\
    match eval e with
    | Some v =>
        exists z s1,
          ready k s1 /\ stdout s1 = stdout s0 /\
          normal (data z) /\ to_Z z = v /\
          forall r,
            follows (next_token s1) (fun _ s' r => loop z s' r) r ->
            runs routine s r
    | None => runs routine s (Exit "division by zero!")
    end.

(** The decimal notation of an integer. *)
Definition shows (v : Z) (str : list ascii) : Prop :=
  exists t,
    str = (if v <? 0 then ["-"%char] else []) ++ t /\
    canonical_digits t /\ decimal_value t = Z.abs v.

End Calc.

(** * Proofs *)

(** ** Arithmetic of the machine operations *)

Lemma u16_range x : is_u16 (u16 x).
Proof. unfold is_u16, u16. pose proof (Z.mod_pos_bound x 65536). lia. Qed.

Lemma u32_range x : is_u32 (u32 x).
Proof. unfold is_u32, u32. pose proof (Z.mod_pos_bound x 4294967296). lia. Qed.

Lemma u16_small x : is_u16 x -> u16 x = x.
Proof. unfold is_u16, u16. intros. apply Z.mod_small. lia. Qed.

Lemma u32_small x : is_u32 x -> u32 x = x.
Proof. unfold is_u32, u32. intros. apply Z.mod_small. lia. Qed.

Lemma testbit_above x n k :
  0 <= x < 2 ^ n -> 0 <= n <= k -> Z.testbit x k = false.
Proof.
  intros Hx Hk. destruct (Z.eq_dec x 0) as [->|Hne].
  - apply Z.bits_0.
  - apply Z.bits_above_log2; [lia|].
    assert (Z.log2 x < n); [|lia].
    apply Z.log2_lt_pow2; lia.
Qed.

(** [(hi << n) | lo] is [hi * 2^n + lo] when [lo] has at most [n] bits. *)
Lemma lor_shiftl hi lo n :
  0 <= n -> 0 <= hi -> 0 <= lo < 2 ^ n ->
  Z.lor (Z.shiftl hi n) lo = hi * 2 ^ n + lo.
Proof.
  intros Hn Hhi Hlo.
  rewrite <- Z.lxor_lor, <- Z.add_nocarry_lxor, Z.shiftl_mul_pow2; auto.
  all: apply Z.bits_inj'; intros k Hk; rewrite Z.land_spec, Z.bits_0.
  all: destruct (Z.lt_ge_cases k n).
  all: try (rewrite Z.shiftl_spec_low by lia; reflexivity).
  all: rewrite (testbit_above lo n k) by lia; apply andb_false_r.
Qed.

Lemma lor_shiftl16 hi lo :
  is_u16 hi -> is_u16 lo ->
  Z.lor (u32 (Z.shiftl hi 16)) lo = hi * 65536 + lo.
Proof.
  unfold is_u16. intros Hhi Hlo.
  rewrite u32_small.
  - apply (lor_shiftl hi lo 16); lia.
  - unfold is_u32. rewrite Z.shiftl_mul_pow2 by lia. lia.
Qed.

(** ** Loops *)

Lemma for_loop_0 {S} lo (body : nat -> S -> S) s : for_loop lo 0 body s = s.
Proof. reflexivity. Qed.

Lemma for_loop_S {S} lo n (body : nat -> S -> S) s :
  for_loop lo (Datatypes.S n) body s = body (lo + n)%nat (for_loop lo n body s).
Proof. unfold for_loop. rewrite seq_S, fold_left_app. reflexivity. Qed.

Lemma for_loop_opt_0 {S} lo (body : nat -> S -> option S) s :
  for_loop_opt lo 0 body s = Some s.
Proof. reflexivity. Qed.

Lemma for_loop_opt_S {S} lo n (body : nat -> S -> option S) s :
  for_loop_opt lo (Datatypes.S n) body s =
  for_loop_opt lo n body s ≫= body (lo + n)%nat.
Proof. unfold for_loop_opt. rewrite seq_S, fold_left_app. reflexivity. Qed.

(** ** Arrays and their values *)

Lemma nth_lookup_Some (l : list Z) i x : l !! i = Some x -> l.[i] = x.
Proof. intros H. rewrite nth_lookup, H. reflexivity. Qed.

Lemma lookup_nth (l : list Z) i : (i < length l)%nat -> l !! i = Some l.[i].
Proof.
  intros H. destruct (lookup_lt_is_Some_2 l i H) as [x Hx].
  rewrite Hx. f_equal. symmetry. by apply nth_lookup_Some.
Qed.

Lemma nth_insert_eq (l : list Z) i x : (i < length l)%nat -> (<[i := x]> l).[i] = x.
Proof. intros H. apply nth_lookup_Some. by apply list_lookup_insert_eq. Qed.

Lemma nth_insert_ne (l : list Z) i j x : i <> j -> (<[i := x]> l).[j] = l.[j].
Proof. intros H. rewrite !nth_lookup. by rewrite list_lookup_insert_ne. Qed.

Lemma nth_take (l : list Z) i n : (i < n)%nat -> (take n l).[i] = l.[i].
Proof. intros H. rewrite !nth_lookup. by rewrite lookup_take_lt. Qed.

Lemma nth_drop (l : list Z) i n : (drop n l).[i] = l.[n + i].
Proof. rewrite !nth_lookup. by rewrite lookup_drop. Qed.

Lemma drop_eq_nth (a b : list Z) i :
  drop i a = drop i b -> a.[i] = b.[i].
Proof.
  intros H. pose proof (nth_drop a 0 i) as Ha. pose proof (nth_drop b 0 i) as Hb.
  rewrite Nat.add_0_r in Ha, Hb. rewrite <- Ha, <- Hb, H. reflexivity.
Qed.

Lemma nth_Forall (P : Z -> Prop) (l : list Z) i :
  Forall P l -> (i < length l)%nat -> P l.[i].
Proof.
  intros HF Hi. rewrite Forall_lookup in HF. apply (HF i). by apply lookup_nth.
Qed.

Section Value.
Variable B : Z.
Hypothesis HB : 0 < B.

Lemma value_app l1 l2 :
  value B (l1 ++ l2) = value B l1 + B ^ Z.of_nat (length l1) * value B l2.
Proof.
  induction l1 as [|x l1 IH]; simpl length; simpl value.
  - rewrite Z.pow_0_r. lia.
  - rewrite IH, Nat2Z.inj_succ, Z.pow_succ_r by lia. ring.
Qed.

Lemma value_bound l :
  Forall (fun x => 0 <= x < B) l -> 0 <= value B l < B ^ Z.of_nat (length l).
Proof.
  induction 1 as [|x l Hx Hl IH]; simpl length; simpl value.
  - rewrite Z.pow_0_r. lia.
  - rewrite Nat2Z.inj_succ, Z.pow_succ_r by lia. nia.
Qed.

Lemma value_snoc l x :
  value B (l ++ [x]) = value B l + B ^ Z.of_nat (length l) * x.
Proof. rewrite value_app. simpl. f_equal. f_equal. lia. Qed.

Lemma value_take_drop l i :
  value B l = value B (take i l) + B ^ Z.of_nat (length (take i l)) * value B (drop i l).
Proof. rewrite <- value_app, take_drop. reflexivity. Qed.

Lemma value_take_S l i :
  (i < length l)%nat ->
  value B (take (S i) l) = value B (take i l) + B ^ Z.of_nat i * l.[i].
Proof.
  intros Hi. rewrite (take_S_r l i l.[i]) by (by apply lookup_nth).
  rewrite value_snoc, length_take. do 3 f_equal. lia.
Qed.

Lemma value_insert l i x :
  (i < length l)%nat ->
  value B (<[i := x]> l) = value B l + B ^ Z.of_nat i * (x - l.[i]).
Proof.
  revert i. induction l as [|y l IH]; intros i Hi; simpl in Hi; [lia|].
  destruct i as [|i]; simpl.
  - lia.
  - rewrite IH by lia.
    change (Z.of_nat (S i)) with (Z.of_nat (S i)).
    rewrite Nat2Z.inj_succ, Z.pow_succ_r by lia. ring.
Qed.

Lemma value_replicate_0 n : value B (replicate n 0) = 0.
Proof. induction n as [|n IH]; simpl; [reflexivity|]. rewrite IH. lia. Qed.

Lemma value_nil : value B [] = 0.
Proof. reflexivity. Qed.
End Value.

(** ** Short division *)

Lemma assert_true c : c = true -> assert c = Some tt.
Proof. intros ->. reflexivity. Qed.

Lemma div_32_by_16_quotient k ui v :
  is_u16 k -> is_u16 ui -> 0 < v -> k < v ->
  0 <= (k * 65536 + ui) / v <= 65535.
Proof.
  unfold is_u16. intros Hk Hui Hv Hkv. split.
  - apply Z.div_pos; lia.
  - assert ((k * 65536 + ui) / v < 65536); [|lia].
    apply Z.div_lt_upper_bound; nia.
Qed.

Lemma div_32_by_16_spec k ui v :
  is_u16 k -> is_u16 ui -> 0 < v <= 65535 -> k < v ->
  div_32_by_16 k ui v = Some ((k * 65536 + ui) / v, (k * 65536 + ui) mod v).
Proof.
  intros Hk Hui Hv Hkv. unfold div_32_by_16.
  rewrite lor_shiftl16 by assumption.
  pose proof (div_32_by_16_quotient k ui v Hk Hui ltac:(lia) Hkv) as Hq.
  pose proof (Z.mod_pos_bound (k * 65536 + ui) v ltac:(lia)) as Hr.
  rewrite (assert_true (0 <? v)) by (apply Z.ltb_lt; lia). simpl.
  rewrite (assert_true (_ <=? _)) by (apply Z.leb_le; unfold UINT16_MAX; lia). simpl.
  rewrite !u16_small by (unfold is_u16; lia). reflexivity.
Qed.

Section ShortDivision.
Variables (pu pq : ptr) (v : Z).
Hypothesis Hv : 0 < v <= 65535.

(** The sweep from position [i1] down, started with a remainder [k < v]:
    it does not abort, it overwrites the low [i1] places of the quotient
    array, and it divides the low [i1] places of the dividend, with [k]
    on top, by [v]. *)
Lemma short_division_loop_spec i1 :
  forall k s (u q : list Z),
    s !! pu = Some u -> s !! pq = Some q ->
    (i1 <= length u)%nat -> (i1 <= length q)%nat ->
    Forall is_u16 (take i1 u) -> 0 <= k < v ->
    exists r qd,
      short_division_loop i1 pu v pq k s = Some (r, <[pq := qd ++ drop i1 q]> s) /\
      length qd = i1 /\ Forall is_u16 qd /\ 0 <= r < v /\
      value B16 (take i1 u) + B16 ^ Z.of_nat i1 * k = v * value B16 qd + r.
Proof.
  induction i1 as [|i IH]; intros k s u q Hu Hq Hlu Hlq Hr Hk.
  - exists k, []. simpl. rewrite drop_0, insert_id by assumption.
    repeat split; try lia; constructor.
  - assert (Hui : is_u16 u.[i]).
    { rewrite <- (nth_take u i (S i)) by lia.
      apply nth_Forall; [assumption|]. rewrite length_take. lia. }
    assert (Hk16 : is_u16 k) by (unfold is_u16; lia).
    simpl. unfold load. rewrite Hu. simpl. rewrite lookup_nth by lia. simpl.
    rewrite div_32_by_16_spec by (assumption || lia). simpl.
    unfold store_at. rewrite Hq. simpl.
    destruct (decide (i < length q)%nat) as [_|]; [|lia]. simpl.
    set (t := k * 65536 + u.[i]).
    set (s' := <[pq := <[i := t / v]> q]> s).
    assert (Hu' : exists u', s' !! pu = Some u' /\ take i u' = take i u /\
                              length u' = length u).
    { subst s'. destruct (decide (pq = pu)) as [->|Hne].
      - rewrite lookup_insert_eq. eexists; split; [reflexivity|].
        assert (q = u) by congruence. subst q.
        rewrite take_insert_ge by lia. rewrite length_insert. done.
      - rewrite lookup_insert_ne by assumption. eauto. }
    destruct Hu' as (u' & Hu' & Htake & Hlen).
    pose proof (Z.mod_pos_bound t v ltac:(lia)) as Hmod.
    destruct (IH (t mod v) s' u' (<[i := t / v]> q)) as (r & qd & Hrun & Hlqd & Hqd & Hr' & Hval).
    + assumption.
    + subst s'. apply lookup_insert_eq.
    + lia.
    + rewrite length_insert. lia.
    + rewrite Htake. replace i with (min i (S i)) by lia.
      rewrite <- take_take. apply Forall_take. assumption.
    + lia.
    + exists r, (qd ++ [t / v]). split; [|split; [|split; [|split]]].
      * rewrite Hrun. subst s'. rewrite insert_insert_eq.
        do 3 f_equal. rewrite <- app_assoc. f_equal. simpl.
        rewrite drop_insert_ge by lia.
        rewrite (drop_S q (q.[i]) i) by (apply lookup_nth; lia).
        replace (i - i)%nat with 0%nat by lia. reflexivity.
      * rewrite length_app, Hlqd. simpl. lia.
      * apply Forall_app. split; [assumption|]. constructor; [|constructor].
        apply div_32_by_16_quotient; assumption || lia.
      * assumption.
      * rewrite value_take_S by (unfold B16; lia).
        rewrite value_snoc by (unfold B16; lia). rewrite Hlqd.
        rewrite Htake in Hval.
        rewrite Nat2Z.inj_succ, Z.pow_succ_r by lia.
        pose proof (Z.div_mod t v ltac:(lia)) as Hdm.
        subst t. unfold B16 in *. nia.
Qed.
End ShortDivision.

(** The calls of the sweep, under the same conditions: there are [i1] of
    them and each of them fits. *)

Lemma short_division_calls_fit pu pq v i1 :
  0 < v <= 65535 ->
  forall k s (u q : list Z),
    s !! pu = Some u -> s !! pq = Some q ->
    (i1 <= length u)%nat -> (i1 <= length q)%nat ->
    Forall is_u16 (take i1 u) -> 0 <= k < v ->
    length (short_division_calls i1 pu v pq k s) = i1 /\
    Forall (call_fits v) (short_division_calls i1 pu v pq k s).
Proof.
  intros Hv. induction i1 as [|i IH]; intros k s u q Hu Hq Hlu Hlq Hr Hk.
  - simpl. split; [reflexivity|constructor].
  - assert (Hui : is_u16 u.[i]).
    { rewrite <- (nth_take u i (S i)) by lia.
      apply nth_Forall; [assumption|]. rewrite length_take. lia. }
    assert (Hk16 : is_u16 k) by (unfold is_u16; lia).
    simpl. unfold load. rewrite Hu. simpl. rewrite lookup_nth by lia. simpl.
    assert (Hfit : call_fits v (k, u.[i])).
    { unfold call_fits. simpl. split; [lia|]. split.
      - rewrite lor_shiftl16 by assumption.
        apply div_32_by_16_quotient; assumption || lia.
      - rewrite div_32_by_16_spec by (assumption || lia). eauto. }
    rewrite div_32_by_16_spec by (assumption || lia).
    unfold store_at. rewrite Hq. simpl.
    destruct (decide (i < length q)%nat) as [_|]; [|lia].
    set (t := k * 65536 + u.[i]).
    set (s' := <[pq := <[i := t / v]> q]> s).
    assert (Hu' : exists u', s' !! pu = Some u' /\ take i u' = take i u /\
                              length u' = length u).
    { subst s'. destruct (decide (pq = pu)) as [->|Hne].
      - rewrite lookup_insert_eq. eexists; split; [reflexivity|].
        assert (q = u) by congruence. subst q.
        rewrite take_insert_ge by lia. rewrite length_insert. done.
      - rewrite lookup_insert_ne by assumption. eauto. }
    destruct Hu' as (u' & Hu' & Htake & Hlen).
    pose proof (Z.mod_pos_bound t v ltac:(lia)) as Hmod.
    destruct (IH (t mod v) s' u' (<[i := t / v]> q)) as [Hlen' Hall].
    + assumption.
    + subst s'. apply lookup_insert_eq.
    + lia.
    + rewrite length_insert. lia.
    + rewrite Htake. replace i with (min i (S i)) by lia.
      rewrite <- take_take. apply Forall_take. assumption.
    + lia.
    + simpl. split; [lia|]. constructor; assumption.
Qed.

(** C7. Whenever [short_division] is called with [n > 0], a nonzero 16-bit
    [v] and 16-bit dividend places, every one of its [n] calls of
    [div_32_by_16] starts from a running remainder [k < v], has a quotient
    [((k << 16) | u[i]) / v] that fits in 16 bits, and passes the
    division-overflow assertion; the routine returns. *)
Theorem short_division_never_overflows n pu v pq s (u q : list Z) :
  (0 < n)%nat -> 0 < v <= UINT16_MAX ->
  s !! pu = Some u -> s !! pq = Some q ->
  (n <= length u)%nat -> (n <= length q)%nat ->
  Forall is_u16 (take n u) ->
  length (short_division_calls n pu v pq 0 s) = n /\
  Forall (call_fits v) (short_division_calls n pu v pq 0 s) /\
  is_Some (short_division n pu v pq s).
Proof.
  unfold UINT16_MAX. intros Hn Hv Hu Hq Hlu Hlq Hr.
  destruct (short_division_calls_fit pu pq v n Hv 0 s u q) as [H1 H2];
    try assumption; try lia.
  split; [assumption|]. split; [assumption|].
  destruct (short_division_loop_spec pu pq v Hv n 0 s u q)
    as (r & qd & Hrun & _); try assumption; try lia.
  unfold short_division.
  rewrite (assert_true (0 <? v)) by (apply Z.ltb_lt; lia). simpl.
  rewrite (assert_true (0 <? n)%nat) by (apply Nat.ltb_lt; lia). simpl.
  rewrite Hrun. eauto.
Qed.

Lemma short_division_never_overflows_witness :
  length (short_division_calls 3 P_U 10000 P_U 0 {[P_U := [1; 2; 3]]}) = 3%nat /\
  Forall (call_fits 10000) (short_division_calls 3 P_U 10000 P_U 0 {[P_U := [1; 2; 3]]}) /\
  is_Some (short_division 3 P_U 10000 P_U {[P_U := [1; 2; 3]]}).
Proof.
  apply (short_division_never_overflows 3 P_U 10000 P_U {[P_U := [1; 2; 3]]}
           [1; 2; 3] [1; 2; 3]).
  - lia.
  - unfold UINT16_MAX. lia.
  - reflexivity.
  - reflexivity.
  - simpl. lia.
  - simpl. lia.
  - simpl. repeat constructor; unfold is_u16; lia.
Defined.

(** ** The quotient array may be the dividend array *)

Lemma short_division_loop_alias pu pq v i1 :
  pu <> pq ->
  forall k (s1 s2 : store) (u1 u2 q1 : list Z),
    s1 !! pu = Some u1 -> s1 !! pq = Some q1 -> s2 !! pu = Some u2 ->
    (forall i, (i < i1)%nat -> u1 !! i = u2 !! i) ->
    (i1 <= length q1)%nat ->
    match short_division_loop i1 pu v pq k s1,
          short_division_loop i1 pu v pu k s2 with
    | Some (k1, s1'), Some (k2, s2') =>
        k1 = k2 /\
        exists q1' u2' : list Z,
          s1' !! pq = Some q1' /\ s2' !! pu = Some u2' /\ s1' !! pu = Some u1 /\
          length q1' = length q1 /\ length u2' = length u2 /\
          (forall i, (i < i1)%nat -> q1' !! i = u2' !! i) /\
          (forall i, (i1 <= i)%nat -> q1' !! i = q1 !! i /\ u2' !! i = u2 !! i)
    | None, None => True
    | _, _ => False
    end.
Proof.
  intros Hne. induction i1 as [|i IH]; intros k s1 s2 u1 u2 q1 Hu1 Hq1 Hu2 Hsame Hlq.
  - simpl. split; [reflexivity|]. exists q1, u2.
    repeat split; try assumption; try reflexivity. intros; lia.
  - simpl. unfold load. rewrite Hu1, Hu2. simpl.
    rewrite <- (Hsame i) by lia.
    destruct (u1 !! i) as [ui|] eqn:Hui; simpl; [|exact I].
    destruct (div_32_by_16 k ui v) as [[qi k']|]; simpl; [|exact I].
    unfold store_at. rewrite Hq1, Hu2. simpl.
    assert (Hi2 : (i < length u2)%nat).
    { apply lookup_lt_is_Some. rewrite <- (Hsame i) by lia. eauto. }
    destruct (decide (i < length q1)%nat) as [_|]; [|lia].
    destruct (decide (i < length u2)%nat) as [_|]; [|lia]. simpl.
    specialize (IH k' (<[pq := <[i := qi]> q1]> s1) (<[pu := <[i := qi]> u2]> s2)
                  u1 (<[i := qi]> u2) (<[i := qi]> q1)).
    rewrite lookup_insert_ne in IH by congruence.
    rewrite !lookup_insert_eq in IH.
    specialize (IH Hu1 eq_refl eq_refl).
    destruct (short_division_loop i pu v pq k' _) as [[k1 s1']|];
      destruct (short_division_loop i pu v pu k' _) as [[k2 s2']|];
      try (apply IH; [intros j Hj; rewrite list_lookup_insert_ne by lia; apply Hsame; lia
                     | rewrite length_insert; lia]).
    destruct IH as (Hk & q1' & u2' & Hq1' & Hu2' & Hu1' & Hl1 & Hl2 & Hlow & Hhigh).
    { intros j Hj. rewrite list_lookup_insert_ne by lia. apply Hsame. lia. }
    { rewrite length_insert. lia. }
    split; [assumption|]. exists q1', u2'.
    rewrite length_insert in Hl1, Hl2.
    repeat split; try assumption.
    + intros j Hj. destruct (decide (j = i)) as [->|Hji].
      * destruct (Hhigh i ltac:(lia)) as [-> ->].
        rewrite !list_lookup_insert_eq by lia. reflexivity.
      * apply Hlow. lia.
    + destruct (Hhigh i0 ltac:(lia)) as [-> _].
      apply list_lookup_insert_ne. lia.
    + destruct (Hhigh i0 ltac:(lia)) as [_ ->].
      apply list_lookup_insert_ne. lia.
Qed.

(** C10. [short_division] run with the quotient pointer equal to the
    dividend pointer has the same outcome as run with two distinct arrays:
    both abort or both return, and then with the same remainder and the same
    [n] quotient digits; the run with distinct arrays leaves the dividend as
    it was.  The store of the in-place run need only hold the dividend, as
    the scratch array of [to_string] does. *)
Theorem short_division_in_place n pu pq v (s1 s2 : store) (u q : list Z) :
  pu <> pq ->
  s1 !! pu = Some u -> s1 !! pq = Some q -> s2 !! pu = Some u ->
  (n <= length q)%nat ->
  same_outcome n pu pq u
    (short_division n pu v pq s1) (short_division n pu v pu s2).
Proof.
  intros Hne Hu1 Hq1 Hu2 Hlq. unfold short_division.
  destruct (assert (0 <? v)); simpl; [|exact I].
  destruct (assert (0 <? n)%nat); simpl; [|exact I].
  pose proof (short_division_loop_alias pu pq v n Hne 0 s1 s2 u u q
                Hu1 Hq1 Hu2 (fun _ _ => eq_refl) Hlq) as H.
  unfold same_outcome.
  destruct (short_division_loop n pu v pq 0 s1) as [[k1 s1']|];
    destruct (short_division_loop n pu v pu 0 s2) as [[k2 s2']|]; try exact H.
  destruct H as (Hk & q1' & u2' & Hq1' & Hu2' & Hu1' & Hl1 & Hl2 & Hlow & Hhigh).
  split; [assumption|]. exists q1', u2'. repeat split; try assumption.
  apply list_eq. intros i. destruct (decide (i < n)%nat).
  - rewrite !lookup_take_lt by lia. apply Hlow. lia.
  - rewrite !lookup_take_ge by lia. reflexivity.
Qed.

Lemma short_division_in_place_witness :
  same_outcome 3 P_U P_Q [7; 65535; 12]
    (short_division 3 P_U 10000 P_Q (<[P_U := [7; 65535; 12]]> {[P_Q := [0; 0; 0]]}))
    (short_division 3 P_U 10000 P_U {[P_U := [7; 65535; 12]]}).
Proof.
  apply (short_division_in_place 3 P_U P_Q 10000 _ _ [7; 65535; 12] [0; 0; 0]).
  - discriminate.
  - reflexivity.
  - reflexivity.
  - reflexivity.
  - simpl. lia.
Defined.

(** [lia] for goals about indices and single places: the hypotheses about
    values of whole arrays are put aside first. *)
Ltac idx :=
  repeat match goal with
         | H : context [value] |- _ => clear H
         | H : context [Z.pow] |- _ => clear H
         end;
  lia.

(** ** The estimate-correction loop of Algorithm D *)

Lemma nth_is_u16 (l : list Z) i : Forall is_u16 l -> is_u16 l.[i].
Proof.
  intros H. destruct (decide (i < length l)%nat).
  - by apply nth_Forall.
  - rewrite nth_overflow by lia. unfold is_u16. lia.
Qed.

Lemma qhat_loop_comparisons_exact fuel n vn1 vn2 ujn2 :
  is_u16 vn1 -> is_u16 vn2 -> is_u16 ujn2 ->
  forall qhat rhat,
    is_u16 rhat ->
    0 <= qhat ->
    Forall (comparison_exact vn2 ujn2)
      (qhat_loop_comparisons fuel n vn1 vn2 ujn2 qhat rhat).
Proof.
  unfold is_u16. intros Hv1 Hv2 Hu2.
  induction fuel as [|fuel IH]; intros qhat rhat Hr Hq;
    cbn [qhat_loop_comparisons]; [constructor|].
  destruct (2 <=? n)%nat; [|constructor].
  apply Forall_app. split.
  - unfold UINT16_MAX. destruct (Z.gtb_spec qhat 65535); constructor; [|constructor].
    unfold comparison_exact, UINT16_MAX. simpl.
    rewrite lor_shiftl16 by (unfold is_u16; lia).
    rewrite u32_small by (unfold is_u32; nia).
    repeat split; try lia; try nia.
  - destruct (qhat_test vn2 ujn2 qhat rhat); [|constructor].
    unfold UINT16_MAX.
    destruct (Z.leb_spec (u32 (rhat + vn1)) 65535); [|constructor].
    apply IH.
    + pose proof (u32_range (rhat + vn1)). unfold is_u32 in *. lia.
    + pose proof (u32_range (qhat - 1)). unfold is_u32 in *. lia.
Qed.

(** C6. In a round of Algorithm D on 16-bit arrays [u] and [v] with
    [v[n-1]] nonzero, every time the estimate-correction loop evaluates
    [qhat * v[n-2] > ((rhat << 16) | u[j+n-2])], both [qhat] and [rhat] are
    at most [2^16 - 1], both sides are below [2^32], and the 32-bit
    comparison gives the result of the exact comparison of the integers. *)
Theorem qhat_comparison_never_wraps fuel n j (u v : list Z) :
  Forall is_u16 u -> Forall is_u16 v -> v.[n - 1] <> 0 ->
  let t := Z.lor (u32 (Z.shiftl u.[j + n] 16)) u.[j + n - 1] in
  Forall (comparison_exact v.[n - 2] u.[j + n - 2])
    (qhat_loop_comparisons fuel n v.[n - 1] v.[n - 2] u.[j + n - 2]
       (t / v.[n - 1]) (t mod v.[n - 1])).
Proof.
  intros Hu Hv Hv1 t.
  pose proof (nth_is_u16 v (n - 1) Hv) as H1.
  pose proof (nth_is_u16 u (j + n) Hu) as H2.
  pose proof (nth_is_u16 u (j + n - 1) Hu) as H3.
  assert (Ht : 0 <= t).
  { subst t. rewrite lor_shiftl16 by assumption. unfold is_u16 in *. lia. }
  unfold is_u16 in H1.
  apply qhat_loop_comparisons_exact; try (apply nth_is_u16; assumption).
  - pose proof (Z.mod_pos_bound t v.[n - 1] ltac:(lia)). unfold is_u16. lia.
  - apply Z.div_pos; lia.
Qed.

Lemma qhat_comparison_never_wraps_witness :
  Forall (comparison_exact 65535 65535)
    (qhat_loop_comparisons 3 2 32768 65535 65535
       (Z.lor (u32 (Z.shiftl 32767 16)) 65535 / 32768)
       (Z.lor (u32 (Z.shiftl 32767 16)) 65535 mod 32768)).
Proof.
  apply (qhat_comparison_never_wraps 3 2 1 [0; 65535; 65535; 32767] [65535; 32768]).
  - repeat constructor; unfold is_u16; lia.
  - repeat constructor; unfold is_u16; lia.
  - simpl. lia.
Defined.

(** ** The estimate is the quotient digit or one more

    The arithmetic behind the loop, on the integers.  [D] is the divisor
    scaled to the position of the digit and [R] the current dividend;
    [v1], [v2] are the two top places of the divisor and [t], [u2] the three
    top places of the dividend, two of them taken together; [N] is the weight
    of the third place. *)
Section Estimate.
Variables (N R D Rlow Dlow t u2 v1 v2 : Z).
Local Abbreviation b := 65536 (only parsing).
Hypothesis HN : 0 < N.
Hypothesis HR : R = Rlow + N * (u2 + b * t).
Hypothesis HD : D = Dlow + N * (v2 + b * v1).
Hypothesis HRlow : 0 <= Rlow < N.
Hypothesis HDlow : 0 <= Dlow < N.
Hypothesis Hu2 : 0 <= u2 < b.
Hypothesis Hv2 : 0 <= v2 < b.
Hypothesis Hv1 : 0 < v1 < b.
Hypothesis Ht : 0 <= t.
Hypothesis HRD : R < D * b.

Lemma estimate_D_pos : 0 < D.
Proof. subst D. nia. Qed.

Lemma estimate_R_nonneg : 0 <= R.
Proof. subst R. nia. Qed.

Lemma estimate_digit_bound : 0 <= R / D < b.
Proof.
  pose proof estimate_D_pos. pose proof estimate_R_nonneg. split.
  - apply Z.div_pos; lia.
  - apply Z.div_lt_upper_bound; lia.
Qed.

Lemma estimate_digit_mul : R / D * D <= R < (R / D + 1) * D.
Proof.
  pose proof estimate_D_pos.
  pose proof (Z.div_mod R D ltac:(lia)).
  pose proof (Z.mod_pos_bound R D ltac:(lia)). nia.
Qed.

Lemma estimate_t_bound : t < (v1 + 1) * b.
Proof.
  assert (N * (b * t) < N * (b * ((v1 + 1) * b))); [|nia].
  subst R D. nia.
Qed.

(** The first estimate is not below the digit. *)
Lemma estimate_initial : R / D <= t / v1.
Proof.
  pose proof estimate_digit_mul as [Hlo _].
  pose proof estimate_digit_bound as Hq.
  apply Z.div_le_lower_bound; [lia|].
  assert (N * (b * (v1 * (R / D))) < N * (b * (t + 1))); [|nia].
  subst R D. nia.
Qed.

(** An estimate that fails the test on the three top places is too big. *)
Lemma estimate_too_big q :
  0 <= q -> q * (v1 * b + v2) > t * b + u2 -> R / D < q.
Proof.
  intros Hq Hgt.
  pose proof estimate_digit_mul as [Hlo _].
  pose proof estimate_D_pos.
  assert (R < q * D); [|nia].
  assert (N * (t * b + u2 + 1) <= N * (q * (v1 * b + v2))) by nia.
  subst R D. nia.
Qed.

(** An estimate that passes it, and is a digit, is at most one too big. *)
Lemma estimate_close q :
  0 <= q < b -> q * (v1 * b + v2) <= t * b + u2 -> q <= R / D + 1.
Proof.
  intros Hq Hle.
  pose proof estimate_digit_mul as [_ Hhi].
  pose proof estimate_D_pos.
  assert ((q - 1) * D < (R / D + 1) * D); [|nia].
  assert (N * (q * (v1 * b + v2)) <= N * (t * b + u2)) by nia.
  assert (q * Dlow < b * N) by nia.
  assert (b * N <= D) by (subst D; nia).
  subst R. nia.
Qed.

(** The loop: started from [t / v1] it returns, and what it returns is the
    digit or the digit plus one, and fits in 16 bits. *)
Lemma qhat_loop_inv n fuel :
  (2 <= n)%nat ->
  forall qhat rhat,
    qhat * v1 + rhat = t -> R / D <= qhat -> 0 <= rhat <= 65535 ->
    65536 - rhat < Z.of_nat fuel ->
    exists qhat' rhat',
      qhat_loop fuel n v1 v2 u2 qhat rhat = Some (qhat', rhat') /\
      R / D <= qhat' <= R / D + 1 /\ 0 <= qhat' <= 65535.
Proof.
  intros Hn. pose proof estimate_t_bound as Htb.
  pose proof estimate_digit_bound as HQ.
  induction fuel as [|fuel IH]; intros qhat rhat Hinv Hge Hr Hfuel; [lia|].
  cbn [qhat_loop].
  rewrite (assert_true (2 <=? n)%nat) by (apply Nat.leb_le; lia). simpl.
  assert (Hq0 : 0 <= qhat) by lia.
  assert (Hq32 : qhat < 4294967296) by nia.
  destruct (qhat_test v2 u2 qhat rhat) eqn:Htest.
  - assert (Hbig : R / D < qhat).
    { unfold qhat_test, UINT16_MAX in Htest.
      destruct (Z.gtb_spec qhat 65535); [lia|].
      rewrite lor_shiftl16 in Htest by (unfold is_u16; lia).
      rewrite u32_small in Htest by (unfold is_u32; nia).
      apply Z.gtb_lt in Htest.
      apply estimate_too_big; [lia|]. nia. }
    rewrite (u32_small (qhat - 1)) by (unfold is_u32; lia).
    rewrite (u32_small (rhat + v1)) by (unfold is_u32; lia).
    unfold UINT16_MAX. destruct (Z.leb_spec (rhat + v1) 65535).
    + apply IH; lia.
    + assert (Hd : 0 <= qhat - 1 < 65536) by nia.
      exists (qhat - 1), (rhat + v1). split; [reflexivity|].
      split; [|lia]. split; [lia|].
      apply estimate_close; [lia|]. nia.
  - unfold qhat_test, UINT16_MAX in Htest.
    destruct (Z.gtb_spec qhat 65535); [discriminate|].
    rewrite lor_shiftl16 in Htest by (unfold is_u16; lia).
    rewrite u32_small in Htest by (unfold is_u32; nia).
    exists qhat, rhat. split; [reflexivity|]. split; [|lia]. split; [lia|].
    apply estimate_close; [lia|].
    destruct (Z.gtb_spec (qhat * v2) (rhat * 65536 + u2)); [discriminate|]. nia.
Qed.

Lemma qhat_loop_estimate n :
  (2 <= n)%nat ->
  exists qhat rhat,
    qhat_loop qhat_fuel n v1 v2 u2 (t / v1) (t mod v1) = Some (qhat, rhat) /\
    R / D <= qhat <= R / D + 1 /\ 0 <= qhat <= 65535.
Proof.
  intros Hn.
  pose proof (Z.div_mod t v1 ltac:(lia)).
  pose proof (Z.mod_pos_bound t v1 ltac:(lia)).
  apply qhat_loop_inv; try assumption.
  - lia.
  - apply estimate_initial.
  - lia.
  - unfold qhat_fuel. rewrite Z2Nat.id; lia.
Qed.
End Estimate.

(** ** Multiply and subtract, add back *)

Lemma shiftr16 p : Z.shiftr p 16 = p / 65536.
Proof. rewrite Z.shiftr_div_pow2 by lia. reflexivity. Qed.

(** One place of the multiply-and-subtract pass: the new place and the new
    borrow are 16-bit numbers and account for [ui - qhat * vi - k]. *)
Lemma mulsub_digit ui vi qhat k :
  is_u16 ui -> is_u16 vi -> is_u16 qhat -> is_u16 k ->
  let p := u32 (qhat * vi) in
  let d := u16 (ui - u16 p) in
  let x := u16 (d - k) in
  let k' := u16 (u16 (u16 (Z.shiftr p 16) + b2z (d >? ui)) + b2z (x >? d)) in
  is_u16 x /\ is_u16 k' /\ x - 65536 * k' = ui - qhat * vi - k.
Proof.
  unfold is_u16. intros Hui Hvi Hq Hk.
  assert (Hp : 0 <= qhat * vi <= 65535 * 65535) by nia.
  rewrite (u32_small (qhat * vi)) by (unfold is_u32; lia).
  generalize dependent (qhat * vi). intros p Hp. cbv zeta.
  rewrite shiftr16. unfold u16, b2z.
  destruct (Z.gtb_spec ((ui - p mod 65536) mod 65536) ui);
  destruct (Z.gtb_spec (((ui - p mod 65536) mod 65536 - k) mod 65536)
              ((ui - p mod 65536) mod 65536));
  Z.div_mod_to_equations; lia.
Qed.

Lemma addback_digit ui vi k :
  is_u16 ui -> is_u16 vi -> 0 <= k <= 1 ->
  let t := u32 (ui + vi + k) in
  is_u16 (u16 t) /\ 0 <= u16 (Z.shiftr t 16) <= 1 /\
  u16 t + 65536 * u16 (Z.shiftr t 16) = ui + vi + k.
Proof.
  unfold is_u16. intros Hui Hvi Hk.
  rewrite (u32_small (ui + vi + k)) by (unfold is_u32; lia). cbv zeta.
  rewrite shiftr16. unfold u16. Z.div_mod_to_equations. lia.
Qed.

Lemma Forall_insert_u16 (l : list Z) i x :
  Forall is_u16 l -> is_u16 x -> Forall is_u16 (<[i := x]> l).
Proof. intros. by apply Forall_insert. Qed.

Section MulSub.
Variables (n j : nat) (qhat : Z) (v u0 : list Z).
Hypothesis Hlv : length v = n.
Hypothesis Hv : Forall is_u16 v.
Hypothesis Hu0 : Forall is_u16 u0.
Hypothesis Hlu : (j + n < length u0)%nat.
Hypothesis Hq : is_u16 qhat.

Lemma mulsub_loop_inv i :
  (i <= n + 1)%nat ->
  exists u k,
    for_loop 0 i (mulsub_body n j qhat v) (u0, 0) = (u, k) /\
    length u = length u0 /\ Forall is_u16 u /\ is_u16 k /\
    drop (j + i) u = drop (j + i) u0 /\
    value B16 u - B16 ^ Z.of_nat (j + i) * k =
    value B16 u0 - qhat * value B16 (take i v) * B16 ^ Z.of_nat j.
Proof.
  induction i as [|i IH]; intros Hi.
  - exists u0, 0. rewrite for_loop_0. simpl.
    repeat split; try assumption; try (unfold is_u16; lia).
  - destruct IH as (u & k & Hrun & Hlen & Hu & Hk & Hdrop & Hval); [lia|].
    rewrite for_loop_S, Hrun. simpl plus. cbn [mulsub_body].
    set (vi := if (i =? n)%nat then 0 else v.[i]).
    assert (Hvi : is_u16 vi).
    { subst vi. destruct (i =? n)%nat; [unfold is_u16; lia|].
      by apply nth_is_u16. }
    assert (Hui : is_u16 u.[j + i]) by (by apply nth_is_u16).
    rewrite nth_insert_eq by lia.
    pose proof (mulsub_digit u.[j + i] vi qhat k Hui Hvi Hq Hk) as Hd.
    cbv zeta in Hd. destruct Hd as (Hx & Hk' & Hacc).
    eexists _, _. split; [reflexivity|].
    rewrite length_insert.
    split; [assumption|]. split; [by apply Forall_insert_u16|].
    split; [assumption|]. split.
    + rewrite drop_insert_lt by lia.
      replace (j + S i)%nat with (j + i + 1)%nat by lia.
      rewrite <- !(drop_drop _ 1 (j + i)), Hdrop.
      reflexivity.
    + rewrite value_insert by (unfold B16; lia).
      assert (Htake : value B16 (take (S i) v) =
                      value B16 (take i v) + B16 ^ Z.of_nat i * vi).
      { subst vi. destruct (Nat.eqb_spec i n) as [->|Hne].
        - rewrite !take_ge by lia. lia.
        - apply value_take_S; [unfold B16; lia|lia]. }
      rewrite Htake.
      replace (Z.of_nat (j + S i)) with (Z.of_nat (j + i) + 1) by lia.
      rewrite Z.pow_add_r, Z.pow_1_r by lia.
      rewrite Nat2Z.inj_add in *. rewrite Z.pow_add_r in * by lia.
      unfold B16 in *. nia.
Qed.
End MulSub.

Section AddBack.
Variables (n j : nat) (v u1 : list Z).
Hypothesis Hlv : length v = n.
Hypothesis Hv : Forall is_u16 v.
Hypothesis Hu1 : Forall is_u16 u1.
Hypothesis Hlu : (j + n < length u1)%nat.

Lemma addback_loop_inv i :
  (i <= n)%nat ->
  exists u k,
    for_loop 0 i (addback_body j v) (u1, 0) = (u, k) /\
    length u = length u1 /\ Forall is_u16 u /\ 0 <= k <= 1 /\
    drop (j + i) u = drop (j + i) u1 /\
    value B16 u + B16 ^ Z.of_nat (j + i) * k =
    value B16 u1 + value B16 (take i v) * B16 ^ Z.of_nat j.
Proof.
  induction i as [|i IH]; intros Hi.
  - exists u1, 0. rewrite for_loop_0. simpl.
    repeat split; try assumption; lia.
  - destruct IH as (u & k & Hrun & Hlen & Hu & Hk & Hdrop & Hval); [lia|].
    rewrite for_loop_S, Hrun. simpl plus. cbn [addback_body].
    assert (Hvi : is_u16 v.[i]) by (by apply nth_is_u16).
    assert (Hui : is_u16 u.[j + i]) by (by apply nth_is_u16).
    pose proof (addback_digit u.[j + i] v.[i] k Hui Hvi Hk) as Hd.
    cbv zeta in Hd. destruct Hd as (Hx & Hk' & Hacc).
    eexists _, _. split; [reflexivity|].
    rewrite length_insert.
    split; [assumption|]. split; [by apply Forall_insert_u16|].
    split; [assumption|]. split.
    + rewrite drop_insert_lt by lia.
      replace (j + S i)%nat with (j + i + 1)%nat by lia.
      rewrite <- !(drop_drop _ 1 (j + i)), Hdrop.
      reflexivity.
    + rewrite value_insert by (unfold B16; lia).
      rewrite (value_take_S B16) by (unfold B16; lia).
      replace (Z.of_nat (j + S i)) with (Z.of_nat (j + i) + 1) by lia.
      rewrite Z.pow_add_r, Z.pow_1_r by lia.
      rewrite Nat2Z.inj_add in *. rewrite Z.pow_add_r in * by lia.
      unfold B16 in *. nia.
Qed.
End AddBack.

(** ** Places and values *)

Lemma Forall_u16_bound (l : list Z) :
  Forall is_u16 l -> Forall (fun x => 0 <= x < B16) l.
Proof. intros H. eapply Forall_impl; [exact H|]. unfold is_u16, B16. intros; lia. Qed.

Lemma value_u16_bound (l : list Z) :
  Forall is_u16 l -> 0 <= value B16 l < B16 ^ Z.of_nat (length l).
Proof. intros H. apply value_bound; [unfold B16; lia|]. by apply Forall_u16_bound. Qed.

Lemma value_split (l : list Z) i :
  (i <= length l)%nat ->
  value B16 l = value B16 (take i l) + B16 ^ Z.of_nat i * value B16 (drop i l).
Proof.
  intros Hi. rewrite (value_take_drop B16 ltac:(unfold B16; lia) l i) at 1.
  rewrite length_take. do 3 f_equal. lia.
Qed.

Lemma value_drop_S (l : list Z) i :
  (i < length l)%nat ->
  value B16 (drop i l) = l.[i] + B16 * value B16 (drop (S i) l).
Proof.
  intros Hi. rewrite (drop_S l l.[i] i) by (by apply lookup_nth). reflexivity.
Qed.

(** A 16-bit array whose value is below [B16 ^ k] is zero from place [k] on. *)
Lemma value_high_zero (l : list Z) k :
  Forall is_u16 l -> (k <= length l)%nat ->
  value B16 l < B16 ^ Z.of_nat k -> value B16 (drop k l) = 0.
Proof.
  intros Hl Hk Hlt. rewrite (value_split l k Hk) in Hlt.
  pose proof (value_u16_bound (take k l) (Forall_take _ _ _ Hl)) as H1.
  pose proof (value_u16_bound (drop k l) (Forall_drop _ _ _ Hl)) as H2.
  assert (0 < B16 ^ Z.of_nat k) by (apply Z.pow_pos_nonneg; unfold B16; lia).
  nia.
Qed.

Lemma value_low (l : list Z) k :
  Forall is_u16 l -> (k <= length l)%nat ->
  value B16 (drop k l) = 0 ->
  value B16 l = value B16 (take k l) /\ 0 <= value B16 l < B16 ^ Z.of_nat k.
Proof.
  intros Hl Hk H0. rewrite (value_split l k Hk), H0.
  pose proof (value_u16_bound (take k l) (Forall_take _ _ _ Hl)) as H1.
  rewrite length_take in H1. replace (min k (length l)) with k in H1 by lia.
  lia.
Qed.

Lemma pow16_pos k : 0 < B16 ^ Z.of_nat k.
Proof. apply Z.pow_pos_nonneg; unfold B16; lia. Qed.

Lemma pow16_add a c : B16 ^ Z.of_nat (a + c) = B16 ^ Z.of_nat a * B16 ^ Z.of_nat c.
Proof. rewrite Nat2Z.inj_add, Z.pow_add_r by lia. reflexivity. Qed.

Lemma pow16_S a : B16 ^ Z.of_nat (S a) = B16 * B16 ^ Z.of_nat a.
Proof. rewrite Nat2Z.inj_succ, Z.pow_succ_r by lia. reflexivity. Qed.

(** The divisor seen from its two top places. *)
Lemma value_top2 (v : list Z) k :
  length v = (k + 2)%nat ->
  value B16 v =
  value B16 (take k v) + B16 ^ Z.of_nat k * (v.[k] + B16 * v.[k + 1]).
Proof.
  intros Hl. rewrite (value_split v k) by lia.
  rewrite (value_drop_S v k) by lia.
  replace (S k) with (k + 1)%nat by lia.
  rewrite (value_drop_S v (k + 1)) by lia.
  rewrite (drop_ge v (S (k + 1))) by lia. simpl. lia.
Qed.

(** The dividend seen from the three places the estimate reads. *)
Lemma value_top3 (u : list Z) k :
  Forall is_u16 u -> (k + 2 < length u)%nat ->
  value B16 u < B16 ^ Z.of_nat (k + 3) ->
  value B16 u =
  value B16 (take k u) + B16 ^ Z.of_nat k * (u.[k] + B16 * (u.[k + 1] + B16 * u.[k + 2])).
Proof.
  intros Hu Hk Hlt.
  pose proof (value_high_zero u (k + 3) Hu ltac:(lia) Hlt) as Hz.
  rewrite (value_split u k) by lia.
  rewrite (value_drop_S u k) by lia.
  replace (S k) with (k + 1)%nat by lia.
  rewrite (value_drop_S u (k + 1)) by lia.
  replace (S (k + 1)) with (k + 2)%nat by lia.
  rewrite (value_drop_S u (k + 2)) by lia.
  replace (S (k + 2)) with (k + 3)%nat by lia.
  rewrite Hz. lia.
Qed.

(** ** One round of the main loop *)

(** The integer arithmetic of a round.  [R] is the dividend, [D] the scaled
    divisor, [Q] the digit; [U1] is the dividend after the
    multiply-and-subtract pass, which left the borrow [k1]. *)
Lemma round_digit R D :
  0 <= R -> 0 < D -> R / D * D <= R < (R / D + 1) * D.
Proof.
  intros HR HD. pose proof (Z.div_mod R D ltac:(lia)).
  pose proof (Z.mod_pos_bound R D ltac:(lia)). nia.
Qed.

Lemma round_no_borrow R D Q qhat U1 :
  0 < D -> R < (Q + 1) * D -> Q <= qhat -> 0 <= U1 ->
  U1 = R - qhat * D -> qhat = Q.
Proof. intros. nia. Qed.

Lemma round_borrow R D Q qhat U1 P k1 :
  0 < D -> Q * D <= R -> qhat <= Q + 1 -> U1 < P -> 0 < P -> 1 <= k1 ->
  U1 - P * k1 = R - qhat * D -> qhat = Q + 1.
Proof. intros. nia. Qed.

Lemma round_add_back R D Q U1 U2 P k1 k2 x xold c :
  U1 - P * 65536 * k1 = R - (Q + 1) * D ->
  U2 + P * k2 = U1 + D ->
  x = xold + k2 - 65536 * c ->
  0 <= U2 + P * (x - xold) < P * 65536 ->
  0 <= R - Q * D < P * 65536 ->
  U2 + P * (x - xold) = R - Q * D.
Proof.
  intros H1 H2 -> H3 H4.
  assert (E : U2 + P * (xold + k2 - 65536 * c - xold) =
              R - Q * D + P * 65536 * (k1 - c)) by lia.
  rewrite E in *. assert (k1 - c = 0); nia.
Qed.

(** A round of long division ([n >= 2], 16-bit places, top divisor place
    nonzero) at a position [j] where the dividend is below the divisor scaled
    by [B16 ^ (j + 1)]: the estimate that leaves the correction loop is the
    quotient digit [Q] or [Q + 1], the round stores [Q] in [q[j]] and takes
    [Q] times the scaled divisor off the dividend. *)
Lemma algorithm_d_step_spec n j (u v q : list Z) :
  (2 <= n)%nat -> length v = n -> Forall is_u16 v -> v.[n - 1] <> 0 ->
  Forall is_u16 u -> (j + n < length u)%nat -> (j < length q)%nat ->
  value B16 u < value B16 v * B16 ^ Z.of_nat (j + 1) ->
  let Q := value B16 u / (value B16 v * B16 ^ Z.of_nat j) in
  let t := Z.lor (u32 (Z.shiftl u.[j + n] 16)) u.[j + n - 1] in
  exists qhat rhat u',
    qhat_loop qhat_fuel n v.[n - 1] v.[n - 2] u.[j + n - 2]
      (t / v.[n - 1]) (t mod v.[n - 1]) = Some (qhat, rhat) /\
    (qhat = Q \/ qhat = Q + 1) /\
    algorithm_d_step n v j (u, q) = Some (u', <[j := Q]> q) /\
    0 <= Q <= 65535 /\
    length u' = length u /\ Forall is_u16 u' /\
    value B16 u' = value B16 u - Q * (value B16 v * B16 ^ Z.of_nat j).
Proof.
  intros Hn Hlv Hv Hv1 Hu Hlu Hlq Hlt.
  assert (Hn' : exists k, n = (k + 2)%nat) by (exists (n - 2)%nat; lia).
  destruct Hn' as [k ->]. clear Hn.
  replace (k + 2 - 1)%nat with (k + 1)%nat in * by lia.
  replace (k + 2 - 2)%nat with k in * by lia.
  replace (j + (k + 2) - 1)%nat with (j + k + 1)%nat by lia.
  replace (j + (k + 2) - 2)%nat with (j + k)%nat by lia.
  replace (j + (k + 2))%nat with (j + k + 2)%nat in * by lia.
  intros Q t. subst Q t.
  pose proof (pow16_pos j) as HBj.
  pose proof (nth_is_u16 v (k + 1) Hv) as H1.
  pose proof (nth_is_u16 v k Hv) as H2.
  pose proof (nth_is_u16 u (j + k + 2) Hu) as H3.
  pose proof (nth_is_u16 u (j + k + 1) Hu) as H4.
  pose proof (nth_is_u16 u (j + k) Hu) as H5.
  unfold algorithm_d_step.
  replace (k + 2 - 1)%nat with (k + 1)%nat by lia.
  replace (k + 2 - 2)%nat with k by lia.
  replace (j + (k + 2) - 1)%nat with (j + k + 1)%nat by lia.
  replace (j + (k + 2) - 2)%nat with (j + k)%nat by lia.
  replace (j + (k + 2))%nat with (j + k + 2)%nat by lia.
  rewrite lor_shiftl16 by assumption.
  set (t := u.[j + k + 2] * 65536 + u.[j + k + 1]).
  assert (Ht : t = u.[j + k + 1] + 65536 * u.[j + k + 2]) by (subst t; lia).
  clearbody t.
  pose proof (value_u16_bound v Hv) as HVb. rewrite Hlv in HVb.
  pose proof (value_u16_bound u Hu) as HRb.
  pose proof (value_u16_bound (take k v) (Forall_take _ _ _ Hv)) as HVlow.
  rewrite length_take_le in HVlow by lia.
  pose proof (value_u16_bound (take (j + k) u) (Forall_take _ _ _ Hu)) as HRlow.
  rewrite length_take_le in HRlow by lia.
  assert (HVdec := value_top2 v k Hlv).
  assert (HDB : value B16 v * B16 ^ Z.of_nat j * B16 =
                value B16 v * B16 ^ Z.of_nat (j + 1)).
  { rewrite pow16_add. change (B16 ^ Z.of_nat 1) with B16. ring. }
  assert (HDn : value B16 v * B16 ^ Z.of_nat j * B16 <= B16 ^ Z.of_nat (j + k + 3)).
  { replace (j + k + 3)%nat with (k + 2 + j + 1)%nat by lia.
    rewrite !pow16_add. change (B16 ^ Z.of_nat 1) with B16.
    rewrite pow16_add in HVb. unfold B16 in *. clear - HVb HBj. nia. }
  assert (HRdec : value B16 u = value B16 (take (j + k) u) +
            B16 ^ Z.of_nat (j + k) *
            (u.[j + k] + B16 * (u.[j + k + 1] + B16 * u.[j + k + 2]))).
  { apply value_top3; [assumption|lia|]. clear - Hlt HDB HDn. lia. }
  assert (HN : B16 ^ Z.of_nat (j + k) = B16 ^ Z.of_nat k * B16 ^ Z.of_nat j).
  { rewrite <- pow16_add. f_equal. lia. }
  destruct (qhat_loop_estimate (B16 ^ Z.of_nat (j + k)) (value B16 u)
              (value B16 v * B16 ^ Z.of_nat j)
              (value B16 (take (j + k) u))
              (value B16 (take k v) * B16 ^ Z.of_nat j)
              t u.[j + k] v.[k + 1] v.[k]) with (n := (k + 2)%nat)
    as (qhat & rhat & Hloop & Hest & Hq16).
  { apply pow16_pos. }
  { rewrite HRdec, Ht. unfold B16. ring. }
  { rewrite HVdec at 1. rewrite HN. unfold B16. ring. }
  { exact HRlow. }
  { rewrite HN. split; [apply Z.mul_nonneg_nonneg; lia|].
    apply Z.mul_lt_mono_pos_r; lia. }
  { unfold is_u16 in H5. idx. }
  { unfold is_u16 in H2. idx. }
  { unfold is_u16 in H1. idx. }
  { rewrite Ht. unfold is_u16 in H3, H4. idx. }
  { change 65536 with B16. rewrite HDB. exact Hlt. }
  { idx. }
  assert (HV : 0 < value B16 v).
  { rewrite HVdec. pose proof (pow16_pos k).
    unfold is_u16, B16 in *. clear - H HVlow H1 H2 Hv1. nia. }
  assert (HD : 0 < value B16 v * B16 ^ Z.of_nat j) by (apply Z.mul_pos_pos; lia).
  assert (HQ := round_digit (value B16 u) _ (proj1 HRb) HD).
  revert Hloop Hest HQ.
  generalize (value B16 u / (value B16 v * B16 ^ Z.of_nat j)).
  intros Q Hloop Hest HQ.
  assert (HQ16 : 0 <= Q <= 65535).
  { clear - HQ HD Hlt HDB HRb. unfold B16 in *. nia. }
  exists qhat, rhat.
  destruct (mulsub_loop_inv (k + 2) j qhat v u Hlv Hv Hu ltac:(idx)
              ltac:(unfold is_u16; idx) (k + 2 + 1) ltac:(idx))
    as (u1 & k1 & Hms & Hl1 & Hu1 & Hk1 & Hd1 & Hval1).
  rewrite (take_ge v (k + 2 + 1)) in Hval1 by idx.
  replace (j + (k + 2 + 1))%nat with (j + k + 3)%nat in * by idx.
  assert (Hz1 : value B16 (drop (j + k + 3) u1) = 0).
  { rewrite Hd1. apply value_high_zero; [assumption|idx|]. clear - Hlt HDB HDn. lia. }
  destruct (value_low u1 (j + k + 3) Hu1 ltac:(idx) Hz1) as [_ Hb1].
  pose proof (pow16_pos (j + k + 3)) as HP3.
  rewrite Hloop. cbn [mbind option_bind]. rewrite Hms.
  destruct (Z.eqb_spec k1 0) as [Hk0|Hk0]; cbn [negb].
  - (* no borrow: the estimate was the digit *)
    assert (qhat = Q).
    { apply (round_no_borrow (value B16 u) (value B16 v * B16 ^ Z.of_nat j) Q qhat
               (value B16 u1) HD (proj2 HQ) (proj1 Hest) (proj1 Hb1)).
      rewrite Hk0 in Hval1. clear - Hval1. lia. }
    subst qhat.
    exists u1. split; [reflexivity|]. split; [left; reflexivity|].
    rewrite u16_small by (unfold is_u16; idx).
    split; [reflexivity|]. split; [assumption|]. split; [assumption|].
    split; [assumption|]. rewrite Hk0 in Hval1. clear - Hval1. lia.
  - (* borrow: the estimate was one too big, add back *)
    assert (qhat = Q + 1).
    { apply (round_borrow (value B16 u) (value B16 v * B16 ^ Z.of_nat j) Q qhat
               (value B16 u1) (B16 ^ Z.of_nat (j + k + 3)) k1
               HD (proj1 HQ) (proj2 Hest) (proj2 Hb1) HP3).
      - unfold is_u16 in Hk1. clear - Hk1 Hk0. lia.
      - clear - Hval1. lia. }
    subst qhat.
    destruct (addback_loop_inv (k + 2) j v u1 Hlv Hv Hu1 ltac:(idx) (k + 2)%nat ltac:(idx))
      as (u2 & k2 & Hab & Hl2 & Hu2 & Hk2 & Hd2 & Hval2).
    rewrite Hab. rewrite take_ge in Hval2 by idx.
    replace (j + (k + 2))%nat with (j + k + 2)%nat in * by idx.
    set (x := u16 (u2.[j + k + 2] + k2)).
    exists (<[(j + k + 2)%nat := x]> u2).
    split; [reflexivity|]. split; [right; reflexivity|].
    rewrite nth_insert_eq by idx. rewrite list_insert_insert_eq.
    rewrite (u16_small (Q + 1)) by (unfold is_u16; idx).
    rewrite (u16_small (Q + 1 - 1)) by (unfold is_u16; idx).
    replace (Q + 1 - 1) with Q by idx.
    split; [reflexivity|]. split; [assumption|].
    rewrite length_insert. split; [idx|].
    assert (Hx : is_u16 x) by apply u16_range.
    split; [by apply Forall_insert_u16|].
    assert (Hz2 : value B16 (drop (j + k + 3) (<[(j + k + 2)%nat := x]> u2)) = 0).
    { rewrite drop_insert_lt by idx.
      replace (j + k + 3)%nat with (j + k + 2 + 1)%nat in * by idx.
      rewrite <- (drop_drop _ 1 (j + k + 2)), Hd2, drop_drop. assumption. }
    destruct (value_low (<[(j + k + 2)%nat := x]> u2) (j + k + 3)) as [_ Hb2];
      [by apply Forall_insert_u16|rewrite length_insert; idx|assumption|].
    rewrite value_insert in Hb2 |- * by (unfold B16; idx).
    assert (Hxw : x = u2.[j + k + 2] + k2 - 65536 * ((u2.[j + k + 2] + k2) / 65536)).
    { subst x. unfold u16. clear. Z.div_mod_to_equations. lia. }
    assert (HP : B16 ^ Z.of_nat (j + k + 3) = B16 ^ Z.of_nat (j + k + 2) * 65536).
    { replace (j + k + 3)%nat with (j + k + 2 + 1)%nat by idx.
      rewrite (pow16_add (j + k + 2) 1). reflexivity. }
    rewrite HP in *.
    apply (round_add_back (value B16 u) (value B16 v * B16 ^ Z.of_nat j) Q
             (value B16 u1) (value B16 u2) (B16 ^ Z.of_nat (j + k + 2)) k1 k2
             x u2.[j + k + 2] ((u2.[j + k + 2] + k2) / 65536)).
    + clear - Hval1. lia.
    + clear - Hval2. lia.
    + exact Hxw.
    + exact Hb2.
    + clear - HQ HDn HDB. unfold B16 in *. lia.
Qed.

(** ** Normalization *)

Lemma leading_zeros_loop_spec fuel :
  forall x n,
    0 < x <= 65535 -> 65536 <= x * 2 ^ Z.of_nat fuel ->
    exists s,
      leading_zeros_loop fuel x n = Some (n + s)%nat /\ (s < fuel)%nat /\
      32768 <= x * 2 ^ Z.of_nat s <= 65535.
Proof.
  induction fuel as [|fuel IH]; intros x n Hx Hf.
  - simpl in Hf. lia.
  - cbn [leading_zeros_loop]. change (UINT16_MAX / 2) with 32767.
    destruct (Z.leb_spec x 32767) as [Hle|Hgt].
    + rewrite Z.shiftl_mul_pow2 by lia. change (2 ^ 1) with 2.
      rewrite u16_small by (unfold is_u16; lia).
      rewrite Nat2Z.inj_succ, Z.pow_succ_r in Hf by lia.
      destruct (IH (x * 2) (S n)) as (s & Hrun & Hs & Hb); [lia|lia|].
      exists (S s). split; [rewrite Hrun; f_equal; lia|]. split; [lia|].
      rewrite Nat2Z.inj_succ, Z.pow_succ_r by lia. lia.
    + exists 0%nat. split; [f_equal; lia|]. split; [lia|]. simpl. lia.
Qed.

Lemma leading_zeros_spec x :
  is_u16 x -> x <> 0 ->
  exists s, leading_zeros x = Some s /\ (s < 16)%nat /\
            32768 <= x * 2 ^ Z.of_nat s <= 65535.
Proof.
  unfold is_u16. intros Hx Hne. unfold leading_zeros.
  rewrite assert_true by (apply negb_true_iff, Z.eqb_neq; assumption). simpl.
  apply (leading_zeros_loop_spec 16 x 0); [lia|].
  change (2 ^ Z.of_nat 16) with 65536. lia.
Qed.

(** The arithmetic of moving [m] bits across a place: [P] is [2 ^ m] and
    [P'] is [2 ^ (16 - m)]. *)
Lemma shift_left_arith x k P P' :
  0 < P -> 0 < P' -> P * P' = 65536 -> 0 <= x < 65536 -> 0 <= k < P ->
  0 <= x / P' < P /\ (x * P + k) mod 65536 + 65536 * (x / P') = x * P + k.
Proof.
  intros HP HP' HPP Hx Hk.
  pose proof (Z.div_mod x P' ltac:(lia)) as Hdm.
  pose proof (Z.mod_pos_bound x P' ltac:(lia)) as Hm.
  assert (Hq : 0 <= x / P') by (apply Z.div_pos; lia).
  assert (Hq' : x / P' < P) by (apply Z.div_lt_upper_bound; nia).
  split; [lia|].
  assert (Hr : (x * P + k) mod 65536 = (x mod P') * P + k).
  { symmetry. apply (Z.mod_unique _ _ (x / P')); [left; nia|]. nia. }
  rewrite Hr. nia.
Qed.

Lemma shift_right_arith x c P P' :
  0 < P -> 0 < P' -> P * P' = 65536 -> 0 <= x < 65536 -> 0 <= c < P ->
  0 <= x / P + c * P' < 65536 /\
  (x * P') mod 65536 = (x mod P) * P' /\
  0 <= x mod P < P /\
  (x / P + c * P') * P + x mod P = x + 65536 * c.
Proof.
  intros HP HP' HPP Hx Hc.
  pose proof (Z.div_mod x P ltac:(lia)) as Hdm.
  pose proof (Z.mod_pos_bound x P ltac:(lia)) as Hm.
  assert (Hq : 0 <= x / P) by (apply Z.div_pos; lia).
  assert (Hq' : x / P < P') by (apply Z.div_lt_upper_bound; nia).
  split; [nia|]. split; [|split; [lia|nia]].
  symmetry. apply (Z.mod_unique _ _ (x / P)); [left; nia|]. nia.
Qed.

Lemma pow2_split m : 0 < m < 16 -> 0 < 2 ^ m /\ 0 < 2 ^ (16 - m) /\ 2 ^ m * 2 ^ (16 - m) = 65536.
Proof.
  intros Hm. split; [apply Z.pow_pos_nonneg; lia|].
  split; [apply Z.pow_pos_nonneg; lia|].
  rewrite <- Z.pow_add_r by lia. replace (m + (16 - m)) with 16 by lia. reflexivity.
Qed.

Lemma shift_left_digit x k m :
  is_u16 x -> 0 < m < 16 -> 0 <= k < 2 ^ m ->
  let t := u16 (Z.shiftr x (16 - m)) in
  let y := u16 (Z.lor (Z.shiftl x m) k) in
  is_u16 y /\ 0 <= t < 2 ^ m /\ y + 65536 * t = x * 2 ^ m + k.
Proof.
  unfold is_u16. intros Hx Hm Hk. cbv zeta.
  destruct (pow2_split m Hm) as (HP & HP' & HPP).
  rewrite Z.shiftr_div_pow2 by lia.
  rewrite lor_shiftl by lia.
  destruct (shift_left_arith x k (2 ^ m) (2 ^ (16 - m))) as [Ht Hy]; try lia.
  rewrite (u16_small (x / _)) by (unfold is_u16; nia).
  split; [apply u16_range|]. split; [lia|]. exact Hy.
Qed.

Lemma lor_mul_pow2 lo c n :
  0 <= n -> 0 <= c -> 0 <= lo < 2 ^ n -> Z.lor lo (c * 2 ^ n) = lo + c * 2 ^ n.
Proof.
  intros. rewrite Z.lor_comm, <- Z.shiftl_mul_pow2 by lia.
  rewrite lor_shiftl by lia. rewrite Z.shiftl_mul_pow2 by lia. lia.
Qed.

Lemma shift_right_digit x c m :
  is_u16 x -> 0 < m < 16 -> 0 <= c < 2 ^ m ->
  let k := c * 2 ^ (16 - m) in
  let t := u16 (Z.shiftl x (16 - m)) in
  let y := u16 (Z.lor (Z.shiftr x m) k) in
  is_u16 y /\ t = (x mod 2 ^ m) * 2 ^ (16 - m) /\ 0 <= x mod 2 ^ m < 2 ^ m /\
  y * 2 ^ m + x mod 2 ^ m = x + 65536 * c.
Proof.
  unfold is_u16. intros Hx Hm Hc. cbv zeta.
  destruct (pow2_split m Hm) as (HP & HP' & HPP).
  rewrite Z.shiftr_div_pow2, Z.shiftl_mul_pow2 by lia.
  destruct (shift_right_arith x c (2 ^ m) (2 ^ (16 - m))) as (Hy & Ht & Hr & Hacc);
    try lia.
  assert (Hq' : 0 <= x / 2 ^ m < 2 ^ (16 - m)).
  { split; [apply Z.div_pos; lia|]. apply Z.div_lt_upper_bound; nia. }
  rewrite lor_mul_pow2 by lia.
  rewrite (u16_small (_ + _)) by (unfold is_u16; lia).
  split; [lia|]. split; [exact Ht|]. split; [exact Hr|]. exact Hacc.
Qed.

Section ShiftLeft.
Variables (m : Z) (u : list Z).
Hypothesis Hm : 0 < m < 16.
Hypothesis Hu : Forall is_u16 u.

Lemma shift_left_loop_inv i :
  (i <= length u)%nat ->
  exists u' k,
    for_loop 0 i (shift_left_body m) (u, 0) = (u', k) /\
    length u' = length u /\ Forall is_u16 u' /\ 0 <= k < 2 ^ m /\
    drop i u' = drop i u /\
    value B16 (take i u') + B16 ^ Z.of_nat i * k = value B16 (take i u) * 2 ^ m.
Proof.
  destruct (pow2_split m Hm) as (HP & _ & _).
  induction i as [|i IH]; intros Hi.
  - exists u, 0. rewrite for_loop_0. simpl. repeat split; try assumption; lia.
  - destruct IH as (u' & k & Hrun & Hlen & Hu' & Hk & Hdrop & Hval); [lia|].
    rewrite for_loop_S, Hrun. simpl plus. cbn [shift_left_body].
    assert (Hxi : u'.[i] = u.[i]) by (by apply drop_eq_nth).
    rewrite Hxi.
    assert (Hui : is_u16 u.[i]) by (by apply nth_is_u16).
    pose proof (shift_left_digit u.[i] k m Hui Hm Hk) as Hd.
    cbv zeta in Hd. destruct Hd as (Hy & Ht & Hacc).
    eexists _, _. split; [reflexivity|]. rewrite length_insert.
    split; [assumption|]. split; [by apply Forall_insert_u16|].
    split; [assumption|]. split.
    + rewrite drop_insert_lt by lia.
      replace (S i) with (i + 1)%nat by lia.
      rewrite <- !(drop_drop _ 1 i), Hdrop. reflexivity.
    + rewrite !(value_take_S B16) by (rewrite ?length_insert; unfold B16; lia).
      rewrite take_insert_ge by lia. rewrite nth_insert_eq by lia.
      rewrite pow16_S. clear - Hval Hacc. unfold B16 in *. nia.
Qed.

(** [shift_left(n, u, m)] multiplies the low [n] places by [2 ^ m] when
    that does not carry out of them. *)
Lemma shift_left_spec n :
  (n <= length u)%nat ->
  value B16 (take n u) * 2 ^ m < B16 ^ Z.of_nat n ->
  exists u',
    shift_left n u m = Some u' /\
    length u' = length u /\ Forall is_u16 u' /\ drop n u' = drop n u /\
    value B16 (take n u') = value B16 (take n u) * 2 ^ m.
Proof.
  intros Hn Hfit.
  destruct (shift_left_loop_inv n Hn) as (u' & k & Hrun & Hlen & Hu' & Hk & Hdrop & Hval).
  pose proof (value_u16_bound (take n u') (Forall_take _ _ _ Hu')) as Hb.
  pose proof (pow16_pos n) as Hp.
  assert (k = 0) by (clear - Hval Hfit Hb Hk Hp; nia). subst k.
  exists u'. unfold shift_left.
  rewrite (assert_true (0 <? m)) by (apply Z.ltb_lt; lia).
  rewrite (assert_true (m <? 16)) by (apply Z.ltb_lt; lia).
  cbn [mbind option_bind]. rewrite Hrun. simpl.
  repeat split; try assumption. lia.
Qed.
End ShiftLeft.

Section ShiftRight.
Variable (m : Z).
Hypothesis Hm : 0 < m < 16.

Lemma shift_right_loop_inv i :
  forall (u : list Z) c,
    Forall is_u16 u -> (i <= length u)%nat -> 0 <= c < 2 ^ m ->
    exists u' c',
      shift_right_loop i u m (c * 2 ^ (16 - m)) = (u', c' * 2 ^ (16 - m)) /\
      length u' = length u /\ Forall is_u16 u' /\ 0 <= c' < 2 ^ m /\
      drop i u' = drop i u /\
      value B16 (take i u') * 2 ^ m + c' =
      value B16 (take i u) + B16 ^ Z.of_nat i * c.
Proof.
  induction i as [|i IH]; intros u c Hu Hi Hc.
  - exists u, c. simpl. repeat split; try assumption; lia.
  - cbn [shift_right_loop].
    assert (Hui : is_u16 u.[i]) by (by apply nth_is_u16).
    pose proof (shift_right_digit u.[i] c m Hui Hm Hc) as Hd.
    cbv zeta in Hd. destruct Hd as (Hy & Ht & Hr & Hacc).
    rewrite Ht.
    set (y := u16 (Z.lor (Z.shiftr u.[i] m) (c * 2 ^ (16 - m)))) in *.
    destruct (IH (<[i := y]> u) (u.[i] mod 2 ^ m))
      as (u' & c' & Hrun & Hlen & Hu' & Hc' & Hdrop & Hval).
    { by apply Forall_insert_u16. }
    { rewrite length_insert. lia. }
    { assumption. }
    rewrite length_insert in Hlen. rewrite take_insert_ge in Hval by lia.
    exists u', c'. split; [assumption|]. split; [assumption|].
    split; [assumption|]. split; [assumption|].
    assert (Hyi : u'.[i] = y).
    { rewrite (drop_eq_nth _ _ _ Hdrop). apply nth_insert_eq. lia. }
    split.
    + replace (S i) with (i + 1)%nat by lia.
      rewrite <- !(drop_drop _ 1 i), Hdrop, !drop_drop.
      apply drop_insert_lt. lia.
    + rewrite !(value_take_S B16) by (unfold B16; lia).
      rewrite Hyi, pow16_S. clear - Hval Hacc. unfold B16 in *. nia.
Qed.

(** [shift_right(n, u, m)] divides the low [n] places by [2 ^ m] when no
    bit is lost. *)
Lemma shift_right_spec n (u : list Z) :
  Forall is_u16 u -> (n <= length u)%nat ->
  value B16 (take n u) mod 2 ^ m = 0 ->
  exists u',
    shift_right n u m = Some u' /\
    length u' = length u /\ Forall is_u16 u' /\ drop n u' = drop n u /\
    value B16 (take n u') * 2 ^ m = value B16 (take n u).
Proof.
  intros Hu Hn Hdiv.
  destruct (pow2_split m Hm) as (HP & HP' & _).
  destruct (shift_right_loop_inv n u 0 Hu Hn ltac:(lia))
    as (u' & c' & Hrun & Hlen & Hu' & Hc' & Hdrop & Hval).
  assert (c' = 0).
  { rewrite Z.mul_0_r, Z.add_0_r in Hval.
    rewrite <- Hval in Hdiv. rewrite Z.add_comm, Z_mod_plus_full in Hdiv.
    rewrite Z.mod_small in Hdiv by lia. assumption. }
  subst c'. exists u'. unfold shift_right.
  rewrite (assert_true (0 <? m)) by (apply Z.ltb_lt; lia).
  rewrite (assert_true (m <? 16)) by (apply Z.ltb_lt; lia).
  cbn [mbind option_bind]. change 0 with (0 * 2 ^ (16 - m)) at 1.
  rewrite Hrun. simpl.
  repeat split; try assumption. lia.
Qed.
End ShiftRight.

(** ** The main loop *)

Lemma top_place_nonzero (l : list Z) k :
  Forall is_u16 l -> length l = S k -> B16 ^ Z.of_nat k <= value B16 l ->
  l.[k] <> 0.
Proof.
  intros Hl Hlen Hge Hz.
  rewrite (value_split l k) in Hge by lia.
  rewrite (value_drop_S l k), Hz, (drop_ge l (S k)) in Hge by lia.
  pose proof (value_u16_bound (take k l) (Forall_take _ _ _ Hl)) as Hb.
  rewrite length_take_le in Hb by lia. simpl in Hge. lia.
Qed.

Lemma top_place_bound (l : list Z) k :
  Forall is_u16 l -> length l = S k ->
  B16 ^ Z.of_nat k * l.[k] <= value B16 l < B16 ^ Z.of_nat k * (l.[k] + 1).
Proof.
  intros Hl Hlen.
  rewrite (value_split l k) by lia.
  rewrite (value_drop_S l k), (drop_ge l (S k)) by lia.
  pose proof (value_u16_bound (take k l) (Forall_take _ _ _ Hl)) as Hb.
  rewrite length_take_le in Hb by lia. simpl. lia.
Qed.

Lemma round_remainder R D :
  0 < D -> 0 <= R - R / D * D < D.
Proof.
  intros HD. pose proof (Z.mod_pos_bound R D HD) as Hm.
  rewrite Z.mod_eq in Hm by lia. lia.
Qed.

Section MainLoop.
Variables (n : nat) (v : list Z).
Hypothesis Hn : (2 <= n)%nat.
Hypothesis Hlv : length v = n.
Hypothesis Hv : Forall is_u16 v.
Hypothesis Hv1 : v.[n - 1] <> 0.

(** Run from position [j1 - 1] down on a dividend below the divisor
    scaled by [B16 ^ j1], the loop returns the [j1] quotient digits and
    the remainder. *)
Lemma algorithm_d_loop_spec j1 :
  forall u q : list Z,
    Forall is_u16 u -> (j1 + n <= length u)%nat -> (j1 <= length q)%nat ->
    value B16 u < value B16 v * B16 ^ Z.of_nat j1 ->
    exists u' qd,
      algorithm_d_loop j1 n v (u, q) = Some (u', qd ++ drop j1 q) /\
      length qd = j1 /\ Forall is_u16 qd /\
      length u' = length u /\ Forall is_u16 u' /\
      value B16 u = value B16 qd * value B16 v + value B16 u' /\
      0 <= value B16 u' < value B16 v.
Proof.
  induction j1 as [|j IH]; intros u q Hu Hlu Hlq Hlt.
  - exists u, []. simpl in Hlt |- *. rewrite drop_0.
    pose proof (value_u16_bound u Hu).
    repeat split; try assumption; try constructor; lia.
  - cbn [algorithm_d_loop].
    destruct (algorithm_d_step_spec n j u v q Hn Hlv Hv Hv1 Hu
                ltac:(lia) ltac:(lia))
      as (qhat & rhat & u1 & _ & _ & Hstep & HQ & Hl1 & Hu1 & Hval1).
    { replace (j + 1)%nat with (S j) by lia. assumption. }
    cbv zeta in Hstep, HQ, Hval1. rewrite Hstep. cbn [mbind option_bind].
    pose proof (pow16_pos j) as HBj.
    assert (HV : 0 < value B16 v).
    { pose proof (value_u16_bound u Hu) as Hb.
      pose proof (pow16_pos (S j)). clear - Hlt Hb H. nia. }
    assert (HD : 0 < value B16 v * B16 ^ Z.of_nat j) by (apply Z.mul_pos_pos; lia).
    pose proof (round_remainder (value B16 u) _ HD) as Hrem.
    revert Hstep HQ Hval1 Hrem.
    generalize (value B16 u / (value B16 v * B16 ^ Z.of_nat j)).
    intros Q Hstep HQ Hval1 Hrem.
    destruct (IH u1 (<[j := Q]> q)) as (u' & qd & Hrun & Hlqd & Hqd & Hl' & Hu' & Hval' & Hb').
    { assumption. }
    { lia. }
    { rewrite length_insert. lia. }
    { rewrite Hval1. clear - Hrem. lia. }
    exists u', (qd ++ [Q]). split; [|split; [|split; [|split; [|split; [|split]]]]].
    + rewrite Hrun. do 2 f_equal. rewrite <- app_assoc. f_equal.
      rewrite drop_insert_ge by lia.
      rewrite (drop_S q q.[j] j) by (apply lookup_nth; lia).
      replace (j - j)%nat with 0%nat by lia. reflexivity.
    + rewrite length_app, Hlqd. simpl. lia.
    + apply Forall_app. split; [assumption|]. repeat constructor; lia.
    + lia.
    + assumption.
    + rewrite value_snoc by (unfold B16; lia). rewrite Hlqd.
      clear - Hval1 Hval'. nia.
    + assumption.
Qed.
End MainLoop.

(** ** Algorithm D *)

Lemma value_take_all (l : list Z) n : length l = n -> value B16 (take n l) = value B16 l.
Proof. intros H. rewrite take_ge by lia. reflexivity. Qed.

(** The case [n = 1]: short division with a separate quotient array. *)
Lemma algorithm_d_spec_one m (u v q : list Z) :
  length v = 1%nat -> Forall is_u16 v -> v.[0] <> 0 ->
  Forall is_u16 u -> (m + 1 <= length u)%nat -> (m + 1 <= length q)%nat ->
  exists u' qd,
    algorithm_d m 1 u v q = Some (u', v, qd ++ drop (m + 1) q) /\
    length qd = (m + 1)%nat /\ Forall is_u16 qd /\
    length u' = length u /\ Forall is_u16 (take 1 u') /\
    value B16 (take (m + 1) u) = value B16 qd * value B16 v + value B16 (take 1 u') /\
    0 <= value B16 (take 1 u') < value B16 v.
Proof.
  intros Hlv Hv Hv0 Hu Hlu Hlq.
  pose proof (nth_is_u16 v 0 Hv) as Hv16. unfold is_u16 in Hv16.
  set (s := <[P_U := u]> ({[P_Q := q]} : store)).
  destruct (short_division_loop_spec P_U P_Q v.[0] ltac:(lia) (m + 1) 0 s u q)
    as (r & qd & Hrun & Hlqd & Hqd & Hr & Hval); try assumption; try lia.
  { reflexivity. }
  { reflexivity. }
  { by apply Forall_take. }
  exists (<[0%nat := r]> u), qd.
  assert (Hvv : value B16 v = v.[0]).
  { clear - Hlv. destruct v as [|x [|y l]]; simpl in Hlv; try lia. simpl. lia. }
  unfold algorithm_d.
  rewrite (assert_true (0 <? 1)%nat) by reflexivity.
  rewrite (assert_true (negb (v.[1 - 1] =? 0))) by
    (apply negb_true_iff, Z.eqb_neq; assumption).
  cbn [mbind option_bind]. change (1 =? 1)%nat with true. cbv iota.
  unfold short_division.
  rewrite (assert_true (0 <? v.[0])) by (apply Z.ltb_lt; lia).
  rewrite (assert_true (0 <? m + 1)%nat) by (apply Nat.ltb_lt; lia).
  cbn [mbind option_bind]. fold s. rewrite Hrun. cbn [mbind option_bind].
  subst s. rewrite (lookup_insert_ne _ P_Q P_U) by (unfold P_U, P_Q; lia).
  rewrite lookup_insert_eq. cbn [mbind option_bind].
  rewrite lookup_insert_eq. cbn [mbind option_bind].
  split; [reflexivity|]. split; [assumption|]. split; [assumption|].
  rewrite length_insert. split; [reflexivity|].
  assert (Ht1 : take 1 (<[0%nat := r]> u) = [r]).
  { destruct u as [|x l]; [simpl in Hlu; lia|]. reflexivity. }
  rewrite Ht1. split; [repeat constructor; unfold is_u16; lia|].
  simpl value. rewrite Hvv. split; [|lia].
  rewrite Z.mul_0_r, Z.add_0_r in Hval. lia.
Qed.

Lemma shift_fits x m :
  0 < m < 16 -> 0 <= x -> x * 2 ^ m <= 65535 -> (x + 1) * 2 ^ m <= 65536.
Proof.
  intros Hm Hx Hfit. destruct (pow2_split m Hm) as (HP & HP' & HPP).
  assert (x < 2 ^ (16 - m)) by nia. nia.
Qed.

(** The normalization step, the same with and without an actual shift. *)
Lemma normalize_spec m n (u v : list Z) s :
  (2 <= n)%nat -> length v = n -> Forall is_u16 v ->
  Forall is_u16 u -> length u = (m + n + 1)%nat -> u.[m + n] = 0 ->
  (s < 16)%nat -> 0 < v.[n - 1] -> v.[n - 1] * 2 ^ Z.of_nat s <= 65535 ->
  exists u' v',
    (if negb (s =? 0)%nat then
       v' ← shift_left n v (Z.of_nat s);
       u' ← shift_left (m + n + 1) u (Z.of_nat s);
       Some (u', v')
     else Some (u, v)) = Some (u', v') /\
    length u' = length u /\ Forall is_u16 u' /\
    length v' = n /\ Forall is_u16 v' /\
    value B16 u' = value B16 u * 2 ^ Z.of_nat s /\
    value B16 v' = value B16 v * 2 ^ Z.of_nat s.
Proof.
  intros Hn Hlv Hv Hu Hlu Htop Hs Hv1 Hfit.
  destruct (Nat.eqb_spec s 0) as [->|Hs0]; cbn [negb].
  - exists u, v. simpl. repeat split; try assumption; lia.
  - assert (Hm : 0 < Z.of_nat s < 16) by lia.
    assert (Hk : exists k, n = S k) by (exists (n - 1)%nat; lia).
    destruct Hk as [k ->]. replace (S k - 1)%nat with k in * by lia.
    destruct (pow2_split _ Hm) as (HP & _ & _).
    pose proof (top_place_bound v k Hv Hlv) as [_ Hvb].
    pose proof (pow16_pos k) as HBk.
    destruct (shift_left_spec (Z.of_nat s) v Hm Hv (S k) ltac:(lia))
      as (v' & Hrv & Hlv' & Hv' & _ & Hvalv).
    { rewrite value_take_all by assumption. rewrite pow16_S.
      pose proof (shift_fits v.[k] (Z.of_nat s) Hm ltac:(lia) Hfit) as Hsf.
      clear - Hvb Hsf HP HBk Hv1. unfold B16 in *. nia. }
    rewrite !value_take_all in Hvalv by lia.
    pose proof (value_u16_bound (take (m + S k) u) (Forall_take _ _ _ Hu)) as Hub.
    rewrite length_take_le in Hub by lia.
    assert (Hvu : value B16 u = value B16 (take (m + S k) u)).
    { rewrite (value_split u (m + S k)) by lia.
      rewrite (value_drop_S u (m + S k)), Htop, (drop_ge u (S (m + S k))) by lia.
      simpl. lia. }
    destruct (shift_left_spec (Z.of_nat s) u Hm Hu (m + S k + 1) ltac:(lia))
      as (u' & Hru & Hlu' & Hu' & _ & Hvalu).
    { rewrite value_take_all by assumption. rewrite Hvu.
      replace (m + S k + 1)%nat with (S (m + S k)) by lia. rewrite pow16_S.
      assert (2 ^ Z.of_nat s < 65536).
      { change 65536 with (2 ^ 16). apply Z.pow_lt_mono_r; lia. }
      clear - Hub H HP. unfold B16 in *. nia. }
    rewrite !value_take_all in Hvalu by lia.
    exists u', v'. rewrite Hrv. cbn [mbind option_bind]. rewrite Hru.
    cbn [mbind option_bind].
    repeat split; try assumption; lia.
Qed.

Lemma unnormalize_spec n (u : list Z) s X :
  Forall is_u16 u -> (n <= length u)%nat -> (s < 16)%nat ->
  value B16 (take n u) = X * 2 ^ Z.of_nat s ->
  exists u',
    (if negb (s =? 0)%nat then shift_right n u (Z.of_nat s) else Some u) = Some u' /\
    length u' = length u /\ Forall is_u16 (take n u') /\
    value B16 (take n u') = X.
Proof.
  intros Hu Hn Hs HX.
  destruct (Nat.eqb_spec s 0) as [->|Hs0]; cbn [negb].
  - exists u. simpl in HX. split; [reflexivity|]. split; [reflexivity|].
    split; [by apply Forall_take|]. lia.
  - assert (Hm : 0 < Z.of_nat s < 16) by lia.
    destruct (pow2_split _ Hm) as (HP & _ & _).
    destruct (shift_right_spec (Z.of_nat s) Hm n u Hu Hn)
      as (u' & Hrun & Hlen & Hu' & _ & Hval).
    { rewrite HX. apply Z_mod_mult. }
    exists u'. split; [assumption|]. split; [assumption|].
    split; [by apply Forall_take|].
    rewrite HX in Hval. clear - Hval HP. nia.
Qed.

Lemma scaled_division U V Qv R3 P X :
  0 < P -> U * P = Qv * (V * P) + R3 -> 0 <= R3 < V * P -> X = U - Qv * V ->
  R3 = X * P /\ 0 <= X < V.
Proof. intros HP H1 H2 ->. split; nia. Qed.

(** The case [n >= 2]: normalize, run the main loop, unnormalize. *)
Lemma algorithm_d_spec_long m n (u v q : list Z) :
  (2 <= n)%nat -> length v = n -> Forall is_u16 v -> v.[n - 1] <> 0 ->
  Forall is_u16 u -> length u = (m + n + 1)%nat -> (m + 1 <= length q)%nat ->
  exists u' v' qd,
    algorithm_d m n u v q = Some (u', v', qd ++ drop (m + 1) q) /\
    length qd = (m + 1)%nat /\ Forall is_u16 qd /\
    length u' = length u /\ Forall is_u16 (take n u') /\
    value B16 (take (m + n) u) =
      value B16 qd * value B16 v + value B16 (take n u') /\
    0 <= value B16 (take n u') < value B16 v.
Proof.
  intros Hn Hlv Hv Hv1 Hu Hlu Hlq.
  assert (Hk : exists k, n = S k) by (exists (n - 1)%nat; lia).
  destruct Hk as [k ->]. replace (S k - 1)%nat with k in * by lia.
  pose proof (nth_is_u16 v k Hv) as Hv16. unfold is_u16 in Hv16.
  unfold algorithm_d.
  rewrite (assert_true (0 <? S k)%nat) by reflexivity.
  replace (S k - 1)%nat with k by lia.
  rewrite (assert_true (negb (v.[k] =? 0))) by
    (apply negb_true_iff, Z.eqb_neq; assumption).
  cbn [mbind option_bind].
  destruct (Nat.eqb_spec (S k) 1) as [|_]; [lia|].
  set (u1 := <[(m + S k)%nat := 0]> u).
  assert (Hu1 : Forall is_u16 u1).
  { apply Forall_insert_u16; [assumption|unfold is_u16; lia]. }
  assert (Hlu1 : length u1 = (m + S k + 1)%nat) by (subst u1; rewrite length_insert; lia).
  assert (Htop : u1.[m + S k] = 0) by (subst u1; apply nth_insert_eq; lia).
  assert (Hvu1 : value B16 u1 = value B16 (take (m + S k) u)).
  { rewrite (value_split u1 (m + S k)) by lia.
    rewrite (value_drop_S u1 (m + S k)), Htop, (drop_ge u1 (S (m + S k))) by lia.
    subst u1. rewrite take_insert_ge by lia. simpl. lia. }
  destruct (leading_zeros_spec v.[k]) as (s & Hlz & Hs & Hnorm);
    [unfold is_u16; lia|assumption|].
  rewrite Hlz. cbn [mbind option_bind].
  destruct (normalize_spec m (S k) u1 v s Hn Hlv Hv Hu1 Hlu1 Htop Hs)
    as (u2 & v' & Hnrm & Hlu2 & Hu2 & Hlv' & Hv' & Hvalu2 & Hvalv').
  { replace (S k - 1)%nat with k by lia. lia. }
  { replace (S k - 1)%nat with k by lia. lia. }
  rewrite Hnrm. cbn [mbind option_bind].
  assert (HP : 0 < 2 ^ Z.of_nat s) by (apply Z.pow_pos_nonneg; lia).
  pose proof (pow16_pos k) as HBk.
  pose proof (top_place_bound v k Hv Hlv) as [Hvlo _].
  assert (HVk : B16 ^ Z.of_nat k <= value B16 v) by (clear - Hvlo HBk Hv1 Hv16; nia).
  assert (Hv1' : v'.[S k - 1] <> 0).
  { replace (S k - 1)%nat with k by lia.
    apply top_place_nonzero; [assumption|assumption|].
    rewrite Hvalv'. clear - HVk HP HBk. nia. }
  pose proof (value_u16_bound (take (m + S k) u) (Forall_take _ _ _ Hu)) as Hub.
  rewrite length_take_le in Hub by lia.
  destruct (algorithm_d_loop_spec (S k) v' Hn Hlv' Hv' Hv1' (m + 1) u2 q)
    as (u3 & qd & Hloop & Hlqd & Hqd & Hlu3 & Hu3 & Hval3 & Hb3).
  { assumption. }
  { lia. }
  { assumption. }
  { rewrite Hvalu2, Hvalv', Hvu1.
    assert (HE : B16 ^ Z.of_nat (m + S k) = B16 ^ Z.of_nat k * B16 ^ Z.of_nat (m + 1)).
    { rewrite <- pow16_add. f_equal. lia. }
    rewrite HE in Hub. pose proof (pow16_pos (m + 1)) as HBm.
    assert (value B16 (take (m + S k) u) < value B16 v * B16 ^ Z.of_nat (m + 1))
      by (clear - Hub HVk HBm; nia).
    rewrite <- Z.mul_assoc, (Z.mul_comm (2 ^ _)), Z.mul_assoc.
    apply Z.mul_lt_mono_pos_r; assumption. }
  rewrite Hloop. cbn [mbind option_bind].
  pose proof (value_u16_bound v' Hv') as Hvb'. rewrite Hlv' in Hvb'.
  assert (Hz3 : value B16 (drop (S k) u3) = 0).
  { apply value_high_zero; [assumption|lia|]. clear - Hb3 Hvb'. lia. }
  destruct (value_low u3 (S k) Hu3 ltac:(lia) Hz3) as [Hlow3 _].
  destruct (scaled_division (value B16 (take (m + S k) u)) (value B16 v)
              (value B16 qd) (value B16 u3) (2 ^ Z.of_nat s)
              (value B16 (take (m + S k) u) - value B16 qd * value B16 v))
    as [HX HXb].
  { assumption. }
  { rewrite <- Hvu1, <- Hvalu2, <- Hvalv'. exact Hval3. }
  { rewrite <- Hvalv'. exact Hb3. }
  { reflexivity. }
  destruct (unnormalize_spec (S k) u3 s _ Hu3 ltac:(lia) Hs
              (eq_trans (eq_sym Hlow3) HX))
    as (u4 & Hun & Hlu4 & Hu4 & Hval4).
  rewrite Hun. cbn [mbind option_bind].
  exists u4, v', qd. split; [reflexivity|]. split; [assumption|].
  split; [assumption|].
  split; [rewrite Hlu4, Hlu3, Hlu2; subst u1; apply length_insert|].
  split; [assumption|]. rewrite Hval4. split; [lia|exact HXb].
Qed.

(** [algorithm_d] on [m + n] dividend places and [n] divisor places, with
    one spare place in [u]: it returns, the low [m + 1] places of [q] are the
    quotient and the low [n] places of [u] the remainder. *)
Lemma algorithm_d_spec m n (u v q : list Z) :
  (0 < n)%nat -> length v = n -> Forall is_u16 v -> v.[n - 1] <> 0 ->
  Forall is_u16 u -> length u = (m + n + 1)%nat -> (m + 1 <= length q)%nat ->
  exists u' v' qd,
    algorithm_d m n u v q = Some (u', v', qd ++ drop (m + 1) q) /\
    length qd = (m + 1)%nat /\ Forall is_u16 qd /\
    length u' = length u /\ Forall is_u16 (take n u') /\
    value B16 (take (m + n) u) =
      value B16 qd * value B16 v + value B16 (take n u') /\
    0 <= value B16 (take n u') < value B16 v.
Proof.
  intros Hn Hlv Hv Hv1 Hu Hlu Hlq.
  destruct (decide (n = 1%nat)) as [->|Hne].
  - destruct (algorithm_d_spec_one m u v q Hlv Hv Hv1 Hu ltac:(lia) Hlq)
      as (u' & qd & H). exists u', v, qd. exact H.
  - apply algorithm_d_spec_long; try assumption. lia.
Qed.

(** ** Algorithm D reads only the first [n] places of the divisor *)

Lemma for_loop_ext {S} lo cnt (f g : nat -> S -> S) s :
  (forall i st, (lo <= i < lo + cnt)%nat -> f i st = g i st) ->
  for_loop lo cnt f s = for_loop lo cnt g s.
Proof.
  intros H. induction cnt as [|cnt IH].
  - reflexivity.
  - rewrite !for_loop_S, IH by (intros; apply H; lia). apply H. lia.
Qed.

Lemma mulsub_body_take n j qhat (v : list Z) i st :
  (i <= n)%nat -> mulsub_body n j qhat (take n v) i st = mulsub_body n j qhat v i st.
Proof.
  intros Hi. unfold mulsub_body. destruct st as [u k].
  destruct (Nat.eqb_spec i n); [reflexivity|].
  rewrite nth_take by lia. reflexivity.
Qed.

Lemma addback_body_take n j (v : list Z) i st :
  (i < n)%nat -> addback_body j (take n v) i st = addback_body j v i st.
Proof.
  intros Hi. unfold addback_body. destruct st as [u k].
  rewrite nth_take by lia. reflexivity.
Qed.

Lemma algorithm_d_step_take n (v : list Z) j st :
  (2 <= n)%nat -> algorithm_d_step n (take n v) j st = algorithm_d_step n v j st.
Proof.
  intros Hn. unfold algorithm_d_step. destruct st as [u q].
  rewrite !nth_take by lia.
  destruct (qhat_loop _ _ _ _ _ _ _) as [[qhat rhat]|]; [|reflexivity].
  cbn [mbind option_bind].
  rewrite (for_loop_ext 0 (n + 1) (mulsub_body n j qhat (take n v))
             (mulsub_body n j qhat v))
    by (intros; apply mulsub_body_take; lia).
  destruct (for_loop 0 (n + 1) _ _) as [u1 k1].
  destruct (negb (k1 =? 0)); [|reflexivity].
  rewrite (for_loop_ext 0 n (addback_body j (take n v)) (addback_body j v))
    by (intros; apply addback_body_take; lia).
  reflexivity.
Qed.

(** C4. In a round of long division ([n >= 2], 16-bit places, the divisor
    in the first [n] places of [v] with [v[n-1]] nonzero) at a position [j]
    where the dividend is below the divisor scaled by [B16 ^ (j + 1)], as it
    is at every position of the main loop, the estimate [qhat] that leaves
    the correction loop is the exact quotient digit [Q] or [Q + 1]; the round
    returns, stores exactly [Q] in [q[j]] (after at most the one add-back of
    the round), and leaves the dividend reduced by [Q] times the scaled
    divisor. *)
Theorem algorithm_d_step_exact n j (u v q : list Z) :
  (2 <= n <= length v)%nat -> Forall is_u16 v -> v.[n - 1] <> 0 ->
  Forall is_u16 u -> (j + n < length u)%nat -> (j < length q)%nat ->
  value B16 u < value B16 (take n v) * B16 ^ Z.of_nat (j + 1) ->
  let Q := value B16 u / (value B16 (take n v) * B16 ^ Z.of_nat j) in
  let t := Z.lor (u32 (Z.shiftl u.[j + n] 16)) u.[j + n - 1] in
  exists qhat rhat u',
    qhat_loop qhat_fuel n v.[n - 1] v.[n - 2] u.[j + n - 2]
      (t / v.[n - 1]) (t mod v.[n - 1]) = Some (qhat, rhat) /\
    (qhat = Q \/ qhat = Q + 1) /\
    algorithm_d_step n v j (u, q) = Some (u', <[j := Q]> q) /\
    0 <= Q <= 65535 /\
    length u' = length u /\ Forall is_u16 u' /\
    value B16 u' = value B16 u - Q * (value B16 (take n v) * B16 ^ Z.of_nat j).
Proof.
  intros Hn Hv Hv1 Hu Hlu Hlq Hlt.
  pose proof (algorithm_d_step_spec n j u (take n v) q) as H.
  rewrite algorithm_d_step_take, !nth_take in H by lia.
  apply H; try assumption; try lia.
  - rewrite length_take. lia.
  - by apply Forall_take.
Qed.

Lemma algorithm_d_step_exact_witness :
  let u := [0; 0; 0; 1] in
  let v := [1; 0; 32768] in
  let Q := value B16 u / (value B16 (take 3 v) * B16 ^ Z.of_nat 0) in
  let t := Z.lor (u32 (Z.shiftl u.[0 + 3] 16)) u.[0 + 3 - 1] in
  exists qhat rhat u',
    qhat_loop qhat_fuel 3 v.[3 - 1] v.[3 - 2] u.[0 + 3 - 2]
      (t / v.[3 - 1]) (t mod v.[3 - 1]) = Some (qhat, rhat) /\
    (qhat = Q \/ qhat = Q + 1) /\
    algorithm_d_step 3 v 0 (u, [0]) = Some (u', <[0%nat := Q]> [0]) /\
    0 <= Q <= 65535 /\
    length u' = length u /\ Forall is_u16 u' /\
    value B16 u' = value B16 u - Q * (value B16 (take 3 v) * B16 ^ Z.of_nat 0).
Proof.
  intros u v.
  apply (algorithm_d_step_exact 3 0 u v [0]).
  - simpl. lia.
  - repeat constructor; unfold is_u16; lia.
  - simpl. lia.
  - repeat constructor; unfold is_u16; lia.
  - simpl. lia.
  - simpl. lia.
  - vm_compute. reflexivity.
Defined.

Lemma algorithm_d_loop_take n (v : list Z) j1 :
  (2 <= n)%nat ->
  forall st, algorithm_d_loop j1 n (take n v) st = algorithm_d_loop j1 n v st.
Proof.
  intros Hn. induction j1 as [|j IH]; intros st; [reflexivity|].
  cbn [algorithm_d_loop]. rewrite algorithm_d_step_take by assumption.
  destruct (algorithm_d_step n v j st); [|reflexivity]. apply IH.
Qed.

Lemma nth_app_l (a b : list Z) i : (i < length a)%nat -> (a ++ b).[i] = a.[i].
Proof. intros. apply app_nth1. assumption. Qed.

Lemma shift_left_loop_app m (a b : list Z) i :
  (i <= length a)%nat ->
  for_loop 0 i (shift_left_body m) (a ++ b, 0) =
  (let '(a', k) := for_loop 0 i (shift_left_body m) (a, 0) in (a' ++ b, k)) /\
  length (for_loop 0 i (shift_left_body m) (a, 0)).1 = length a.
Proof.
  induction i as [|i IH]; intros Hi.
  - split; reflexivity.
  - destruct IH as [IH Hlen]; [lia|].
    rewrite !for_loop_S, IH. simpl plus.
    destruct (for_loop 0 i (shift_left_body m) (a, 0)) as [a' k].
    simpl in Hlen. cbn [shift_left_body fst].
    rewrite nth_app_l by lia. rewrite insert_app_l by lia.
    rewrite length_insert. split; [reflexivity|assumption].
Qed.

Lemma shift_left_app m (a b : list Z) :
  shift_left (length a) (a ++ b) m =
  a' ← shift_left (length a) a m; Some (a' ++ b).
Proof.
  unfold shift_left.
  destruct (assert (0 <? m)); [|reflexivity].
  destruct (assert (m <? 16)); [|reflexivity]. cbn [mbind option_bind].
  destruct (shift_left_loop_app m a b (length a) ltac:(lia)) as [-> _].
  destruct (for_loop 0 (length a) (shift_left_body m) (a, 0)) as [a' k].
  destruct (assert (k =? 0)); reflexivity.
Qed.

(** [algorithm_d] with a divisor array longer than [n] behaves as with its
    first [n] places, and leaves the others as they are. *)
Lemma algorithm_d_take m n (u v q : list Z) :
  (0 < n <= length v)%nat ->
  algorithm_d m n u v q =
  '(u', v', q') ← algorithm_d m n u (take n v) q; Some (u', v' ++ drop n v, q').
Proof.
  intros Hn. unfold algorithm_d.
  destruct (assert (0 <? n)%nat); [|reflexivity]. cbn [mbind option_bind].
  rewrite !nth_take by lia.
  destruct (assert (negb (v.[n - 1] =? 0))); [|reflexivity]. cbn [mbind option_bind].
  destruct (Nat.eqb_spec n 1) as [->|Hne].
  - destruct (short_division _ _ _ _ _) as [[r s]|]; [|reflexivity].
    cbn [mbind option_bind].
    destruct (s !! P_U); [|reflexivity]. cbn [mbind option_bind].
    destruct (s !! P_Q); [|reflexivity]. cbn [mbind option_bind].
    rewrite take_drop. reflexivity.
  - destruct (leading_zeros v.[n - 1]) as [s|]; [|reflexivity].
    cbn [mbind option_bind].
    assert (Hl : length (take n v) = n) by (rewrite length_take; lia).
    destruct (negb (s =? 0)%nat) eqn:Hs.
    + rewrite <- (take_drop n v) at 1. rewrite <- Hl at 1.
      rewrite shift_left_app. rewrite Hl.
      destruct (shift_left n (take n v) (Z.of_nat s)) as [v'|] eqn:Hsl;
        [|reflexivity].
      cbn [mbind option_bind].
      destruct (shift_left (m + n + 1) _ _) as [u'|]; [|reflexivity].
      cbn [mbind option_bind].
      assert (Hlv' : length v' = n).
      { unfold shift_left in Hsl.
        destruct (assert (0 <? Z.of_nat s)); [|discriminate].
        destruct (assert (Z.of_nat s <? 16)); [|discriminate].
        cbn [mbind option_bind] in Hsl.
        pose proof (shift_left_loop_app (Z.of_nat s) (take n v) [] n ltac:(lia))
          as [_ Hlen].
        destruct (for_loop 0 n _ _) as [a k]. simpl in Hlen.
        destruct (assert (k =? 0)); [|discriminate].
        cbn [mbind option_bind] in Hsl. congruence. }
      rewrite <- (algorithm_d_loop_take n (v' ++ drop n v)) by lia.
      rewrite take_app_length' by (symmetry; assumption).
      destruct (algorithm_d_loop (m + 1) n v' (u', q)) as [[u3 q3]|]; [|reflexivity].
      cbn [mbind option_bind].
      destruct (shift_right n u3 (Z.of_nat s)); reflexivity.
    + cbn [mbind option_bind].
      rewrite (algorithm_d_loop_take n v) by lia.
      destruct (algorithm_d_loop (m + 1) n v _) as [[u3 q3]|]; [|reflexivity].
      cbn [mbind option_bind]. rewrite take_drop. reflexivity.
Qed.

(** ** The half-limb bridge *)

Lemma split16_app a b : split16 (a ++ b) = split16 a ++ split16 b.
Proof. unfold split16. apply flat_map_app. Qed.

Lemma split16_length l : length (split16 l) = (length l * 2)%nat.
Proof. induction l as [|x l IH]; simpl; [reflexivity|]. rewrite IH. lia. Qed.

Lemma split16_u16 l : Forall is_u32 l -> Forall is_u16 (split16 l).
Proof.
  induction 1 as [|x l Hx Hl IH]; simpl; [constructor|].
  unfold is_u32 in Hx. constructor; [|constructor; [|assumption]].
  - unfold is_u16. pose proof (Z.mod_pos_bound x 65536). lia.
  - unfold is_u16. split; [apply Z.div_pos; lia|].
    assert (x / 65536 < 65536) by (apply Z.div_lt_upper_bound; lia). lia.
Qed.

Lemma split16_value l : value B16 (split16 l) = value B32 l.
Proof.
  induction l as [|x l IH]; simpl; [reflexivity|].
  rewrite IH. pose proof (Z.div_mod x 65536 ltac:(lia)). unfold B16, B32. lia.
Qed.

Lemma split16_nth_odd l i :
  (i < length l)%nat -> (split16 l).[i * 2 + 1] = l.[i] / 65536.
Proof.
  revert i. induction l as [|x l IH]; intros i Hi; simpl in Hi; [lia|].
  destruct i as [|i]; [reflexivity|]. simpl. apply IH. lia.
Qed.

Lemma split16_nth_even l i :
  (i < length l)%nat -> (split16 l).[i * 2] = l.[i] mod 65536.
Proof.
  revert i. induction l as [|x l IH]; intros i Hi; simpl in Hi; [lia|].
  destruct i as [|i]; [reflexivity|]. simpl. apply IH. lia.
Qed.

Lemma insert_pair (pre rest : list Z) a b i :
  length pre = i -> (2 <= length rest)%nat ->
  <[(i + 1)%nat := b]> (<[(i + 0)%nat := a]> (pre ++ rest)) =
  (pre ++ [a; b]) ++ drop 2 rest.
Proof.
  intros <- Hr. destruct rest as [|x [|y rest]]; simpl in Hr; try lia.
  rewrite !insert_app_r. simpl. rewrite <- app_assoc. reflexivity.
Qed.

Lemma u32_to_u16_spec n (a32 a16 : list Z) :
  Forall is_u32 a32 -> (n <= length a32)%nat -> (n * 2 <= length a16)%nat ->
  u32_to_u16 n a32 a16 = split16 (take n a32) ++ drop (n * 2) a16.
Proof.
  intros Hu. unfold u32_to_u16. induction n as [|n IH]; intros H32 H16.
  - rewrite for_loop_0, drop_0. reflexivity.
  - rewrite for_loop_S, IH by lia. simpl plus.
    rewrite (take_S_r a32 n a32.[n]) by (apply lookup_nth; lia).
    rewrite split16_app. unfold split16 at 3. simpl flat_map.
    assert (Hx : is_u32 a32.[n]) by (apply nth_Forall; [assumption|lia]).
    unfold is_u32 in Hx.
    rewrite insert_pair.
    + rewrite drop_drop. f_equal.
      * f_equal. unfold u16. rewrite shiftr16. f_equal. f_equal.
        apply Z.mod_small. split; [apply Z.div_pos; lia|].
        apply Z.div_lt_upper_bound; lia.
      * f_equal. lia.
    + rewrite split16_length, length_take. lia.
    + rewrite length_drop. lia.
Qed.

Lemma lor_shiftl16_r lo hi :
  is_u16 lo -> is_u16 hi ->
  Z.lor lo (u32 (Z.shiftl hi 16)) = lo + 65536 * hi.
Proof. intros. rewrite Z.lor_comm, lor_shiftl16 by assumption. lia. Qed.

Lemma pow32_pow16 h : B32 ^ Z.of_nat h = B16 ^ Z.of_nat (h * 2).
Proof.
  rewrite Nat2Z.inj_mul, Z.mul_comm, Z.pow_mul_r by lia. reflexivity.
Qed.

Lemma u16_to_u32_loop k (a16 a32 : list Z) :
  Forall is_u16 (take (k * 2) a16) -> (k * 2 <= length a16)%nat ->
  (k <= length a32)%nat ->
  exists ds,
    for_loop 0 k
      (fun h a =>
         let i := (2 * h)%nat in
         <[(i / 2)%nat := Z.lor a16.[i] (u32 (Z.shiftl a16.[i + 1] 16))]> a)
      a32 = ds ++ drop k a32 /\
    length ds = k /\ Forall is_u32 ds /\
    value B32 ds = value B16 (take (k * 2) a16).
Proof.
  induction k as [|k IH]; intros H16 Hl16 Hl32.
  - exists []. rewrite for_loop_0, drop_0. simpl. repeat split. constructor.
  - destruct IH as (ds & Hrun & Hlen & Hds & Hval).
    { replace (k * 2)%nat with (min (k * 2) (S k * 2)) by lia.
      rewrite <- take_take. by apply Forall_take. }
    { lia. }
    { lia. }
    rewrite for_loop_S, Hrun. simpl plus. cbv zeta.
    replace (2 * k / 2)%nat with k by (rewrite Nat.mul_comm, Nat.div_mul; lia).
    assert (Ha : is_u16 a16.[2 * k]).
    { rewrite <- (nth_take a16 (2 * k) (S k * 2)) by lia.
      apply nth_Forall; [assumption|]. rewrite length_take. lia. }
    assert (Hb : is_u16 a16.[2 * k + 1]).
    { rewrite <- (nth_take a16 (2 * k + 1) (S k * 2)) by lia.
      apply nth_Forall; [assumption|]. rewrite length_take. lia. }
    rewrite lor_shiftl16_r by assumption.
    set (x := a16.[2 * k] + 65536 * a16.[2 * k + 1]).
    exists (ds ++ [x]). split; [|split; [|split]].
    + rewrite <- Hlen at 1. rewrite <- (Nat.add_0_r (length ds)).
      rewrite insert_app_r. rewrite <- app_assoc. f_equal.
      rewrite (drop_S a32 a32.[k] k) by (apply lookup_nth; lia). reflexivity.
    + rewrite length_app, Hlen. simpl. lia.
    + apply Forall_app. split; [assumption|]. constructor; [|constructor].
      unfold is_u16 in Ha, Hb. unfold is_u32. subst x. lia.
    + rewrite value_snoc by (unfold B32; lia). rewrite Hlen, Hval.
      replace (S k * 2)%nat with (S (S (k * 2))) by lia.
      rewrite !(value_take_S B16) by (unfold B16; lia).
      rewrite pow32_pow16, pow16_S.
      replace (S (k * 2)) with (2 * k + 1)%nat by lia.
      replace (k * 2)%nat with (2 * k)%nat by lia.
      subst x. unfold B16. ring.
Qed.

Lemma u16_to_u32_spec k (a16 a32 : list Z) :
  Forall is_u16 (take (k * 2) a16) -> (k * 2 <= length a16)%nat ->
  (k <= length a32)%nat ->
  exists ds,
    u16_to_u32 (k * 2) a16 a32 = Some (ds ++ drop k a32) /\
    length ds = k /\ Forall is_u32 ds /\
    value B32 ds = value B16 (take (k * 2) a16).
Proof.
  intros H16 Hl16 Hl32. unfold u16_to_u32.
  rewrite assert_true by (apply Nat.eqb_eq; rewrite Nat.Div0.mod_mul; reflexivity).
  cbn [mbind option_bind].
  replace ((k * 2 + 1) / 2)%nat with k
    by (apply Nat.div_unique with (r := 1%nat); lia).
  destruct (u16_to_u32_loop k a16 a32 H16 Hl16 Hl32) as (ds & Hrun & H).
  cbv zeta in Hrun. rewrite Hrun.
  exists ds. split; [reflexivity|exact H].
Qed.

(** ** The division wrapper *)

Lemma drop_replicate_0 (k n : nat) : drop k (replicate n 0) = replicate (n - k) 0.
Proof. apply drop_replicate. Qed.

Lemma value_snoc_0 (l : list Z) : value B16 (l ++ [0]) = value B16 l.
Proof. rewrite value_snoc by (unfold B16; lia). lia. Qed.

Lemma take_succ_insert_0 (l : list Z) k :
  (k < length l)%nat -> take (S k) (<[k := 0]> l) = take k l ++ [0].
Proof.
  intros Hk. rewrite (take_S_r _ k 0).
  - rewrite take_insert_ge by lia. reflexivity.
  - apply list_lookup_insert_eq. assumption.
Qed.

Section Wrapper.
Variables (m n : nat) (u v q r : list Z).
Hypothesis Hn : (0 < n)%nat.
Hypothesis Hlu : length u = (m + n)%nat.
Hypothesis Hlv : length v = n.
Hypothesis Hu : Forall is_u32 u.
Hypothesis Hv : Forall is_u32 v.
Hypothesis Hv1 : v.[n - 1] <> 0.
Hypothesis Hlq : length q = (m + 1)%nat.
Hypothesis Hlr : length r = n.

Local Abbreviation U16 := (split16 u ++ [0]).
Local Abbreviation V16 := (split16 v).

Lemma wrapper_u16 :
  u32_to_u16 (m + n) u (replicate ((m + n) * 2 + 1) 0) = U16.
Proof.
  rewrite u32_to_u16_spec by (rewrite ?length_replicate; (assumption || lia)).
  rewrite take_ge by lia. rewrite drop_replicate_0.
  replace ((m + n) * 2 + 1 - (m + n) * 2)%nat with 1%nat by lia. reflexivity.
Qed.

Lemma wrapper_v16 : u32_to_u16 n v (replicate (n * 2) 0) = V16.
Proof.
  rewrite u32_to_u16_spec by (rewrite ?length_replicate; (assumption || lia)).
  rewrite take_ge by lia. rewrite drop_replicate_0.
  replace (n * 2 - n * 2)%nat with 0%nat by lia. apply app_nil_r.
Qed.

Lemma wrapper_U16_facts :
  Forall is_u16 U16 /\ length U16 = ((m + n) * 2 + 1)%nat /\
  take ((m + n) * 2) U16 = split16 u.
Proof.
  split; [|split].
  - apply Forall_app. split; [by apply split16_u16|].
    repeat constructor; unfold is_u16; lia.
  - rewrite length_app, split16_length, Hlu. simpl. lia.
  - apply take_app_length'. rewrite split16_length. lia.
Qed.

Lemma wrapper_V16_facts :
  Forall is_u16 V16 /\ length V16 = (n * 2)%nat /\
  V16.[n * 2 - 1] = v.[n - 1] / 65536 /\
  V16.[n * 2 - 2] = v.[n - 1] mod 65536.
Proof.
  split; [by apply split16_u16|]. split; [rewrite split16_length; lia|].
  split.
  - replace (n * 2 - 1)%nat with ((n - 1) * 2 + 1)%nat by lia.
    apply split16_nth_odd. lia.
  - replace (n * 2 - 2)%nat with ((n - 1) * 2)%nat by lia.
    apply split16_nth_even. lia.
Qed.

(** The wrapper returns, and its results are the quotient and the
    remainder of the 32-bit arrays. *)
Lemma algorithm_d_wrapper_spec :
  exists q' r',
    algorithm_d_wrapper m n u v q r = Some (q', r') /\
    length q' = (m + 1)%nat /\ length r' = n /\
    Forall is_u32 q' /\ Forall is_u32 r' /\
    value B32 u = value B32 q' * value B32 v + value B32 r' /\
    0 <= value B32 r' < value B32 v.
Proof.
  destruct wrapper_U16_facts as (HU & HlU & HtU).
  destruct wrapper_V16_facts as (HV & HlV & Htop & Hsub).
  assert (Hv32 : is_u32 v.[n - 1]) by (apply nth_Forall; [assumption|lia]).
  unfold is_u32 in Hv32.
  unfold algorithm_d_wrapper.
  rewrite (assert_true (0 <? n)%nat) by (apply Nat.ltb_lt; lia).
  rewrite (assert_true (negb (v.[n - 1] =? 0))) by
    (apply negb_true_iff, Z.eqb_neq; assumption).
  cbn [mbind option_bind]. rewrite wrapper_u16, wrapper_v16, Htop.
  destruct (Z.eqb_spec (v.[n - 1] / 65536) 0) as [Hz|Hnz].
  - (* the top half-limb of the divisor is zero *)
    assert (Hlow : v.[n - 1] mod 65536 <> 0).
    { pose proof (Z.div_mod v.[n - 1] 65536 ltac:(lia)). lia. }
    rewrite algorithm_d_take by lia.
    destruct (algorithm_d_spec (m * 2 + 1) (n * 2 - 1) U16 (take (n * 2 - 1) V16)
                (replicate ((m + 1) * 2) 0))
      as (u' & v' & qd & Hrun & Hlqd & Hqd & Hlu' & Hu' & Hval & Hrem).
    { lia. }
    { rewrite length_take. lia. }
    { by apply Forall_take. }
    { rewrite nth_take by lia. replace (n * 2 - 1 - 1)%nat with (n * 2 - 2)%nat by lia.
      rewrite Hsub. assumption. }
    { assumption. }
    { lia. }
    { rewrite length_replicate. lia. }
    rewrite Hrun. cbn [mbind option_bind].
    rewrite drop_ge, app_nil_r by (rewrite length_replicate; lia).
    replace (m * 2 + 1 + (n * 2 - 1))%nat with ((m + n) * 2)%nat in Hval by lia.
    rewrite HtU, split16_value in Hval.
    assert (HvV : value B16 (take (n * 2 - 1) V16) = value B32 v).
    { rewrite <- split16_value. rewrite (value_split V16 (n * 2 - 1)) by lia.
      rewrite (value_drop_S V16 (n * 2 - 1)), Htop, Hz by lia.
      rewrite (drop_ge V16 (S (n * 2 - 1))) by lia. simpl. lia. }
    rewrite HvV in Hval, Hrem.
    destruct (u16_to_u32_spec (m + 1) qd q) as (q' & Hq' & Hlq' & Hq32 & Hvq).
    { by apply Forall_take. }
    { lia. }
    { lia. }
    rewrite Hq'. cbn [mbind option_bind].
    rewrite drop_ge, app_nil_r by lia.
    rewrite take_ge in Hvq by lia.
    assert (Htk : take (n * 2) (<[(n * 2 - 1)%nat := 0]> u') =
                  take (n * 2 - 1) u' ++ [0]).
    { replace (n * 2)%nat with (S (n * 2 - 1)) at 1 by lia.
      apply take_succ_insert_0. lia. }
    destruct (u16_to_u32_spec n (<[(n * 2 - 1)%nat := 0]> u') r)
      as (r' & Hr' & Hlr' & Hr32 & Hvr).
    { rewrite Htk. apply Forall_app. split; [assumption|].
      repeat constructor; unfold is_u16; lia. }
    { rewrite length_insert. lia. }
    { lia. }
    rewrite Hr'. cbn [mbind option_bind].
    rewrite drop_ge, app_nil_r by lia.
    rewrite Htk, value_snoc_0 in Hvr.
    exists q', r'. split; [reflexivity|].
    rewrite Hvq, Hvr. repeat split; try assumption; lia.
  - (* the divisor has all its half-limbs *)
    destruct (algorithm_d_spec (m * 2 + 0) (n * 2 - 0) U16 V16
                (replicate ((m + 1) * 2) 0))
      as (u' & v' & qd & Hrun & Hlqd & Hqd & Hlu' & Hu' & Hval & Hrem).
    { lia. }
    { lia. }
    { assumption. }
    { replace (n * 2 - 0 - 1)%nat with (n * 2 - 1)%nat by lia.
      rewrite Htop. assumption. }
    { assumption. }
    { lia. }
    { rewrite length_replicate. lia. }
    rewrite Hrun. cbn [mbind option_bind].
    rewrite drop_replicate_0.
    replace ((m + 1) * 2 - (m * 2 + 0 + 1))%nat with 1%nat by lia.
    replace (m * 2 + 0 + (n * 2 - 0))%nat with ((m + n) * 2)%nat in Hval by lia.
    rewrite HtU, split16_value in Hval.
    replace (n * 2 - 0)%nat with (n * 2)%nat in * by lia.
    rewrite split16_value in Hval, Hrem.
    assert (Hpad : <[((m + 1) * 2 - 1)%nat := 0]> (qd ++ replicate 1 0) = qd ++ [0]).
    { replace ((m + 1) * 2 - 1)%nat with (length qd + 0)%nat by lia.
      rewrite insert_app_r. reflexivity. }
    rewrite Hpad.
    destruct (u16_to_u32_spec (m + 1) (qd ++ [0]) q) as (q' & Hq' & Hlq' & Hq32 & Hvq).
    { apply Forall_take, Forall_app. split; [assumption|].
      repeat constructor; unfold is_u16; lia. }
    { rewrite length_app. simpl. lia. }
    { lia. }
    rewrite Hq'. cbn [mbind option_bind].
    rewrite drop_ge, app_nil_r by lia.
    rewrite take_ge, value_snoc_0 in Hvq by (rewrite length_app; simpl; lia).
    destruct (u16_to_u32_spec n u' r) as (r' & Hr' & Hlr' & Hr32 & Hvr).
    { assumption. }
    { lia. }
    { lia. }
    rewrite Hr'. cbn [mbind option_bind].
    rewrite drop_ge, app_nil_r by lia.
    exists q', r'. split; [reflexivity|].
    rewrite Hvq, Hvr. repeat split; try assumption; lia.
Qed.
End Wrapper.

(** ** The signed value *)

Lemma strip_zeros_spec n (u : list Z) :
  (strip_zeros n u <= n)%nat /\
  (strip_zeros n u <> 0%nat -> u.[strip_zeros n u - 1] <> 0) /\
  (forall B, value B (take (strip_zeros n u) u) = value B (take n u)).
Proof.
  induction n as [|n IH]; cbn [strip_zeros].
  - split; [lia|]. split; [lia|]. reflexivity.
  - destruct (Z.eqb_spec u.[n] 0) as [Hz|Hnz].
    + destruct IH as (H1 & H2 & H3). split; [lia|]. split; [assumption|].
      intros B. rewrite H3.
      destruct (decide (n < length u)%nat) as [Hlt|Hge].
      * rewrite (take_S_r u n 0) by (rewrite lookup_nth by lia; congruence).
        clear. induction (take n u) as [|x l IHl]; simpl; lia.
      * rewrite !take_ge by lia. reflexivity.
    + split; [lia|]. split; [|reflexivity].
      intros _. replace (S n - 1)%nat with n by lia. assumption.
Qed.

Lemma strip_zeros_canonical (l : list Z) :
  last l <> Some 0 -> strip_zeros (length l) l = length l.
Proof.
  intros Hlast. destruct (length l) as [|n] eqn:Hlen; [reflexivity|].
  cbn [strip_zeros]. rewrite last_lookup, Hlen in Hlast. simpl in Hlast.
  rewrite lookup_nth in Hlast by lia.
  destruct (Z.eqb_spec l.[n] 0) as [Hz|]; [|reflexivity].
  rewrite Hz in Hlast. congruence.
Qed.

Lemma bigint_create_spec n (u : list Z) neg :
  Forall is_u32 (take n u) -> (n <= length u)%nat ->
  let z := bigint_create n u neg in
  well_formed z /\ value B32 (data z) = value B32 (take n u) /\
  (data z <> [] -> negative z = neg).
Proof.
  intros Hu Hn. cbv zeta. unfold bigint_create.
  destruct (strip_zeros_spec n u) as (Hle & Hnz & Hval).
  destruct (Nat.eqb_spec (strip_zeros n u) 0) as [Hz|Hpos].
  - simpl. split; [|split].
    + split; [constructor|]. split; [simpl; congruence|reflexivity].
    + rewrite <- Hval, Hz. reflexivity.
    + congruence.
  - simpl. split; [|split].
    + split.
      * replace (strip_zeros n u) with (min (strip_zeros n u) n) by lia.
        rewrite <- take_take. by apply Forall_take.
      * split; simpl.
        -- rewrite last_lookup, length_take_le by lia.
           rewrite lookup_take_lt by lia.
           rewrite lookup_nth by lia.
           replace (Init.Nat.pred (strip_zeros n u)) with (strip_zeros n u - 1)%nat by lia.
           intros Heq. apply Hnz; [assumption|congruence].
        -- intros Hnil. apply (f_equal length) in Hnil.
           rewrite length_take_le in Hnil by lia. simpl in Hnil. lia.
    + apply Hval.
    + reflexivity.
Qed.

Lemma Forall_u32_bound (l : list Z) :
  Forall is_u32 l -> Forall (fun x => 0 <= x < B32) l.
Proof. intros H. eapply Forall_impl; [exact H|]. unfold is_u32, B32. intros; lia. Qed.

Lemma value_u32_bound (l : list Z) :
  Forall is_u32 l -> 0 <= value B32 l < B32 ^ Z.of_nat (length l).
Proof. intros H. apply value_bound; [unfold B32; lia|]. by apply Forall_u32_bound. Qed.

(** The magnitude of a well-formed value with [k + 1] limbs is at least
    [B32 ^ k]. *)
Lemma magnitude_lower (x : bigint_t) :
  well_formed x -> data x <> [] ->
  B32 ^ Z.of_nat (length (data x) - 1) <= value B32 (data x).
Proof.
  intros (Hu & Hlast & _) Hne.
  destruct (data x) as [|a l] eqn:Hd using rev_ind; [congruence|]. clear IHl.
  rewrite last_snoc in Hlast.
  rewrite value_snoc by (unfold B32; lia).
  rewrite length_app. simpl. replace (length l + 1 - 1)%nat with (length l) by lia.
  apply Forall_app in Hu as [Hl Ha]. inversion Ha as [|? ? Ha' _]; subst.
  pose proof (value_u32_bound l Hl). unfold is_u32 in Ha'.
  assert (a <> 0) by congruence.
  assert (0 < B32 ^ Z.of_nat (length l)) by (apply Z.pow_pos_nonneg; unfold B32; lia).
  nia.
Qed.

Lemma magnitude_shorter (x y : bigint_t) :
  well_formed x -> well_formed y ->
  (length (data x) < length (data y))%nat ->
  value B32 (data x) < value B32 (data y).
Proof.
  intros Hx Hy Hlt.
  pose proof (value_u32_bound (data x) (proj1 Hx)) as Hb.
  assert (Hne : data y <> []) by (destruct (data y); [simpl in Hlt; lia|congruence]).
  pose proof (magnitude_lower y Hy Hne) as Hlo.
  assert (B32 ^ Z.of_nat (length (data x)) <= B32 ^ Z.of_nat (length (data y) - 1)).
  { apply Z.pow_le_mono_r; [unfold B32; lia|lia]. }
  lia.
Qed.

(** Truncating division of signed magnitudes. *)
Lemma signed_division (sx sy : bool) X Y Q R :
  0 <= R < Y -> 0 <= Q -> X = Q * Y + R ->
  Z.quot (sign_of sx * X) (sign_of sy * Y) = sign_of (xorb sx sy) * Q /\
  Z.rem (sign_of sx * X) (sign_of sy * Y) = sign_of sx * R.
Proof.
  intros HR HQ HX.
  assert (Hq : Z.quot X Y = Q).
  { rewrite Z.quot_div_nonneg by nia. symmetry. apply (Z.div_unique_pos _ _ _ R); lia. }
  assert (Hr : Z.rem X Y = R).
  { rewrite Z.rem_mod_nonneg by nia. symmetry. apply (Z.mod_unique_pos _ _ Q); lia. }
  destruct sx, sy; unfold sign_of; simpl xorb; cbv iota;
    rewrite ?Z.mul_1_l;
    replace (-1 * X) with (- X) by lia; replace (-1 * Y) with (- Y) by lia;
    rewrite ?Z.quot_opp_opp, ?Z.quot_opp_l, ?Z.quot_opp_r,
            ?Z.rem_opp_opp, ?Z.rem_opp_l, ?Z.rem_opp_r by lia;
    rewrite ?Hq, ?Hr; split; lia.
Qed.

Lemma set_negative_to_Z z b :
  to_Z (set_negative z b) = sign_of b * value B32 (data z).
Proof. reflexivity. Qed.

Section DivRem.
Variables x y : bigint_t.
Hypothesis Hx : well_formed x.
Hypothesis Hy : well_formed y.
Hypothesis Hnz : bigint_is_zero y = false.

Lemma divisor_nonempty : data y <> [] /\ (0 < length (data y))%nat.
Proof.
  unfold bigint_is_zero in Hnz. apply Nat.eqb_neq in Hnz.
  split; [|lia]. intros E. rewrite E in Hnz. simpl in Hnz. lia.
Qed.

Lemma divisor_top : (data y).[length (data y) - 1] <> 0.
Proof.
  destruct Hy as (_ & Hlast & _). destruct divisor_nonempty as [_ Hlen].
  rewrite last_lookup in Hlast.
  replace (Init.Nat.pred (length (data y))) with (length (data y) - 1)%nat in Hlast by lia.
  rewrite lookup_nth in Hlast by lia. congruence.
Qed.

(** [divrem] on the magnitudes, when the dividend is not shorter. *)
Lemma divrem_spec (remainder : bool) :
  (length (data y) <= length (data x))%nat ->
  exists z Q R,
    divrem (length (data x)) (data x) (length (data y)) (data y) remainder = Some z /\
    well_formed z /\ 0 <= R < value B32 (data y) /\ 0 <= Q /\
    value B32 (data x) = Q * value B32 (data y) + R /\
    value B32 (data z) = (if remainder then R else Q).
Proof.
  intros Hle. destruct divisor_nonempty as [_ Hlen].
  set (m := (length (data x) - length (data y))%nat).
  destruct (algorithm_d_wrapper_spec m (length (data y)) (data x) (data y)
              (replicate (m + 1) 0) (replicate (length (data y)) 0))
    as (q' & r' & Hrun & Hlq & Hlr & Hq & Hr & Hval & Hrem).
  { assumption. }
  { subst m. lia. }
  { reflexivity. }
  { exact (proj1 Hx). }
  { exact (proj1 Hy). }
  { exact divisor_top. }
  { apply length_replicate. }
  { apply length_replicate. }
  unfold divrem. fold m.
  rewrite (assert_true (_ <=? _)%nat) by (apply Nat.leb_le; assumption).
  cbn [mbind option_bind]. rewrite Hrun. cbn [mbind option_bind].
  pose proof (value_u32_bound q' Hq) as HQb.
  destruct remainder.
  - destruct (bigint_create_spec (length (data y)) r' false) as (Hwf & Hv & _).
    { by apply Forall_take. }
    { lia. }
    rewrite take_ge in Hv by lia.
    eexists _, (value B32 q'), (value B32 r'). split; [reflexivity|].
    repeat split; try assumption; try lia; apply Hwf.
  - destruct (bigint_create_spec (m + 1) q' false) as (Hwf & Hv & _).
    { by apply Forall_take. }
    { lia. }
    rewrite take_ge in Hv by lia.
    eexists _, (value B32 q'), (value B32 r'). split; [reflexivity|].
    repeat split; try assumption; try lia; apply Hwf.
Qed.

(** Both operations return; the results are the truncated quotient and
    the remainder of the represented integers. *)
Lemma bigint_div_rem_spec :
  exists q r,
    bigint_div x y = Some q /\ bigint_rem x y = Some r /\
    to_Z q = Z.quot (to_Z x) (to_Z y) /\
    to_Z r = Z.rem (to_Z x) (to_Z y).
Proof.
  destruct divisor_nonempty as [Hne Hlen].
  unfold bigint_div, bigint_rem.
  destruct (Nat.ltb_spec (length (data x)) (length (data y))) as [Hlt|Hge].
  - pose proof (magnitude_shorter x y Hx Hy Hlt) as Hsmall.
    pose proof (value_u32_bound (data x) (proj1 Hx)) as Hxb.
    destruct (signed_division (negative x) (negative y)
                (value B32 (data x)) (value B32 (data y)) 0 (value B32 (data x)))
      as [Hq Hr]; [lia|lia|lia|].
    eexists _, _. split; [reflexivity|]. cbn [mbind option_bind].
    split; [reflexivity|]. unfold to_Z at 2 3 5 6. rewrite Hq, Hr.
    rewrite set_negative_to_Z.
    destruct (bigint_create_spec (length (data x)) (data x) false) as (_ & Hv & _).
    { apply Forall_take. exact (proj1 Hx). }
    { lia. }
    rewrite take_ge in Hv by lia. rewrite Hv.
    split; [|reflexivity]. unfold bigint_create, to_Z. simpl. lia.
  - destruct (divrem_spec false Hge) as (zq & Q & R & Hrq & _ & HR & HQ & Hval & Hvq).
    destruct (divrem_spec true Hge) as (zr & Q' & R' & Hrr & _ & HR' & HQ' & Hval' & Hvr).
    assert (Q' = Q /\ R' = R) as [-> ->].
    { clear - HR HR' Hval Hval'. assert (Q = Q') by nia. subst Q'. split; [reflexivity|lia]. }
    rewrite Hrq, Hrr. cbn [mbind option_bind].
    eexists _, _. split; [reflexivity|]. split; [reflexivity|].
    rewrite !set_negative_to_Z, Hvq, Hvr. unfold to_Z.
    destruct (signed_division (negative x) (negative y)
                (value B32 (data x)) (value B32 (data y)) Q R HR HQ Hval)
      as [-> ->].
    split; reflexivity.
Qed.
End DivRem.

(** C1. For well-formed [x] and [y] with [y] nonzero, [bigint_div] and
    [bigint_rem] return; the quotient is [x / y] truncated toward zero, and
    the two results satisfy [x = q * y + r], [|r| < |y|], and the sign of
    [r] is zero or the sign of the dividend [x]. *)
Theorem bigint_division_identity (x y : bigint_t) :
  well_formed x -> well_formed y -> bigint_is_zero y = false ->
  exists q r,
    bigint_div x y = Some q /\ bigint_rem x y = Some r /\
    to_Z q = Z.quot (to_Z x) (to_Z y) /\
    to_Z x = to_Z q * to_Z y + to_Z r /\
    Z.abs (to_Z r) < Z.abs (to_Z y) /\
    (Z.sgn (to_Z r) = 0 \/ Z.sgn (to_Z r) = Z.sgn (to_Z x)).
Proof.
  intros Hx Hy Hnz.
  destruct (bigint_div_rem_spec x y Hx Hy Hnz) as (q & r & Hq & Hr & Hvq & Hvr).
  assert (Hy0 : to_Z y <> 0).
  { destruct (divisor_nonempty y Hnz) as [Hne _].
    pose proof (magnitude_lower y Hy Hne) as Hlo.
    assert (0 < B32 ^ Z.of_nat (length (data y) - 1))
      by (apply Z.pow_pos_nonneg; unfold B32; lia).
    unfold to_Z, sign_of. destruct (negative y); lia. }
  exists q, r. split; [assumption|]. split; [assumption|]. split; [assumption|].
  rewrite Hvq, Hvr. split; [|split].
  - rewrite Z.mul_comm. apply Z.quot_rem'.
  - apply Z.rem_bound_abs. assumption.
  - destruct (Z.eq_dec (Z.rem (to_Z x) (to_Z y)) 0) as [E|E].
    + left. rewrite E. reflexivity.
    + right. apply Z.rem_sign_nz; assumption.
Qed.

Lemma bigint_division_identity_witness :
  let x := {| negative := true; data := [17] |} in
  let y := {| negative := false; data := [5] |} in
  exists q r,
    bigint_div x y = Some q /\ bigint_rem x y = Some r /\
    to_Z q = Z.quot (to_Z x) (to_Z y) /\
    to_Z x = to_Z q * to_Z y + to_Z r /\
    Z.abs (to_Z r) < Z.abs (to_Z y) /\
    (Z.sgn (to_Z r) = 0 \/ Z.sgn (to_Z r) = Z.sgn (to_Z x)).
Proof.
  intros x y. apply (bigint_division_identity x y).
  - split; [repeat constructor; unfold is_u32; lia|].
    split; simpl; discriminate.
  - split; [repeat constructor; unfold is_u32; lia|].
    split; simpl; discriminate.
  - reflexivity.
Defined.

(** [bigint_neg] goes through [bigint_create] with the flipped sign and so
    returns a well-formed value. *)
Lemma bigint_neg_spec (x : bigint_t) :
  well_formed x ->
  well_formed (bigint_neg x) /\ to_Z (bigint_neg x) = - to_Z x.
Proof.
  intros Hx. unfold bigint_neg.
  destruct (bigint_create_spec (length (data x)) (data x) (xorb (negative x) true))
    as (Hwf & Hv & Hs).
  { apply Forall_take. exact (proj1 Hx). }
  { lia. }
  split; [exact Hwf|]. rewrite take_ge in Hv by lia.
  unfold to_Z. rewrite Hv.
  set (z := bigint_create _ _ _) in *.
  destruct (decide (data z = [])) as [E|E].
  - rewrite E in Hv. simpl in Hv. rewrite <- Hv. lia.
  - rewrite (Hs E). unfold sign_of. destruct (negative x); simpl; lia.
Qed.

(** ** Where the results are not canonical *)

(** C2 fails on the code.  [bigint_rem] sets the sign of its result to the
    sign of the dividend after [bigint_create] has made it canonical: for
    [x = -4] and [y = 2], both well-formed, it returns the magnitude zero
    with the negative flag set. *)
Theorem bigint_rem_returns_negative_zero :
  let x := {| negative := true; data := [4] |} in
  let y := {| negative := false; data := [2] |} in
  well_formed x /\ well_formed y /\ bigint_is_zero y = false /\
  bigint_rem x y = Some {| negative := true; data := [] |} /\
  ~ canonical {| negative := true; data := [] |}.
Proof.
  cbv zeta. split; [|split; [|split; [|split]]].
  - split; [repeat constructor; unfold is_u32; lia|]. split; simpl; discriminate.
  - split; [repeat constructor; unfold is_u32; lia|]. split; simpl; discriminate.
  - reflexivity.
  - vm_compute. reflexivity.
  - intros [_ H]. specialize (H eq_refl). discriminate.
Qed.

(** C3 fails on the code.  [bigint_div] returns the canonical zero only when
    the dividend has fewer limbs than the divisor; for [x = -1] and [y = 2],
    where [|x| < |y|] with equal lengths, it returns the magnitude zero with
    the negative flag set. *)
Theorem bigint_div_small_returns_negative_zero :
  let x := {| negative := true; data := [1] |} in
  let y := {| negative := false; data := [2] |} in
  well_formed x /\ well_formed y /\ bigint_is_zero y = false /\
  Z.abs (to_Z x) < Z.abs (to_Z y) /\
  bigint_div x y = Some {| negative := true; data := [] |}.
Proof.
  cbv zeta. split; [|split; [|split; [|split]]].
  - split; [repeat constructor; unfold is_u32; lia|]. split; simpl; discriminate.
  - split; [repeat constructor; unfold is_u32; lia|]. split; simpl; discriminate.
  - reflexivity.
  - vm_compute. reflexivity.
  - vm_compute. reflexivity.
Qed.

(** ** Decimal string to magnitude *)

Lemma mul_32_by_32_spec x y :
  is_u32 x -> is_u32 y ->
  let '(hi, lo) := mul_32_by_32 x y in
  is_u32 lo /\ 0 <= hi <= 4294967294 /\ lo + 4294967296 * hi = x * y.
Proof.
  unfold is_u32, mul_32_by_32. intros Hx Hy.
  assert (Hp : 0 <= x * y <= 4294967295 * 4294967295) by nia.
  rewrite (Z.mod_small (x * y)) by lia.
  rewrite Z.shiftr_div_pow2 by lia. change (2 ^ 32) with 4294967296.
  unfold u32. generalize dependent (x * y). intros p Hp.
  Z.div_mod_to_equations. lia.
Qed.

(** One place of the multiply-add pass. *)
Lemma multiply_add_digit a x k :
  is_u32 a -> is_u32 x -> is_u32 k ->
  let '(hi_prod, lo_prod) := mul_32_by_32 a x in
  let lo := u32 (lo_prod + k) in
  let k' := u32 (hi_prod + b2z (lo <? k)) in
  is_u32 lo /\ is_u32 k' /\ lo + 4294967296 * k' = a * x + k.
Proof.
  intros Ha Hx Hk. pose proof (mul_32_by_32_spec a x Ha Hx) as H.
  destruct (mul_32_by_32 a x) as [hi lo]. destruct H as (Hlo & Hhi & Hp).
  cbv zeta. rewrite <- Hp. clear Hp. unfold is_u32 in *. unfold u32, b2z.
  destruct (Z.ltb_spec ((lo + k) mod 4294967296) k);
    Z.div_mod_to_equations; lia.
Qed.

Lemma poke_spec (u : list Z) i x :
  (i < length u)%nat -> poke u i x = Some (<[i := x]> u).
Proof. intros H. unfold poke. destruct (decide (i < length u)%nat); [reflexivity|lia]. Qed.

Section MultiplyAdd.
Variables (u : list Z) (m : nat) (x y : Z).
Hypothesis Hm : (m <= length u)%nat.
Hypothesis Hu : Forall is_u32 (take m u).
Hypothesis Hx : is_u32 x.
Hypothesis Hy : is_u32 y.

Lemma multiply_add_loop_inv i :
  (i <= m)%nat ->
  exists u' k,
    for_loop_opt 0 i (multiply_add_body x) (u, y) = Some (u', k) /\
    length u' = length u /\ Forall is_u32 (take i u') /\ is_u32 k /\
    drop i u' = drop i u /\
    value B32 (take i u') + B32 ^ Z.of_nat i * k = value B32 (take i u) * x + y.
Proof.
  induction i as [|i IH]; intros Hi.
  - exists u, y. rewrite for_loop_opt_0, take_0, !drop_0. simpl.
    split; [reflexivity|]. split; [reflexivity|]. split; [constructor|].
    split; [assumption|]. split; [reflexivity|]. lia.
  - destruct IH as (u' & k & Hrun & Hlen & Hu' & Hk & Hdrop & Hval); [lia|].
    rewrite for_loop_opt_S, Hrun. simpl plus. cbn [mbind option_bind multiply_add_body].
    assert (Hai : u'.[i] = u.[i]) by (by apply drop_eq_nth).
    assert (Ha : is_u32 u.[i]).
    { rewrite <- (nth_take u i m) by lia.
      apply nth_Forall; [assumption|]. rewrite length_take. lia. }
    rewrite Hai.
    pose proof (multiply_add_digit u.[i] x k Ha Hx Hk) as Hd.
    destruct (mul_32_by_32 u.[i] x) as [hi lo].
    cbv zeta in Hd. destruct Hd as (Hlo & Hk' & Hacc).
    rewrite poke_spec by lia. cbn [mbind option_bind].
    eexists _, _. split; [reflexivity|]. rewrite length_insert.
    split; [assumption|]. split; [|split; [assumption|split]].
    + rewrite (take_S_r _ i (u32 (lo + k)))
        by (apply list_lookup_insert_eq; lia).
      rewrite take_insert_ge by lia.
      apply Forall_app. split; [assumption|]. constructor; [assumption|constructor].
    + rewrite drop_insert_lt by lia.
      replace (S i) with (i + 1)%nat by lia.
      rewrite <- !(drop_drop _ 1 i), Hdrop. reflexivity.
    + rewrite !(value_take_S B32) by (rewrite ?length_insert; unfold B32; lia).
      rewrite take_insert_ge by lia. rewrite nth_insert_eq by lia.
      rewrite Nat2Z.inj_succ, Z.pow_succ_r by lia.
      clear - Hval Hacc. unfold B32 in *. nia.
Qed.

(** With room for one more limb, [multiply_add] returns; the limb count
    grows by at most one and the value becomes [u * x + y]. *)
Lemma multiply_add_spec :
  (m < length u)%nat ->
  exists u' m',
    multiply_add u m x y = Some (u', m') /\
    length u' = length u /\ (m <= m' <= m + 1)%nat /\
    Forall is_u32 (take m' u') /\
    value B32 (take m' u') = value B32 (take m u) * x + y.
Proof.
  intros Hroom.
  destruct (multiply_add_loop_inv m ltac:(lia))
    as (u' & k & Hrun & Hlen & Hu' & Hk & Hdrop & Hval).
  unfold multiply_add. rewrite Hrun. cbn [mbind option_bind].
  destruct (Z.eqb_spec k 0) as [->|Hk0]; cbn [negb].
  - exists u', m. split; [reflexivity|]. split; [assumption|].
    split; [lia|]. split; [assumption|]. lia.
  - rewrite poke_spec by lia. cbn [mbind option_bind].
    exists (<[m := k]> u'), (S m). split; [reflexivity|].
    rewrite length_insert. split; [assumption|]. split; [lia|].
    rewrite (take_S_r _ m k) by (apply list_lookup_insert_eq; lia).
    rewrite take_insert_ge by lia. split.
    + apply Forall_app. split; [assumption|]. constructor; [assumption|constructor].
    + rewrite value_snoc by (unfold B32; lia).
      rewrite length_take_le by lia. lia.
Qed.
End MultiplyAdd.

(** *** Digits and decimal values *)

Lemma is_digit_value c : is_digit c <-> 0 <= digit_value c <= 9.
Proof. unfold is_digit, digit_value. lia. Qed.

Lemma decimal_value_snoc s c :
  decimal_value (s ++ [c]) = decimal_value s * 10 + digit_value c.
Proof. unfold decimal_value, digits_value. rewrite rev_unit. simpl. lia. Qed.

Lemma decimal_value_nil : decimal_value [] = 0.
Proof. reflexivity. Qed.

Lemma pow10s_nth r :
  (r < 9)%nat ->
  pow10s.[r] = 10 ^ Z.of_nat (if (r =? 0)%nat then 9 else r).
Proof.
  intros Hr. do 9 (destruct r as [|r]; [reflexivity|]). lia.
Qed.

Lemma lookup_ascii (s : list ascii) i :
  (i < length s)%nat -> s !! i = Some (nth i s NUL).
Proof.
  intros H. destruct (lookup_lt_is_Some_2 s i H) as [x Hx].
  rewrite Hx. f_equal. rewrite nth_lookup, Hx. reflexivity.
Qed.

(** Facts about [i / 9] and [i mod 9] for the arguments given. *)
Ltac div9 i :=
  pose proof (Nat.div_mod_eq i 9);
  pose proof (Nat.mod_upper_bound i 9 ltac:(lia)).

Section FromString.
Variables (n : nat) (str : list ascii) (u0 : list Z).
Hypothesis Hlen : length str = n.
Hypothesis Hdig : Forall is_digit str.
Hypothesis Hcap : (n / 9 < length u0)%nat.

(** The state of the loop after [i] characters: the limbs and the pending
    chunk together hold the value of the characters read, and the limb
    count is at most the number of [multiply_add] calls made. *)
Lemma from_string_inv i :
  (i <= n)%nat ->
  exists chunk u_len u,
    for_loop_opt 1 i (from_string_body n str) (0, 0%nat, u0) = Some (chunk, u_len, u) /\
    length u = length u0 /\
    0 <= chunk < 10 ^ Z.of_nat (if (i =? n)%nat then 0 else i mod 9) /\
    (u_len <= (if (i <? n)%nat then i / 9 else n / 9 + 1))%nat /\
    Forall is_u32 (take u_len u) /\
    decimal_value (take i str) =
      value B32 (take u_len u) * 10 ^ Z.of_nat (if (i =? n)%nat then 0 else i mod 9)
      + chunk.
Proof.
  induction i as [|i IH]; intros Hi.
  - exists 0, 0%nat, u0. rewrite for_loop_opt_0, take_0.
    split; [reflexivity|]. split; [reflexivity|].
    assert (E : (if (0 =? n)%nat then 0 else 0 mod 9)%nat = 0%nat)
      by (destruct (0 =? n)%nat; reflexivity).
    rewrite E. simpl. split; [lia|]. split; [|split; [constructor|reflexivity]].
    destruct (0 <? n)%nat; simpl; lia.
  - destruct IH as (chunk & u_len & u & Hrun & Hlu & Hchunk & Hcount & Hu & Hval);
      [lia|].
    destruct (Nat.eqb_spec i n) as [|_]; [lia|].
    destruct (Nat.ltb_spec i n) as [_|]; [|lia].
    rewrite for_loop_opt_S, Hrun. cbn [mbind option_bind from_string_body].
    replace (1 + i - 1)%nat with i by lia.
    assert (Hc : is_digit (nth i str NUL)).
    { rewrite Forall_lookup in Hdig. apply (Hdig i). apply lookup_ascii. lia. }
    rewrite (take_S_r str i (nth i str NUL)) by (apply lookup_ascii; lia).
    rewrite decimal_value_snoc, Hval.
    pose proof (proj1 (is_digit_value _) Hc) as Hd.
    unfold is_digit in Hc. unfold digit_value in *.
    set (c := char_code (nth i str NUL)) in *.
    rewrite assert_true by (apply andb_true_iff; split; apply Z.leb_le; lia).
    cbn [mbind option_bind].
    div9 i. div9 (1 + i)%nat. div9 n.
    set (p := (i mod 9)%nat) in *.
    assert (Hp10 : 10 ^ Z.of_nat (p + 1) = 10 ^ Z.of_nat p * 10).
    { rewrite Nat2Z.inj_add, Z.pow_add_r by lia. reflexivity. }
    assert (Hp9 : 10 ^ Z.of_nat (p + 1) <= 10 ^ 9).
    { apply Z.pow_le_mono_r; lia. }
    assert (Hpp : 0 < 10 ^ Z.of_nat p) by (apply Z.pow_pos_nonneg; lia).
    change (10 ^ 9) with 1000000000 in Hp9.
    rewrite (u32_small (chunk * 10 + c - 48)) by (unfold is_u32; lia).
    destruct ((1 + i) mod 9 =? 0)%nat eqn:E9; destruct (1 + i =? n)%nat eqn:En;
      cbn [orb]; apply Nat.eqb_eq in E9 || apply Nat.eqb_neq in E9;
      apply Nat.eqb_eq in En || apply Nat.eqb_neq in En.
    all: try (
      assert (Hmul : pow10s.[(1 + i) mod 9] = 10 ^ Z.of_nat (p + 1));
      [ rewrite pow10s_nth by lia;
        destruct (Nat.eqb_spec ((1 + i) mod 9) 0); f_equal; lia |];
      rewrite Hmul;
      destruct (multiply_add_spec u u_len (10 ^ Z.of_nat (p + 1)) (chunk * 10 + c - 48))
        as (u' & m' & Hma & Hlu' & Hm' & Hu' & Hval');
      [ lia | assumption | unfold is_u32; lia | unfold is_u32; lia | lia |];
      rewrite Hma; cbn [mbind option_bind];
      exists 0, m', u'; split; [reflexivity|]; split; [lia|];
      assert (E0 : (if (S i =? n)%nat then 0 else S i mod 9)%nat = 0%nat)
        by (destruct (Nat.eqb_spec (S i) n); [reflexivity|
              change (S i) with (1 + i)%nat; lia]);
      rewrite E0; split; [simpl; lia|]; split;
      [ destruct (Nat.ltb_spec (S i) n); change (S i) with (1 + i)%nat; lia |];
      split; [assumption|]; rewrite Hval', Hp10; simpl; lia).
    exists (chunk * 10 + c - 48), u_len, u. split; [reflexivity|]. split; [assumption|].
    assert (E1 : (if (S i =? n)%nat then 0 else S i mod 9)%nat = (p + 1)%nat).
    { destruct (Nat.eqb_spec (S i) n); change (S i) with (1 + i)%nat in *; lia. }
    rewrite E1, Hp10. split; [lia|]. split.
    + destruct (Nat.ltb_spec (S i) n); change (S i) with (1 + i)%nat in *; lia.
    + split; [assumption|]. lia.
Qed.
End FromString.

Lemma from_string_spec n (str : list ascii) (u0 : list Z) :
  length str = n -> Forall is_digit str -> (n / 9 < length u0)%nat ->
  exists u_len u,
    from_string n str u0 = Some (u_len, u) /\
    length u = length u0 /\ (u_len <= n / 9 + 1)%nat /\
    Forall is_u32 (take u_len u) /\
    value B32 (take u_len u) = decimal_value str.
Proof.
  intros Hlen Hdig Hcap.
  destruct (from_string_inv n str u0 Hlen Hdig Hcap n ltac:(lia))
    as (chunk & u_len & u & Hrun & Hlu & Hchunk & Hcount & Hu & Hval).
  rewrite Nat.eqb_refl in Hchunk, Hval. rewrite Nat.ltb_irrefl in Hcount.
  rewrite take_ge in Hval by lia. simpl in Hchunk, Hval.
  unfold from_string. rewrite Hrun. cbn [mbind option_bind].
  exists u_len, u. split; [reflexivity|]. split; [assumption|].
  split; [assumption|]. split; [assumption|]. lia.
Qed.

(** C9. For a string of [n] decimal digits and a buffer of at least
    [n / 9 + 1] limbs, [from_string] returns, so that none of the
    bounds-checked writes of its [multiply_add] passes falls outside the
    buffer, and the limb count it produces is at most [n / 9 + 1]. *)
Theorem from_string_limb_count n (str : list ascii) (u : list Z) :
  length str = n -> Forall is_digit str -> (n / 9 + 1 <= length u)%nat ->
  exists u_len u',
    from_string n str u = Some (u_len, u') /\
    (u_len <= n / 9 + 1)%nat /\ length u' = length u.
Proof.
  intros Hlen Hdig Hcap.
  destruct (from_string_spec n str u Hlen Hdig ltac:(lia))
    as (u_len & u' & Hrun & Hlu & Hcount & _).
  exists u_len, u'. split; [assumption|]. split; assumption.
Qed.

Lemma from_string_limb_count_witness :
  exists u_len u',
    from_string 10 (list_ascii_of_string "4294967296") (replicate (10 / 9 + 1) 0)
      = Some (u_len, u') /\
    (u_len <= 10 / 9 + 1)%nat /\ length u' = length (replicate (10 / 9 + 1) 0).
Proof.
  apply (from_string_limb_count 10 (list_ascii_of_string "4294967296")
           (replicate (10 / 9 + 1) 0)).
  - reflexivity.
  - simpl. repeat constructor; unfold is_digit; vm_compute; discriminate.
  - simpl. lia.
Defined.

(** ** Magnitude to decimal string *)

Lemma char_code_char_of x : 0 <= x < 256 -> char_code (char_of x) = x.
Proof.
  intros Hx. unfold char_code, char_of.
  rewrite nat_ascii_embedding by lia. lia.
Qed.

Lemma digit_char_value d : 0 <= d <= 9 -> digit_value (char_of (48 + d)) = d.
Proof. intros Hd. unfold digit_value. rewrite char_code_char_of by lia. lia. Qed.

Lemma digit_char_is_digit d : 0 <= d <= 9 -> is_digit (char_of (48 + d)).
Proof. intros Hd. unfold is_digit. rewrite char_code_char_of by lia. lia. Qed.

Lemma digit_char_zero d : 0 <= d <= 9 -> char_of (48 + d) = "0"%char -> d = 0.
Proof.
  intros Hd E. rewrite <- (digit_char_value d Hd), E. reflexivity.
Qed.

Lemma digits_value_app a b :
  digits_value (a ++ b) = digits_value a + 10 ^ Z.of_nat (length a) * digits_value b.
Proof.
  unfold digits_value. rewrite map_app, value_app by lia.
  rewrite length_map. reflexivity.
Qed.

Lemma emit_digits_spec fuel n :
  forall i k s,
    0 <= k <= 65535 ->
    (if (n =? 0)%nat then k < 10 ^ (Z.of_nat fuel - 1)
     else (i <= 4)%nat /\ (4 - i < fuel)%nat /\ k < 10 ^ Z.of_nat (4 - i)) ->
    exists digs,
      emit_digits fuel n i k s = Some (s ++ digs) /\
      Forall is_digit digs /\ digits_value digs = k /\
      (if (n =? 0)%nat
       then (k = 0 -> digs = []) /\ (k <> 0 -> last digs <> Some "0"%char /\ digs <> [])
       else length digs = (4 - i)%nat).
Proof.
  induction fuel as [|fuel IH]; intros i k s Hk Hcase.
  - destruct (n =? 0)%nat.
    + change (10 ^ (Z.of_nat 0 - 1)) with 0 in Hcase. lia.
    + lia.
  - cbn [emit_digits].
    pose proof (Z.div_mod k 10 ltac:(lia)) as Hdm.
    pose proof (Z.mod_pos_bound k 10 ltac:(lia)) as Hm.
    assert (Hk10 : 0 <= k / 10 <= 65535).
    { split; [apply Z.div_pos; lia|]. assert (k / 10 <= k); [|lia].
      apply Z.div_le_upper_bound; lia. }
    rewrite (u16_small (k / 10)) by (unfold is_u16; lia).
    destruct (Nat.eqb_spec n 0) as [Hn0|Hn0]; cbn [negb andb orb].
    + destruct (Z.eqb_spec k 0) as [->|Hk0]; cbn [negb].
      * exists []. rewrite app_nil_r. split; [reflexivity|].
        split; [constructor|]. split; [reflexivity|]. split; [reflexivity|congruence].
      * destruct (IH (S i) (k / 10) (s ++ [char_of (48 + k mod 10)]) Hk10)
          as (digs & Hrun & Hdigs & Hval & Hlast).
        { destruct (Nat.eqb_spec n 0); [|lia].
          replace (Z.of_nat (S fuel) - 1) with (Z.of_nat fuel) in Hcase by lia.
          destruct fuel as [|fuel]; [change (10 ^ Z.of_nat 0) with 1 in Hcase; lia|].
          replace (Z.of_nat (S fuel) - 1) with (Z.of_nat fuel) by lia.
          rewrite Nat2Z.inj_succ, Z.pow_succ_r in Hcase by lia.
          apply Z.div_lt_upper_bound; lia. }
        destruct (Nat.eqb_spec n 0); [|lia]. destruct Hlast as [Hz Hnz].
        exists (char_of (48 + k mod 10) :: digs).
        rewrite Hrun, <- app_assoc. split; [reflexivity|].
        split; [constructor; [apply digit_char_is_digit; lia|assumption]|].
        split.
        -- unfold digits_value in *. simpl. rewrite Hval, digit_char_value by lia. lia.
        -- split; [lia|]. intros _. split; [|discriminate].
           destruct (Z.eq_dec (k / 10) 0) as [E|E].
           ++ rewrite (Hz E). simpl. intros E'. injection E' as E'.
              apply digit_char_zero in E'; lia.
           ++ destruct (Hnz E) as [Hl Hne]. rewrite last_cons.
              destruct (last digs) eqn:El; [assumption|].
              apply last_None in El. contradiction.
    + destruct Hcase as (Hi & Hf & Hlt).
      destruct (Nat.ltb_spec i 4) as [Hi4|Hi4]; cbn [orb].
      * destruct (IH (S i) (k / 10) (s ++ [char_of (48 + k mod 10)]) Hk10)
          as (digs & Hrun & Hdigs & Hval & Hlen).
        { destruct (Nat.eqb_spec n 0); [lia|].
          split; [lia|]. split; [lia|].
          replace (4 - i)%nat with (S (4 - S i)) in Hlt by lia.
          rewrite Nat2Z.inj_succ, Z.pow_succ_r in Hlt by lia.
          apply Z.div_lt_upper_bound; lia. }
        destruct (Nat.eqb_spec n 0); [lia|].
        exists (char_of (48 + k mod 10) :: digs).
        rewrite Hrun, <- app_assoc. split; [reflexivity|].
        split; [constructor; [apply digit_char_is_digit; lia|assumption]|].
        split.
        -- unfold digits_value in *. simpl. rewrite Hval, digit_char_value by lia. lia.
        -- simpl. lia.
      * assert (i = 4%nat) by lia. subst i.
        change (10 ^ Z.of_nat (4 - 4)) with 1 in Hlt.
        assert (k = 0) by lia. subst k. simpl.
        exists []. rewrite app_nil_r. split; [reflexivity|].
        split; [constructor|]. split; reflexivity.
Qed.

Lemma value_top_positive (v : list Z) n :
  Forall is_u16 (take n v) -> (n <= length v)%nat -> n <> 0%nat ->
  v.[n - 1] <> 0 -> 0 < value B16 (take n v).
Proof.
  intros Hv Hn Hn0 Htop.
  destruct n as [|k]; [congruence|]. replace (S k - 1)%nat with k in Htop by lia.
  pose proof (top_place_bound (take (S k) v) k Hv) as [Hlo _].
  { rewrite length_take. lia. }
  rewrite nth_take in Hlo by lia.
  pose proof (nth_is_u16 (take (S k) v) k Hv) as Hu. rewrite nth_take in Hu by lia.
  pose proof (pow16_pos k). unfold is_u16 in Hu. nia.
Qed.

Lemma to_string_loop_unfold fuel n (v : list Z) s :
  to_string_loop (S fuel) n v s =
  if (n =? 0)%nat then Some s
  else
    '(k, st) ← short_division n P_U 10000 P_U {[P_U := v]};
    v ← st !! P_U;
    let n := strip_zeros n v in
    s ← emit_digits 6 n 0 k s;
    to_string_loop fuel n v s.
Proof. reflexivity. Qed.

Lemma to_string_loop_spec fuel :
  forall n (v : list Z) s,
    Forall is_u16 (take n v) -> (n <= length v)%nat ->
    (n <> 0%nat -> v.[n - 1] <> 0) ->
    value B16 (take n v) < 10000 ^ Z.of_nat fuel ->
    exists digs,
      to_string_loop (S fuel) n v s = Some (s ++ digs) /\
      Forall is_digit digs /\ digits_value digs = value B16 (take n v) /\
      (n = 0%nat -> digs = []) /\
      (n <> 0%nat -> digs <> [] /\ last digs <> Some "0"%char).
Proof.
  induction fuel as [|fuel IH]; intros n v s Hv Hn Htop Hlt.
  - assert (n = 0%nat).
    { destruct (decide (n = 0%nat)) as [|Hne]; [assumption|].
      pose proof (value_top_positive v n Hv Hn Hne (Htop Hne)).
      change (10000 ^ Z.of_nat 0) with 1 in Hlt. lia. }
    subst n. exists []. simpl. rewrite app_nil_r.
    repeat split; try constructor; congruence.
  - rewrite to_string_loop_unfold.
    destruct (Nat.eqb_spec n 0) as [->|Hn0].
    + exists []. rewrite app_nil_r.
      repeat split; try constructor; congruence.
    + pose proof (value_top_positive v n Hv Hn Hn0 (Htop Hn0)) as Hpos.
      destruct (short_division_loop_spec P_U P_U 10000 ltac:(lia) n 0
                  ({[P_U := v]} : store) v v)
        as (r & qd & Hrun & Hlqd & Hqd & Hr & Hval); try assumption; try lia.
      { apply lookup_singleton_eq. }
      { apply lookup_singleton_eq. }
      unfold short_division.
      rewrite (assert_true (0 <? 10000)) by reflexivity.
      rewrite (assert_true (0 <? n)%nat) by (apply Nat.ltb_lt; lia).
      cbn [mbind option_bind]. rewrite Hrun. cbn [mbind option_bind].
      rewrite lookup_insert_eq. cbn [mbind option_bind]. cbv zeta.
      set (v' := qd ++ drop n v).
      assert (Hlv' : length v' = length v).
      { subst v'. rewrite length_app, length_drop. lia. }
      assert (Htk : take n v' = qd) by (subst v'; apply take_app_length'; lia).
      destruct (strip_zeros_spec n v') as (Hle & Hnz & Hsv).
      set (n' := strip_zeros n v') in *.
      specialize (Hsv B16). rewrite Htk in Hsv.
      rewrite Z.mul_0_r, Z.add_0_r in Hval.
      assert (Hv' : Forall is_u16 (take n' v')).
      { replace n' with (min n' n) by lia. rewrite <- take_take, Htk.
        by apply Forall_take. }
      destruct (emit_digits_spec 6 n' 0 r s ltac:(lia)) as (d1 & He & Hd1 & Hv1 & Hc1).
      { destruct (n' =? 0)%nat; [change (10 ^ (Z.of_nat 6 - 1)) with 100000; lia|].
        change (10 ^ Z.of_nat (4 - 0)) with 10000. lia. }
      rewrite He. cbn [mbind option_bind].
      pose proof (value_u16_bound qd Hqd) as Hqb.
      destruct (IH n' v' (s ++ d1)) as (d2 & Hrec & Hd2 & Hv2 & Hz2 & Hnz2).
      { assumption. }
      { lia. }
      { assumption. }
      { rewrite Hsv. rewrite Nat2Z.inj_succ, Z.pow_succ_r in Hlt by lia. lia. }
      rewrite Hrec, <- app_assoc. exists (d1 ++ d2). split; [reflexivity|].
      split; [apply Forall_app; split; assumption|].
      rewrite Hsv in Hv2. split; [|split; [congruence|]].
      * rewrite digits_value_app, Hv1, Hv2.
        destruct (Nat.eqb_spec n' 0) as [E|E].
        -- assert (Hq0 : value B16 qd = 0).
           { rewrite <- Hsv, E. reflexivity. }
           rewrite Hq0 in *. lia.
        -- rewrite Hc1. change (10 ^ Z.of_nat (4 - 0)) with 10000. lia.
      * intros _. destruct (Nat.eqb_spec n' 0) as [E|E].
        -- rewrite (Hz2 E), app_nil_r.
           assert (Hq0 : value B16 qd = 0).
           { rewrite <- Hsv, E. reflexivity. }
           destruct Hc1 as [_ Hc1]. destruct Hc1 as [Hl Hne]; [lia|].
           split; assumption.
        -- destruct (Hnz2 E) as [Hne Hl]. split.
           ++ intros Happ. apply app_eq_nil in Happ as [_ ?]. contradiction.
           ++ rewrite last_app. destruct (last d2) eqn:El; [assumption|].
              apply last_None in El. contradiction.
Qed.

(** *** Reversal in place *)

Lemma insert_at_length {A} (pre : list A) x y rest :
  <[length pre := y]> (pre ++ x :: rest) = pre ++ y :: rest.
Proof.
  rewrite <- (Nat.add_0_r (length pre)). rewrite insert_app_r. reflexivity.
Qed.

Lemma reverse_loop_unfold fuel lo hi buf :
  reverse_loop (S fuel) lo hi buf =
  if (lo <? hi)%nat then
    reverse_loop fuel (S lo) (hi - 1)
      (<[hi := nth lo buf NUL]> (<[lo := nth hi buf NUL]> buf))
  else Some buf.
Proof. reflexivity. Qed.

Lemma reverse_loop_spec fuel :
  forall (mid pre post : list ascii),
    (length mid / 2 < fuel)%nat ->
    reverse_loop fuel (length pre) (length pre + length mid - 1) (pre ++ mid ++ post)
    = Some (pre ++ rev mid ++ post).
Proof.
  induction fuel as [|fuel IH]; intros mid pre post Hfuel; [lia|].
  rewrite reverse_loop_unfold.
  destruct mid as [|a mid].
  - simpl length. destruct (Nat.ltb_spec (length pre) (length pre + 0 - 1)); [lia|].
    reflexivity.
  - destruct mid as [|b mid] using rev_ind.
    + simpl length. destruct (Nat.ltb_spec (length pre) (length pre + 1 - 1)); [lia|].
      reflexivity.
    + clear IHmid.
      set (buf := pre ++ (a :: mid ++ [b]) ++ post).
      set (hi := (length pre + length (a :: mid ++ [b]) - 1)%nat).
      assert (Hhi : hi = length (pre ++ a :: mid)).
      { subst hi. simpl. rewrite !length_app. simpl. lia. }
      assert (E1 : buf = pre ++ a :: (mid ++ [b] ++ post)).
      { subst buf. simpl. rewrite <- app_assoc. reflexivity. }
      assert (E2 : buf = (pre ++ a :: mid) ++ b :: post).
      { subst buf. rewrite <- !app_assoc. simpl. rewrite <- app_assoc. reflexivity. }
      assert (Hlo : nth (length pre) buf NUL = a).
      { rewrite E1. apply nth_middle. }
      assert (Hb : nth hi buf NUL = b).
      { rewrite Hhi, E2. apply nth_middle. }
      assert (Hins : <[hi := a]> (<[length pre := b]> buf) =
                     (pre ++ [b]) ++ mid ++ (a :: post)).
      { rewrite E1, insert_at_length.
        replace (pre ++ b :: mid ++ [b] ++ post) with ((pre ++ b :: mid) ++ b :: post)
          by (rewrite <- !app_assoc; reflexivity).
        replace hi with (length (pre ++ b :: mid))
          by (rewrite Hhi, !length_app; reflexivity).
        rewrite insert_at_length, <- !app_assoc. reflexivity. }
      destruct (Nat.ltb_spec (length pre) hi) as [_|Hge];
        [|rewrite Hhi, length_app in Hge; simpl in Hge; lia].
      rewrite Hlo, Hb, Hins.
      replace (S (length pre)) with (length (pre ++ [b]))
        by (rewrite length_app; simpl; lia).
      replace (hi - 1)%nat with (length (pre ++ [b]) + length mid - 1)%nat
        by (rewrite Hhi, !length_app; simpl; lia).
      rewrite IH.
      * f_equal. rewrite <- !app_assoc. simpl. rewrite rev_app_distr. simpl.
        rewrite <- !app_assoc. reflexivity.
      * simpl length in Hfuel. rewrite length_app in Hfuel. simpl length in Hfuel.
        assert (S (length mid + 1) = length mid + 1 * 2)%nat as E3 by lia.
        rewrite E3, Nat.div_add in Hfuel by lia. lia.
Qed.

Lemma head_rev {A} (l : list A) : head (rev l) = last l.
Proof.
  destruct l as [|x l] using rev_ind; [reflexivity|].
  rewrite rev_unit, last_snoc. reflexivity.
Qed.

Lemma Forall_rev_digits (l : list ascii) : Forall is_digit l -> Forall is_digit (rev l).
Proof.
  intros H. rewrite Forall_forall in *. intros x Hx. apply H.
  apply list_elem_of_In. apply in_rev. apply list_elem_of_In. assumption.
Qed.

(** *** The whole conversion *)

Lemma pow_65536_10000 k : 65536 ^ Z.of_nat k <= 10000 ^ Z.of_nat (2 * k).
Proof.
  rewrite Nat2Z.inj_mul, Z.pow_mul_r by lia. change (10000 ^ Z.of_nat 2) with 100000000.
  apply Z.pow_le_mono_l. lia.
Qed.

(** [to_string] returns the digits of the magnitude, most significant first
    and without a leading zero, followed by the terminator. *)
Lemma to_string_spec (u : list Z) :
  Forall is_u32 u ->
  exists t,
    to_string (length u) u = Some (t ++ [NUL]) /\
    Forall is_digit t /\ t <> [] /\ decimal_value t = value B32 u /\
    (value B32 u = 0 -> t = ["0"%char]) /\
    (value B32 u <> 0 -> head t <> Some "0"%char).
Proof.
  intros Hu. unfold to_string.
  rewrite u32_to_u16_spec by (rewrite ?length_replicate; (assumption || lia)).
  rewrite take_ge by lia. rewrite drop_replicate_0.
  replace (length u * 2 - length u * 2)%nat with 0%nat by lia.
  change (replicate 0 0) with (@nil Z). rewrite app_nil_r.
  pose proof (split16_u16 u Hu) as Hv. pose proof (split16_length u) as Hlv.
  pose proof (split16_value u) as Hval.
  set (v := split16 u) in *.
  destruct (strip_zeros_spec (length u * 2) v) as (Hle & Hnz & Hsv).
  set (n := strip_zeros (length u * 2) v) in *.
  specialize (Hsv B16). rewrite (take_ge v (length u * 2)) in Hsv by lia.
  rewrite Hval in Hsv.
  destruct (Nat.eqb_spec n 0) as [E|E].
  - exists ["0"%char]. rewrite E in Hsv. simpl in Hsv.
    split; [reflexivity|]. split; [repeat constructor; unfold is_digit; vm_compute; discriminate|].
    split; [discriminate|]. split; [rewrite <- Hsv; reflexivity|].
    split; [reflexivity|]. intros H. congruence.
  - assert (Hvn : Forall is_u16 (take n v)) by (by apply Forall_take).
    pose proof (value_top_positive v n Hvn ltac:(lia) E (Hnz E)) as Hpos.
    pose proof (value_u16_bound (take n v) Hvn) as Hb.
    rewrite length_take_le in Hb by lia.
    pose proof (pow_65536_10000 n) as Hp.
    replace (2 * n + 1)%nat with (S (2 * n)) by lia.
    destruct (to_string_loop_spec (2 * n) n v [] Hvn ltac:(lia) Hnz)
      as (digs & Hrun & Hdigs & Hdv & _ & Hlast).
    { change (B16 ^ Z.of_nat n) with (65536 ^ Z.of_nat n) in Hb. lia. }
    destruct (Hlast E) as [Hne Hl].
    rewrite Hrun. cbn [mbind option_bind]. simpl app.
    assert (Hhalf : (length digs / 2 < S (length digs))%nat).
    { assert (length digs / 2 <= length digs)%nat; [|lia].
      apply Nat.Div0.div_le_upper_bound. lia. }
    pose proof (reverse_loop_spec (S (length digs)) digs [] [NUL] Hhalf) as Hrev.
    change (reverse_loop (S (length digs)) 0 (length digs - 1) (digs ++ [NUL]) =
            Some (rev digs ++ [NUL])) in Hrev.
    rewrite Hrev.
    exists (rev digs). split; [reflexivity|].
    split; [by apply Forall_rev_digits|].
    split; [intros Hr; apply Hne; rewrite <- (rev_involutive digs), Hr; reflexivity|].
    split; [unfold decimal_value; rewrite rev_involutive; lia|].
    split; [lia|]. intros _. rewrite head_rev. assumption.
Qed.

(** ** Decimal strings and their values *)

Lemma char_code_inj c1 c2 : char_code c1 = char_code c2 -> c1 = c2.
Proof.
  unfold char_code. intros H. apply Nat2Z.inj in H.
  rewrite <- (ascii_nat_embedding c1), <- (ascii_nat_embedding c2), H. reflexivity.
Qed.

Lemma digit_value_inj c1 c2 : digit_value c1 = digit_value c2 -> c1 = c2.
Proof. unfold digit_value. intros H. apply char_code_inj. lia. Qed.

Lemma digit_not_NUL c : is_digit c -> c <> NUL.
Proof. intros H E. subst c. unfold is_digit in H. vm_compute in H. destruct H as [H _]. apply H. reflexivity. Qed.

Lemma digit_nonzero c : is_digit c -> c <> "0"%char -> 1 <= digit_value c <= 9.
Proof.
  intros H Hne. apply is_digit_value in H.
  assert (digit_value c <> 0); [|lia].
  intros E. apply Hne. apply digit_value_inj. rewrite E. reflexivity.
Qed.

Lemma digits_value_bound (l : list ascii) :
  Forall is_digit l -> 0 <= digits_value l < 10 ^ Z.of_nat (length l).
Proof.
  intros H. unfold digits_value. rewrite <- (length_map digit_value l).
  apply value_bound; [lia|]. apply Forall_map.
  eapply Forall_impl; [exact H|]. intros c Hc. apply is_digit_value in Hc. simpl. lia.
Qed.

Lemma decimal_value_bound (t : list ascii) :
  Forall is_digit t -> 0 <= decimal_value t < 10 ^ Z.of_nat (length t).
Proof.
  intros H. unfold decimal_value. rewrite <- length_rev.
  apply digits_value_bound. by apply Forall_rev_digits.
Qed.

Lemma decimal_value_cons c t :
  decimal_value (c :: t) = digit_value c * 10 ^ Z.of_nat (length t) + decimal_value t.
Proof.
  unfold decimal_value. simpl rev. rewrite digits_value_app, length_rev.
  unfold digits_value at 2. simpl. lia.
Qed.

(** A digit string without a leading zero has a value of full length. *)
Lemma decimal_value_lower (t : list ascii) :
  Forall is_digit t -> t <> [] -> head t <> Some "0"%char ->
  10 ^ Z.of_nat (length t - 1) <= decimal_value t.
Proof.
  intros Ht Hne Hhd. destruct t as [|c t]; [congruence|].
  inversion Ht as [|? ? Hc Ht']; subst.
  rewrite decimal_value_cons. simpl length.
  replace (S (length t) - 1)%nat with (length t) by lia.
  pose proof (decimal_value_bound t Ht') as Hb.
  assert (Hc1 : 1 <= digit_value c <= 9).
  { apply digit_nonzero; [assumption|]. intros E. apply Hhd. rewrite E. reflexivity. }
  assert (0 < 10 ^ Z.of_nat (length t)) by (apply Z.pow_pos_nonneg; lia).
  nia.
Qed.

Lemma digits_value_inj (l1 : list ascii) :
  forall l2, length l1 = length l2 -> Forall is_digit l1 -> Forall is_digit l2 ->
             digits_value l1 = digits_value l2 -> l1 = l2.
Proof.
  induction l1 as [|c1 l1 IH]; intros [|c2 l2] Hlen H1 H2 Hv; try discriminate.
  - reflexivity.
  - inversion H1 as [|? ? Hc1 Hl1]; inversion H2 as [|? ? Hc2 Hl2]; subst.
    apply is_digit_value in Hc1, Hc2. unfold digits_value in Hv. simpl in Hv.
    fold (digits_value l1) in Hv. fold (digits_value l2) in Hv.
    assert (digit_value c1 = digit_value c2 /\ digits_value l1 = digits_value l2)
      as [E1 E2] by lia.
    apply digit_value_inj in E1. subst c2. f_equal.
    apply IH; try assumption. simpl in Hlen. lia.
Qed.

(** Digit strings without leading zeros are determined by their values. *)
Lemma decimal_value_unique (t1 t2 : list ascii) :
  Forall is_digit t1 -> Forall is_digit t2 ->
  head t1 <> Some "0"%char -> head t2 <> Some "0"%char ->
  decimal_value t1 = decimal_value t2 -> t1 = t2.
Proof.
  intros H1 H2 Hh1 Hh2 Hv.
  pose proof (decimal_value_bound t1 H1) as B1.
  pose proof (decimal_value_bound t2 H2) as B2.
  assert (Hlen : length t1 = length t2).
  { destruct (decide (t1 = [])) as [->|N1]; destruct (decide (t2 = [])) as [->|N2].
    - reflexivity.
    - pose proof (decimal_value_lower t2 H2 N2 Hh2) as L2.
      assert (0 < 10 ^ Z.of_nat (length t2 - 1)) by (apply Z.pow_pos_nonneg; lia).
      simpl in B1. rewrite <- Hv in L2. change (decimal_value []) with 0 in L2. lia.
    - pose proof (decimal_value_lower t1 H1 N1 Hh1) as L1.
      assert (0 < 10 ^ Z.of_nat (length t1 - 1)) by (apply Z.pow_pos_nonneg; lia).
      rewrite Hv in L1. change (decimal_value []) with 0 in L1. lia.
    - pose proof (decimal_value_lower t1 H1 N1 Hh1) as L1.
      pose proof (decimal_value_lower t2 H2 N2 Hh2) as L2.
      rewrite Hv in *.
      assert (Z.of_nat (length t1 - 1) < Z.of_nat (length t2)).
      { apply (Z.pow_lt_mono_r_iff 10); lia. }
      assert (Z.of_nat (length t2 - 1) < Z.of_nat (length t1)).
      { apply (Z.pow_lt_mono_r_iff 10); lia. }
      destruct t1; [congruence|]. destruct t2; [congruence|]. simpl in *. lia. }
  rewrite <- (rev_involutive t1), <- (rev_involutive t2). f_equal.
  apply digits_value_inj.
  - rewrite !length_rev. assumption.
  - by apply Forall_rev_digits.
  - by apply Forall_rev_digits.
  - exact Hv.
Qed.

Lemma strlen_terminated (chars : list ascii) :
  Forall (fun c => c <> NUL) chars -> strlen (chars ++ [NUL]) = length chars.
Proof.
  induction 1 as [|c chars Hc Hl IH]; [reflexivity|].
  simpl. destruct (Ascii.eqb_spec c NUL) as [|_]; [contradiction|].
  rewrite IH. reflexivity.
Qed.

Lemma pow_B32_decimal k : B32 ^ Z.of_nat k <= 10 ^ Z.of_nat (10 * k).
Proof.
  rewrite Nat2Z.inj_mul, Z.pow_mul_r by lia.
  change (10 ^ Z.of_nat 10) with 10000000000.
  apply Z.pow_le_mono_l. unfold B32. lia.
Qed.

(** ** Printing a value *)

(** The digit string of a magnitude of [k] limbs has at most [10 * k]
    characters, and one character when the magnitude is empty. *)
Lemma digits_length_bound (t : list ascii) (u : list Z) :
  Forall is_u32 u -> Forall is_digit t -> t <> [] ->
  decimal_value t = value B32 u ->
  (value B32 u = 0 -> t = ["0"%char]) ->
  (value B32 u <> 0 -> head t <> Some "0"%char) ->
  (u <> [] -> value B32 u <> 0) ->
  (length t <= if (length u =? 0)%nat then 1 else length u * 10)%nat.
Proof.
  intros Hu Ht Hne Hv Hz Hnz Hpos.
  destruct u as [|x u'] eqn:Eu.
  - simpl. rewrite (Hz eq_refl). simpl. lia.
  - rewrite <- Eu in *. assert (Hu0 : u <> []) by (rewrite Eu; discriminate).
    destruct (Nat.eqb_spec (length u) 0) as [E|_].
    { rewrite Eu in E. simpl in E. lia. }
    pose proof (decimal_value_lower t Ht Hne (Hnz (Hpos Hu0))) as Hlo.
    pose proof (value_u32_bound u Hu) as Hb.
    pose proof (pow_B32_decimal (length u)) as Hp.
    assert (Z.of_nat (length t - 1) < Z.of_nat (10 * length u)).
    { apply (Z.pow_lt_mono_r_iff 10); lia. }
    lia.
Qed.

Lemma bigint_tostring_spec (x : bigint_t) :
  well_formed x ->
  exists t,
    bigint_tostring x =
      Some ((if negative x then ["-"%char] else []) ++ t ++ [NUL]) /\
    Forall is_digit t /\ t <> [] /\ decimal_value t = value B32 (data x) /\
    (value B32 (data x) = 0 -> t = ["0"%char]) /\
    (value B32 (data x) <> 0 -> head t <> Some "0"%char) /\
    (length t <= if (length (data x) =? 0)%nat then 1 else length (data x) * 10)%nat.
Proof.
  intros Hx. destruct (to_string_spec (data x) (proj1 Hx))
    as (t & Hrun & Ht & Hne & Hv & Hz & Hnz).
  assert (Hlen : (length t <= if (length (data x) =? 0)%nat then 1
                               else length (data x) * 10)%nat).
  { apply digits_length_bound; try assumption; [exact (proj1 Hx)|].
    intros Hd. pose proof (magnitude_lower x Hx Hd).
    assert (0 < B32 ^ Z.of_nat (length (data x) - 1))
      by (apply Z.pow_pos_nonneg; unfold B32; lia).
    lia. }
  exists t. unfold bigint_tostring. rewrite Hrun. cbn [mbind option_bind].
  rewrite strlen_terminated
    by (eapply Forall_impl; [exact Ht|]; intros c; apply digit_not_NUL).
  rewrite assert_true.
  - cbn [mbind option_bind]. repeat split; assumption.
  - apply Nat.leb_le. unfold bigint_max_stringlen.
    destruct (length (data x) =? 0)%nat; [assumption|].
    destruct (negative x); lia.
Qed.

(** The sign, the magnitude and the zero test of a well-formed value, in
    terms of the integer it represents. *)
Lemma to_Z_sign_magnitude (v : bigint_t) :
  well_formed v ->
  negative v = (to_Z v <? 0) /\ value B32 (data v) = Z.abs (to_Z v) /\
  bigint_is_zero v = (to_Z v =? 0).
Proof.
  intros Hv. pose proof (value_u32_bound (data v) (proj1 Hv)) as Hb.
  unfold to_Z, sign_of, bigint_is_zero.
  destruct (data v) as [|a l] eqn:Hd.
  - destruct Hv as (_ & _ & Hzero). rewrite (Hzero Hd).
    rewrite value_nil. simpl. repeat split; reflexivity.
  - assert (Hpos : 0 < value B32 (a :: l)).
    { pose proof (magnitude_lower v Hv) as Hlo. rewrite Hd in Hlo.
      specialize (Hlo ltac:(discriminate)).
      assert (0 < B32 ^ Z.of_nat (length (a :: l) - 1))
        by (apply Z.pow_pos_nonneg; unfold B32; lia).
      lia. }
    cbn [length Nat.eqb].
    destruct (negative v).
    + split; [symmetry; apply Z.ltb_lt; lia|]. split; [lia|].
      symmetry; apply Z.eqb_neq; lia.
    + split; [symmetry; apply Z.ltb_ge; lia|]. split; [lia|].
      symmetry; apply Z.eqb_neq; lia.
Qed.

(** C8. For a well-formed [v], [bigint_tostring] writes the decimal
    notation of the integer [v] represents and terminates it: a minus sign
    exactly when the integer is negative, then the digits of its absolute
    value, at least one and without a leading zero, then NUL, with no NUL
    before.  The length of the string, the minus sign included, is at most
    [bigint_max_stringlen v]; that bound is 1 when the integer is zero and
    otherwise 10 per limb, plus 1 when it is negative. *)
Theorem bigint_tostring_length (v : bigint_t) :
  well_formed v ->
  exists chars t,
    bigint_tostring v = Some (chars ++ [NUL]) /\
    chars = (if to_Z v <? 0 then ["-"%char] else []) ++ t /\
    canonical_digits t /\ decimal_value t = Z.abs (to_Z v) /\
    strlen (chars ++ [NUL]) = length chars /\
    (length chars <= bigint_max_stringlen v)%nat /\
    bigint_max_stringlen v =
      (if (to_Z v =? 0)%Z then 1
       else length (data v) * 10 + (if (to_Z v <? 0)%Z then 1 else 0))%nat.
Proof.
  intros Hv.
  destruct (bigint_tostring_spec v Hv) as (t & Hrun & Ht & Hne & Hval & Hz & Hnz & Hlen).
  destruct (to_Z_sign_magnitude v Hv) as (Hsign & Habs & Hzero).
  rewrite <- Hsign, <- Habs.
  exists ((if negative v then ["-"%char] else []) ++ t), t.
  rewrite <- app_assoc. split; [assumption|]. split; [reflexivity|].
  split; [|split; [exact Hval|]].
  { split; [exact Hne|]. split; [exact Ht|].
    destruct (Z.eq_dec (value B32 (data v)) 0) as [E|E];
      [left; by apply Hz|right; by apply Hnz]. }
  split; [|split].
  - rewrite app_assoc. apply strlen_terminated. apply Forall_app. split.
    + destruct (negative v); repeat constructor. discriminate.
    + eapply Forall_impl; [exact Ht|]. intros c. apply digit_not_NUL.
  - rewrite length_app. unfold bigint_max_stringlen.
    destruct Hv as (_ & _ & Hzero').
    destruct (Nat.eqb_spec (length (data v)) 0) as [E|E].
    + rewrite Hzero' by (destruct (data v); [reflexivity|discriminate]).
      simpl. lia.
    + destruct (negative v); simpl; lia.
  - rewrite <- Hzero. reflexivity.
Qed.

Lemma bigint_tostring_length_witness :
  let v := {| negative := true; data := [0; 1] |} in
  exists chars t,
    bigint_tostring v = Some (chars ++ [NUL]) /\
    chars = (if to_Z v <? 0 then ["-"%char] else []) ++ t /\
    canonical_digits t /\ decimal_value t = Z.abs (to_Z v) /\
    strlen (chars ++ [NUL]) = length chars /\
    (length chars <= bigint_max_stringlen v)%nat /\
    bigint_max_stringlen v =
      (if (to_Z v =? 0)%Z then 1
       else length (data v) * 10 + (if (to_Z v <? 0)%Z then 1 else 0))%nat.
Proof.
  intros v. apply (bigint_tostring_length v).
  split; [repeat constructor; unfold is_u32; lia|].
  split; simpl; discriminate.
Defined.

(** ** The round trip *)

Lemma canonical_digits_not_minus d :
  canonical_digits d -> Ascii.eqb (nth 0 d NUL) "-"%char = false.
Proof.
  intros (Hne & Hd & _). destruct d as [|c d]; [congruence|].
  inversion Hd as [|? ? Hc _]; subst. simpl.
  destruct (Ascii.eqb_spec c "-"%char) as [->|]; [|reflexivity].
  unfold is_digit in Hc. vm_compute in Hc. destruct Hc as [Hc _].
  exfalso. apply Hc. reflexivity.
Qed.

Lemma canonical_digits_value d :
  canonical_digits d -> d <> ["0"%char] ->
  head d <> Some "0"%char /\ 0 < decimal_value d.
Proof.
  intros (Hne & Hd & [->|Hhd]) Hnz; [congruence|]. split; [assumption|].
  pose proof (decimal_value_lower d Hd Hne Hhd).
  assert (0 < 10 ^ Z.of_nat (length d - 1)) by (apply Z.pow_pos_nonneg; lia).
  lia.
Qed.

(** Reading the digits [d] into a buffer of [cap] limbs and printing the
    value created with the sign [neg]. *)
Lemma digits_round_trip (d : list ascii) (cap : nat) (neg : bool) :
  canonical_digits d -> (length d / 9 < cap)%nat ->
  (neg = true -> d <> ["0"%char]) ->
  exists u_len u,
    from_string (length d) d (replicate cap 0) = Some (u_len, u) /\
    bigint_tostring (bigint_create u_len u neg) =
      Some ((if neg then ["-"%char] else []) ++ d ++ [NUL]).
Proof.
  intros Hcan Hcap Hneg. pose proof Hcan as (Hne & Hd & Hshape).
  destruct (from_string_spec (length d) d (replicate cap 0) eq_refl Hd)
    as (u_len & u & Hrun & Hlu & Hcount & Hu & Hval).
  { rewrite length_replicate. assumption. }
  rewrite length_replicate in Hlu.
  exists u_len, u. split; [assumption|].
  assert (Hle : (u_len <= length u)%nat) by lia.
  destruct (bigint_create_spec u_len u neg Hu Hle) as (Hwf & Hv & Hsign).
  destruct (bigint_tostring_spec _ Hwf) as (t & Hts & Ht & Htne & Htv & Hz & Hnz & _).
  rewrite Hv, Hval in Htv, Hz, Hnz.
  destruct (decide (d = ["0"%char])) as [->|Hd0].
  - change (decimal_value ["0"%char]) with 0 in *.
    rewrite Hts, (Hz eq_refl).
    assert (Hdata : data (bigint_create u_len u neg) = []).
    { unfold bigint_create in *.
      destruct (strip_zeros u_len u =? 0)%nat eqn:E; [reflexivity|].
      exfalso. simpl in Hwf, Hv. rewrite Hval in Hv.
      change (decimal_value ["0"%char]) with 0 in Hv.
      apply Nat.eqb_neq in E.
      set (z := {| negative := neg; data := take (strip_zeros u_len u) u |}) in *.
      assert (Hdz : data z <> []).
      { intros Hnil. apply (f_equal length) in Hnil. subst z. simpl in Hnil.
        destruct (strip_zeros_spec u_len u) as (Hs & _).
        rewrite length_take_le in Hnil by lia. lia. }
      pose proof (magnitude_lower z Hwf Hdz) as Hlo.
      assert (0 < B32 ^ Z.of_nat (length (data z) - 1))
        by (apply Z.pow_pos_nonneg; unfold B32; lia).
      subst z. simpl in *. lia. }
    destruct Hwf as (_ & _ & Hzero). rewrite (Hzero Hdata).
    destruct neg; [exfalso; apply Hneg; reflexivity|reflexivity].
  - destruct (canonical_digits_value d Hcan Hd0) as [Hhd Hpos].
    assert (Et : t = d).
    { apply decimal_value_unique; try assumption. apply Hnz. lia. }
    subst t. rewrite Hts.
    assert (Hdata : data (bigint_create u_len u neg) <> []).
    { intros E. rewrite E in Hv. simpl in Hv. lia. }
    rewrite (Hsign Hdata). reflexivity.
Qed.

(** C5. For every string [s] matching [-]?[0-9]+ without leading zeros
    (except "0" itself) and other than "-0", [bigint_create_str] returns a
    value and [bigint_tostring] writes for it the characters of [s],
    followed by the terminator. *)
Theorem decimal_round_trip (s : list ascii) :
  canonical_decimal s ->
  exists z,
    bigint_create_str (length s) s = Some z /\
    bigint_tostring z = Some (s ++ [NUL]).
Proof.
  intros Hs. unfold bigint_create_str.
  destruct (decide (head s = Some "-"%char)) as [Hm|Hm].
  - destruct s as [|c d]; [discriminate|]. injection Hm as ->.
    simpl in Hs. destruct Hs as [Hcan Hd0].
    pose proof Hcan as (Hne & _).
    assert (Hl : (0 < length d)%nat) by (destruct d; [congruence|simpl; lia]).
    rewrite (assert_true (0 <? _)%nat) by reflexivity. cbn [mbind option_bind].
    change (nth 0 ("-"%char :: d) NUL) with "-"%char.
    change (Ascii.eqb "-" "-") with true. cbv iota.
    rewrite (assert_true (1 <? _)%nat) by (apply Nat.ltb_lt; simpl; lia).
    cbn [mbind option_bind]. simpl drop. rewrite drop_0. simpl length.
    replace (S (length d) - 1)%nat with (length d) by lia.
    destruct (digits_round_trip d (S (length d) / 9 + 1) true Hcan)
      as (u_len & u & Hrun & Hprint).
    { assert (length d / 9 <= S (length d) / 9)%nat; [|lia].
      apply Nat.Div0.div_le_mono. lia. }
    { intros _. assumption. }
    rewrite Hrun. cbn [mbind option_bind].
    eexists. split; [reflexivity|]. exact Hprint.
  - assert (Hcan : canonical_digits s).
    { destruct s as [|c d]; [exact Hs|].
      destruct (Ascii.eqb_spec c "-"%char) as [->|Hc]; [exfalso; apply Hm; reflexivity|].
      unfold canonical_decimal in Hs.
      destruct c as [[] [] [] [] [] [] [] []]; try exact Hs.
      exfalso. apply Hc. reflexivity. }
    pose proof Hcan as (Hne & _).
    assert (Hl : (0 < length s)%nat) by (destruct s; [congruence|simpl; lia]).
    rewrite (assert_true (0 <? _)%nat) by (apply Nat.ltb_lt; lia).
    cbn [mbind option_bind].
    rewrite (canonical_digits_not_minus s Hcan). cbn [mbind option_bind].
    destruct (digits_round_trip s (length s / 9 + 1) false Hcan)
      as (u_len & u & Hrun & Hprint).
    { lia. }
    { discriminate. }
    rewrite Hrun. cbn [mbind option_bind].
    eexists. split; [reflexivity|]. exact Hprint.
Qed.

Lemma decimal_round_trip_witness :
  let s := list_ascii_of_string "-340282366920938463463374607431768211456" in
  exists z,
    bigint_create_str (length s) s = Some z /\
    bigint_tostring z = Some (s ++ [NUL]).
Proof.
  intros s. apply (decimal_round_trip s).
  vm_compute. split; [split; [discriminate|]|discriminate].
  split; [|right; discriminate].
  repeat (constructor; [split; discriminate|]). constructor.
Defined.

(** ** Comparison of magnitudes *)

Lemma pow32_pos k : 0 < B32 ^ Z.of_nat k.
Proof. apply Z.pow_pos_nonneg; unfold B32; lia. Qed.

Lemma value32_take_S (l : list Z) i :
  (i < length l)%nat ->
  value B32 (take (S i) l) = value B32 (take i l) + B32 ^ Z.of_nat i * l.[i].
Proof. apply value_take_S. unfold B32; lia. Qed.

Lemma value32_take_bound (l : list Z) i :
  Forall is_u32 l -> (i <= length l)%nat ->
  0 <= value B32 (take i l) < B32 ^ Z.of_nat i.
Proof.
  intros Hl Hi. pose proof (value_u32_bound (take i l) ltac:(by apply Forall_take)) as H.
  rewrite length_take in H. replace (i `min` length l)%nat with i in H by lia. exact H.
Qed.

Lemma nth_is_u32 (l : list Z) i : Forall is_u32 l -> is_u32 l.[i].
Proof.
  intros Hl. destruct (decide (i < length l)%nat) as [Hi|Hi].
  - by apply nth_Forall.
  - rewrite nth_overflow by lia. unfold is_u32. lia.
Qed.

(** A difference in a higher place decides the sign. *)
Lemma sgn_top_place a b p d :
  0 <= a < p -> 0 <= b < p -> d <> 0 ->
  Z.sgn (a + p * d - b) = Z.sgn d.
Proof.
  intros Ha Hb Hd.
  destruct (Z.lt_trichotomy d 0) as [Hlt|[E|Hgt]]; [|lia|].
  - rewrite (Z.sgn_neg d) by lia. apply Z.sgn_neg. nia.
  - rewrite (Z.sgn_pos d) by lia. apply Z.sgn_pos. nia.
Qed.

Lemma cmp_loop_spec n (u v : list Z) :
  Forall is_u32 u -> Forall is_u32 v -> (n <= length u)%nat -> (n <= length v)%nat ->
  cmp_loop n u v = Z.sgn (value B32 (take n u) - value B32 (take n v)).
Proof.
  intros Hu Hv. induction n as [|n IH]; intros Hnu Hnv; cbn [cmp_loop].
  - reflexivity.
  - rewrite !value32_take_S by lia.
    pose proof (value32_take_bound u n Hu ltac:(lia)) as Ha.
    pose proof (value32_take_bound v n Hv ltac:(lia)) as Hb.
    destruct (Z.eqb_spec u.[n] v.[n]) as [E|Hne]; cbn [negb].
    + rewrite IH by lia. rewrite E. f_equal. lia.
    + replace (value B32 (take n u) + B32 ^ Z.of_nat n * u.[n] -
               (value B32 (take n v) + B32 ^ Z.of_nat n * v.[n]))
        with (value B32 (take n u) + B32 ^ Z.of_nat n * (u.[n] - v.[n]) -
              value B32 (take n v)) by ring.
      rewrite sgn_top_place by (assumption || lia).
      destruct (Z.ltb_spec u.[n] v.[n]).
      * symmetry. apply Z.sgn_neg. lia.
      * symmetry. apply Z.sgn_pos. lia.
Qed.

(** A magnitude without leading zero limb and [k + 1] limbs is at least
    [B32 ^ k]. *)
Lemma normal_lower (u : list Z) :
  normal u -> u <> [] -> B32 ^ Z.of_nat (length u - 1) <= value B32 u.
Proof.
  intros [Hu Hl] Hne.
  apply (magnitude_lower {| negative := false; data := u |}); [|exact Hne].
  split; [exact Hu|]. split; [exact Hl|reflexivity].
Qed.

Lemma normal_shorter (u v : list Z) :
  normal u -> normal v -> (length u < length v)%nat -> value B32 u < value B32 v.
Proof.
  intros [Hu Hlu] [Hv Hlv] Hlt.
  apply (magnitude_shorter {| negative := false; data := u |}
           {| negative := false; data := v |}); [| |exact Hlt].
  - split; [exact Hu|]. split; [exact Hlu|reflexivity].
  - split; [exact Hv|]. split; [exact Hlv|reflexivity].
Qed.

Lemma cmp_spec (u v : list Z) :
  normal u -> normal v ->
  cmp (length u) u (length v) v = Z.sgn (value B32 u - value B32 v).
Proof.
  intros Hu Hv. unfold cmp.
  destruct (Nat.eqb_spec (length u) (length v)) as [E|Hne]; cbn [negb].
  - rewrite cmp_loop_spec by (try apply Hu; try apply Hv; lia).
    rewrite E at 1. rewrite !take_ge by lia. reflexivity.
  - destruct (Nat.ltb_spec (length u) (length v)) as [Hlt|Hge].
    + pose proof (normal_shorter u v Hu Hv Hlt). symmetry. apply Z.sgn_neg. lia.
    + pose proof (normal_shorter v u Hv Hu ltac:(lia)). symmetry. apply Z.sgn_pos. lia.
Qed.

(** ** Addition and subtraction of magnitudes *)

(** One place of the addition: the two partial carries never both occur. *)
Lemma add_digit uj vj (carry : bool) :
  is_u32 uj -> is_u32 vj ->
  let sum_a := u32 (uj + b2z carry) in
  let carry_a := sum_a <? uj in
  let sum_b := u32 (sum_a + vj) in
  let carry_b := sum_b <? sum_a in
  b2z carry_a + b2z carry_b <= 1 /\
  sum_b + 4294967296 * (b2z carry_a + b2z carry_b) = uj + vj + b2z carry /\
  b2z (negb (b2z carry_a + b2z carry_b =? 0)) = b2z carry_a + b2z carry_b.
Proof.
  unfold is_u32, u32. intros Hu Hv. cbv zeta.
  assert (Hc : 0 <= b2z carry <= 1) by (destruct carry; simpl; lia).
  generalize dependent (b2z carry). intros c Hc.
  destruct (Z.ltb_spec ((uj + c) mod 4294967296) uj);
    destruct (Z.ltb_spec (((uj + c) mod 4294967296 + vj) mod 4294967296)
                ((uj + c) mod 4294967296));
    unfold b2z; simpl Z.add; simpl Z.eqb; simpl negb; cbv iota;
    Z.div_mod_to_equations; lia.
Qed.

(** One place of the subtraction. *)
Lemma sub_digit uj vj (borrow : bool) :
  is_u32 uj -> is_u32 vj ->
  let diff_a := u32 (uj - b2z borrow) in
  let borrow_a := diff_a >? uj in
  let diff_b := u32 (diff_a - vj) in
  let borrow_b := diff_b >? diff_a in
  b2z borrow_a + b2z borrow_b <= 1 /\
  diff_b - 4294967296 * (b2z borrow_a + b2z borrow_b) = uj - vj - b2z borrow /\
  b2z (negb (b2z borrow_a + b2z borrow_b =? 0)) = b2z borrow_a + b2z borrow_b.
Proof.
  unfold is_u32, u32. intros Hu Hv. cbv zeta.
  assert (Hc : 0 <= b2z borrow <= 1) by (destruct borrow; simpl; lia).
  generalize dependent (b2z borrow). intros c Hc.
  rewrite !Z.gtb_ltb.
  destruct (Z.ltb_spec uj ((uj - c) mod 4294967296));
    destruct (Z.ltb_spec ((uj - c) mod 4294967296)
                (((uj - c) mod 4294967296 - vj) mod 4294967296));
    unfold b2z; simpl Z.add; simpl Z.eqb; simpl negb; cbv iota;
    Z.div_mod_to_equations; lia.
Qed.

(** Reading place [j] of an array of the initial store, after places below
    [j] of the array [pw] have been rewritten: the array may be [pw]
    itself. *)
Lemma load_after_writes (s0 : store) (pw : ptr) (w wj : list Z) (p : ptr) (a : list Z) j :
  s0 !! pw = Some w -> s0 !! p = Some a ->
  length wj = length w -> drop j wj = drop j w -> (j < length a)%nat ->
  load (<[pw := wj]> s0) p j = Some a.[j].
Proof.
  intros Hw Ha Hlen Hdrop Hj. unfold load.
  destruct (decide (p = pw)) as [E|Hne].
  - subst p. assert (a = w) as -> by (unfold ptr in *; congruence).
    rewrite lookup_insert_eq. cbn. rewrite lookup_nth by lia. f_equal. by apply drop_eq_nth.
  - rewrite lookup_insert_ne by done. rewrite Ha. cbn. by apply lookup_nth.
Qed.

Lemma store_at_insert (s0 : store) (pw : ptr) (wj : list Z) j x :
  (j < length wj)%nat ->
  store_at (<[pw := wj]> s0) pw j x = Some (<[pw := <[j := x]> wj]> s0).
Proof.
  intros Hj. unfold store_at. rewrite lookup_insert_eq. cbn.
  rewrite decide_True by done. by rewrite insert_insert_eq.
Qed.

Lemma take_S_insert (l : list Z) j x :
  (j < length l)%nat -> take (S j) (<[j := x]> l) = take j l ++ [x].
Proof.
  intros H. rewrite (take_S_r _ j x) by (by apply list_lookup_insert_eq).
  by rewrite take_insert_ge by lia.
Qed.

Lemma value32_take_S_insert (l : list Z) j x :
  (j < length l)%nat ->
  value B32 (take (S j) (<[j := x]> l)) = value B32 (take j l) + B32 ^ Z.of_nat j * x.
Proof.
  intros H. rewrite take_S_insert by done.
  rewrite value_snoc by (unfold B32; lia). rewrite length_take.
  do 3 f_equal. lia.
Qed.

Lemma Forall_take_S_insert (l : list Z) j x :
  (j < length l)%nat -> Forall is_u32 (take j l) -> is_u32 x ->
  Forall is_u32 (take (S j) (<[j := x]> l)).
Proof.
  intros H Hl Hx. rewrite take_S_insert by done.
  apply Forall_app. split; [exact Hl|]. by constructor.
Qed.

Lemma drop_S_eq (a b : list Z) j : drop j a = drop j b -> drop (S j) a = drop (S j) b.
Proof.
  intros H. replace (S j) with (j + 1)%nat by lia.
  rewrite <- !drop_drop, H. reflexivity.
Qed.

Section AlgorithmA.
Variables (n : nat) (pu pv pw : ptr) (s0 : store) (u v w : list Z).
Hypothesis Hpu : s0 !! pu = Some u.
Hypothesis Hpv : s0 !! pv = Some v.
Hypothesis Hpw : s0 !! pw = Some w.
Hypothesis Hu : Forall is_u32 u.
Hypothesis Hv : Forall is_u32 v.
Hypothesis Hnu : (n <= length u)%nat.
Hypothesis Hnv : (n <= length v)%nat.
Hypothesis Hnw : (n < length w)%nat.

Lemma algorithm_a_loop_inv j :
  (j <= n)%nat ->
  exists carry wj,
    for_loop_opt 0 j (algorithm_a_body pu pv pw) (false, s0) =
      Some (carry, <[pw := wj]> s0) /\
    length wj = length w /\ drop j wj = drop j w /\
    Forall is_u32 (take j wj) /\
    value B32 (take j wj) + B32 ^ Z.of_nat j * b2z carry =
      value B32 (take j u) + value B32 (take j v).
Proof.
  induction j as [|j IH]; intros Hj.
  - exists false, w. rewrite for_loop_opt_0, insert_id by done.
    split; [reflexivity|]. split; [reflexivity|]. split; [reflexivity|].
    split; [constructor|]. simpl. lia.
  - destruct IH as (carry & wj & Hrun & Hlen & Hdrop & Hwj & Hval); [lia|].
    rewrite for_loop_opt_S, Hrun. cbn [mbind option_bind]. rewrite Nat.add_0_l.
    unfold algorithm_a_body.
    rewrite (load_after_writes s0 pw w wj pu u j) by (done || lia).
    cbn [mbind option_bind].
    rewrite (load_after_writes s0 pw w wj pv v j) by (done || lia).
    cbn [mbind option_bind].
    rewrite store_at_insert by lia. cbn [mbind option_bind].
    pose proof (add_digit u.[j] v.[j] carry (nth_is_u32 u j Hu) (nth_is_u32 v j Hv))
      as Hd.
    cbv zeta in Hd. destruct Hd as (Hle & Hsum & Hc).
    rewrite assert_true by (apply Z.leb_le; exact Hle).
    cbn [mbind option_bind].
    eexists _, _. split; [reflexivity|].
    split; [by rewrite length_insert|].
    split; [rewrite drop_insert_lt by lia; by apply drop_S_eq|].
    split; [apply Forall_take_S_insert; [lia|done|apply u32_range]|].
    rewrite value32_take_S_insert by lia.
    rewrite !value32_take_S by lia. rewrite Hc.
    rewrite Nat2Z.inj_succ, Z.pow_succ_r by lia.
    change B32 with 4294967296 at 3.
    apply (f_equal (Z.mul (B32 ^ Z.of_nat j))) in Hsum.
    clear - Hval Hsum. lia.
Qed.

Lemma algorithm_a_spec :
  exists w',
    algorithm_a n pu pv pw s0 = Some (<[pw := w']> s0) /\
    length w' = length w /\ drop (S n) w' = drop (S n) w /\
    Forall is_u32 (take (S n) w') /\
    value B32 (take (S n) w') = value B32 (take n u) + value B32 (take n v).
Proof.
  destruct (algorithm_a_loop_inv n) as (carry & wn & Hrun & Hlen & Hdrop & Hwn & Hval);
    [lia|].
  unfold algorithm_a. rewrite Hrun. cbn [mbind option_bind].
  rewrite store_at_insert by lia.
  eexists. split; [reflexivity|].
  split; [by rewrite length_insert|].
  split; [rewrite drop_insert_lt by lia; by apply drop_S_eq|].
  split.
  - apply Forall_take_S_insert; [lia|done|]. unfold is_u32. destruct carry; simpl; lia.
  - rewrite value32_take_S_insert by lia. exact Hval.
Qed.
End AlgorithmA.

Section AlgorithmS.
Variables (n : nat) (pu pv pw : ptr) (s0 : store) (u v w : list Z).
Hypothesis Hpu : s0 !! pu = Some u.
Hypothesis Hpv : s0 !! pv = Some v.
Hypothesis Hpw : s0 !! pw = Some w.
Hypothesis Hu : Forall is_u32 u.
Hypothesis Hv : Forall is_u32 v.
Hypothesis Hnu : (n <= length u)%nat.
Hypothesis Hnv : (n <= length v)%nat.
Hypothesis Hnw : (n <= length w)%nat.

Lemma algorithm_s_loop_inv j :
  (j <= n)%nat ->
  exists borrow wj,
    for_loop_opt 0 j (algorithm_s_body pu pv pw) (false, s0) =
      Some (borrow, <[pw := wj]> s0) /\
    length wj = length w /\ drop j wj = drop j w /\
    Forall is_u32 (take j wj) /\
    value B32 (take j wj) - B32 ^ Z.of_nat j * b2z borrow =
      value B32 (take j u) - value B32 (take j v).
Proof.
  induction j as [|j IH]; intros Hj.
  - exists false, w. rewrite for_loop_opt_0, insert_id by done.
    split; [reflexivity|]. split; [reflexivity|]. split; [reflexivity|].
    split; [constructor|]. simpl. lia.
  - destruct IH as (borrow & wj & Hrun & Hlen & Hdrop & Hwj & Hval); [lia|].
    rewrite for_loop_opt_S, Hrun. cbn [mbind option_bind]. rewrite Nat.add_0_l.
    unfold algorithm_s_body.
    rewrite (load_after_writes s0 pw w wj pu u j) by (done || lia).
    cbn [mbind option_bind].
    rewrite (load_after_writes s0 pw w wj pv v j) by (done || lia).
    cbn [mbind option_bind].
    rewrite store_at_insert by lia. cbn [mbind option_bind].
    pose proof (sub_digit u.[j] v.[j] borrow (nth_is_u32 u j Hu) (nth_is_u32 v j Hv))
      as Hd.
    cbv zeta in Hd. destruct Hd as (Hle & Hdiff & Hc).
    rewrite assert_true by (apply Z.leb_le; exact Hle).
    cbn [mbind option_bind].
    eexists _, _. split; [reflexivity|].
    split; [by rewrite length_insert|].
    split; [rewrite drop_insert_lt by lia; by apply drop_S_eq|].
    split; [apply Forall_take_S_insert; [lia|done|apply u32_range]|].
    rewrite value32_take_S_insert by lia.
    rewrite !value32_take_S by lia. rewrite Hc.
    rewrite Nat2Z.inj_succ, Z.pow_succ_r by lia.
    change B32 with 4294967296 at 3.
    apply (f_equal (Z.mul (B32 ^ Z.of_nat j))) in Hdiff.
    clear - Hval Hdiff. lia.
Qed.

Lemma algorithm_s_cmp :
  cmp n u n v = Z.sgn (value B32 (take n u) - value B32 (take n v)).
Proof. unfold cmp. rewrite Nat.eqb_refl. cbn [negb]. by apply cmp_loop_spec. Qed.

Lemma algorithm_s_spec :
  value B32 (take n v) <= value B32 (take n u) ->
  exists w',
    algorithm_s n pu pv pw s0 = Some (<[pw := w']> s0) /\
    length w' = length w /\ drop n w' = drop n w /\
    Forall is_u32 (take n w') /\
    value B32 (take n w') = value B32 (take n u) - value B32 (take n v).
Proof.
  intros Hge.
  destruct (algorithm_s_loop_inv n) as (borrow & wn & Hrun & Hlen & Hdrop & Hwn & Hval);
    [lia|].
  unfold algorithm_s. rewrite Hpu, Hpv. cbn [mbind option_bind].
  rewrite algorithm_s_cmp.
  rewrite assert_true
    by (apply Z.leb_le; apply Z.sgn_nonneg; lia).
  cbn [mbind option_bind]. rewrite Hrun. cbn [mbind option_bind].
  pose proof (value_u32_bound (take n wn) Hwn) as Hb.
  rewrite length_take in Hb. replace (n `min` length wn)%nat with n in Hb by lia.
  assert (borrow = false) as ->.
  { destruct borrow; [|reflexivity]. simpl b2z in Hval. lia. }
  cbn [negb assert mbind option_bind].
  exists wn. split; [reflexivity|]. split; [done|]. split; [done|]. split; [done|].
  simpl b2z in Hval. lia.
Qed.

Lemma algorithm_s_underflow :
  value B32 (take n u) < value B32 (take n v) ->
  algorithm_s n pu pv pw s0 = None.
Proof.
  intros Hlt. unfold algorithm_s. rewrite Hpu, Hpv. cbn [mbind option_bind].
  rewrite algorithm_s_cmp, Z.sgn_neg by lia. reflexivity.
Qed.
End AlgorithmS.

(** ** The unsigned helpers [add] and [sub] *)

(** A loop that writes [f i] at each place [i] of a range. *)
Lemma fill_loop (f : nat -> Z) lo cnt (pre w : list Z) :
  length pre = lo -> (lo + cnt <= length w)%nat ->
  for_loop lo cnt (fun i w => <[i := f i]> w) (pre ++ drop lo w) =
  pre ++ map f (seq lo cnt) ++ drop (lo + cnt) w.
Proof.
  intros Hpre. induction cnt as [|cnt IH]; intros Hlen.
  - rewrite for_loop_0, Nat.add_0_r. reflexivity.
  - rewrite for_loop_S, IH by lia.
    rewrite seq_S, map_app. cbn [map].
    rewrite (app_assoc pre), insert_app_r_alt
      by (rewrite length_app, length_map, length_seq; lia).
    rewrite length_app, length_map, length_seq, Hpre, Nat.sub_diag.
    rewrite (drop_S w w.[lo + cnt] (lo + cnt)) by (apply lookup_nth; lia).
    cbn [insert list_insert]. rewrite <- !app_assoc. cbn [app].
    replace (lo + S cnt)%nat with (S (lo + cnt)) by lia. reflexivity.
Qed.

Lemma map_nth_seq (y : list Z) : map (fun i => y.[i]) (seq 0 (length y)) = y.
Proof.
  apply list_eq. intros i. rewrite list_lookup_fmap.
  destruct (decide (i < length y)%nat) as [Hi|Hi].
  - rewrite lookup_seq_lt by lia. cbn. symmetry. by apply lookup_nth.
  - rewrite lookup_seq_ge by lia. cbn. symmetry. apply lookup_ge_None_2. lia.
Qed.

Lemma map_const_seq lo cnt : map (fun _ : nat => 0) (seq lo cnt) = replicate cnt 0.
Proof.
  revert lo. induction cnt as [|cnt IH]; intros lo; [reflexivity|].
  cbn. by rewrite IH.
Qed.

Lemma copy_and_pad_spec (x_len : nat) (y w : list Z) :
  (length y <= x_len)%nat -> (x_len <= length w)%nat ->
  copy_and_pad x_len (length y) y w =
  y ++ replicate (x_len - length y) 0 ++ drop x_len w.
Proof.
  intros Hy Hw. unfold copy_and_pad.
  pose proof (fill_loop (fun i => y.[i]) 0 (length y) [] w eq_refl ltac:(lia)) as H1.
  rewrite drop_0 in H1. cbn [app] in H1. rewrite H1, map_nth_seq. cbn [Nat.add].
  pose proof (fill_loop (fun _ => 0) (length y) (x_len - length y) y w eq_refl
                ltac:(lia)) as H2.
  rewrite H2, map_const_seq. do 3 f_equal. lia.
Qed.

Lemma Forall_u32_replicate n : Forall is_u32 (replicate n 0).
Proof. apply Forall_replicate. unfold is_u32. lia. Qed.

(** The padded copy of [y] is an [x_len]-place number with the value of [y]. *)
Lemma copy_and_pad_value (x_len : nat) (y w : list Z) :
  (length y <= x_len)%nat -> (x_len <= length w)%nat ->
  Forall is_u32 y -> Forall is_u32 w ->
  let w' := copy_and_pad x_len (length y) y w in
  length w' = length w /\ Forall is_u32 w' /\
  value B32 (take x_len w') = value B32 y.
Proof.
  intros Hy Hw Hyu Hwu. cbv zeta. rewrite copy_and_pad_spec by lia.
  split; [|split].
  - rewrite !length_app, length_replicate, length_drop. lia.
  - repeat (apply Forall_app; split); [done|apply Forall_u32_replicate|by apply Forall_drop].
  - rewrite app_assoc, take_app_length'
      by (rewrite length_app, length_replicate; lia).
    rewrite value_app by (unfold B32; lia).
    rewrite value_replicate_0. lia.
Qed.

Lemma bigint_create_nonneg n (u : list Z) : negative (bigint_create n u false) = false.
Proof. unfold bigint_create. by destruct (strip_zeros n u =? 0)%nat. Qed.

Lemma work_store_X (x w : list Z) :
  ({[P_X := x; P_W := w]} : store) !! P_X = Some x.
Proof. apply lookup_insert_eq. Qed.

Lemma work_store_W (x w : list Z) :
  ({[P_X := x; P_W := w]} : store) !! P_W = Some w.
Proof. rewrite lookup_insert_ne by done. apply lookup_singleton_eq. Qed.

(** [add] without the exchange of operands. *)
Lemma add_ordered fuel (x y : list Z) :
  Forall is_u32 x -> Forall is_u32 y -> (length y <= length x)%nat ->
  exists z,
    add (S fuel) (length x) x (length y) y = Some z /\
    well_formed z /\ negative z = false /\
    value B32 (data z) = value B32 x + value B32 y.
Proof.
  intros Hx Hy Hle. cbn [add].
  destruct (Nat.ltb_spec (length x) (length y)) as [Hlt|_]; [lia|].
  rewrite assert_true by (apply Nat.leb_le; lia). cbn [mbind option_bind].
  destruct (copy_and_pad_value (length x) y (replicate (length x + 1) 0))
    as (Hlw & Hwu & Hwv);
    [lia|rewrite length_replicate; lia|done|apply Forall_u32_replicate|].
  rewrite length_replicate in Hlw.
  set (w := copy_and_pad _ _ _ _) in *.
  destruct (algorithm_a_spec (length x) P_X P_W P_W {[P_X := x; P_W := w]} x w w)
    as (w' & Hrun & Hlen & _ & Hu32 & Hval);
    [apply work_store_X|apply work_store_W|apply work_store_W|done|done|lia|lia|lia|].
  rewrite Hrun. cbn [mbind option_bind]. rewrite lookup_insert_eq.
  cbn [mbind option_bind].
  replace (length x + 1)%nat with (S (length x)) by lia.
  destruct (bigint_create_spec (S (length x)) w' false) as (Hwf & Hv & _);
    [done|lia|].
  eexists. split; [reflexivity|]. split; [done|].
  split; [apply bigint_create_nonneg|].
  rewrite Hv, Hval, Hwv. rewrite take_ge by lia. reflexivity.
Qed.

Lemma add_spec fuel (x y : list Z) :
  Forall is_u32 x -> Forall is_u32 y -> (2 <= fuel)%nat ->
  exists z,
    add fuel (length x) x (length y) y = Some z /\
    well_formed z /\ negative z = false /\
    value B32 (data z) = value B32 x + value B32 y.
Proof.
  intros Hx Hy Hf. destruct fuel as [|[|fuel]]; [lia|lia|].
  destruct (Nat.ltb_spec (length x) (length y)) as [Hlt|Hge].
  - destruct (add_ordered fuel y x Hy Hx ltac:(lia)) as (z & Hz & Hwf & Hneg & Hv).
    exists z. split; [|split; [done|split; [done|lia]]].
    rewrite <- Hz. change (add (S (S fuel))) with (add (S (S fuel))).
    remember (S fuel) as f. cbn [add].
    destruct (Nat.ltb_spec (length x) (length y)); [reflexivity|lia].
  - apply add_ordered; assumption.
Qed.

(** [sub] without the exchange of operands. *)
Lemma sub_ordered fuel (x y : list Z) :
  normal x -> normal y -> value B32 y <= value B32 x ->
  exists z,
    sub (S fuel) (length x) x (length y) y = Some z /\
    well_formed z /\ negative z = false /\
    value B32 (data z) = value B32 x - value B32 y.
Proof.
  intros Hx Hy Hle. cbn [sub]. rewrite cmp_spec by done.
  destruct (Z.ltb_spec (Z.sgn (value B32 x - value B32 y)) 0) as [Hneg|_].
  { pose proof (Z.sgn_nonneg (value B32 x - value B32 y)). lia. }
  assert (Hlen : (length y <= length x)%nat).
  { destruct (decide (length y <= length x)%nat) as [|Hn]; [done|].
    pose proof (normal_shorter x y Hx Hy ltac:(lia)). lia. }
  destruct Hx as [Hx _]. destruct Hy as [Hy _].
  rewrite assert_true by (apply Nat.leb_le; lia). cbn [mbind option_bind].
  destruct (copy_and_pad_value (length x) y (replicate (length x) 0))
    as (Hlw & Hwu & Hwv);
    [lia|rewrite length_replicate; lia|done|apply Forall_u32_replicate|].
  rewrite length_replicate in Hlw.
  set (w := copy_and_pad _ _ _ _) in *.
  destruct (algorithm_s_spec (length x) P_X P_W P_W {[P_X := x; P_W := w]} x w w)
    as (w' & Hrun & Hlen' & _ & Hu32 & Hval);
    [apply work_store_X|apply work_store_W|apply work_store_W|done|done|lia|lia|lia| |].
  { rewrite Hwv, take_ge by lia. exact Hle. }
  rewrite Hrun. cbn [mbind option_bind]. rewrite lookup_insert_eq.
  cbn [mbind option_bind].
  destruct (bigint_create_spec (length x) w' false) as (Hwf & Hv & _);
    [done|lia|].
  eexists. split; [reflexivity|]. split; [done|].
  split; [apply bigint_create_nonneg|].
  rewrite Hv, Hval, Hwv. rewrite take_ge by lia. reflexivity.
Qed.

Lemma sub_spec fuel (x y : list Z) :
  normal x -> normal y -> (2 <= fuel)%nat ->
  exists z,
    sub fuel (length x) x (length y) y = Some z /\
    well_formed z /\ to_Z z = value B32 x - value B32 y.
Proof.
  intros Hx Hy Hf. destruct fuel as [|[|fuel]]; [lia|lia|].
  destruct (Z.lt_ge_cases (value B32 x) (value B32 y)) as [Hlt|Hge].
  - destruct (sub_ordered fuel y x Hy Hx ltac:(lia)) as (z & Hz & Hwf & Hneg & Hv).
    remember (S fuel) as f. cbn [sub]. rewrite cmp_spec by done.
    rewrite Z.sgn_neg by lia. cbn [Z.ltb Z.compare].
    rewrite Hz. cbn [mbind option_bind].
    eexists. split; [reflexivity|]. split.
    + destruct Hwf as (Hu & Hl & _). split; [exact Hu|]. split; [exact Hl|].
      cbn [set_negative data negative]. intros E. rewrite E in Hv. simpl in Hv. lia.
    + rewrite set_negative_to_Z, Hv. simpl sign_of. lia.
  - destruct (sub_ordered (S fuel) x y Hx Hy ltac:(lia)) as (z & Hz & Hwf & Hneg & Hv).
    exists z. split; [done|]. split; [done|].
    unfold to_Z. rewrite Hneg, Hv. simpl sign_of. lia.
Qed.

(** ** Signed addition and subtraction *)

Lemma normal_positive (u : list Z) : normal u -> u <> [] -> 0 < value B32 u.
Proof.
  intros Hu Hne. pose proof (normal_lower u Hu Hne).
  pose proof (pow32_pos (length u - 1)). lia.
Qed.

Lemma well_formed_normal (x : bigint_t) : well_formed x -> normal (data x).
Proof. intros (Hu & Hl & _). by split. Qed.

Lemma well_formed_negative (x : bigint_t) :
  well_formed x -> negative x = true -> 0 < value B32 (data x).
Proof.
  intros Hx Hneg. apply normal_positive; [by apply well_formed_normal|].
  intros E. destruct Hx as (_ & _ & Hz). rewrite (Hz E) in Hneg. discriminate.
Qed.

(** Setting the flag of a well-formed result keeps the limbs; the value
    stays canonical as long as a set flag comes with a nonzero magnitude. *)
Lemma set_negative_well_formed (z : bigint_t) b :
  well_formed z -> (b = true -> 0 < value B32 (data z)) ->
  well_formed (set_negative z b).
Proof.
  intros (Hu & Hl & _) Hb. split; [exact Hu|]. split; [exact Hl|].
  cbn [set_negative data negative]. intros E. destruct b; [|reflexivity].
  rewrite E in Hb. simpl in Hb. specialize (Hb eq_refl). lia.
Qed.

Lemma to_Z_nonneg (x : bigint_t) : negative x = false -> to_Z x = value B32 (data x).
Proof. intros H. unfold to_Z. rewrite H. simpl sign_of. lia. Qed.

Lemma to_Z_neg (x : bigint_t) : negative x = true -> to_Z x = - value B32 (data x).
Proof. intros H. unfold to_Z. rewrite H. simpl sign_of. lia. Qed.

Lemma bigint_add_spec (x y : bigint_t) :
  normal (data x) -> normal (data y) ->
  exists z,
    bigint_add x y = Some z /\ normal (data z) /\
    to_Z z = to_Z x + to_Z y /\
    (well_formed x -> well_formed y -> well_formed z).
Proof.
  intros Hx Hy. unfold bigint_add, call_depth.
  destruct (negative x) eqn:Ex; destruct (negative y) eqn:Ey;
    cbn [andb negb assert mbind option_bind].
  - destruct (add_spec 2 (data x) (data y) (proj1 Hx) (proj1 Hy) ltac:(lia))
      as (z & Hz & Hwf & Hneg & Hv).
    rewrite Hz. cbn [mbind option_bind]. eexists. split; [reflexivity|].
    split; [exact (well_formed_normal _ Hwf)|].
    split.
    + rewrite set_negative_to_Z, Hv, (to_Z_neg x Ex), (to_Z_neg y Ey).
      simpl sign_of. lia.
    + intros Wx Wy. apply set_negative_well_formed; [done|]. intros _.
      pose proof (well_formed_negative x Wx Ex).
      pose proof (value_u32_bound (data y) (proj1 Hy)). lia.
  - destruct (sub_spec 2 (data y) (data x) Hy Hx ltac:(lia)) as (z & Hz & Hwf & Hv).
    rewrite Hz. exists z. split; [reflexivity|].
    split; [exact (well_formed_normal _ Hwf)|].
    split; [|done]. rewrite Hv, (to_Z_neg x Ex), (to_Z_nonneg y Ey). lia.
  - destruct (sub_spec 2 (data x) (data y) Hx Hy ltac:(lia)) as (z & Hz & Hwf & Hv).
    rewrite Hz. exists z. split; [reflexivity|].
    split; [exact (well_formed_normal _ Hwf)|].
    split; [|done]. rewrite Hv, (to_Z_nonneg x Ex), (to_Z_neg y Ey). lia.
  - destruct (add_spec 2 (data x) (data y) (proj1 Hx) (proj1 Hy) ltac:(lia))
      as (z & Hz & Hwf & Hneg & Hv).
    rewrite Hz. exists z. split; [reflexivity|].
    split; [exact (well_formed_normal _ Hwf)|].
    split; [|done].
    rewrite (to_Z_nonneg z Hneg), Hv, (to_Z_nonneg x Ex), (to_Z_nonneg y Ey). lia.
Qed.

Lemma bigint_sub_spec (x y : bigint_t) :
  normal (data x) -> normal (data y) ->
  exists z,
    bigint_sub x y = Some z /\ normal (data z) /\
    to_Z z = to_Z x - to_Z y /\
    (well_formed x -> well_formed y -> well_formed z).
Proof.
  intros Hx Hy. unfold bigint_sub, call_depth.
  destruct (negative x) eqn:Ex; destruct (negative y) eqn:Ey;
    cbn [andb negb assert mbind option_bind].
  - destruct (sub_spec 2 (data y) (data x) Hy Hx ltac:(lia)) as (z & Hz & Hwf & Hv).
    rewrite Hz. exists z. split; [reflexivity|].
    split; [exact (well_formed_normal _ Hwf)|].
    split; [|done]. rewrite Hv, (to_Z_neg x Ex), (to_Z_neg y Ey). lia.
  - destruct (add_spec 2 (data x) (data y) (proj1 Hx) (proj1 Hy) ltac:(lia))
      as (z & Hz & Hwf & Hneg & Hv).
    rewrite Hz. cbn [mbind option_bind]. eexists. split; [reflexivity|].
    split; [exact (well_formed_normal _ Hwf)|].
    split.
    + rewrite set_negative_to_Z, Hv, (to_Z_neg x Ex), (to_Z_nonneg y Ey).
      simpl sign_of. lia.
    + intros Wx Wy. apply set_negative_well_formed; [done|]. intros _.
      pose proof (well_formed_negative x Wx Ex).
      pose proof (value_u32_bound (data y) (proj1 Hy)). lia.
  - destruct (add_spec 2 (data x) (data y) (proj1 Hx) (proj1 Hy) ltac:(lia))
      as (z & Hz & Hwf & Hneg & Hv).
    rewrite Hz. exists z. split; [reflexivity|].
    split; [exact (well_formed_normal _ Hwf)|].
    split; [|done].
    rewrite (to_Z_nonneg z Hneg), Hv, (to_Z_nonneg x Ex), (to_Z_neg y Ey). lia.
  - destruct (sub_spec 2 (data x) (data y) Hx Hy ltac:(lia)) as (z & Hz & Hwf & Hv).
    rewrite Hz. exists z. split; [reflexivity|].
    split; [exact (well_formed_normal _ Hwf)|].
    split; [|done]. rewrite Hv, (to_Z_nonneg x Ex), (to_Z_nonneg y Ey). lia.
Qed.

(** ** Signed comparison *)

(** ** Multiplication of magnitudes *)

(** One place of the multiplication: the carry [k] absorbs both partial
    carries without wrapping. *)
Lemma mul_digit a x k wv :
  is_u32 a -> is_u32 x -> is_u32 k -> is_u32 wv ->
  let '(hi_prod, lo_prod) := mul_32_by_32 a x in
  let lo := u32 (lo_prod + k) in
  let carry_a := lo <? k in
  let w' := u32 (wv + lo) in
  let carry_b := w' <? lo in
  let k' := u32 (hi_prod + b2z carry_a + b2z carry_b) in
  is_u32 w' /\ is_u32 k' /\ hi_prod <= k' /\
  w' + 4294967296 * k' = wv + a * x + k.
Proof.
  intros Ha Hx Hk Hw. pose proof (mul_32_by_32_spec a x Ha Hx) as H.
  destruct (mul_32_by_32 a x) as [hi lo]. destruct H as (Hlo & Hhi & Hp).
  cbv zeta. rewrite <- Hp.
  assert (Hb : lo + 4294967296 * hi <= 4294967295 * 4294967295).
  { rewrite Hp. unfold is_u32 in Ha, Hx. nia. }
  clear Hp. unfold is_u32 in *. unfold u32, b2z.
  destruct (Z.ltb_spec ((lo + k) mod 4294967296) k);
    destruct (Z.ltb_spec ((wv + (lo + k) mod 4294967296) mod 4294967296)
                ((lo + k) mod 4294967296));
    Z.div_mod_to_equations; lia.
Qed.

Section MulInner.
Variables (m j : nat) (u w0 : list Z) (vj : Z).
Hypothesis Hu : Forall is_u32 u.
Hypothesis Hw0 : Forall is_u32 w0.
Hypothesis Hvj : is_u32 vj.
Hypothesis Hmu : (m <= length u)%nat.
Hypothesis Hjm : (j + m <= length w0)%nat.

Lemma algorithm_m_inner_inv i :
  (i <= m)%nat ->
  exists wi k,
    for_loop_opt 0 i (algorithm_m_inner u vj j) (w0, 0) = Some (wi, k) /\
    length wi = length w0 /\ Forall is_u32 wi /\ is_u32 k /\
    drop (i + j) wi = drop (i + j) w0 /\
    value B32 (take (i + j) wi) + B32 ^ Z.of_nat (i + j) * k =
      value B32 (take (i + j) w0) +
      B32 ^ Z.of_nat j * (value B32 (take i u) * vj).
Proof.
  induction i as [|i IH]; intros Hi.
  - exists w0, 0. rewrite for_loop_opt_0.
    split; [reflexivity|]. split; [reflexivity|]. split; [done|].
    split; [unfold is_u32; lia|]. split; [reflexivity|]. simpl value. lia.
  - destruct IH as (wi & k & Hrun & Hlen & Hwi & Hk & Hdrop & Hval); [lia|].
    rewrite for_loop_opt_S, Hrun. cbn [mbind option_bind]. rewrite Nat.add_0_l.
    unfold algorithm_m_inner.
    pose proof (mul_digit u.[i] vj k wi.[i + j] (nth_is_u32 u i Hu) Hvj Hk
                  (nth_is_u32 wi (i + j) Hwi)) as Hd.
    destruct (mul_32_by_32 u.[i] vj) as [hi lo]. cbv zeta in Hd |- *.
    rewrite nth_insert_eq by lia.
    destruct Hd as (Hw' & Hk' & Hle & Hsum).
    rewrite assert_true by (apply Z.leb_le; exact Hle).
    cbn [mbind option_bind].
    eexists _, _. split; [reflexivity|].
    split; [by rewrite length_insert|].
    split; [apply Forall_insert; done|].
    split; [exact Hk'|].
    change (S i + j)%nat with (S (i + j)).
    split; [rewrite drop_insert_lt by lia; by apply drop_S_eq|].
    rewrite value32_take_S_insert by lia.
    rewrite !value32_take_S by lia.
    pose proof (drop_eq_nth _ _ _ Hdrop) as Hnth. rewrite Hnth in Hsum |- *.
    rewrite !Nat2Z.inj_succ, Z.pow_succ_r by lia.
    rewrite Nat2Z.inj_add, Z.pow_add_r in * by lia.
    apply (f_equal (Z.mul (B32 ^ Z.of_nat i * B32 ^ Z.of_nat j))) in Hsum.
    unfold B32 in Hval, Hsum |- *.
    clear - Hval Hsum. lia.
Qed.
End MulInner.

Section MulOuter.
Variables (m n : nat) (u v w : list Z).
Hypothesis Hu : Forall is_u32 u.
Hypothesis Hv : Forall is_u32 v.
Hypothesis Hw : Forall is_u32 w.
Hypothesis Hmu : (m <= length u)%nat.
Hypothesis Hnv : (n <= length v)%nat.
Hypothesis Hmn : (m + n <= length w)%nat.

Lemma algorithm_m_outer_step j (wj : list Z) :
  (j < n)%nat -> length wj = length w -> Forall is_u32 wj ->
  exists w',
    algorithm_m_outer m u v j wj = Some w' /\
    length w' = length w /\ Forall is_u32 w' /\
    value B32 (take (S j + m) w') =
      value B32 (take (j + m) wj) +
      B32 ^ Z.of_nat j * (value B32 (take m u) * v.[j]).
Proof.
  intros Hj Hlen Hwj. unfold algorithm_m_outer.
  change (S j + m)%nat with (S (j + m)).
  destruct (Z.eqb_spec v.[j] 0) as [Hz|Hnz].
  - eexists. split; [reflexivity|].
    split; [by rewrite length_insert|].
    split; [apply Forall_insert; [done|unfold is_u32; lia]|].
    rewrite value32_take_S_insert by lia. rewrite Hz. lia.
  - destruct (algorithm_m_inner_inv m j u wj v.[j] Hu Hwj (nth_is_u32 v j Hv) Hmu
                ltac:(lia) m ltac:(lia))
      as (wm & k & Hrun & Hlm & Hwm & Hk & _ & Hval).
    rewrite Hrun. cbn [mbind option_bind].
    eexists. split; [reflexivity|].
    split; [rewrite length_insert; lia|].
    split; [apply Forall_insert; done|].
    rewrite value32_take_S_insert by lia.
    replace (m + j)%nat with (j + m)%nat in Hval by lia. exact Hval.
Qed.

Lemma algorithm_m_outer_inv j :
  (j <= n)%nat ->
  exists wj,
    for_loop_opt 0 j (algorithm_m_outer m u v)
      (for_loop 0 m (fun i w => <[i := 0]> w) w) = Some wj /\
    length wj = length w /\ Forall is_u32 wj /\
    value B32 (take (j + m) wj) = value B32 (take m u) * value B32 (take j v).
Proof.
  induction j as [|j IH]; intros Hj.
  - pose proof (fill_loop (fun _ => 0) 0 m [] w eq_refl ltac:(lia)) as Hfill.
    rewrite drop_0 in Hfill. cbn [app Nat.add] in Hfill.
    rewrite map_const_seq in Hfill.
    rewrite for_loop_opt_0, Hfill. eexists. split; [reflexivity|].
    split; [rewrite length_app, length_replicate, length_drop; lia|].
    split; [apply Forall_app; split; [apply Forall_u32_replicate|by apply Forall_drop]|].
    cbn [Nat.add take]. rewrite take_app_length' by (by rewrite length_replicate).
    rewrite value_replicate_0. simpl value. lia.
  - destruct IH as (wj & Hrun & Hlen & Hwj & Hval); [lia|].
    rewrite for_loop_opt_S, Hrun. cbn [mbind option_bind]. rewrite Nat.add_0_l.
    destruct (algorithm_m_outer_step j wj ltac:(lia) Hlen Hwj)
      as (w' & Hstep & Hlen' & Hw' & Hval').
    rewrite Hstep. exists w'. split; [reflexivity|]. split; [done|]. split; [done|].
    rewrite Hval', Hval, (value32_take_S v j) by lia.
    clear. lia.
Qed.

Lemma algorithm_m_spec :
  exists w',
    algorithm_m m n u v w = Some w' /\
    length w' = length w /\ Forall is_u32 w' /\
    value B32 (take (m + n) w') = value B32 (take m u) * value B32 (take n v).
Proof.
  destruct (algorithm_m_outer_inv n ltac:(lia)) as (w' & Hrun & Hlen & Hw' & Hval).
  exists w'. unfold algorithm_m. split; [exact Hrun|]. split; [done|]. split; [done|].
  replace (m + n)%nat with (n + m)%nat by lia. exact Hval.
Qed.
End MulOuter.

(** ** Signed multiplication *)

Lemma sign_of_xorb a b : sign_of (xorb a b) = sign_of a * sign_of b.
Proof. by destruct a, b. Qed.

Lemma bigint_mul_spec (x y : bigint_t) :
  Forall is_u32 (data x) -> Forall is_u32 (data y) ->
  exists z,
    bigint_mul x y = Some z /\ well_formed z /\ to_Z z = to_Z x * to_Z y.
Proof.
  intros Hx Hy. unfold bigint_mul.
  destruct (algorithm_m_spec (length (data x)) (length (data y)) (data x) (data y)
              (replicate (length (data x) + length (data y)) 0) Hx Hy
              (Forall_u32_replicate _) ltac:(lia) ltac:(lia)
              ltac:(rewrite length_replicate; lia))
    as (w' & Hrun & Hlen & Hw' & Hval).
  rewrite length_replicate in Hlen.
  rewrite Hrun. cbn [mbind option_bind].
  destruct (bigint_create_spec (length (data x) + length (data y)) w'
              (xorb (negative x) (negative y)))
    as (Hwf & Hv & Hs); [by apply Forall_take|lia|].
  eexists. split; [reflexivity|]. split; [exact Hwf|].
  rewrite (take_ge (data x)), (take_ge (data y)) in Hval by lia. rewrite Hval in Hv.
  unfold to_Z at 1. rewrite Hv.
  set (z := bigint_create _ _ _) in *.
  destruct (decide (data z = [])) as [E|E].
  - rewrite E in Hv. simpl in Hv. unfold to_Z.
    replace (sign_of (negative x) * value B32 (data x) *
             (sign_of (negative y) * value B32 (data y)))
      with (sign_of (negative x) * sign_of (negative y) *
            (value B32 (data x) * value B32 (data y))) by ring.
    rewrite <- Hv. lia.
  - rewrite (Hs E), sign_of_xorb. unfold to_Z. ring.
Qed.

(** ** Uniqueness of the representation *)

Lemma value32_inj (l1 l2 : list Z) :
  length l1 = length l2 -> Forall is_u32 l1 -> Forall is_u32 l2 ->
  value B32 l1 = value B32 l2 -> l1 = l2.
Proof.
  revert l2. induction l1 as [|x l1 IH]; intros [|y l2] Hlen H1 H2 Hv;
    try discriminate; [reflexivity|].
  inversion H1 as [|? ? Hx H1']; inversion H2 as [|? ? Hy H2']; subst.
  simpl in Hv, Hlen. unfold B32, is_u32 in *.
  assert (x = y /\ value 4294967296 l1 = value 4294967296 l2) as [-> Hv'] by lia.
  f_equal. apply IH; [lia|done|done|exact Hv'].
Qed.

Lemma normal_unique (u v : list Z) :
  normal u -> normal v -> value B32 u = value B32 v -> u = v.
Proof.
  intros Hu Hv E. apply value32_inj; [|apply Hu|apply Hv|exact E].
  destruct (Nat.lt_trichotomy (length u) (length v)) as [Hlt|[He|Hgt]]; [|done|].
  - pose proof (normal_shorter u v Hu Hv Hlt). lia.
  - pose proof (normal_shorter v u Hv Hu Hgt). lia.
Qed.

(** A well-formed value is determined by the integer it represents. *)
Lemma well_formed_unique (a b : bigint_t) :
  well_formed a -> well_formed b -> to_Z a = to_Z b -> a = b.
Proof.
  intros Wa Wb E.
  pose proof (value_u32_bound (data a) (proj1 Wa)) as Ba.
  pose proof (value_u32_bound (data b) (proj1 Wb)) as Bb.
  assert (Hs : negative a = negative b).
  { destruct (negative a) eqn:Ea; destruct (negative b) eqn:Eb; try reflexivity.
    - pose proof (well_formed_negative a Wa Ea).
      rewrite (to_Z_neg a Ea), (to_Z_nonneg b Eb) in E. lia.
    - pose proof (well_formed_negative b Wb Eb).
      rewrite (to_Z_nonneg a Ea), (to_Z_neg b Eb) in E. lia. }
  assert (Hd : data a = data b).
  { apply normal_unique; [by apply well_formed_normal|by apply well_formed_normal|].
    unfold to_Z in E. rewrite Hs in E. destruct (negative b); simpl sign_of in E; lia. }
  destruct a, b. simpl in *. by subst.
Qed.

(** ** Negation *)

Lemma bigint_neg_value (x : bigint_t) :
  Forall is_u32 (data x) ->
  well_formed (bigint_neg x) /\ to_Z (bigint_neg x) = - to_Z x.
Proof.
  intros Hx. unfold bigint_neg.
  destruct (bigint_create_spec (length (data x)) (data x) (xorb (negative x) true))
    as (Hwf & Hv & Hs); [by apply Forall_take|lia|].
  split; [exact Hwf|]. rewrite take_ge in Hv by lia.
  unfold to_Z. rewrite Hv.
  set (z := bigint_create _ _ _) in *.
  destruct (decide (data z = [])) as [E|E].
  - rewrite E in Hv. simpl in Hv. rewrite <- Hv. lia.
  - rewrite (Hs E). destruct (negative x); simpl; lia.
Qed.

(** ** Division of values whose flag may be set on zero *)

Lemma bigint_div_normal (x y : bigint_t) :
  normal (data x) -> normal (data y) -> bigint_is_zero y = false ->
  exists q,
    bigint_div x y = Some q /\ normal (data q) /\
    to_Z q = Z.quot (to_Z x) (to_Z y).
Proof.
  intros Hx Hy Hnz.
  set (x' := {| negative := false; data := data x |}).
  set (y' := {| negative := false; data := data y |}).
  assert (Wx : well_formed x') by (split; [apply Hx|split; [apply Hx|reflexivity]]).
  assert (Wy : well_formed y') by (split; [apply Hy|split; [apply Hy|reflexivity]]).
  unfold bigint_div.
  destruct (Nat.ltb_spec (length (data x)) (length (data y))) as [Hlt|Hge].
  - pose proof (normal_shorter _ _ Hx Hy Hlt) as Hsmall.
    pose proof (value_u32_bound (data x) (proj1 Hx)) as Hxb.
    destruct (signed_division (negative x) (negative y)
                (value B32 (data x)) (value B32 (data y)) 0 (value B32 (data x)))
      as [Hq _]; [lia|lia|lia|].
    eexists. split; [reflexivity|].
    split; [split; [constructor|simpl; congruence]|].
    unfold to_Z at 2 3. rewrite Hq. unfold bigint_create, to_Z. simpl. lia.
  - destruct (divrem_spec x' y' Wx Wy Hnz false Hge)
      as (zq & Q & R & Hrq & Hwf & HR & HQ & Hval & Hvq).
    cbn [data x' y'] in Hrq, HR, Hval. rewrite Hrq. cbn [mbind option_bind].
    eexists. split; [reflexivity|].
    split; [exact (well_formed_normal _ Hwf)|].
    rewrite set_negative_to_Z, Hvq. unfold to_Z.
    destruct (signed_division (negative x) (negative y)
                (value B32 (data x)) (value B32 (data y)) Q R HR HQ Hval)
      as [-> _].
    reflexivity.
Qed.

(** ** Reading a number out of a longer buffer *)

Lemma for_loop_opt_ext {S} lo cnt (f g : nat -> S -> option S) s :
  (forall i st, (lo <= i < lo + cnt)%nat -> f i st = g i st) ->
  for_loop_opt lo cnt f s = for_loop_opt lo cnt g s.
Proof.
  intros H. induction cnt as [|cnt IH].
  - reflexivity.
  - rewrite !for_loop_opt_S, IH by (intros; apply H; lia).
    destruct (for_loop_opt lo cnt g s) as [st|]; [|reflexivity].
    cbn [mbind option_bind]. apply H. lia.
Qed.

(** [from_string] reads the first [n] characters only. *)
Lemma from_string_app (d rest : list ascii) (u : list Z) :
  from_string (length d) (d ++ rest) u = from_string (length d) d u.
Proof.
  unfold from_string. f_equal. apply for_loop_opt_ext. intros i st Hi.
  unfold from_string_body. destruct st as [[chunk u_len] u'].
  rewrite app_nth1 by lia. reflexivity.
Qed.

Lemma digit_not_minus c : is_digit c -> Ascii.eqb c "-"%char = false.
Proof.
  intros Hc. destruct (Ascii.eqb_spec c "-"%char) as [->|]; [|reflexivity].
  unfold is_digit in Hc. vm_compute in Hc. destruct Hc as [Hc _].
  exfalso. apply Hc. reflexivity.
Qed.

Lemma bigint_create_value n (u : list Z) neg :
  Forall is_u32 (take n u) -> (n <= length u)%nat ->
  well_formed (bigint_create n u neg) /\
  to_Z (bigint_create n u neg) = sign_of neg * value B32 (take n u).
Proof.
  intros Hu Hn. destruct (bigint_create_spec n u neg Hu Hn) as (Hwf & Hv & Hs).
  split; [exact Hwf|]. unfold to_Z. rewrite Hv.
  set (z := bigint_create _ _ _) in *.
  destruct (decide (data z = [])) as [E|E].
  - rewrite E in Hv. simpl in Hv. rewrite <- Hv. lia.
  - rewrite (Hs E). reflexivity.
Qed.

(** An unsigned digit string, which other characters may follow in the
    buffer: leading zeros are accepted. *)
Lemma bigint_create_str_unsigned (d rest : list ascii) :
  d <> [] -> Forall is_digit d ->
  exists z,
    bigint_create_str (length d) (d ++ rest) = Some z /\
    well_formed z /\ to_Z z = decimal_value d.
Proof.
  intros Hne Hd. unfold bigint_create_str.
  assert (Hl : (0 < length d)%nat) by (destruct d; [congruence|simpl; lia]).
  rewrite (assert_true (0 <? _)%nat) by (apply Nat.ltb_lt; lia).
  cbn [mbind option_bind].
  rewrite app_nth1 by lia.
  rewrite digit_not_minus
    by (destruct d as [|c d']; [congruence|]; by inversion Hd).
  cbn [mbind option_bind]. rewrite from_string_app.
  destruct (from_string_spec (length d) d (replicate (length d / 9 + 1) 0) eq_refl Hd)
    as (u_len & u & Hrun & Hlen & Hcap & Hu & Hv).
  { rewrite length_replicate. lia. }
  rewrite Hrun. cbn [mbind option_bind]. rewrite length_replicate in Hlen.
  destruct (bigint_create_value u_len u false Hu ltac:(lia)) as (Hwf & Hz).
  eexists. split; [reflexivity|]. split; [exact Hwf|].
  rewrite Hz, Hv. simpl sign_of. lia.
Qed.

(** A hyphen and a digit string: the value is negated, and [-0] is zero. *)
Lemma bigint_create_str_signed (d rest : list ascii) :
  d <> [] -> Forall is_digit d ->
  exists z,
    bigint_create_str (S (length d)) ("-"%char :: d ++ rest) = Some z /\
    well_formed z /\ to_Z z = - decimal_value d.
Proof.
  intros Hne Hd. unfold bigint_create_str.
  assert (Hl : (0 < length d)%nat) by (destruct d; [congruence|simpl; lia]).
  rewrite (assert_true (0 <? _)%nat) by reflexivity. cbn [mbind option_bind].
  change (nth 0 ("-"%char :: d ++ rest) NUL) with "-"%char.
  change (Ascii.eqb "-" "-") with true. cbv iota.
  rewrite (assert_true (1 <? _)%nat) by (apply Nat.ltb_lt; lia).
  cbn [mbind option_bind]. simpl drop. rewrite drop_0.
  replace (S (length d) - 1)%nat with (length d) by lia.
  rewrite from_string_app.
  destruct (from_string_spec (length d) d (replicate (S (length d) / 9 + 1) 0) eq_refl Hd)
    as (u_len & u & Hrun & Hlen & Hcap & Hu & Hv).
  { rewrite length_replicate.
    assert (length d / 9 <= S (length d) / 9)%nat; [|lia].
    apply Nat.Div0.div_le_mono. lia. }
  rewrite Hrun. cbn [mbind option_bind]. rewrite length_replicate in Hlen.
  assert (Hcap' : (u_len <= length u)%nat).
  { assert (length d / 9 <= S (length d) / 9)%nat; [|lia].
    apply Nat.Div0.div_le_mono. lia. }
  destruct (bigint_create_value u_len u true Hu Hcap') as (Hwf & Hz).
  eexists. split; [reflexivity|]. split; [exact Hwf|].
  rewrite Hz, Hv. simpl sign_of. lia.
Qed.

(** ** Printing and reading back *)

Lemma strlen_app_terminated (chars rest : list ascii) :
  Forall (fun c => c <> NUL) chars -> strlen (chars ++ NUL :: rest) = length chars.
Proof.
  induction 1 as [|c chars Hc Hl IH].
  - simpl. reflexivity.
  - simpl. destruct (Ascii.eqb_spec c NUL) as [|_]; [contradiction|].
    rewrite IH. reflexivity.
Qed.

(** ** Round trips of the normalization helpers and of the half-limb bridge *)

Lemma value16_inj (l1 l2 : list Z) :
  length l1 = length l2 -> Forall is_u16 l1 -> Forall is_u16 l2 ->
  value B16 l1 = value B16 l2 -> l1 = l2.
Proof.
  revert l2. induction l1 as [|x l1 IH]; intros [|y l2] Hlen H1 H2 Hv;
    try discriminate; [reflexivity|].
  inversion H1 as [|? ? Hx H1']; inversion H2 as [|? ? Hy H2']; subst.
  simpl in Hv, Hlen. unfold B16, is_u16 in *.
  assert (x = y /\ value 65536 l1 = value 65536 l2) as [-> Hv'] by lia.
  f_equal. apply IH; [lia|done|done|exact Hv'].
Qed.

Lemma take_drop_eq (a b : list Z) n :
  take n a = take n b -> drop n a = drop n b -> a = b.
Proof. intros Ht Hd. rewrite <- (take_drop n a), <- (take_drop n b). by rewrite Ht, Hd. Qed.

(** ** Rejected input of the decimal reader *)

Lemma for_loop_opt_abort {S} lo cnt (body : nat -> S -> option S) s i :
  (lo <= i < lo + cnt)%nat -> (forall st, body i st = None) ->
  for_loop_opt lo cnt body s = None.
Proof.
  intros Hi Hb. induction cnt as [|cnt IH]; [lia|].
  rewrite for_loop_opt_S.
  destruct (decide (i = lo + cnt)%nat) as [->|Hne].
  - destruct (for_loop_opt lo cnt body s); [apply Hb|reflexivity].
  - rewrite IH by lia. reflexivity.
Qed.

Lemma from_string_rejects (n : nat) (str : list ascii) (u : list Z) i :
  (i < n)%nat -> ~ is_digit (nth i str NUL) ->
  from_string n str u = None.
Proof.
  intros Hi Hc. unfold from_string.
  rewrite (for_loop_opt_abort 1 n _ _ (S i)); [reflexivity|lia|].
  intros [[chunk u_len] u']. unfold from_string_body.
  replace (S i - 1)%nat with i by lia.
  unfold is_digit in Hc.
  destruct ((48 <=? char_code (nth i str NUL)) && (char_code (nth i str NUL) <=? 57))
    eqn:E; [|reflexivity].
  apply andb_true_iff in E as [E1 E2].
  apply Z.leb_le in E1. apply Z.leb_le in E2. exfalso. apply Hc. lia.
Qed.

(** ** The strings [bigint_create_str] accepts *)

Lemma is_digit_dec c : {is_digit c} + {~ is_digit c}.
Proof.
  unfold is_digit. destruct (Z_le_dec 48 (char_code c)); destruct (Z_le_dec (char_code c) 57);
    (left; lia) || (right; lia).
Defined.

Lemma not_all_digits (d : list ascii) :
  ~ Forall is_digit d -> exists i, (i < length d)%nat /\ ~ is_digit (nth i d NUL).
Proof.
  induction d as [|c d IH]; intros H.
  - exfalso. apply H. constructor.
  - destruct (is_digit_dec c) as [Hc|Hc].
    + destruct IH as (i & Hi & Hn).
      { intros Hd. apply H. by constructor. }
      exists (S i). split; [simpl; lia|exact Hn].
    + exists 0%nat. split; [simpl; lia|exact Hc].
Qed.

Lemma bigint_create_str_rejects_digits (n : nat) (s : list ascii) :
  Ascii.eqb (nth 0 s NUL) "-"%char = false ->
  length s = n -> ~ Forall is_digit s ->
  bigint_create_str n s = None.
Proof.
  intros Hm Hl Hd. unfold bigint_create_str.
  destruct (assert (0 <? n)%nat); [|reflexivity]. cbn [mbind option_bind].
  rewrite Hm. cbn [mbind option_bind].
  destruct (not_all_digits s Hd) as (i & Hi & Hn).
  rewrite (from_string_rejects n s _ i) by (assumption || lia). reflexivity.
Qed.

(** ** Sign and magnitude of a well-formed value *)

Lemma to_Z_sign_abs (z : bigint_t) :
  well_formed z ->
  (to_Z z <? 0) = negative z /\ value B32 (data z) = Z.abs (to_Z z).
Proof.
  intros Wz. pose proof (value_u32_bound (data z) (proj1 Wz)) as Hb.
  destruct (negative z) eqn:En.
  - pose proof (well_formed_negative z Wz En). rewrite (to_Z_neg z En).
    split; [apply Z.ltb_lt; lia|lia].
  - rewrite (to_Z_nonneg z En). split; [apply Z.ltb_ge; lia|lia].
Qed.

(** * Further properties of the bignum core *)

(** Concrete arrays and values in the examples below. *)
Ltac limbs32 := repeat (apply Forall_cons_2; [unfold is_u32; lia|]); apply Forall_nil_2.
Ltac limbs16 := repeat (apply Forall_cons_2; [unfold is_u16; lia|]); apply Forall_nil_2.
Ltac by_evaluation :=
  first [reflexivity | limbs32 | limbs16 | (unfold B32, B16; simpl; lia)].
Ltac concrete_normal := split; [limbs32|simpl; discriminate].
Ltac concrete_value :=
  split; [limbs32|split; [simpl; discriminate|simpl; first [discriminate|reflexivity]]].

(** ** Magnitudes *)

(** X1. On magnitudes without a most-significant zero limb, [cmp] returns
    the sign of the difference of the two numbers: -1, 0 or 1. *)
Theorem cmp_orders_magnitudes (u v : list Z) :
  normal u -> normal v ->
  cmp (length u) u (length v) v = Z.sgn (value B32 u - value B32 v).
Proof. apply cmp_spec. Qed.

Lemma cmp_orders_magnitudes_witness :
  cmp 2 [5; 1] 1 [7] = Z.sgn (value B32 [5; 1] - value B32 [7]).
Proof. apply (cmp_orders_magnitudes [5; 1] [7]); concrete_normal. Defined.

(** X2. [algorithm_a] never trips its carry assertion and leaves in the low
    [n + 1] places of [w] the sum of the [n]-place numbers [u] and [v]; no
    other array and no higher place of [w] changes.  The three pointers may
    be equal in any combination: [add] passes [w] as [v]. *)
Theorem algorithm_a_adds (n : nat) (pu pv pw : ptr) (s : store) (u v w : list Z) :
  s !! pu = Some u -> s !! pv = Some v -> s !! pw = Some w ->
  Forall is_u32 u -> Forall is_u32 v ->
  (n <= length u)%nat -> (n <= length v)%nat -> (n < length w)%nat ->
  exists w',
    algorithm_a n pu pv pw s = Some (<[pw := w']> s) /\
    length w' = length w /\ drop (S n) w' = drop (S n) w /\
    Forall is_u32 (take (S n) w') /\
    value B32 (take (S n) w') = value B32 (take n u) + value B32 (take n v).
Proof. intros. by eapply algorithm_a_spec. Qed.

Lemma algorithm_a_adds_witness :
  let s : store := {[P_X := [4294967295; 1]; P_W := [1; 4294967295; 9]]} in
  exists w',
    algorithm_a 2 P_X P_W P_W s = Some (<[P_W := w']> s) /\
    length w' = 3%nat /\ drop 3 w' = [] /\
    Forall is_u32 (take 3 w') /\
    value B32 (take 3 w') =
      value B32 [4294967295; 1] + value B32 [1; 4294967295].
Proof.
  intros s.
  apply (algorithm_a_adds 2 P_X P_W P_W s [4294967295; 1] [1; 4294967295; 9]
           [1; 4294967295; 9]);
    by_evaluation.
Defined.

(** X3. [algorithm_s] subtracts exactly when the result is not negative.
    When [u >= v] as [n]-place numbers, it passes its three assertions and
    leaves [u - v] in the low [n] places of [w], whatever pointers
    coincide; when [u < v], it aborts on its first assertion instead of
    wrapping around. *)
Theorem algorithm_s_subtracts (n : nat) (pu pv pw : ptr) (s : store) (u v w : list Z) :
  s !! pu = Some u -> s !! pv = Some v -> s !! pw = Some w ->
  Forall is_u32 u -> Forall is_u32 v ->
  (n <= length u)%nat -> (n <= length v)%nat -> (n <= length w)%nat ->
  (value B32 (take n v) <= value B32 (take n u) ->
   exists w',
     algorithm_s n pu pv pw s = Some (<[pw := w']> s) /\
     length w' = length w /\ drop n w' = drop n w /\
     Forall is_u32 (take n w') /\
     value B32 (take n w') = value B32 (take n u) - value B32 (take n v)) /\
  (value B32 (take n u) < value B32 (take n v) ->
   algorithm_s n pu pv pw s = None).
Proof.
  intros Hpu Hpv Hpw Hu Hv Hnu Hnv Hnw. split.
  - intros Hle. by eapply algorithm_s_spec.
  - intros Hlt. unfold algorithm_s. rewrite Hpu, Hpv. cbn [mbind option_bind].
    unfold cmp. rewrite Nat.eqb_refl. cbn [negb].
    rewrite cmp_loop_spec, Z.sgn_neg by (assumption || lia). reflexivity.
Qed.

Lemma algorithm_s_subtracts_witness :
  let s : store := {[P_X := [0; 1]; P_W := [1; 0]]} in
  (exists w',
     algorithm_s 2 P_X P_W P_W s = Some (<[P_W := w']> s) /\
     length w' = 2%nat /\ drop 2 w' = [] /\
     Forall is_u32 (take 2 w') /\
     value B32 (take 2 w') = value B32 [0; 1] - value B32 [1; 0]) /\
  algorithm_s 2 P_W P_X P_W s = None.
Proof.
  intros s. split.
  - apply (algorithm_s_subtracts 2 P_X P_W P_W s [0; 1] [1; 0] [1; 0]);
      by_evaluation.
  - apply (algorithm_s_subtracts 2 P_W P_X P_W s [1; 0] [0; 1] [1; 0]);
      by_evaluation.
Defined.

(** X4. [algorithm_m] never trips its carry assertion and writes the
    product of the [m]-place [u] and the [n]-place [v] into the low [m + n]
    places of [w], whatever [w] held before. *)
Theorem algorithm_m_multiplies (m n : nat) (u v w : list Z) :
  Forall is_u32 u -> Forall is_u32 v -> Forall is_u32 w ->
  (m <= length u)%nat -> (n <= length v)%nat -> (m + n <= length w)%nat ->
  exists w',
    algorithm_m m n u v w = Some w' /\
    length w' = length w /\ Forall is_u32 w' /\
    value B32 (take (m + n) w') = value B32 (take m u) * value B32 (take n v).
Proof. intros. by apply algorithm_m_spec. Qed.

Lemma algorithm_m_multiplies_witness :
  exists w',
    algorithm_m 2 1 [4294967295; 4294967295] [4294967295] [7; 7; 7] = Some w' /\
    length w' = 3%nat /\ Forall is_u32 w' /\
    value B32 (take 3 w') =
      value B32 [4294967295; 4294967295] * value B32 [4294967295].
Proof.
  apply (algorithm_m_multiplies 2 1 [4294967295; 4294967295] [4294967295] [7; 7; 7]);
    by_evaluation.
Defined.

(** ** Signed arithmetic *)

(** X5. [bigint_add] returns for all well-formed operands; the result is
    well-formed and represents the sum. *)
Theorem bigint_add_correct (x y : bigint_t) :
  well_formed x -> well_formed y ->
  exists z,
    bigint_add x y = Some z /\ well_formed z /\ to_Z z = to_Z x + to_Z y.
Proof.
  intros Wx Wy.
  destruct (bigint_add_spec x y (well_formed_normal x Wx) (well_formed_normal y Wy))
    as (z & Hz & _ & Hv & Hwf).
  exists z. split; [exact Hz|]. split; [by apply Hwf|exact Hv].
Qed.

Lemma bigint_add_correct_witness :
  let x := {| negative := true; data := [5] |} in
  let y := {| negative := false; data := [3; 1] |} in
  exists z,
    bigint_add x y = Some z /\ well_formed z /\ to_Z z = to_Z x + to_Z y.
Proof. intros x y. apply (bigint_add_correct x y); concrete_value. Defined.

(** X6. [bigint_sub] returns for all well-formed operands; the result is
    well-formed and represents the difference. *)
Theorem bigint_sub_correct (x y : bigint_t) :
  well_formed x -> well_formed y ->
  exists z,
    bigint_sub x y = Some z /\ well_formed z /\ to_Z z = to_Z x - to_Z y.
Proof.
  intros Wx Wy.
  destruct (bigint_sub_spec x y (well_formed_normal x Wx) (well_formed_normal y Wy))
    as (z & Hz & _ & Hv & Hwf).
  exists z. split; [exact Hz|]. split; [by apply Hwf|exact Hv].
Qed.

Lemma bigint_sub_correct_witness :
  let x := {| negative := false; data := [5] |} in
  let y := {| negative := false; data := [3; 1] |} in
  exists z,
    bigint_sub x y = Some z /\ well_formed z /\ to_Z z = to_Z x - to_Z y.
Proof. intros x y. apply (bigint_sub_correct x y); concrete_value. Defined.

(** X7. [bigint_mul] returns whenever the limbs are 32-bit numbers, even
    with leading zero limbs or a flagged zero among the operands; the
    result is well-formed and represents the product. *)
Theorem bigint_mul_correct (x y : bigint_t) :
  Forall is_u32 (data x) -> Forall is_u32 (data y) ->
  exists z,
    bigint_mul x y = Some z /\ well_formed z /\ to_Z z = to_Z x * to_Z y.
Proof. apply bigint_mul_spec. Qed.

Lemma bigint_mul_correct_witness :
  let x := {| negative := true; data := [4294967295; 0] |} in
  let y := {| negative := false; data := [4294967295; 1] |} in
  exists z,
    bigint_mul x y = Some z /\ well_formed z /\ to_Z z = to_Z x * to_Z y.
Proof. intros x y. apply (bigint_mul_correct x y); limbs32. Defined.

(** X8. On well-formed operands [bigint_cmp] returns the sign of the
    difference of the represented integers. *)
Theorem bigint_cmp_correct (x y : bigint_t) :
  well_formed x -> well_formed y ->
  bigint_cmp x y = Some (Z.sgn (to_Z x - to_Z y)).
Proof.
  intros Wx Wy. unfold bigint_cmp.
  pose proof (well_formed_normal x Wx) as Hx.
  pose proof (well_formed_normal y Wy) as Hy.
  pose proof (value_u32_bound (data x) (proj1 Hx)) as Bx.
  pose proof (value_u32_bound (data y) (proj1 Hy)) as By.
  destruct (negative x) eqn:Ex; destruct (negative y) eqn:Ey;
    cbn [eqb negb assert mbind option_bind].
  - rewrite cmp_spec by done. rewrite (to_Z_neg x Ex), (to_Z_neg y Ey).
    do 2 f_equal. lia.
  - pose proof (well_formed_negative x Wx Ex).
    rewrite (to_Z_neg x Ex), (to_Z_nonneg y Ey). f_equal. symmetry.
    apply Z.sgn_neg. lia.
  - pose proof (well_formed_negative y Wy Ey).
    rewrite (to_Z_nonneg x Ex), (to_Z_neg y Ey). f_equal. symmetry.
    apply Z.sgn_pos. lia.
  - rewrite cmp_spec by done. rewrite (to_Z_nonneg x Ex), (to_Z_nonneg y Ey).
    reflexivity.
Qed.

Lemma bigint_cmp_correct_witness :
  let x := {| negative := true; data := [5; 2] |} in
  let y := {| negative := true; data := [3; 1] |} in
  bigint_cmp x y = Some (Z.sgn (to_Z x - to_Z y)).
Proof. intros x y. apply (bigint_cmp_correct x y); concrete_value. Defined.

(** X9. [bigint_neg] of a well-formed value is well-formed, represents
    the negated integer, and negating twice gives the value back. *)
Theorem bigint_neg_correct (x : bigint_t) :
  well_formed x ->
  well_formed (bigint_neg x) /\ to_Z (bigint_neg x) = - to_Z x /\
  bigint_neg (bigint_neg x) = x.
Proof.
  intros Wx. destruct (bigint_neg_value x (proj1 Wx)) as [W1 V1].
  destruct (bigint_neg_value (bigint_neg x) (proj1 W1)) as [W2 V2].
  split; [exact W1|]. split; [exact V1|].
  apply well_formed_unique; [exact W2|exact Wx|]. rewrite V2, V1. lia.
Qed.

Lemma bigint_neg_correct_witness :
  let x := {| negative := true; data := [5; 2] |} in
  well_formed (bigint_neg x) /\ to_Z (bigint_neg x) = - to_Z x /\
  bigint_neg (bigint_neg x) = x.
Proof. intros x. apply (bigint_neg_correct x); concrete_value. Defined.

(** X10. Subtracting is adding the negation: on well-formed operands
    [bigint_sub x y] and [bigint_add x (bigint_neg y)] return the same
    value. *)
Theorem bigint_sub_is_add_neg (x y : bigint_t) :
  well_formed x -> well_formed y ->
  exists z, bigint_sub x y = Some z /\ bigint_add x (bigint_neg y) = Some z.
Proof.
  intros Wx Wy. destruct (bigint_neg_value y (proj1 Wy)) as [Wn Vn].
  destruct (bigint_sub_spec x y (well_formed_normal x Wx) (well_formed_normal y Wy))
    as (z & Hz & _ & Hv & Hwf).
  destruct (bigint_add_spec x (bigint_neg y) (well_formed_normal x Wx)
              (well_formed_normal _ Wn))
    as (z' & Hz' & _ & Hv' & Hwf').
  exists z. split; [exact Hz|]. rewrite Hz'. f_equal.
  apply well_formed_unique; [by apply Hwf'|by apply Hwf|].
  rewrite Hv, Hv', Vn. lia.
Qed.

Lemma bigint_sub_is_add_neg_witness :
  let x := {| negative := false; data := [5] |} in
  let y := {| negative := true; data := [4294967295] |} in
  exists z, bigint_sub x y = Some z /\ bigint_add x (bigint_neg y) = Some z.
Proof. intros x y. apply (bigint_sub_is_add_neg x y); concrete_value. Defined.

(** X11. Dividing a product by one of its factors gives back the other:
    for well-formed [x] and nonzero [y], [bigint_div (x * y) y] is [x]
    itself, flag and limbs. *)
Theorem bigint_mul_div_cancel (x y : bigint_t) :
  well_formed x -> well_formed y -> bigint_is_zero y = false ->
  exists p, bigint_mul x y = Some p /\ bigint_div p y = Some x.
Proof.
  intros Wx Wy Hnz.
  destruct (bigint_mul_spec x y (proj1 Wx) (proj1 Wy)) as (p & Hp & Wp & Vp).
  exists p. split; [exact Hp|].
  destruct (bigint_div_normal p y (well_formed_normal _ Wp) (well_formed_normal _ Wy) Hnz)
    as (q & Hq & Nq & Vq).
  rewrite Hq. f_equal.
  assert (Hy0 : to_Z y <> 0).
  { destruct (divisor_nonempty y Hnz) as [Hne _].
    pose proof (normal_positive _ (well_formed_normal _ Wy) Hne).
    unfold to_Z, sign_of. destruct (negative y); lia. }
  assert (E : to_Z q = to_Z x).
  { rewrite Vq, Vp. apply Z.quot_mul. exact Hy0. }
  apply well_formed_unique; [|exact Wx|exact E].
  split; [apply Nq|]. split; [apply Nq|].
  intros Hd.
  destruct (decide (data x = [])) as [Ex|Ex].
  - (* the product is zero and shorter than the divisor *)
    assert (Hp0 : data p = []).
    { assert (Hv : value B32 (data p) = 0).
      { unfold to_Z in Vp. rewrite Ex in Vp. simpl value in Vp.
        destruct (negative p); simpl sign_of in Vp; lia. }
      destruct (decide (data p = [])) as [|Hne]; [done|].
      pose proof (normal_positive _ (well_formed_normal _ Wp) Hne). lia. }
    unfold bigint_div in Hq. rewrite Hp0 in Hq.
    destruct (divisor_nonempty y Hnz) as [_ Hlen].
    destruct (Nat.ltb_spec (length (@nil Z)) (length (data y))) as [_|Hge];
      [|simpl in Hge; lia].
    injection Hq as <-. reflexivity.
  - exfalso.
    pose proof (normal_positive _ (well_formed_normal _ Wx) Ex) as Hxpos.
    unfold to_Z in E at 1. rewrite Hd in E. simpl value in E.
    unfold to_Z, sign_of in E. destruct (negative x), (negative q); lia.
Qed.

Lemma bigint_mul_div_cancel_witness :
  let x := {| negative := true; data := [7; 1] |} in
  let y := {| negative := true; data := [4294967295; 3] |} in
  exists p, bigint_mul x y = Some p /\ bigint_div p y = Some x.
Proof.
  intros x y. apply (bigint_mul_div_cancel x y); [concrete_value|concrete_value|reflexivity].
Defined.

(** X12. Printing a well-formed value and reading the printed string back
    with [bigint_create_str], its length taken by [strlen], gives the value
    itself. *)
Theorem bigint_tostring_create_str (x : bigint_t) :
  well_formed x ->
  exists str,
    bigint_tostring x = Some str /\
    bigint_create_str (strlen str) str = Some x.
Proof.
  intros Wx.
  destruct (bigint_tostring_spec x Wx) as (t & Hts & Ht & Hne & Hv & _).
  eexists. split; [exact Hts|].
  assert (Hnul : Forall (fun c => c <> NUL) t).
  { eapply Forall_impl; [exact Ht|]. intros c Hc. by apply digit_not_NUL. }
  destruct (negative x) eqn:Ex.
  - cbn [app].
    assert (Hlen : strlen ("-"%char :: t ++ [NUL]) = S (length t)).
    { change ("-"%char :: t ++ [NUL]) with (("-"%char :: t) ++ [NUL]).
      rewrite strlen_app_terminated; [reflexivity|].
      constructor; [discriminate|exact Hnul]. }
    rewrite Hlen.
    destruct (bigint_create_str_signed t [NUL] Hne Ht) as (z & Hz & Wz & Vz).
    rewrite Hz. f_equal. apply well_formed_unique; [done|done|].
    rewrite Vz, Hv, (to_Z_neg x Ex). reflexivity.
  - cbn [app]. rewrite strlen_app_terminated by exact Hnul.
    destruct (bigint_create_str_unsigned t [NUL] Hne Ht) as (z & Hz & Wz & Vz).
    rewrite Hz. f_equal. apply well_formed_unique; [done|done|].
    rewrite Vz, Hv, (to_Z_nonneg x Ex). reflexivity.
Qed.

Lemma bigint_tostring_create_str_witness :
  let x := {| negative := true; data := [0; 1] |} in
  exists str,
    bigint_tostring x = Some str /\
    bigint_create_str (strlen str) str = Some x.
Proof. intros x. apply (bigint_tostring_create_str x); concrete_value. Defined.

(** ** Division of magnitudes *)

(** X13. Long division: for a divisor [v] of [n] places whose top place is
    not zero and a dividend of [m + n] places with one spare place above,
    [algorithm_d] returns without tripping an assertion; the low [m + 1]
    places of [q] hold the quotient, the low [n] places of [u] the
    remainder, and the remainder is smaller than the divisor. *)
Theorem algorithm_d_divides (m n : nat) (u v q : list Z) :
  (0 < n)%nat -> length v = n -> Forall is_u16 v -> v.[n - 1] <> 0 ->
  Forall is_u16 u -> length u = (m + n + 1)%nat -> (m + 1 <= length q)%nat ->
  exists u' v' qd,
    algorithm_d m n u v q = Some (u', v', qd ++ drop (m + 1) q) /\
    length qd = (m + 1)%nat /\ Forall is_u16 qd /\
    length u' = length u /\ Forall is_u16 (take n u') /\
    value B16 (take (m + n) u) =
      value B16 qd * value B16 v + value B16 (take n u') /\
    0 <= value B16 (take n u') < value B16 v.
Proof. apply algorithm_d_spec. Qed.

Lemma algorithm_d_divides_witness :
  exists u' v' qd,
    algorithm_d 1 2 [65535; 65535; 65535; 0] [3; 1] [9; 9; 9] =
      Some (u', v', qd ++ drop 2 [9; 9; 9]) /\
    length qd = 2%nat /\ Forall is_u16 qd /\
    length u' = 4%nat /\ Forall is_u16 (take 2 u') /\
    value B16 (take 3 [65535; 65535; 65535; 0]) =
      value B16 qd * value B16 [3; 1] + value B16 (take 2 u') /\
    0 <= value B16 (take 2 u') < value B16 [3; 1].
Proof.
  apply (algorithm_d_divides 1 2 [65535; 65535; 65535; 0] [3; 1] [9; 9; 9]);
    by_evaluation.
Defined.

(** X14. The 32-bit entry to long division: for a divisor without leading
    zero limb, [algorithm_d_wrapper] returns the quotient and the remainder
    of the two limb arrays. *)
Theorem algorithm_d_wrapper_divides (m n : nat) (u v q r : list Z) :
  (0 < n)%nat -> length u = (m + n)%nat -> length v = n ->
  Forall is_u32 u -> Forall is_u32 v -> v.[n - 1] <> 0 ->
  length q = (m + 1)%nat -> length r = n ->
  exists q' r',
    algorithm_d_wrapper m n u v q r = Some (q', r') /\
    length q' = (m + 1)%nat /\ length r' = n /\
    Forall is_u32 q' /\ Forall is_u32 r' /\
    value B32 u = value B32 q' * value B32 v + value B32 r' /\
    0 <= value B32 r' < value B32 v.
Proof. apply algorithm_d_wrapper_spec. Qed.

Lemma algorithm_d_wrapper_divides_witness :
  exists q' r',
    algorithm_d_wrapper 1 1 [7; 5] [65536] [0; 0] [0] = Some (q', r') /\
    length q' = 2%nat /\ length r' = 1%nat /\
    Forall is_u32 q' /\ Forall is_u32 r' /\
    value B32 [7; 5] = value B32 q' * value B32 [65536] + value B32 r' /\
    0 <= value B32 r' < value B32 [65536].
Proof.
  apply (algorithm_d_wrapper_divides 1 1 [7; 5] [65536] [0; 0] [0]); by_evaluation.
Defined.

(** X15. [short_division] by a nonzero 16-bit [v] returns the remainder
    [u mod v] and writes the [n] digits of [u / v] through [q], leaving
    the places of [q] above them unchanged; [q] may be [u] itself. *)
Theorem short_division_divides (n : nat) (pu pq : ptr) (v : Z) (s : store)
    (u q : list Z) :
  0 < v <= 65535 -> (0 < n)%nat ->
  s !! pu = Some u -> s !! pq = Some q ->
  (n <= length u)%nat -> (n <= length q)%nat -> Forall is_u16 (take n u) ->
  exists r qd,
    short_division n pu v pq s = Some (r, <[pq := qd ++ drop n q]> s) /\
    length qd = n /\ Forall is_u16 qd /\
    value B16 qd = value B16 (take n u) / v /\
    r = value B16 (take n u) mod v.
Proof.
  intros Hv Hn Hpu Hpq Hlu Hlq Hu.
  destruct (short_division_loop_spec pu pq v Hv n 0 s u q Hpu Hpq Hlu Hlq Hu ltac:(lia))
    as (r & qd & Hrun & Hlen & Hqd & Hr & Hval).
  exists r, qd. unfold short_division.
  rewrite (assert_true (0 <? v)) by (apply Z.ltb_lt; lia).
  rewrite (assert_true (0 <? n)%nat) by (apply Nat.ltb_lt; lia).
  cbn [mbind option_bind]. split; [exact Hrun|]. split; [done|]. split; [done|].
  rewrite Z.mul_0_r, Z.add_0_r in Hval.
  split.
  - apply (Z.div_unique_pos _ _ _ r); lia.
  - apply (Z.mod_unique_pos _ _ (value B16 qd)); lia.
Qed.

Lemma short_division_divides_witness :
  let s : store := {[P_U := [1; 2; 3]]} in
  exists r qd,
    short_division 3 P_U 10000 P_U s = Some (r, <[P_U := qd ++ drop 3 [1; 2; 3]]> s) /\
    length qd = 3%nat /\ Forall is_u16 qd /\
    value B16 qd = value B16 (take 3 [1; 2; 3]) / 10000 /\
    r = value B16 (take 3 [1; 2; 3]) mod 10000.
Proof.
  intros s.
  apply (short_division_divides 3 P_U P_U 10000 s [1; 2; 3] [1; 2; 3]); by_evaluation.
Defined.

(** X16. For a nonzero 16-bit [x], [leading_zeros] returns the shift that
    brings the top bit of [x] to bit 15. *)
Theorem leading_zeros_normalizes (x : Z) :
  is_u16 x -> x <> 0 ->
  exists s, leading_zeros x = Some s /\ (s < 16)%nat /\
            32768 <= x * 2 ^ Z.of_nat s <= 65535.
Proof. apply leading_zeros_spec. Qed.

Lemma leading_zeros_normalizes_witness :
  exists s, leading_zeros 5 = Some s /\ (s < 16)%nat /\
            32768 <= 5 * 2 ^ Z.of_nat s <= 65535.
Proof. apply (leading_zeros_normalizes 5); [unfold is_u16; lia|lia]. Defined.

(** X17. [shift_left] by [m] succeeds when the shifted number fits its
    [n] places, and [shift_right] by [m] then gives the original array
    back; when the shifted number does not fit, [shift_left] aborts on its
    leftover-carry assertion. *)
Theorem shift_right_undoes_shift_left (n : nat) (u : list Z) (m : Z) :
  0 < m < 16 -> Forall is_u16 u -> (n <= length u)%nat ->
  (value B16 (take n u) * 2 ^ m < B16 ^ Z.of_nat n ->
   exists u', shift_left n u m = Some u' /\ shift_right n u' m = Some u) /\
  (B16 ^ Z.of_nat n <= value B16 (take n u) * 2 ^ m ->
   shift_left n u m = None).
Proof.
  intros Hm Hu Hn. split.
  - intros Hfit.
    destruct (shift_left_spec m u Hm Hu n Hn Hfit)
      as (u' & Hl & Hlen & Hu' & Hdrop & Hval).
    exists u'. split; [exact Hl|].
    destruct (shift_right_spec m Hm n u' Hu' ltac:(lia))
      as (u'' & Hr & Hlen' & Hu'' & Hdrop' & Hval').
    { rewrite Hval. apply Z_mod_mult. }
    rewrite Hr. f_equal. apply (take_drop_eq _ _ n); [|congruence].
    apply value16_inj.
    + rewrite !length_take. lia.
    + by apply Forall_take.
    + by apply Forall_take.
    + assert (0 < 2 ^ m) by (apply Z.pow_pos_nonneg; lia).
      rewrite Hval in Hval'. nia.
  - intros Hbig.
    destruct (shift_left_loop_inv m u Hm Hu n Hn)
      as (u' & k & Hrun & Hlen & Hu' & Hk & Hdrop & Hval).
    pose proof (value_u16_bound (take n u') ltac:(by apply Forall_take)) as Hb.
    rewrite length_take in Hb. replace (n `min` length u')%nat with n in Hb by lia.
    assert (Hk0 : k <> 0).
    { intros ->. rewrite Z.mul_0_r, Z.add_0_r in Hval. lia. }
    unfold shift_left.
    rewrite (assert_true (0 <? m)) by (apply Z.ltb_lt; lia).
    rewrite (assert_true (m <? 16)) by (apply Z.ltb_lt; lia).
    cbn [mbind option_bind]. rewrite Hrun.
    destruct (Z.eqb_spec k 0) as [|_]; [contradiction|]. reflexivity.
Qed.

Lemma shift_right_undoes_shift_left_witness :
  (value B16 (take 2 [65535; 4095; 7]) * 2 ^ 4 < B16 ^ Z.of_nat 2 ->
   exists u',
     shift_left 2 [65535; 4095; 7] 4 = Some u' /\
     shift_right 2 u' 4 = Some [65535; 4095; 7]) /\
  (B16 ^ Z.of_nat 2 <= value B16 (take 2 [65535; 4095; 7]) * 2 ^ 4 ->
   shift_left 2 [65535; 4095; 7] 4 = None).
Proof.
  apply (shift_right_undoes_shift_left 2 [65535; 4095; 7] 4); by_evaluation.
Defined.

(** X18. Splitting [n] limbs into half-limbs with [u32_to_u16] and joining
    them with [u16_to_u32] gives the limbs back; the places of the target
    above [n] are left alone. *)
Theorem u16_to_u32_undoes_u32_to_u16 (n : nat) (a b h : list Z) :
  Forall is_u32 a -> (n <= length a)%nat -> (n * 2 <= length h)%nat ->
  (n <= length b)%nat ->
  u16_to_u32 (n * 2) (u32_to_u16 n a h) b = Some (take n a ++ drop n b).
Proof.
  intros Ha Hn Hh Hb.
  rewrite u32_to_u16_spec by assumption.
  assert (Hl : length (split16 (take n a)) = (n * 2)%nat).
  { rewrite split16_length, length_take. lia. }
  assert (Ht : take (n * 2) (split16 (take n a) ++ drop (n * 2) h) = split16 (take n a)).
  { rewrite take_app_length' by lia. reflexivity. }
  destruct (u16_to_u32_spec n (split16 (take n a) ++ drop (n * 2) h) b)
    as (ds & Hrun & Hlds & Hds & Hv).
  { rewrite Ht. apply split16_u16. by apply Forall_take. }
  { rewrite length_app, Hl, length_drop. lia. }
  { exact Hb. }
  rewrite Hrun. do 2 f_equal.
  apply value32_inj.
  - rewrite length_take. lia.
  - exact Hds.
  - by apply Forall_take.
  - rewrite Hv, Ht. apply split16_value.
Qed.

Lemma u16_to_u32_undoes_u32_to_u16_witness :
  u16_to_u32 (2 * 2) (u32_to_u16 2 [4294967295; 65536; 5] [0; 0; 0; 0; 9]) [1; 2; 3] =
  Some (take 2 [4294967295; 65536; 5] ++ drop 2 [1; 2; 3]).
Proof.
  apply (u16_to_u32_undoes_u32_to_u16 2 [4294967295; 65536; 5] [1; 2; 3] [0; 0; 0; 0; 9]);
    by_evaluation.
Defined.

(** ** Decimal conversion *)

Ltac digits := repeat (apply Forall_cons_2; [vm_compute; split; discriminate|]);
               apply Forall_nil_2.

(** X19. With room for one more limb, [multiply_add] turns the [m]-limb
    number [u] into [u * x + y]; the limb count grows by at most one. *)
Theorem multiply_add_value (u : list Z) (m : nat) (x y : Z) :
  Forall is_u32 (take m u) -> is_u32 x -> is_u32 y -> (m < length u)%nat ->
  exists u' m',
    multiply_add u m x y = Some (u', m') /\
    length u' = length u /\ (m <= m' <= m + 1)%nat /\
    Forall is_u32 (take m' u') /\
    value B32 (take m' u') = value B32 (take m u) * x + y.
Proof. intros Hu Hx Hy Hm. apply multiply_add_spec; (assumption || lia). Qed.

Lemma multiply_add_value_witness :
  exists u' m',
    multiply_add [4294967295; 0] 1 1000000000 999999999 = Some (u', m') /\
    length u' = 2%nat /\ (1 <= m' <= 1 + 1)%nat /\
    Forall is_u32 (take m' u') /\
    value B32 (take m' u') = value B32 (take 1 [4294967295; 0]) * 1000000000 + 999999999.
Proof.
  apply (multiply_add_value [4294967295; 0] 1 1000000000 999999999);
    first [limbs32 | (unfold is_u32; lia) | (simpl; lia)].
Defined.

(** X20. [from_string] turns [n] decimal digits, leading zeros included,
    into the limbs of the number they denote, in a buffer of at least
    [n / 9 + 1] limbs. *)
Theorem from_string_value (n : nat) (str : list ascii) (u0 : list Z) :
  length str = n -> Forall is_digit str -> (n / 9 < length u0)%nat ->
  exists u_len u,
    from_string n str u0 = Some (u_len, u) /\
    length u = length u0 /\ (u_len <= n / 9 + 1)%nat /\
    Forall is_u32 (take u_len u) /\
    value B32 (take u_len u) = decimal_value str.
Proof. apply from_string_spec. Qed.

Lemma from_string_value_witness :
  let str := list_ascii_of_string "0018446744073709551616" in
  exists u_len u,
    from_string 22 str [0; 0; 0] = Some (u_len, u) /\
    length u = 3%nat /\ (u_len <= 22 / 9 + 1)%nat /\
    Forall is_u32 (take u_len u) /\
    value B32 (take u_len u) = decimal_value str.
Proof.
  intros str. apply (from_string_value 22 str [0; 0; 0]);
    [reflexivity|digits|vm_compute; lia].
Defined.

(** X21. [to_string] writes the decimal digits of the magnitude, most
    significant first and without a leading zero (["0"] for zero),
    followed by the terminator. *)
Theorem to_string_digits (u : list Z) :
  Forall is_u32 u ->
  exists t,
    to_string (length u) u = Some (t ++ [NUL]) /\
    Forall is_digit t /\ t <> [] /\ decimal_value t = value B32 u /\
    (value B32 u = 0 -> t = ["0"%char]) /\
    (value B32 u <> 0 -> head t <> Some "0"%char).
Proof. apply to_string_spec. Qed.

Lemma to_string_digits_witness :
  exists t,
    to_string 3 [0; 0; 1] = Some (t ++ [NUL]) /\
    Forall is_digit t /\ t <> [] /\ decimal_value t = value B32 [0; 0; 1] /\
    (value B32 [0; 0; 1] = 0 -> t = ["0"%char]) /\
    (value B32 [0; 0; 1] <> 0 -> head t <> Some "0"%char).
Proof. apply (to_string_digits [0; 0; 1]). limbs32. Defined.

(** ** Creating values *)

(** X22. [bigint_create] makes a well-formed value of any [n] limbs: it
    represents the number of the limbs with the requested sign, leading
    zero limbs are dropped and a zero never keeps the flag. *)
Theorem bigint_create_normalizes (n : nat) (u : list Z) (neg : bool) :
  Forall is_u32 (take n u) -> (n <= length u)%nat ->
  well_formed (bigint_create n u neg) /\
  to_Z (bigint_create n u neg) = sign_of neg * value B32 (take n u).
Proof. apply bigint_create_value. Qed.

Lemma bigint_create_normalizes_witness :
  well_formed (bigint_create 3 [0; 0; 0; 5] true) /\
  to_Z (bigint_create 3 [0; 0; 0; 5] true) = sign_of true * value B32 (take 3 [0; 0; 0; 5]).
Proof. apply (bigint_create_normalizes 3 [0; 0; 0; 5] true); [limbs32|simpl; lia]. Defined.

(** X23. [bigint_create_str] accepts exactly the strings made of an
    optional hyphen and one or more decimal digits; on every other string
    it aborts. *)
Theorem bigint_create_str_accepts_exactly (s : list ascii) :
  is_Some (bigint_create_str (length s) s) <->
  exists (neg : bool) d,
    s = (if neg then ["-"%char] else []) ++ d /\ d <> [] /\ Forall is_digit d.
Proof.
  split.
  - intros Hs.
    destruct s as [|c s'].
    { destruct Hs as [z Hz]. discriminate. }
    destruct (Ascii.eqb_spec c "-"%char) as [->|Hc].
    + exists true, s'. split; [reflexivity|].
      destruct s' as [|c' s''].
      { destruct Hs as [z Hz]. discriminate. }
      split; [discriminate|].
      destruct (List.Forall_dec is_digit is_digit_dec (c' :: s'')) as [Hd|Hd]; [exact Hd|].
      exfalso. destruct Hs as [z Hz]. revert Hz. unfold bigint_create_str.
      rewrite (assert_true (0 <? _)%nat) by reflexivity. cbn [mbind option_bind].
      change (nth 0 ("-"%char :: c' :: s'') NUL) with "-"%char.
      change (Ascii.eqb "-" "-") with true. cbv iota.
      rewrite (assert_true (1 <? _)%nat) by reflexivity.
      cbn [mbind option_bind]. simpl drop.
      destruct (not_all_digits _ Hd) as (i & Hi & Hn).
      rewrite (from_string_rejects _ (c' :: s'') _ i) by (assumption || (simpl in *; lia)).
      discriminate.
    + exists false, (c :: s'). split; [reflexivity|]. split; [discriminate|].
      destruct (List.Forall_dec is_digit is_digit_dec (c :: s')) as [Hd|Hd]; [exact Hd|].
      exfalso. destruct Hs as [z Hz].
      rewrite bigint_create_str_rejects_digits in Hz; [discriminate| |reflexivity|exact Hd].
      simpl. by apply Ascii.eqb_neq.
  - intros (neg & d & -> & Hne & Hd). destruct neg.
    + destruct (bigint_create_str_signed d [] Hne Hd) as (z & Hz & _).
      rewrite app_nil_r in Hz. cbn [app length]. rewrite Hz. by eexists.
    + destruct (bigint_create_str_unsigned d [] Hne Hd) as (z & Hz & _).
      rewrite app_nil_r in Hz. cbn [app]. rewrite Hz. by eexists.
Qed.

(** X24. For an optional hyphen followed by digits, leading zeros allowed,
    [bigint_create_str] returns a well-formed value that represents the
    number written; ["-0"] gives the zero without flag. *)
Theorem bigint_create_str_value (neg : bool) (d : list ascii) :
  d <> [] -> Forall is_digit d ->
  let s := (if neg then ["-"%char] else []) ++ d in
  exists z,
    bigint_create_str (length s) s = Some z /\ well_formed z /\
    to_Z z = sign_of neg * decimal_value d.
Proof.
  intros Hne Hd. cbv zeta. destruct neg.
  - destruct (bigint_create_str_signed d [] Hne Hd) as (z & Hz & Wz & Vz).
    rewrite app_nil_r in Hz. exists z. split; [exact Hz|]. split; [exact Wz|].
    rewrite Vz. simpl sign_of. lia.
  - destruct (bigint_create_str_unsigned d [] Hne Hd) as (z & Hz & Wz & Vz).
    rewrite app_nil_r in Hz. exists z. split; [exact Hz|]. split; [exact Wz|].
    rewrite Vz. simpl sign_of. lia.
Qed.

Lemma bigint_create_str_value_witness :
  let d := list_ascii_of_string "000" in
  let s := ["-"%char] ++ d in
  exists z,
    bigint_create_str (length s) s = Some z /\ well_formed z /\
    to_Z z = sign_of true * decimal_value d.
Proof.
  intros d. apply (bigint_create_str_value true d); [discriminate|digits].
Defined.

(** * The calculator front end *)

Module Lexer.
Import Calc.

(** ** Characters *)

Lemma char_of_char_code c : char_of (char_code c) = c.
Proof. unfold char_of, char_code. rewrite Nat2Z.id. apply ascii_nat_embedding. Qed.

Lemma char_code_range c : 0 <= char_code c < 256.
Proof. unfold char_code. pose proof (nat_ascii_bounded c). lia. Qed.

Lemma is_digit_code_true c : is_digit c -> is_digit_code (char_code c) = true.
Proof.
  unfold is_digit, is_digit_code. intros [H1 H2].
  apply andb_true_iff. split; apply Z.leb_le; assumption.
Qed.

Lemma is_digit_code_false c : ~ is_digit c -> is_digit_code (char_code c) = false.
Proof.
  unfold is_digit, is_digit_code. intros H.
  destruct (Z.leb_spec 48 (char_code c)); destruct (Z.leb_spec (char_code c) 57);
    try reflexivity. exfalso. apply H. lia.
Qed.

Lemma digit_not_blank c : is_digit c -> is_blank (char_code c) = false.
Proof.
  unfold is_digit, is_blank. intros [H1 H2].
  destruct (Z.eqb_spec (char_code c) 32); [lia|].
  destruct (Z.eqb_spec (char_code c) 9); [lia|]. reflexivity.
Qed.

(** ** Reading a number *)

Lemma read_digits_unfold input c len buf :
  read_digits input c len buf =
  if is_digit_code c then
    if (len =? BUFFER_SIZE)%nat then None
    else
      match input with
      | [] => Some (EOF, [], S len, <[len := char_of c]> buf)
      | c' :: rest => read_digits rest (char_code c') (S len) (<[len := char_of c]> buf)
      end
  else Some (c, input, len, buf).
Proof. destruct input; reflexivity. Qed.

Lemma take_S_insert_char (l : list ascii) j x :
  (j < length l)%nat -> take (S j) (<[j := x]> l) = take j l ++ [x].
Proof.
  intros H. rewrite (take_S_r _ j x) by (by apply list_lookup_insert_eq).
  by rewrite take_insert_ge by lia.
Qed.

Lemma read_digits_spec (d : list ascii) :
  forall (c : ascii) (k : list ascii) (len : nat) (buf : list ascii),
    is_digit c -> Forall is_digit d -> no_digit_head k ->
    (len + S (length d) <= BUFFER_SIZE)%nat -> length buf = BUFFER_SIZE ->
    exists c_end rest buf',
      read_digits (d ++ k) (char_code c) len buf =
        Some (c_end, rest, (len + S (length d))%nat, buf') /\
      ungetc c_end rest = k /\ length buf' = BUFFER_SIZE /\
      take (len + S (length d)) buf' = take len buf ++ c :: d.
Proof.
  induction d as [|c1 d IH]; intros c k len buf Hc Hd Hk Hlen Hbuf.
  - cbn [app length] in *. rewrite read_digits_unfold, is_digit_code_true by done.
    destruct (Nat.eqb_spec len BUFFER_SIZE) as [E|_]; [lia|].
    rewrite char_of_char_code.
    assert (Ht : take (len + 1) (<[len := c]> buf) = take len buf ++ [c]).
    { replace (len + 1)%nat with (S len) by lia. apply take_S_insert_char. lia. }
    destruct k as [|c' k'].
    + eexists _, _, _. split; [rewrite Nat.add_1_r; reflexivity|].
      split; [reflexivity|]. split; [by rewrite length_insert|exact Ht].
    + rewrite read_digits_unfold, is_digit_code_false by (apply Hk; reflexivity).
      eexists _, _, _. split; [rewrite Nat.add_1_r; reflexivity|].
      split.
      { unfold ungetc, EOF. pose proof (char_code_range c').
        destruct (Z.eqb_spec (char_code c') (-1)); [lia|].
        by rewrite char_of_char_code. }
      split; [by rewrite length_insert|exact Ht].
  - cbn [app length] in *. rewrite read_digits_unfold, is_digit_code_true by done.
    destruct (Nat.eqb_spec len BUFFER_SIZE) as [E|_]; [lia|].
    rewrite char_of_char_code.
    inversion Hd as [|? ? Hc1 Hd']; subst.
    destruct (IH c1 k (S len) (<[len := c]> buf) Hc1 Hd' Hk ltac:(lia)
                ltac:(by rewrite length_insert))
      as (c_end & rest & buf' & Hrun & Hun & Hlb & Ht).
    exists c_end, rest, buf'.
    replace (len + S (S (length d)))%nat with (S len + S (length d))%nat by lia.
    split; [exact Hrun|]. split; [exact Hun|]. split; [exact Hlb|].
    rewrite Ht, take_S_insert_char by lia. rewrite <- app_assoc. reflexivity.
Qed.

(** ** The tokens *)

Lemma next_token_scans s :
  kind (current_token s) <> END -> next_token s = scan_token s.
Proof. unfold next_token. destruct (kind (current_token s)); congruence. Qed.

(** Blanks before a token are skipped. *)
Lemma skip_blanks_app (b k : list ascii) :
  blanks b -> skip_blanks (b ++ k) = skip_blanks k.
Proof.
  induction 1 as [|c b Hc Hb IH]; [reflexivity|].
  cbn [app skip_blanks]. destruct Hc as [-> | ->]; exact IH.
Qed.

Lemma blank_not_digit c : c = " "%char \/ c = ascii_of_nat 9 -> ~ is_digit c.
Proof. intros [-> | ->] [H1 H2]; vm_compute in H1, H2; congruence. Qed.

(** The seven one-character tokens. *)
Lemma next_token_operator (c : ascii) (K : token_kind) (b k : list ascii) (s : state) :
  In (c, K) [("+"%char, ADD); ("-"%char, SUB); ("*"%char, MUL); ("/"%char, DIV);
             ("("%char, LP); (")"%char, RP); (ascii_of_nat 10, EOL)] ->
  blanks b -> ready (b ++ c :: k) s ->
  next_token s =
    Return tt {| stdin := k; stdout := stdout s; buffer := buffer s;
                 current_token := {| kind := K; value := value (current_token s) |} |}.
Proof.
  intros Hin Hb (Hs & _ & Hk). rewrite next_token_scans by exact Hk.
  unfold scan_token. rewrite Hs, skip_blanks_app by exact Hb.
  cbn [In] in Hin.
  repeat (destruct Hin as [E|Hin]; [injection E as <- <-; reflexivity|]).
  contradiction.
Qed.

Lemma next_token_end (b : list ascii) (s : state) :
  blanks b -> ready b s ->
  next_token s =
    Return tt {| stdin := []; stdout := stdout s; buffer := buffer s;
                 current_token := {| kind := END; value := value (current_token s) |} |}.
Proof.
  intros Hb (Hs & _ & Hk). rewrite next_token_scans by exact Hk.
  unfold scan_token. rewrite Hs, <- (app_nil_r b), skip_blanks_app by exact Hb.
  reflexivity.
Qed.

(** A number: its digits go through the buffer to [bigint_create_str], the
    character after them is pushed back. *)
Lemma next_token_number (b d k : list ascii) (s : state) :
  blanks b -> number_ok d -> no_digit_head k -> ready (b ++ d ++ k) s ->
  exists z buf',
    next_token s =
      Return tt {| stdin := k; stdout := stdout s; buffer := buf';
                   current_token := {| kind := NUM; value := Some z |} |} /\
    length buf' = BUFFER_SIZE /\ well_formed z /\ to_Z z = decimal_value d.
Proof.
  intros Hb (Hne & Hd & Hlen) Hk (Hs & Hbuf & Hkind).
  rewrite next_token_scans by exact Hkind.
  destruct d as [|c d']; [congruence|].
  inversion Hd as [|? ? Hc Hd']; subst.
  unfold scan_token. rewrite Hs, skip_blanks_app by exact Hb. cbn [app skip_blanks].
  rewrite digit_not_blank by exact Hc.
  pose proof Hc as [Hc1 Hc2]. unfold EOF.
  repeat match goal with
         | |- context [char_code c =? ?n] =>
             destruct (Z.eqb_spec (char_code c) n) as [E|_]; [exfalso; lia|]
         end.
  destruct (read_digits_spec d' c k 0 (buffer s) Hc Hd' Hk) as
    (c_end & rest & buf' & Hrun & Hun & Hlb & Ht).
  { cbn [length] in Hlen. lia. }
  { exact Hbuf. }
  cbn [Nat.add] in Hrun, Ht.
  rewrite Hrun. cbn [Nat.ltb Nat.leb].
  rewrite take_0 in Ht. cbn [app] in Ht.
  destruct (bigint_create_str_unsigned (c :: d') (drop (S (length d')) buf')
              ltac:(discriminate) Hd) as (z & Hz & Wz & Vz).
  rewrite <- Ht, take_drop in Hz. cbn [length] in Hz.
  rewrite length_take in Hz.
  replace (S (length d') `min` length buf')%nat with (S (length d')) in Hz
    by (cbn [length] in Hlen; lia).
  rewrite Hz, Hun. exists z, buf'. split; [reflexivity|]. split; [exact Hlb|].
  split; [exact Wz|exact Vz].
Qed.

End Lexer.

Module Parser.
Import Calc.

(** ** Fuel *)

Lemma extends_refl {A} (m : M A) : extends m m.
Proof. intros s r H _. exact H. Qed.

Lemma extends_out_of_fuel {A} (m : M A) : extends out_of_fuel m.
Proof. intros s r H Hne. unfold out_of_fuel in H. congruence. Qed.

Lemma extends_bind {A B} (m m' : M A) (k k' : A -> M B) :
  extends m m' -> (forall a, extends (k a) (k' a)) ->
  extends (bind m k) (bind m' k').
Proof.
  intros Hm Hk s r Hr Hne. unfold bind in *.
  destruct (m s) as [a s'| | |] eqn:E.
  - rewrite (Hm s _ E) by discriminate. by apply Hk.
  - rewrite (Hm s _ E) by discriminate. exact Hr.
  - rewrite (Hm s _ E) by discriminate. exact Hr.
  - congruence.
Qed.

Lemma sum_S f : sum (S f) = (let! x := term f in sum_loop f x).
Proof. reflexivity. Qed.

Lemma sum_loop_S f x :
  sum_loop (S f) x =
  (let! tok := get_token in
   match kind tok with
   | ADD =>
       let! _ := next_token in
       let! y := term f in
       let! t := lift (bigint_add x y) in
       sum_loop f t
   | SUB =>
       let! _ := next_token in
       let! y := term f in
       let! t := lift (bigint_sub x y) in
       sum_loop f t
   | _ => ret x
   end).
Proof. reflexivity. Qed.

Lemma term_S f : term (S f) = (let! x := factor f in term_loop f x).
Proof. reflexivity. Qed.

Lemma term_loop_S f x :
  term_loop (S f) x =
  (let! tok := get_token in
   match kind tok with
   | MUL =>
       let! _ := next_token in
       let! y := factor f in
       let! t := lift (bigint_mul x y) in
       term_loop f t
   | DIV =>
       let! _ := next_token in
       let! y := factor f in
       let! _ := (if bigint_is_zero y then error "division by zero!" else ret tt) in
       let! t := lift (bigint_div x y) in
       term_loop f t
   | _ => ret x
   end).
Proof. reflexivity. Qed.

Lemma factor_S f :
  factor (S f) =
  (let! tok := get_token in
   match kind tok with
   | SUB =>
       let! _ := next_token in
       let! x := factor f in
       ret (bigint_neg x)
   | LP =>
       let! _ := next_token in
       let! res := sum f in
       let! tok := get_token in
       let! _ := (match kind tok with
                  | RP => ret tt
                  | _ => error "expected ')'"
                  end) in
       let! _ := next_token in
       ret res
   | NUM =>
       let! res := lift (value tok) in
       let! _ := next_token in
       ret res
   | _ => error "expected '-', number or '('"
   end).
Proof. reflexivity. Qed.

Ltac extends_tac :=
  repeat first
    [ apply extends_refl
    | assumption
    | match goal with H : forall x, extends _ _ |- _ => apply H end
    | apply extends_bind; [|intros ?]
    | match goal with |- extends (match kind ?t with _ => _ end) _ => destruct (kind t) end ].

(** More fuel does not change what the parser returns. *)
Lemma parser_monotone f :
  forall f', (f <= f')%nat ->
    extends (sum f) (sum f') /\
    (forall x, extends (sum_loop f x) (sum_loop f' x)) /\
    extends (term f) (term f') /\
    (forall x, extends (term_loop f x) (term_loop f' x)) /\
    extends (factor f) (factor f').
Proof.
  induction f as [|f IH]; intros f' Hle.
  - repeat split; intros; apply extends_out_of_fuel.
  - destruct f' as [|f']; [lia|].
    destruct (IH f' ltac:(lia)) as (Hs & Hsl & Ht & Htl & Hf).
    rewrite !sum_S, !term_S, !factor_S.
    split; [extends_tac|]. split; [intros x; rewrite !sum_loop_S; extends_tac|].
    split; [extends_tac|]. split; [intros x; rewrite !term_loop_S; extends_tac|].
    extends_tac.
Qed.

Lemma sum_monotone : monotone sum.
Proof. intros f f' H. by apply parser_monotone. Qed.

Lemma sum_loop_monotone x : monotone (fun f => sum_loop f x).
Proof. intros f f' H. by apply parser_monotone. Qed.

Lemma term_monotone : monotone term.
Proof. intros f f' H. by apply parser_monotone. Qed.

Lemma term_loop_monotone x : monotone (fun f => term_loop f x).
Proof. intros f f' H. by apply parser_monotone. Qed.

Lemma factor_monotone : monotone factor.
Proof. intros f f' H. by apply parser_monotone. Qed.

(** ** Composing runs *)

Lemma runs_monotone {A} (m : nat -> M A) s r :
  monotone m -> runs m s r ->
  exists f0, forall f, (f0 <= f)%nat -> m f s = r.
Proof.
  intros Hm (f0 & H & Hne). exists f0. intros f Hf. by apply (Hm f0 f Hf).
Qed.

Lemma runs_bind {A B} (m : nat -> M A) (k : nat -> A -> M B) s ra r :
  monotone m -> (forall a, monotone (fun f => k f a)) ->
  runs m s ra ->
  follows ra (fun a s' r => runs (fun f => k f a) s' r) r ->
  runs (fun f => bind (m f) (k f)) s r.
Proof.
  intros Hm Hk (f1 & H1 & Hne1) Hfol.
  destruct ra as [a s'|msg| |]; cbn [follows] in Hfol.
  - destruct Hfol as (f2 & H2 & Hne2). exists (f1 `max` f2)%nat. split; [|exact Hne2].
    unfold bind. rewrite (Hm f1 _ (Nat.le_max_l f1 f2) s _ H1) by discriminate.
    apply (Hk a f2 _ (Nat.le_max_r f1 f2) s' _ H2 Hne2).
  - subst r. exists f1. unfold bind. rewrite H1. split; [reflexivity|discriminate].
  - subst r. exists f1. unfold bind. rewrite H1. split; [reflexivity|discriminate].
  - contradiction.
Qed.

Lemma runs_shift {A} (m m' : nat -> M A) s r :
  (forall f, m' (S f) = m f) -> runs m s r -> runs m' s r.
Proof. intros H (f & Hf & Hne). exists (S f). rewrite H. by split. Qed.

Lemma follows_impl {A B} (ra : outcome A) (R R' : A -> state -> outcome B -> Prop) r :
  (forall a s, R a s r -> R' a s r) -> follows ra R r -> follows ra R' r.
Proof. intros H. destruct ra; cbn [follows]; auto. Qed.

(** The outcome of [next_token] followed by returning [z]. *)
Lemma follows_next_ret {A B} (z : A) (s : state)
    (R : A -> state -> outcome B -> Prop) r :
  follows ((let! _ := next_token in ret z) s) R r <->
  follows (next_token s) (fun _ s' r => R z s' r) r.
Proof. unfold bind, ret. destruct (next_token s); reflexivity. Qed.

Lemma scan_token_fuel s : scan_token s <> OutOfFuel.
Proof.
  unfold scan_token. destruct (skip_blanks (stdin s)) as [c input].
  repeat match goal with
         | |- context [if ?b then _ else _] => destruct b; [discriminate|]
         end.
  destruct (read_digits input c 0 (buffer s)) as [[[[c' input'] len] buf]|];
    [|discriminate].
  destruct (0 <? len)%nat; [|discriminate].
  destruct (bigint_create_str len buf); discriminate.
Qed.

Lemma next_token_fuel s : next_token s <> OutOfFuel.
Proof.
  unfold next_token. destruct (kind (current_token s));
    first [apply scan_token_fuel | discriminate].
Qed.

(** ** One step of each routine *)

Lemma runs_sum s ra r :
  runs term s ra ->
  follows ra (fun x s' r => runs (fun f => sum_loop f x) s' r) r ->
  runs sum s r.
Proof.
  intros Ht Hfol.
  apply (runs_shift (fun f => bind (term f) (sum_loop f))); [reflexivity|].
  eapply runs_bind; [apply term_monotone|apply sum_loop_monotone|exact Ht|exact Hfol].
Qed.

Lemma runs_term s ra r :
  runs factor s ra ->
  follows ra (fun x s' r => runs (fun f => term_loop f x) s' r) r ->
  runs term s r.
Proof.
  intros Hf Hfol.
  apply (runs_shift (fun f => bind (factor f) (term_loop f))); [reflexivity|].
  eapply runs_bind; [apply factor_monotone|apply term_loop_monotone|exact Hf|exact Hfol].
Qed.

Lemma runs_sum_loop_stop x s :
  kind (current_token s) <> ADD -> kind (current_token s) <> SUB ->
  runs (fun f => sum_loop f x) s (Return x s).
Proof.
  intros H1 H2. exists 1%nat. split; [|discriminate].
  rewrite sum_loop_S. unfold bind, get_token, ret.
  destruct (kind (current_token s)); congruence.
Qed.

Lemma runs_term_loop_stop x s :
  kind (current_token s) <> MUL -> kind (current_token s) <> DIV ->
  runs (fun f => term_loop f x) s (Return x s).
Proof.
  intros H1 H2. exists 1%nat. split; [|discriminate].
  rewrite term_loop_S. unfold bind, get_token, ret.
  destruct (kind (current_token s)); congruence.
Qed.

Lemma runs_shift_state {A} (m m' : nat -> M A) s s' r :
  (forall f, m' (S f) s' = m f s) -> runs m s r -> runs m' s' r.
Proof. intros H (f & Hf & Hne). exists (S f). rewrite H. by split. Qed.

Lemma runs_bind_const {A B} (m0 : M A) (k : nat -> A -> M B) s r :
  m0 s <> OutOfFuel ->
  follows (m0 s) (fun a s' r => runs (fun f => k f a) s' r) r ->
  runs (fun f => bind m0 (k f)) s r.
Proof.
  intros Hne Hfol. unfold runs, bind.
  destruct (m0 s) as [a s'|msg| |]; cbn [follows] in Hfol.
  - exact Hfol.
  - subst r. exists 0%nat. split; [reflexivity|discriminate].
  - subst r. exists 0%nat. split; [reflexivity|discriminate].
  - contradiction.
Qed.

Lemma lift_fuel {A} (o : option A) s : lift o s <> OutOfFuel.
Proof. unfold lift. destruct o; discriminate. Qed.

Lemma monotone_bind_const {A B} (m0 : M A) (k : nat -> A -> M B) :
  (forall a, monotone (fun f => k f a)) -> monotone (fun f => bind m0 (k f)).
Proof.
  intros Hk f f' Hle. apply extends_bind; [apply extends_refl|].
  intros a. by apply (Hk a).
Qed.

Ltac step_equation Hk Hn :=
  unfold bind, get_token; rewrite Hk; cbv beta iota; rewrite Hn; reflexivity.

Lemma runs_sum_loop_add x s s1 ra r :
  kind (current_token s) = ADD -> next_token s = Return tt s1 ->
  runs term s1 ra ->
  follows ra (fun y s2 r =>
    follows (lift (bigint_add x y) s2)
      (fun t s3 r => runs (fun f => sum_loop f t) s3 r) r) r ->
  runs (fun f => sum_loop f x) s r.
Proof.
  intros Hk Hn Ht Hfol.
  apply (runs_shift_state
           (fun f => let! y := term f in let! t := lift (bigint_add x y) in sum_loop f t)
           _ s1 s).
  { intros f. rewrite sum_loop_S. step_equation Hk Hn. }
  eapply runs_bind; [apply term_monotone| |exact Ht|].
  - intros y. apply monotone_bind_const. apply sum_loop_monotone.
  - eapply follows_impl; [|exact Hfol]. intros y s2 Hy.
    apply runs_bind_const; [apply lift_fuel|exact Hy].
Qed.

Lemma runs_sum_loop_sub x s s1 ra r :
  kind (current_token s) = SUB -> next_token s = Return tt s1 ->
  runs term s1 ra ->
  follows ra (fun y s2 r =>
    follows (lift (bigint_sub x y) s2)
      (fun t s3 r => runs (fun f => sum_loop f t) s3 r) r) r ->
  runs (fun f => sum_loop f x) s r.
Proof.
  intros Hk Hn Ht Hfol.
  apply (runs_shift_state
           (fun f => let! y := term f in let! t := lift (bigint_sub x y) in sum_loop f t)
           _ s1 s).
  { intros f. rewrite sum_loop_S. step_equation Hk Hn. }
  eapply runs_bind; [apply term_monotone| |exact Ht|].
  - intros y. apply monotone_bind_const. apply sum_loop_monotone.
  - eapply follows_impl; [|exact Hfol]. intros y s2 Hy.
    apply runs_bind_const; [apply lift_fuel|exact Hy].
Qed.

Lemma runs_term_loop_mul x s s1 ra r :
  kind (current_token s) = MUL -> next_token s = Return tt s1 ->
  runs factor s1 ra ->
  follows ra (fun y s2 r =>
    follows (lift (bigint_mul x y) s2)
      (fun t s3 r => runs (fun f => term_loop f t) s3 r) r) r ->
  runs (fun f => term_loop f x) s r.
Proof.
  intros Hk Hn Ht Hfol.
  apply (runs_shift_state
           (fun f => let! y := factor f in let! t := lift (bigint_mul x y) in term_loop f t)
           _ s1 s).
  { intros f. rewrite term_loop_S. step_equation Hk Hn. }
  eapply runs_bind; [apply factor_monotone| |exact Ht|].
  - intros y. apply monotone_bind_const. apply term_loop_monotone.
  - eapply follows_impl; [|exact Hfol]. intros y s2 Hy.
    apply runs_bind_const; [apply lift_fuel|exact Hy].
Qed.

Lemma runs_term_loop_div x s s1 ra r :
  kind (current_token s) = DIV -> next_token s = Return tt s1 ->
  runs factor s1 ra ->
  follows ra (fun y s2 r =>
    if bigint_is_zero y then r = Exit "division by zero!"
    else follows (lift (bigint_div x y) s2)
           (fun t s3 r => runs (fun f => term_loop f t) s3 r) r) r ->
  runs (fun f => term_loop f x) s r.
Proof.
  intros Hk Hn Ht Hfol.
  apply (runs_shift_state
           (fun f =>
              let! y := factor f in
              let! _ := (if bigint_is_zero y then error "division by zero!" else ret tt) in
              let! t := lift (bigint_div x y) in term_loop f t)
           _ s1 s).
  { intros f. rewrite term_loop_S. step_equation Hk Hn. }
  eapply runs_bind; [apply factor_monotone| |exact Ht|].
  - intros y. apply monotone_bind_const. intros _.
    apply monotone_bind_const. apply term_loop_monotone.
  - eapply follows_impl; [|exact Hfol]. intros y s2 Hy. cbv beta in Hy |- *.
    destruct (bigint_is_zero y).
    + subst r. exists 0%nat. split; [reflexivity|discriminate].
    + apply runs_bind_const; [discriminate|]. cbn [ret follows].
      apply runs_bind_const; [apply lift_fuel|exact Hy].
Qed.

Lemma runs_factor_neg s s1 ra r :
  kind (current_token s) = SUB -> next_token s = Return tt s1 ->
  runs factor s1 ra ->
  follows ra (fun x s2 r => r = Return (bigint_neg x) s2) r ->
  runs factor s r.
Proof.
  intros Hk Hn Hf Hfol.
  apply (runs_shift_state (fun f => let! x := factor f in ret (bigint_neg x)) _ s1 s).
  { intros f. rewrite factor_S. step_equation Hk Hn. }
  eapply (runs_bind factor (fun _ x => ret (bigint_neg x)));
    [apply factor_monotone| |exact Hf|].
  - intros x f f' _. apply extends_refl.
  - eapply follows_impl; [|exact Hfol]. intros x s2 ->.
    exists 0%nat. split; [reflexivity|discriminate].
Qed.

Lemma runs_factor_paren s s1 ra r :
  kind (current_token s) = LP -> next_token s = Return tt s1 ->
  runs sum s1 ra ->
  follows ra (fun x s2 r =>
    kind (current_token s2) = RP /\
    follows (next_token s2) (fun _ s3 r => r = Return x s3) r) r ->
  runs factor s r.
Proof.
  intros Hk Hn Hs Hfol.
  apply (runs_shift_state
           (fun f =>
              let! res := sum f in
              let! tok := get_token in
              let! _ := (match kind tok with
                         | RP => ret tt
                         | _ => error "expected ')'"
                         end) in
              let! _ := next_token in
              ret res)
           _ s1 s).
  { intros f. rewrite factor_S. step_equation Hk Hn. }
  eapply (runs_bind sum (fun _ res =>
            let! tok := get_token in
            let! _ := (match kind tok with
                       | RP => ret tt
                       | _ => error "expected ')'"
                       end) in
            let! _ := next_token in
            ret res));
    [apply sum_monotone| |exact Hs|].
  - intros x f f' _. apply extends_refl.
  - eapply follows_impl; [|exact Hfol]. intros x s2 [Hrp Hnext].
    exists 0%nat. unfold bind, get_token, ret. rewrite Hrp. cbv beta iota.
    pose proof (next_token_fuel s2) as Hfuel.
    destruct (next_token s2) as [[] s3|msg| |]; cbn [follows] in Hnext;
      try contradiction; subst r; (split; [reflexivity|discriminate]).
Qed.

Lemma runs_factor_num s z r :
  kind (current_token s) = NUM -> value (current_token s) = Some z ->
  follows (next_token s) (fun _ s' r => r = Return z s') r ->
  runs factor s r.
Proof.
  intros Hk Hv Hnext. exists 1%nat. rewrite factor_S.
  unfold bind, get_token, lift, ret. rewrite Hk. cbv beta iota. rewrite Hv.
  pose proof (next_token_fuel s) as Hfuel.
  destruct (next_token s) as [[] s3|msg| |]; cbn [follows] in Hnext;
    try contradiction; subst r; (split; [reflexivity|discriminate]).
Qed.

End Parser.

Module Evaluation.
Import Calc.
Import Lexer.
Import Parser.

(** ** The token after an expression *)

Lemma sum_end_term_end k : sum_end k -> term_end k.
Proof.
  intros (b & k' & Hb & E & H). exists b, k'. split; [exact Hb|]. split; [exact E|].
  intros c Hc. destruct (H c Hc) as [-> | [-> | [-> | ->]]]; tauto.
Qed.

Lemma term_end_no_digit k : term_end k -> no_digit_head k.
Proof.
  intros (b & k' & Hb & -> & H) c Hc.
  destruct Hb as [|c0 b Hc0 Hb].
  - intros [H1 H2].
    destruct (H c Hc) as [-> | [-> | [-> | [-> | [-> | ->]]]]];
      vm_compute in H1, H2; congruence.
  - injection Hc as <-. by apply blank_not_digit.
Qed.

Lemma sum_end_no_digit k : sum_end k -> no_digit_head k.
Proof. intros H. by apply term_end_no_digit, sum_end_term_end. Qed.

(** After a term the next token can always be read. *)
Lemma next_token_after_term k s :
  ready k s -> term_end k -> exists s', next_token s = Return tt s'.
Proof.
  intros Hr (b & k' & Hb & -> & Hk). destruct k' as [|c k'].
  - rewrite app_nil_r in Hr. rewrite (next_token_end b s Hb Hr). by eexists.
  - destruct (Hk c eq_refl) as [-> | [-> | [-> | [-> | [-> | ->]]]]].
    + rewrite (next_token_operator ")" RP b k' s) by (simpl; tauto || assumption).
      by eexists.
    + rewrite (next_token_operator (ascii_of_nat 10) EOL b k' s)
        by (simpl; tauto || assumption). by eexists.
    + rewrite (next_token_operator "+" ADD b k' s) by (simpl; tauto || assumption).
      by eexists.
    + rewrite (next_token_operator "-" SUB b k' s) by (simpl; tauto || assumption).
      by eexists.
    + rewrite (next_token_operator "*" MUL b k' s) by (simpl; tauto || assumption).
      by eexists.
    + rewrite (next_token_operator "/" DIV b k' s) by (simpl; tauto || assumption).
      by eexists.
Qed.

Lemma next_token_after_sum k s s' :
  ready k s -> sum_end k -> next_token s = Return tt s' ->
  kind (current_token s') <> MUL /\ kind (current_token s') <> DIV.
Proof.
  intros Hr (b & k' & Hb & -> & Hk) Hn. destruct k' as [|c k'].
  - rewrite app_nil_r in Hr. rewrite (next_token_end b s Hb Hr) in Hn.
    injection Hn as <-. simpl. split; discriminate.
  - destruct (Hk c eq_refl) as [-> | [-> | [-> | ->]]].
    + rewrite (next_token_operator ")" RP b k' s) in Hn by (simpl; tauto || assumption).
      injection Hn as <-. simpl. split; discriminate.
    + rewrite (next_token_operator (ascii_of_nat 10) EOL b k' s) in Hn
        by (simpl; tauto || assumption).
      injection Hn as <-. simpl. split; discriminate.
    + rewrite (next_token_operator "+" ADD b k' s) in Hn by (simpl; tauto || assumption).
      injection Hn as <-. simpl. split; discriminate.
    + rewrite (next_token_operator "-" SUB b k' s) in Hn by (simpl; tauto || assumption).
      injection Hn as <-. simpl. split; discriminate.
Qed.

(** The state after an operator character is ready for what follows it. *)
Lemma ready_after_operator (c : ascii) (K : token_kind) (b k : list ascii) (s : state) :
  In (c, K) [("+"%char, ADD); ("-"%char, SUB); ("*"%char, MUL); ("/"%char, DIV);
             ("("%char, LP); (")"%char, RP); (ascii_of_nat 10, EOL)] ->
  blanks b -> ready (b ++ c :: k) s ->
  exists s',
    next_token s = Return tt s' /\ ready k s' /\ stdout s' = stdout s /\
    kind (current_token s') = K.
Proof.
  intros Hin Hb Hr. rewrite (next_token_operator c K b k s Hin Hb Hr).
  eexists. split; [reflexivity|]. destruct Hr as (_ & Hbuf & _).
  split; [|split; reflexivity].
  split; [reflexivity|]. split; [exact Hbuf|]. simpl.
  cbn [In] in Hin.
  repeat (destruct Hin as [E|Hin]; [injection E as <- <-; discriminate|]).
  contradiction.
Qed.

(** ** From a continuation to a result *)

Lemma direct_result {B : Type} (s1 : state) (z : B) (P : outcome B -> Prop) :
  (forall r, follows (next_token s1) (fun _ s' r => r = Return z s') r -> P r) ->
  P ((let! _ := next_token in ret z) s1).
Proof.
  intros H. apply H. unfold bind, ret. pose proof (next_token_fuel s1) as Hf.
  destruct (next_token s1); cbn [follows]; try reflexivity. congruence.
Qed.

(** Under a sum, a term ends where its characters end. *)
Lemma term_direct (s s1 : state) (z : bigint_t) (k : list ascii) :
  ready k s1 -> sum_end k ->
  (forall r, follows (next_token s1)
               (fun _ s' r => runs (fun f => term_loop f z) s' r) r -> runs term s r) ->
  runs term s ((let! _ := next_token in ret z) s1).
Proof.
  intros Hr Hk H. apply H. unfold bind, ret.
  pose proof (next_token_fuel s1) as Hf.
  destruct (next_token s1) as [[] s'|msg| |] eqn:E; cbn [follows]; try reflexivity.
  - destruct (next_token_after_sum k s1 s' Hr Hk E) as [H1 H2].
    by apply runs_term_loop_stop.
  - congruence.
Qed.

Lemma is_zero_value (z : bigint_t) :
  normal (data z) -> (bigint_is_zero z = true <-> to_Z z = 0).
Proof.
  intros Hz. unfold bigint_is_zero. split.
  - intros H. apply Nat.eqb_eq in H. apply length_zero_iff_nil in H.
    unfold to_Z. rewrite H. simpl. lia.
  - intros H. apply Nat.eqb_eq.
    destruct (decide (data z = [])) as [E|E]; [by rewrite E|].
    pose proof (normal_positive (data z) Hz E) as Hp.
    unfold to_Z, sign_of in H. destruct (negative z); lia.
Qed.

(** ** The parser on the expressions of the grammar *)

Lemma operator_list_add : In ("+"%char, ADD)
  [("+"%char, ADD); ("-"%char, SUB); ("*"%char, MUL); ("/"%char, DIV);
   ("("%char, LP); (")"%char, RP); (ascii_of_nat 10, EOL)].
Proof. simpl. tauto. Qed.

Lemma operator_list_sub : In ("-"%char, SUB)
  [("+"%char, ADD); ("-"%char, SUB); ("*"%char, MUL); ("/"%char, DIV);
   ("("%char, LP); (")"%char, RP); (ascii_of_nat 10, EOL)].
Proof. simpl. tauto. Qed.

Lemma operator_list_mul : In ("*"%char, MUL)
  [("+"%char, ADD); ("-"%char, SUB); ("*"%char, MUL); ("/"%char, DIV);
   ("("%char, LP); (")"%char, RP); (ascii_of_nat 10, EOL)].
Proof. simpl. tauto. Qed.

Lemma operator_list_div : In ("/"%char, DIV)
  [("+"%char, ADD); ("-"%char, SUB); ("*"%char, MUL); ("/"%char, DIV);
   ("("%char, LP); (")"%char, RP); (ascii_of_nat 10, EOL)].
Proof. simpl. tauto. Qed.

Lemma operator_list_lp : In ("("%char, LP)
  [("+"%char, ADD); ("-"%char, SUB); ("*"%char, MUL); ("/"%char, DIV);
   ("("%char, LP); (")"%char, RP); (ascii_of_nat 10, EOL)].
Proof. simpl. tauto. Qed.

Lemma operator_list_rp : In (")"%char, RP)
  [("+"%char, ADD); ("-"%char, SUB); ("*"%char, MUL); ("/"%char, DIV);
   ("("%char, LP); (")"%char, RP); (ascii_of_nat 10, EOL)].
Proof. simpl. tauto. Qed.

Lemma operator_list_eol : In (ascii_of_nat 10, EOL)
  [("+"%char, ADD); ("-"%char, SUB); ("*"%char, MUL); ("/"%char, DIV);
   ("("%char, LP); (")"%char, RP); (ascii_of_nat 10, EOL)].
Proof. simpl. tauto. Qed.

Lemma term_end_cons b c k :
  blanks b ->
  c = ")"%char \/ c = ascii_of_nat 10 \/ c = "+"%char \/ c = "-"%char \/
  c = "*"%char \/ c = "/"%char ->
  term_end (b ++ c :: k).
Proof.
  intros Hb H. exists b, (c :: k). split; [exact Hb|]. split; [reflexivity|].
  intros c' E. injection E as <-. exact H.
Qed.

Lemma sum_end_cons b c k :
  blanks b ->
  c = ")"%char \/ c = ascii_of_nat 10 \/ c = "+"%char \/ c = "-"%char ->
  sum_end (b ++ c :: k).
Proof.
  intros Hb H. exists b, (c :: k). split; [exact Hb|]. split; [reflexivity|].
  intros c' E. injection E as <-. exact H.
Qed.

Lemma not_digit_operator c :
  In c ["+"%char; "-"%char; "*"%char; "/"%char; "("%char; ")"%char] -> ~ is_digit c.
Proof.
  intros Hin [H1 H2]. cbn [In] in Hin.
  repeat (destruct Hin as [<-|Hin]; [vm_compute in H1, H2; congruence|]).
  contradiction.
Qed.

(** The three routines on the three kinds of expressions. *)
Lemma parser_parses :
  (forall e, sum_ok e ->
     parses print_sum eval_sum sum_end sum
       (fun z s' r => runs (fun f => sum_loop f z) s' r) e) /\
  (forall t, term_ok t ->
     parses print_term eval_term term_end term
       (fun z s' r => runs (fun f => term_loop f z) s' r) t) /\
  (forall f, factor_ok f ->
     parses print_factor eval_factor term_end factor
       (fun z s' r => r = Return z s') f).
Proof.
  apply tree_mutind.
  - (* a term as a sum *)
    intros t IHt Hok k s0 Hk Hr. cbn [print_sum eval_sum sum_ok] in *.
    destruct (IHt Hok k s0 (sum_end_term_end k Hk) Hr) as (s & Hn & IH).
    exists s. split; [exact Hn|].
    destruct (eval_term t) as [v|].
    + destruct IH as (z & s1 & Hr1 & Hout & Nz & Vz & K).
      exists z, s1. split; [exact Hr1|]. split; [exact Hout|].
      split; [exact Nz|]. split; [exact Vz|]. intros r Hfol.
      eapply runs_sum; [exact (term_direct s s1 z k Hr1 Hk K)|].
      apply follows_next_ret. exact Hfol.
    + eapply runs_sum; [exact IH|]. reflexivity.
  - (* s + t *)
    intros e IHe b t IHt (Hoke & Hb & Hokt) k s0 Hk Hr.
    cbn [print_sum eval_sum] in *. rewrite <- !app_assoc in Hr. cbn [app] in Hr.
    destruct (IHe Hoke _ s0 (sum_end_cons b "+" _ Hb ltac:(tauto)) Hr) as (s & Hn & IH).
    exists s. split; [exact Hn|].
    destruct (eval_sum e) as [ve|]; cbn [mbind option_bind];
      [|destruct (eval_term t); exact IH].
    destruct IH as (ze & s1 & Hr1 & Hout1 & Nze & Vze & Ke).
    destruct (ready_after_operator "+" ADD b _ s1 operator_list_add Hb Hr1)
      as (s2 & Hn2 & Hr2 & Hout2 & Hk2).
    destruct (IHt Hokt k s2 (sum_end_term_end k Hk) Hr2) as (s3 & Hn3 & IH).
    destruct (eval_term t) as [vt|]; cbn [mbind option_bind].
    + destruct IH as (zt & s4 & Hr4 & Hout4 & Nzt & Vzt & Kt).
      destruct (bigint_add_spec ze zt Nze Nzt) as (za & Ha & Nza & Vza & _).
      exists za, s4. split; [exact Hr4|]. split; [congruence|].
      split; [exact Nza|]. split; [congruence|]. intros r Hfol.
      apply Ke. rewrite Hn2. cbn [follows].
      eapply runs_sum_loop_add;
        [exact Hk2|exact Hn3|exact (term_direct s3 s4 zt k Hr4 Hk Kt)|].
      apply follows_next_ret. eapply follows_impl; [|exact Hfol].
      intros u s' Hs'. unfold lift. rewrite Ha. exact Hs'.
    + apply Ke. rewrite Hn2. cbn [follows].
      eapply runs_sum_loop_add; [exact Hk2|exact Hn3|exact IH|]. reflexivity.
  - (* s - t *)
    intros e IHe b t IHt (Hoke & Hb & Hokt) k s0 Hk Hr.
    cbn [print_sum eval_sum] in *. rewrite <- !app_assoc in Hr. cbn [app] in Hr.
    destruct (IHe Hoke _ s0 (sum_end_cons b "-" _ Hb ltac:(tauto)) Hr) as (s & Hn & IH).
    exists s. split; [exact Hn|].
    destruct (eval_sum e) as [ve|]; cbn [mbind option_bind];
      [|destruct (eval_term t); exact IH].
    destruct IH as (ze & s1 & Hr1 & Hout1 & Nze & Vze & Ke).
    destruct (ready_after_operator "-" SUB b _ s1 operator_list_sub Hb Hr1)
      as (s2 & Hn2 & Hr2 & Hout2 & Hk2).
    destruct (IHt Hokt k s2 (sum_end_term_end k Hk) Hr2) as (s3 & Hn3 & IH).
    destruct (eval_term t) as [vt|]; cbn [mbind option_bind].
    + destruct IH as (zt & s4 & Hr4 & Hout4 & Nzt & Vzt & Kt).
      destruct (bigint_sub_spec ze zt Nze Nzt) as (za & Ha & Nza & Vza & _).
      exists za, s4. split; [exact Hr4|]. split; [congruence|].
      split; [exact Nza|]. split; [congruence|]. intros r Hfol.
      apply Ke. rewrite Hn2. cbn [follows].
      eapply runs_sum_loop_sub;
        [exact Hk2|exact Hn3|exact (term_direct s3 s4 zt k Hr4 Hk Kt)|].
      apply follows_next_ret. eapply follows_impl; [|exact Hfol].
      intros u s' Hs'. unfold lift. rewrite Ha. exact Hs'.
    + apply Ke. rewrite Hn2. cbn [follows].
      eapply runs_sum_loop_sub; [exact Hk2|exact Hn3|exact IH|]. reflexivity.
  - (* a factor as a term *)
    intros f IHf Hok k s0 Hk Hr. cbn [print_term eval_term term_ok] in *.
    destruct (IHf Hok k s0 Hk Hr) as (s & Hn & IH).
    exists s. split; [exact Hn|].
    destruct (eval_factor f) as [v|].
    + destruct IH as (z & s1 & Hr1 & Hout & Nz & Vz & K).
      exists z, s1. split; [exact Hr1|]. split; [exact Hout|].
      split; [exact Nz|]. split; [exact Vz|]. intros r Hfol.
      eapply runs_term; [exact (direct_result s1 z _ K)|].
      apply follows_next_ret. exact Hfol.
    + eapply runs_term; [exact IH|]. reflexivity.
  - (* t * f *)
    intros t IHt b f IHf (Hokt & Hb & Hokf) k s0 Hk Hr.
    cbn [print_term eval_term] in *. rewrite <- !app_assoc in Hr. cbn [app] in Hr.
    destruct (IHt Hokt _ s0
                (term_end_cons b "*" _ Hb ltac:(tauto)) Hr)
      as (s & Hn & IH).
    exists s. split; [exact Hn|].
    destruct (eval_term t) as [vt|]; cbn [mbind option_bind];
      [|destruct (eval_factor f); exact IH].
    destruct IH as (zt & s1 & Hr1 & Hout1 & Nzt & Vzt & Kt).
    destruct (ready_after_operator "*" MUL b _ s1 operator_list_mul Hb Hr1)
      as (s2 & Hn2 & Hr2 & Hout2 & Hk2).
    destruct (IHf Hokf k s2 Hk Hr2) as (s3 & Hn3 & IH).
    destruct (eval_factor f) as [vf|]; cbn [mbind option_bind].
    + destruct IH as (zf & s4 & Hr4 & Hout4 & Nzf & Vzf & Kf).
      destruct (bigint_mul_spec zt zf (proj1 Nzt) (proj1 Nzf)) as (zm & Hm & Wzm & Vzm).
      exists zm, s4. split; [exact Hr4|]. split; [congruence|].
      split; [exact (well_formed_normal _ Wzm)|]. split; [congruence|]. intros r Hfol.
      apply Kt. rewrite Hn2. cbn [follows].
      eapply runs_term_loop_mul;
        [exact Hk2|exact Hn3|exact (direct_result s4 zf _ Kf)|].
      apply follows_next_ret. eapply follows_impl; [|exact Hfol].
      intros u s' Hs'. unfold lift. rewrite Hm. exact Hs'.
    + apply Kt. rewrite Hn2. cbn [follows].
      eapply runs_term_loop_mul; [exact Hk2|exact Hn3|exact IH|]. reflexivity.
  - (* t / f *)
    intros t IHt b f IHf (Hokt & Hb & Hokf) k s0 Hk Hr.
    cbn [print_term eval_term] in *. rewrite <- !app_assoc in Hr. cbn [app] in Hr.
    destruct (IHt Hokt _ s0
                (term_end_cons b "/" _ Hb ltac:(tauto)) Hr)
      as (s & Hn & IH).
    exists s. split; [exact Hn|].
    destruct (eval_term t) as [vt|]; cbn [mbind option_bind];
      [|destruct (eval_factor f); exact IH].
    destruct IH as (zt & s1 & Hr1 & Hout1 & Nzt & Vzt & Kt).
    destruct (ready_after_operator "/" DIV b _ s1 operator_list_div Hb Hr1)
      as (s2 & Hn2 & Hr2 & Hout2 & Hk2).
    destruct (IHf Hokf k s2 Hk Hr2) as (s3 & Hn3 & IH).
    destruct (eval_factor f) as [vf|]; cbn [mbind option_bind].
    + destruct IH as (zf & s4 & Hr4 & Hout4 & Nzf & Vzf & Kf).
      pose proof (is_zero_value zf Nzf) as Hzero.
      destruct (Z.eqb_spec vf 0) as [E0|Hne0].
      * apply Kt. rewrite Hn2. cbn [follows].
        eapply runs_term_loop_div;
          [exact Hk2|exact Hn3|exact (direct_result s4 zf _ Kf)|].
        apply follows_next_ret.
        destruct (next_token_after_term k s4 Hr4 Hk) as (s5 & Hn5).
        rewrite Hn5. cbn [follows].
        assert (Hz : bigint_is_zero zf = true) by (apply Hzero; congruence).
        rewrite Hz. reflexivity.
      * destruct (bigint_is_zero zf) eqn:Hz.
        { exfalso. apply Hne0. rewrite <- Vzf. by apply Hzero. }
        destruct (bigint_div_normal zt zf Nzt Nzf Hz) as (zq & Hq & Nzq & Vzq).
        exists zq, s4. split; [exact Hr4|]. split; [congruence|].
        split; [exact Nzq|]. split; [congruence|]. intros r Hfol.
        apply Kt. rewrite Hn2. cbn [follows].
        eapply runs_term_loop_div;
          [exact Hk2|exact Hn3|exact (direct_result s4 zf _ Kf)|].
        apply follows_next_ret. eapply follows_impl; [|exact Hfol].
        intros u s' Hs'. cbv beta. rewrite Hz. unfold lift. rewrite Hq. exact Hs'.
    + apply Kt. rewrite Hn2. cbn [follows].
      eapply runs_term_loop_div; [exact Hk2|exact Hn3|exact IH|]. reflexivity.
  - (* - f *)
    intros b f IHf (Hb & Hok) k s0 Hk Hr. cbn [print_factor eval_factor] in *.
    rewrite <- app_assoc in Hr. cbn [app] in Hr.
    destruct (ready_after_operator "-" SUB b _ s0 operator_list_sub Hb Hr)
      as (s & Hn & Hrs & Houts & Hks).
    exists s. split; [exact Hn|].
    destruct (IHf Hok k s Hk Hrs) as (s' & Hn' & IH).
    destruct (eval_factor f) as [v|]; cbn [mbind option_bind].
    + destruct IH as (z & s1 & Hr1 & Hout & Nz & Vz & K).
      destruct (bigint_neg_value z (proj1 Nz)) as [Wn Vn].
      exists (bigint_neg z), s1. split; [exact Hr1|]. split; [congruence|].
      split; [exact (well_formed_normal _ Wn)|]. split; [congruence|]. intros r Hfol.
      eapply runs_factor_neg; [exact Hks|exact Hn'|exact (direct_result s1 z _ K)|].
      apply follows_next_ret. exact Hfol.
    + eapply runs_factor_neg; [exact Hks|exact Hn'|exact IH|]. reflexivity.
  - (* ( s ) *)
    intros b e IHe b' (Hb & Hok & Hb') k s0 Hk Hr. cbn [print_factor eval_factor] in *.
    rewrite <- !app_assoc in Hr. cbn [app] in Hr.
    rewrite <- !app_assoc in Hr. cbn [app] in Hr.
    destruct (ready_after_operator "(" LP b _ s0 operator_list_lp Hb Hr)
      as (s & Hn & Hrs & Houts & Hks).
    exists s. split; [exact Hn|].
    destruct (IHe Hok _ s (sum_end_cons b' ")" _ Hb' ltac:(tauto)) Hrs) as (s' & Hn' & IH).
    destruct (eval_sum e) as [v|].
    + destruct IH as (z & s1 & Hr1 & Hout & Nz & Vz & K).
      destruct (ready_after_operator ")" RP b' _ s1 operator_list_rp Hb' Hr1)
        as (s2 & Hn2 & Hr2 & Hout2 & Hk2).
      exists z, s2. split; [exact Hr2|]. split; [congruence|].
      split; [exact Nz|]. split; [exact Vz|]. intros r Hfol.
      eapply (runs_factor_paren s s' (Return z s2)); [exact Hks|exact Hn'| |].
      * apply K. rewrite Hn2. cbn [follows].
        apply runs_sum_loop_stop; rewrite Hk2; discriminate.
      * cbn [follows]. split; [exact Hk2|exact Hfol].
    + eapply runs_factor_paren; [exact Hks|exact Hn'|exact IH|]. reflexivity.
  - (* a number *)
    intros b d (Hb & Hok) k s0 Hk Hr. cbn [print_factor eval_factor] in *.
    rewrite <- app_assoc in Hr.
    destruct (next_token_number b d k s0 Hb Hok (term_end_no_digit k Hk) Hr)
      as (z & buf' & Hn & Hlb & Wz & Vz).
    set (s := {| stdin := k; stdout := stdout s0; buffer := buf';
                 current_token := {| kind := NUM; value := Some z |} |}) in *.
    exists s. split; [exact Hn|].
    exists z, s. split; [|split; [reflexivity|]].
    { split; [reflexivity|]. split; [exact Hlb|]. simpl. discriminate. }
    split; [exact (well_formed_normal _ Wz)|]. split; [exact Vz|]. intros r Hfol.
    eapply runs_factor_num; [reflexivity|reflexivity|exact Hfol].
Qed.

End Evaluation.

Module Program.
Import Calc.
Import Lexer.
Import Parser.
Import Evaluation.

(** ** One line *)

Lemma sum_at_end s f :
  kind (current_token s) = END ->
  sum (S (S (S f))) s = Exit "expected '-', number or '('".
Proof.
  intros H. rewrite sum_S, term_S, factor_S. unfold bind, get_token. rewrite H.
  reflexivity.
Qed.

Lemma runs_sum_not_end s r :
  runs sum s r -> r <> Exit "expected '-', number or '('" ->
  kind (current_token s) <> END.
Proof.
  intros (f & Hf & Hne) Hr Hk. apply Hr. rewrite <- (sum_at_end s f Hk).
  symmetry. apply (sum_monotone f (S (S (S f))) ltac:(lia) s r Hf Hne).
Qed.

Lemma expr_not_end fuel s :
  kind (current_token s) <> END ->
  expr fuel s =
  (let! res := sum fuel in
   let! tok := get_token in
   match kind tok with
   | EOL => ret (Some res)
   | _ => error "trailing character(s)"
   end) s.
Proof.
  intros H. unfold expr. unfold bind at 1, get_token.
  destruct (kind (current_token s)); congruence || reflexivity.
Qed.

Lemma expr_line (e : sum_t) (b rest : list ascii) (s0 : state) :
  sum_ok e -> blanks b -> ready (print_sum e ++ b ++ ascii_of_nat 10 :: rest) s0 ->
  match eval_sum e with
  | Some v =>
      exists z s1 f0,
        (forall fuel, (f0 <= fuel)%nat ->
           (let! _ := next_token in expr fuel) s0 = Return (Some z) s1) /\
        normal (data z) /\ to_Z z = v /\
        ready rest s1 /\ stdout s1 = stdout s0 /\ kind (current_token s1) = EOL
  | None =>
      exists f0,
        forall fuel, (f0 <= fuel)%nat ->
          (let! _ := next_token in expr fuel) s0 = Exit "division by zero!"
  end.
Proof.
  intros Hok Hb Hr.
  destruct (proj1 parser_parses e Hok _ s0
              (sum_end_cons b (ascii_of_nat 10) rest Hb ltac:(tauto)) Hr)
    as (s & Hn & IH).
  destruct (eval_sum e) as [v|].
  - destruct IH as (z & s1 & Hr1 & Hout & Nz & Vz & K).
    destruct (ready_after_operator (ascii_of_nat 10) EOL b _ s1 operator_list_eol Hb Hr1)
      as (s2 & Hn2 & Hr2 & Hout2 & Hk2).
    assert (Hrun : runs sum s (Return z s2)).
    { apply K. rewrite Hn2. cbn [follows].
      apply runs_sum_loop_stop; rewrite Hk2; discriminate. }
    pose proof (runs_sum_not_end s _ Hrun ltac:(discriminate)) as Hkind.
    destruct (runs_monotone sum s _ sum_monotone Hrun) as (f0 & Hf0).
    exists z, s2, f0. split.
    + intros fuel Hfuel. unfold bind at 1. rewrite Hn.
      rewrite (expr_not_end fuel s Hkind). unfold bind, get_token, ret.
      rewrite (Hf0 fuel Hfuel), Hk2. reflexivity.
    + split; [exact Nz|]. split; [exact Vz|]. split; [exact Hr2|].
      split; [congruence|exact Hk2].
  - pose proof (runs_sum_not_end s _ IH ltac:(discriminate)) as Hkind.
    destruct (runs_monotone sum s _ sum_monotone IH) as (f0 & Hf0).
    exists f0. intros fuel Hfuel. unfold bind at 1. rewrite Hn.
    rewrite (expr_not_end fuel s Hkind). unfold bind.
    rewrite (Hf0 fuel Hfuel). reflexivity.
Qed.

(** ** Printing *)

Lemma nonzero_well_formed (z : bigint_t) :
  normal (data z) -> to_Z z <> 0 -> well_formed z.
Proof.
  intros [Hu Hl] Hv. split; [exact Hu|]. split; [exact Hl|].
  intros E. exfalso. apply Hv. unfold to_Z. rewrite E. simpl. lia.
Qed.

Lemma bigint_print_spec (z : bigint_t) :
  well_formed z ->
  exists str,
    shows (to_Z z) str /\
    bigint_tostring z = Some (str ++ [NUL]) /\
    (length (str ++ [NUL]) <= bigint_max_stringlen z + 1)%nat /\
    forall s,
      bigint_print z s =
      Return tt {| stdin := stdin s; stdout := stdout s ++ str ++ [ascii_of_nat 10];
                   buffer := buffer s; current_token := current_token s |}.
Proof.
  intros Wz.
  destruct (bigint_tostring_spec z Wz) as (t & Hts & Ht & Hne & Hv & Hz & Hnz & Hlen).
  destruct (to_Z_sign_abs z Wz) as [Hsign Habs]. rewrite Habs in Hv, Hz, Hnz.
  set (pre := if negative z then ["-"%char] else []) in *.
  rewrite (app_assoc pre t [NUL]) in Hts.
  exists (pre ++ t). split; [|split; [exact Hts|split]].
  - exists t. split; [|split].
    + rewrite Hsign. reflexivity.
    + split; [exact Hne|]. split; [exact Ht|].
      destruct (Z.eq_dec (Z.abs (to_Z z)) 0) as [E|E];
        [left; by apply Hz|right; by apply Hnz].
    + exact Hv.
  - rewrite !length_app. cbn [length].
    unfold bigint_max_stringlen. subst pre.
    destruct (Nat.eqb_spec (length (data z)) 0) as [E0|E0].
    + destruct Wz as (_ & _ & Hcan).
      rewrite (Hcan ltac:(by apply length_zero_iff_nil)). cbn [length]. lia.
    + destruct (negative z); cbn [length]; lia.
  - intros s. unfold bigint_print, bind, lift. rewrite Hts.
    assert (Hnul : Forall (fun c => c <> NUL) (pre ++ t)).
    { apply Forall_app. split.
      - subst pre. destruct (negative z); repeat constructor. discriminate.
      - eapply Forall_impl; [exact Ht|]. intros c Hc. by apply digit_not_NUL. }
    rewrite (strlen_terminated (pre ++ t) Hnul).
    rewrite take_app_length. reflexivity.
Qed.

(** A value with normal limbs that is not well-formed is the zero with
    the negative flag set. *)
Lemma normal_not_well_formed (z : bigint_t) :
  normal (data z) -> ~ well_formed z -> z = {| negative := true; data := [] |}.
Proof.
  intros [Hu Hl] Hnw. destruct z as [neg d]. cbn [data] in *.
  destruct d as [|a d].
  - destruct neg; [reflexivity|]. exfalso. apply Hnw.
    split; [exact Hu|]. split; [exact Hl|]. reflexivity.
  - exfalso. apply Hnw. split; [exact Hu|]. split; [exact Hl|]. discriminate.
Qed.

Lemma well_formed_dec (z : bigint_t) :
  normal (data z) -> well_formed z \/ ~ well_formed z.
Proof.
  intros [Hu Hl]. destruct (data z) as [|a d] eqn:Hd.
  - destruct (negative z) eqn:Hn.
    + right. intros (_ & _ & Hz). specialize (Hz Hd). congruence.
    + left. split; [by rewrite Hd|]. split; [by rewrite Hd|]. intros _. exact Hn.
  - left. split; [by rewrite Hd|]. split; [by rewrite Hd|]. rewrite Hd. discriminate.
Qed.

(** ** The main loop *)

Lemma bind_assoc {A B C} (m : M A) (k : A -> M B) (h : B -> M C) s :
  bind m (fun a => bind (k a) h) s = bind (bind m k) h s.
Proof. unfold bind. destruct (m s); reflexivity. Qed.

Lemma main_loop_S fuel :
  main_loop (S fuel) =
  (let! _ := next_token in
   let! x := expr fuel in
   match x with
   | None => ret 0
   | Some x =>
       let! _ := bigint_print x in
       let! _ := write [ascii_of_nat 10] in
       main_loop fuel
   end).
Proof. reflexivity. Qed.

Lemma main_loop_lines (es : list (sum_t * list ascii)) (b_end : list ascii) :
  forall s0,
    Forall (fun l => sum_ok l.1 /\ blanks l.2 /\
                     exists v, eval_sum l.1 = Some v /\ v <> 0) es ->
    blanks b_end ->
    ready (concat (map (fun l => print_sum l.1 ++ l.2 ++ [ascii_of_nat 10]) es) ++ b_end) s0 ->
    exists strs f0,
      Forall2 (fun l str => exists v, eval_sum l.1 = Some v /\ shows v str) es strs /\
      forall fuel, (f0 <= fuel)%nat ->
        exists s',
          main_loop fuel s0 = Return 0 s' /\
          stdout s' =
            stdout s0 ++
            concat (map (fun str => str ++ [ascii_of_nat 10; ascii_of_nat 10]) strs).
Proof.
  induction es as [|[e b] es IH]; intros s0 Hes Hend Hr.
  - exists [], 1%nat. split; [constructor|]. intros fuel Hfuel.
    destruct fuel as [|fuel]; [lia|]. cbn [map concat app] in Hr.
    rewrite main_loop_S. unfold bind at 1. rewrite (next_token_end b_end s0 Hend Hr).
    eexists. split; [reflexivity|]. cbn [map concat stdout]. by rewrite app_nil_r.
  - inversion Hes as [|? ? (Hok & Hb & v & Hv & Hv0) Hes']; subst.
    cbn [fst snd] in Hok, Hb, Hv.
    cbn [map concat fst snd] in Hr. rewrite <- !app_assoc in Hr. cbn [app] in Hr.
    pose proof (expr_line e b _ s0 Hok Hb Hr) as Hline. rewrite Hv in Hline.
    destruct Hline as (z & s1 & f1 & Hrun & Nz & Vz & Hr1 & Hout1 & Hk1).
    assert (Wz : well_formed z) by (apply nonzero_well_formed; [exact Nz|congruence]).
    destruct (bigint_print_spec z Wz) as (str & Hshow & _ & _ & Hprint).
    set (s2 := {| stdin := stdin s1;
                  stdout := (stdout s1 ++ str ++ [ascii_of_nat 10]) ++ [ascii_of_nat 10];
                  buffer := buffer s1; current_token := current_token s1 |}).
    destruct (IH s2 Hes' Hend) as (strs & f2 & Hstrs & Hloop).
    { destruct Hr1 as (H1 & H2 & H3). split; [exact H1|]. split; [exact H2|exact H3]. }
    exists (str :: strs), (S (f1 `max` f2)). split.
    + constructor; [|exact Hstrs]. exists v. split; [exact Hv|]. by rewrite <- Vz.
    + intros fuel Hfuel. destruct fuel as [|fuel]; [lia|].
      assert (Hf1 : (f1 <= fuel)%nat) by (pose proof (Nat.le_max_l f1 f2); lia).
      assert (Hf2 : (f2 <= fuel)%nat) by (pose proof (Nat.le_max_r f1 f2); lia).
      destruct (Hloop fuel Hf2) as (s' & Hs' & Hout').
      exists s'. split.
      * rewrite main_loop_S, bind_assoc. unfold bind at 1. rewrite (Hrun fuel Hf1).
        unfold bind at 1. rewrite Hprint. unfold bind, write. cbn [stdin stdout buffer current_token].
        exact Hs'.
      * rewrite Hout'. cbn [stdout s2 map concat]. rewrite Hout1.
        rewrite <- !app_assoc. reflexivity.
Qed.

Lemma initial_state_ready (input : list ascii) : ready input (initial_state input).
Proof.
  split; [reflexivity|]. split; [apply length_replicate|]. simpl. discriminate.
Qed.

(** ** Properties of the front end *)

Ltac all_digits :=
  repeat (apply Forall_cons_2; [vm_compute; split; discriminate|]); apply Forall_nil_2.
Ltac all_blanks :=
  unfold blanks;
  repeat (apply Forall_cons_2; [first [left; reflexivity | right; reflexivity]|]);
  apply Forall_nil_2.
Ltac a_number :=
  split; [discriminate|split; [all_digits|apply Nat.leb_le; vm_compute; reflexivity]].
Ltac an_expression :=
  repeat split;
  first [discriminate | all_digits | all_blanks | (apply Nat.leb_le; vm_compute; reflexivity)].

(** X25. When the unread input starts, after any spaces and tabs, with one
    or more digits (at most [BUFFER_SIZE] of them) followed by a character
    that is not a digit or by the end of the input, [next_token] makes the
    digits one [NUM] token whose value is the well-formed bignum of the
    number written, leading zeros included, and leaves the input after the
    last digit unread; nothing is written to [stdout]. *)
Theorem next_token_reads_number (b d k : list ascii) (s : state) :
  blanks b -> number_ok d -> no_digit_head k -> ready (b ++ d ++ k) s ->
  exists z buf',
    next_token s =
      Return tt {| stdin := k; stdout := stdout s; buffer := buf';
                   current_token := {| kind := NUM; value := Some z |} |} /\
    length buf' = BUFFER_SIZE /\ well_formed z /\ to_Z z = decimal_value d.
Proof. apply next_token_number. Qed.

Lemma next_token_reads_number_witness :
  let b := [" "%char; ascii_of_nat 9] in
  let d := list_ascii_of_string "0042" in
  let k := list_ascii_of_string "abc" in
  let s := initial_state (b ++ d ++ k) in
  exists z buf',
    next_token s =
      Return tt {| stdin := k; stdout := stdout s; buffer := buf';
                   current_token := {| kind := NUM; value := Some z |} |} /\
    length buf' = BUFFER_SIZE /\ well_formed z /\ to_Z z = decimal_value d.
Proof.
  intros b d k s. apply (next_token_reads_number b d k s).
  - all_blanks.
  - a_number.
  - intros c Hc. injection Hc as <-. vm_compute. intros [_ H]. apply H. reflexivity.
  - apply initial_state_ready.
Defined.

(** X26. For every value with normal limbs [bigint_tostring] returns a
    terminated string.  For a well-formed value the string is the decimal
    notation of the integer, it fits with its terminator the array of
    [bigint_max_stringlen(x) + 1] characters that [bigint_print] gives it,
    and [bigint_print] writes the notation and a newline.  For the one
    other value with normal limbs, the zero with the negative flag set
    that [bigint_div] and [bigint_rem] can return, the string is ["-0"],
    which takes with its terminator one character more than the array
    has. *)
Theorem bigint_print_writes (z : bigint_t) (s : state) :
  normal (data z) ->
  exists str,
    bigint_tostring z = Some (str ++ [NUL]) /\
    (well_formed z ->
     shows (to_Z z) str /\
     (length (str ++ [NUL]) <= bigint_max_stringlen z + 1)%nat /\
     bigint_print z s =
       Return tt {| stdin := stdin s; stdout := stdout s ++ str ++ [ascii_of_nat 10];
                    buffer := buffer s; current_token := current_token s |}) /\
    (~ well_formed z ->
     str = ["-"%char; "0"%char] /\
     (bigint_max_stringlen z + 1 < length (str ++ [NUL]))%nat).
Proof.
  intros Nz. destruct (well_formed_dec z Nz) as [Wz|Hnw].
  - destruct (bigint_print_spec z Wz) as (str & Hshow & Hts & Hfit & Hprint).
    exists str. split; [exact Hts|]. split; [|contradiction].
    intros _. split; [exact Hshow|]. split; [exact Hfit|apply Hprint].
  - rewrite (normal_not_well_formed z Nz Hnw) in Hnw |- *.
    exists ["-"%char; "0"%char]. split; [reflexivity|]. split; [contradiction|].
    intros _. split; [reflexivity|]. cbn. lia.
Qed.

Lemma bigint_print_writes_witness :
  let z := {| negative := true; data := [] |} in
  let s := initial_state [] in
  exists str,
    bigint_tostring z = Some (str ++ [NUL]) /\
    (well_formed z ->
     shows (to_Z z) str /\
     (length (str ++ [NUL]) <= bigint_max_stringlen z + 1)%nat /\
     bigint_print z s =
       Return tt {| stdin := stdin s; stdout := stdout s ++ str ++ [ascii_of_nat 10];
                    buffer := buffer s; current_token := current_token s |}) /\
    (~ well_formed z ->
     str = ["-"%char; "0"%char] /\
     (bigint_max_stringlen z + 1 < length (str ++ [NUL]))%nat).
Proof.
  intros z s. apply (bigint_print_writes z s).
  split; [apply Forall_nil_2|simpl; discriminate].
Defined.

(** X27. The parser evaluates every expression of its grammar to the
    integer the expression denotes, with [*] and [/] binding tighter than
    [+] and [-], operators of one level associating to the left, and
    division truncating toward zero; spaces and tabs before a token make
    no difference.  Started before the characters of the expression and a
    newline, [next_token] and [expr] return a bignum that represents the
    value, leave the characters after the newline unread with [EOL] as the
    current token, and write nothing. *)
Theorem expr_evaluates (e : sum_t) (v : Z) (b rest : list ascii) (s0 : state) :
  sum_ok e -> blanks b -> eval_sum e = Some v ->
  ready (print_sum e ++ b ++ ascii_of_nat 10 :: rest) s0 ->
  exists z s1 f0,
    (forall fuel, (f0 <= fuel)%nat ->
       (let! _ := next_token in expr fuel) s0 = Return (Some z) s1) /\
    to_Z z = v /\ stdin s1 = rest /\ stdout s1 = stdout s0 /\
    kind (current_token s1) = EOL.
Proof.
  intros Hok Hb Hv Hr. pose proof (expr_line e b rest s0 Hok Hb Hr) as H.
  rewrite Hv in H.
  destruct H as (z & s1 & f0 & Hrun & _ & Vz & Hr1 & Hout & Hk).
  exists z, s1, f0. split; [exact Hrun|]. split; [exact Vz|].
  split; [apply Hr1|]. split; [exact Hout|exact Hk].
Qed.

Lemma expr_evaluates_witness :
  let sp := [" "%char] in
  let e :=
    S_sub (S_term (T_factor (F_num [] (list_ascii_of_string "2")))) sp
          (T_div (T_mul (T_factor (F_num sp (list_ascii_of_string "3"))) []
                        (F_paren [] (S_add (S_term (T_factor (F_num [] (list_ascii_of_string "4"))))
                                           [ascii_of_nat 9]
                                           (T_factor (F_neg sp (F_num [] (list_ascii_of_string "50")))))
                                 sp))
                 [] (F_num [] (list_ascii_of_string "7"))) in
  let s0 := initial_state (print_sum e ++ sp ++ ascii_of_nat 10 :: []) in
  print_sum e =
    list_ascii_of_string "2 - 3*(4" ++ ascii_of_nat 9 :: list_ascii_of_string "+ -50 )/7" /\
  exists z s1 f0,
    (forall fuel, (f0 <= fuel)%nat ->
       (let! _ := next_token in expr fuel) s0 = Return (Some z) s1) /\
    to_Z z = 21 /\ stdin s1 = [] /\ stdout s1 = stdout s0 /\
    kind (current_token s1) = EOL.
Proof.
  intros sp e s0. split; [reflexivity|]. apply (expr_evaluates e 21 sp [] s0).
  - an_expression.
  - all_blanks.
  - vm_compute. reflexivity.
  - apply initial_state_ready.
Defined.

(** X28. When a divisor of the expression is zero, the parser leaves
    through [error("division by zero!")] instead of returning a value:
    [term] tests the divisor before it calls [bigint_div]. *)
Theorem expr_reports_division_by_zero (e : sum_t) (b rest : list ascii) (s0 : state) :
  sum_ok e -> blanks b -> eval_sum e = None ->
  ready (print_sum e ++ b ++ ascii_of_nat 10 :: rest) s0 ->
  exists f0,
    forall fuel, (f0 <= fuel)%nat ->
      (let! _ := next_token in expr fuel) s0 = Exit "division by zero!".
Proof.
  intros Hok Hb Hv Hr. pose proof (expr_line e b rest s0 Hok Hb Hr) as H.
  rewrite Hv in H. exact H.
Qed.

Lemma expr_reports_division_by_zero_witness :
  let sp := [" "%char] in
  let e :=
    S_term (T_div (T_factor (F_num [] (list_ascii_of_string "1"))) sp
                  (F_paren sp (S_sub (S_term (T_factor (F_num [] (list_ascii_of_string "2"))))
                                     [] (T_factor (F_num [] (list_ascii_of_string "2"))))
                           [])) in
  let s0 := initial_state (print_sum e ++ [] ++ ascii_of_nat 10 :: []) in
  print_sum e = list_ascii_of_string "1 / (2-2)" /\
  exists f0,
    forall fuel, (f0 <= fuel)%nat ->
      (let! _ := next_token in expr fuel) s0 = Exit "division by zero!".
Proof.
  intros sp e s0. split; [reflexivity|].
  apply (expr_reports_division_by_zero e [] [] s0).
  - an_expression.
  - all_blanks.
  - vm_compute. reflexivity.
  - apply initial_state_ready.
Defined.

(** X29. Given lines that each hold an expression of the grammar with a
    nonzero value, with or without spaces and tabs before the tokens and
    before the newline, [main] prints for every line the decimal notation
    of its value followed by two newlines, in order, and returns 0 at the
    end of the input. *)
Theorem main_prints_lines (es : list (sum_t * list ascii)) (b_end : list ascii) :
  Forall (fun l => sum_ok l.1 /\ blanks l.2 /\
                   exists v, eval_sum l.1 = Some v /\ v <> 0) es ->
  blanks b_end ->
  exists strs f0,
    Forall2 (fun l str => exists v, eval_sum l.1 = Some v /\ shows v str) es strs /\
    forall fuel, (f0 <= fuel)%nat ->
      exists s',
        main fuel (concat (map (fun l => print_sum l.1 ++ l.2 ++ [ascii_of_nat 10]) es)
                   ++ b_end) =
          Return 0 s' /\
        stdout s' =
          concat (map (fun str => str ++ [ascii_of_nat 10; ascii_of_nat 10]) strs).
Proof.
  intros Hes Hend.
  destruct (main_loop_lines es b_end _ Hes Hend (initial_state_ready _))
    as (strs & f0 & Hstrs & Hloop).
  exists strs, f0. split; [exact Hstrs|]. intros fuel Hfuel.
  destruct (Hloop fuel Hfuel) as (s' & Hs' & Hout). exists s'. split; [exact Hs'|].
  exact Hout.
Qed.

Lemma main_prints_lines_witness :
  let sp := [" "%char] in
  let es :=
    [(S_term (T_mul (T_factor (F_num [] (list_ascii_of_string "6"))) sp
                    (F_num sp (list_ascii_of_string "7"))), []);
     (S_term (T_factor (F_neg [] (F_paren []
        (S_add (S_term (T_factor (F_num [] (list_ascii_of_string "1")))) []
               (T_factor (F_num [] (list_ascii_of_string "2")))) []))), sp)] in
  exists strs f0,
    Forall2 (fun l str => exists v, eval_sum l.1 = Some v /\ shows v str) es strs /\
    forall fuel, (f0 <= fuel)%nat ->
      exists s',
        main fuel (concat (map (fun l => print_sum l.1 ++ l.2 ++ [ascii_of_nat 10]) es)
                   ++ []) =
          Return 0 s' /\
        stdout s' =
          concat (map (fun str => str ++ [ascii_of_nat 10; ascii_of_nat 10]) strs).
Proof.
  intros sp es. apply (main_prints_lines es []); [|all_blanks].
  apply Forall_cons_2; [|apply Forall_cons_2; [|apply Forall_nil_2]].
  - split; [an_expression|]. split; [all_blanks|].
    exists 42. split; [vm_compute; reflexivity|discriminate].
  - split; [an_expression|]. split; [all_blanks|].
    exists (-3). split; [vm_compute; reflexivity|discriminate].
Defined.

End Program.

(** * Termination of the front end *)

Module Termination.
Import Calc.
Import Lexer.
Import Parser.
Import Program.

(** ** Every token shortens what is left to read *)

Lemma skip_blanks_length (input : list ascii) :
  forall c rest, skip_blanks input = (c, rest) ->
    (c = EOF /\ rest = []) \/ (c <> EOF /\ (length rest < length input)%nat).
Proof.
  induction input as [|a input IH]; intros c rest H; cbn [skip_blanks] in H.
  - left. by inversion H.
  - destruct (is_blank (char_code a)).
    + destruct (IH _ _ H) as [[-> ->]|[Hc Hl]]; [by left|].
      right. split; [exact Hc|]. cbn [length]. lia.
    + inversion H; subst. right. split; [|cbn [length]; lia].
      pose proof (char_code_range a). unfold EOF. lia.
Qed.

Lemma read_digits_length (input : list ascii) :
  forall c len buf c' input' len' buf',
    c <> EOF ->
    read_digits input c len buf = Some (c', input', len', buf') ->
    (length (ungetc c' input') + len' <= length input + 1 + len)%nat.
Proof.
  induction input as [|a input IH]; intros c len buf c' input' len' buf' Hc H;
    rewrite read_digits_unfold in H;
    (destruct (is_digit_code c);
     [destruct (len =? BUFFER_SIZE)%nat; [discriminate|]|]).
  - inversion H; subst. cbn. lia.
  - inversion H; subst. unfold ungetc.
    destruct (Z.eqb_spec c' EOF); [contradiction|]. cbn [length]. lia.
  - apply IH in H; [cbn [length]; lia|].
    pose proof (char_code_range a). unfold EOF. lia.
  - inversion H; subst. unfold ungetc.
    destruct (Z.eqb_spec c' EOF); [contradiction|]. cbn [length]. lia.
Qed.

Lemma scan_token_pending s s' :
  scan_token s = Return tt s' -> (pending s' <= length (stdin s))%nat.
Proof.
  unfold scan_token. destruct (skip_blanks (stdin s)) as [c input] eqn:Hskip.
  apply skip_blanks_length in Hskip.
  repeat match goal with
         | |- context [if ?c =? ?k then _ else _] =>
             destruct (Z.eqb_spec c k);
             [ unfold bind, set_stdin, set_kind; intros H; inversion H; subst;
               unfold pending; cbn [stdin current_token kind];
               destruct Hskip as [[? ?]|[? ?]]; subst; cbn [length];
               first [lia | discriminate | contradiction]
             | ]
         end.
  destruct (read_digits input c 0 (buffer s)) as [[[[c' input'] len] buf]|] eqn:Hread;
    [|discriminate].
  destruct (Nat.ltb_spec 0 len); [|discriminate].
  destruct (bigint_create_str len buf); [|discriminate].
  intros H0; inversion H0; subst s'. unfold pending. cbn [stdin current_token kind].
  apply read_digits_length in Hread; [|assumption].
  destruct Hskip as [[? ?]|[? ?]]; [contradiction|]. lia.
Qed.

Lemma next_token_pending s s' :
  next_token s = Return tt s' -> (pending s' < pending s)%nat.
Proof.
  unfold next_token, pending at 2.
  destruct (kind (current_token s)); try discriminate;
    intros H; apply scan_token_pending in H; lia.
Qed.

(** ** Every token leaves the globals in order *)

Lemma is_digit_code_char (c : Z) : is_digit_code c = true -> is_digit (char_of c).
Proof.
  unfold is_digit_code, is_digit. intros H. apply andb_true_iff in H as [H1 H2].
  apply Z.leb_le in H1, H2. rewrite char_code_char_of by lia. lia.
Qed.

(** The characters that [read_digits] adds to the buffer are digits. *)
Lemma read_digits_buffer (input : list ascii) :
  forall c len buf c' input' len' buf',
    length buf = BUFFER_SIZE -> (len <= BUFFER_SIZE)%nat ->
    read_digits input c len buf = Some (c', input', len', buf') ->
    length buf' = BUFFER_SIZE /\ (len' <= BUFFER_SIZE)%nat /\
    exists d, Forall is_digit d /\ (len + length d = len')%nat /\
              take len' buf' = take len buf ++ d.
Proof.
  induction input as [|a input IH]; intros c len buf c' input' len' buf' Hbuf Hlen H;
    rewrite read_digits_unfold in H;
    (destruct (is_digit_code c) eqn:Hc;
     [destruct (Nat.eqb_spec len BUFFER_SIZE) as [E|E]; [discriminate|]|]).
  - inversion H; subst. split; [by rewrite length_insert|]. split; [lia|].
    exists [char_of c]. split; [repeat constructor; by apply is_digit_code_char|].
    split; [cbn [length]; lia|]. apply take_S_insert_char. lia.
  - inversion H; subst. split; [exact Hbuf|]. split; [exact Hlen|].
    exists []. split; [constructor|]. split; [cbn [length]; lia|].
    by rewrite app_nil_r.
  - apply IH in H; [|by rewrite length_insert|lia].
    destruct H as (Hb' & Hl' & d & Hd & Hlen' & Ht).
    split; [exact Hb'|]. split; [exact Hl'|].
    exists (char_of c :: d). split; [constructor; [by apply is_digit_code_char|exact Hd]|].
    split; [cbn [length]; lia|].
    rewrite Ht, take_S_insert_char by lia. by rewrite <- app_assoc.
  - inversion H; subst. split; [exact Hbuf|]. split; [exact Hlen|].
    exists []. split; [constructor|]. split; [cbn [length]; lia|].
    by rewrite app_nil_r.
Qed.

Lemma scan_token_safe s :
  length (buffer s) = BUFFER_SIZE ->
  scan_token s <> Abort /\ forall s', scan_token s = Return tt s' -> token_ok s'.
Proof.
  intros Hbuf. unfold scan_token. destruct (skip_blanks (stdin s)) as [c input].
  repeat match goal with
         | |- context [if ?c =? ?k then _ else _] =>
             destruct (Z.eqb_spec c k);
             [ unfold bind, set_stdin, set_kind; split; [discriminate|];
               intros s' H; inversion H; subst s'; split; [exact Hbuf|];
               cbn [current_token kind]; discriminate
             | ]
         end.
  destruct (read_digits input c 0 (buffer s)) as [[[[c' input'] len] buf]|] eqn:Hread;
    [|split; discriminate].
  destruct (Nat.ltb_spec 0 len) as [Hpos|_]; [|split; discriminate].
  destruct (read_digits_buffer _ _ _ _ _ _ _ _ Hbuf (Nat.le_0_l _) Hread)
    as (Hb' & Hl' & d & Hd & Hlen & Ht).
  rewrite take_0 in Ht. cbn [app Nat.add] in Ht, Hlen.
  destruct (bigint_create_str_unsigned d (drop len buf)
              ltac:(intros ->; cbn [length] in Hlen; lia) Hd) as (z & Hz & Wz & _).
  rewrite Hlen in Hz. rewrite <- Ht, take_drop in Hz. rewrite Hz.
  split; [discriminate|]. intros s' H. inversion H; subst s'.
  split; [exact Hb'|]. intros _. exists z. by split.
Qed.

(** Outside the end of the input, [next_token] fails no assertion. *)
Lemma next_token_safe s :
  token_ok s -> kind (current_token s) <> END ->
  next_token s <> Abort /\ forall s', next_token s = Return tt s' -> token_ok s'.
Proof.
  intros [Hbuf _] Hk. rewrite next_token_scans by exact Hk. by apply scan_token_safe.
Qed.

(** ** Composing computations that halt *)

Lemma halts_const {A} (m0 : M A) s (Q : A -> state -> Prop) :
  m0 s <> OutOfFuel -> m0 s <> Abort -> (forall a s', m0 s = Return a s' -> Q a s') ->
  halts (fun _ => m0) s Q.
Proof.
  intros Hne Hna HQ. exists (m0 s). split; [|by split]. exists 0%nat. by split.
Qed.

Lemma halts_weaken {A} (m : nat -> M A) s (P Q : A -> state -> Prop) :
  halts m s P -> (forall a s', P a s' -> Q a s') -> halts m s Q.
Proof.
  intros (r & Hr & Hna & HP) H. exists r. split; [exact Hr|]. split; [exact Hna|].
  intros a s' E. eauto.
Qed.

Lemma halts_shift {A} (m m' : nat -> M A) s Q :
  (forall f, m' (S f) = m f) -> halts m s Q -> halts m' s Q.
Proof.
  intros H (r & Hr & HQ). exists r. split; [|exact HQ]. by apply (runs_shift m).
Qed.

Lemma halts_bind {A B} (m : nat -> M A) (k : nat -> A -> M B) s
    (P : A -> state -> Prop) (Q : B -> state -> Prop) :
  monotone m -> (forall a, monotone (fun f => k f a)) ->
  halts m s P ->
  (forall a s', P a s' -> halts (fun f => k f a) s' Q) ->
  halts (fun f => bind (m f) (k f)) s Q.
Proof.
  intros Hm Hk (ra & Hra & Hna & HP) Hnext.
  destruct ra as [a s'|msg| |].
  - destruct (Hnext a s' (HP a s' eq_refl)) as (r & Hr & HQ).
    exists r. split; [|exact HQ]. by apply (runs_bind m k s (Return a s')).
  - exists (Exit msg). split; [|split; discriminate].
    by apply (runs_bind m k s (Exit msg)).
  - contradiction.
  - destruct Hra as (f & _ & Hne). contradiction.
Qed.

Lemma halts_bind_const {A B} (m0 : M A) (k : nat -> A -> M B) s
    (Q : B -> state -> Prop) :
  m0 s <> OutOfFuel -> m0 s <> Abort ->
  (forall a s', m0 s = Return a s' -> halts (fun f => k f a) s' Q) ->
  halts (fun f => bind m0 (k f)) s Q.
Proof.
  intros Hne Hna Hnext. destruct (m0 s) as [a s'|msg| |] eqn:E.
  - destruct (Hnext a s' eq_refl) as (r & Hr & HQ). exists r. split; [|exact HQ].
    apply runs_bind_const; rewrite E; [discriminate|exact Hr].
  - exists (Exit msg). split; [|split; discriminate].
    apply runs_bind_const; rewrite E; [discriminate|reflexivity].
  - contradiction.
  - contradiction.
Qed.

Lemma halts_error {A} (msg : string) s (Q : A -> state -> Prop) :
  halts (fun _ => error msg) s Q.
Proof. apply halts_const; discriminate. Qed.

Lemma halts_ret {A} (a : A) s (Q : A -> state -> Prop) :
  Q a s -> halts (fun _ => ret a) s Q.
Proof.
  intros H. apply halts_const; [discriminate|discriminate|].
  intros a' s' E. unfold ret in E. inversion E; subst. exact H.
Qed.

Lemma halts_get_token {B} (k : nat -> token_t -> M B) s Q :
  halts (fun f => k f (current_token s)) s Q ->
  halts (fun f => bind get_token (k f)) s Q.
Proof.
  intros H. apply halts_bind_const; [discriminate|discriminate|].
  intros a s' E. unfold get_token in E. inversion E; subst. exact H.
Qed.

Lemma halts_next_token {B} (k : nat -> unit -> M B) s Q :
  token_ok s -> kind (current_token s) <> END ->
  (forall s1, token_ok s1 -> (pending s1 < pending s)%nat ->
     halts (fun f => k f tt) s1 Q) ->
  halts (fun f => bind next_token (k f)) s Q.
Proof.
  intros Hs Hk H. destruct (next_token_safe s Hs Hk) as [Hna Hok].
  apply halts_bind_const; [apply next_token_fuel|exact Hna|].
  intros [] s1 E. apply H; [by apply Hok|by apply next_token_pending].
Qed.

Lemma halts_lift {A B} (o : option A) (a : A) (k : nat -> A -> M B) s Q :
  o = Some a -> halts (fun f => k f a) s Q ->
  halts (fun f => bind (lift o) (k f)) s Q.
Proof.
  intros -> H. apply halts_bind_const; [discriminate|discriminate|].
  intros a' s' E. unfold lift in E. inversion E; subst. exact H.
Qed.

Lemma monotone_const {A} (m0 : M A) : monotone (fun _ => m0).
Proof. intros f f' _. apply extends_refl. Qed.

Lemma monotone_bind {A B} (m : nat -> M A) (k : nat -> A -> M B) :
  monotone m -> (forall a, monotone (fun f => k f a)) ->
  monotone (fun f => bind (m f) (k f)).
Proof.
  intros Hm Hk f f' Hle. apply extends_bind; [by apply Hm|].
  intros a. by apply (Hk a).
Qed.

Ltac mono :=
  repeat first
    [ apply monotone_const
    | apply sum_monotone | apply term_monotone | apply factor_monotone
    | apply sum_loop_monotone | apply term_loop_monotone
    | apply monotone_bind; [|intros ?]
    | match goal with
      | |- monotone (fun f => match kind ?t with _ => _ end) => destruct (kind t)
      end ].

(** ** The parser halts *)

Lemma consumed_trans s s1 s2 x y :
  (pending s1 < pending s)%nat -> consumed s1 x s2 -> normal (data y) ->
  consumed s y s2.
Proof. intros H (_ & Hok & Hlt) Hy. split; [exact Hy|]. split; [exact Hok|lia]. Qed.

Lemma factor_halts (s : state) :
  token_ok s ->
  (forall s1, token_ok s1 -> (pending s1 < pending s)%nat ->
     halts factor s1 (consumed s1) /\ halts sum s1 (consumed s1)) ->
  halts factor s (consumed s).
Proof.
  intros Hs IH.
  eapply halts_shift; [intros f; apply factor_S|].
  apply halts_get_token. cbv beta.
  destruct (kind (current_token s)) eqn:Hk; try apply halts_error.
  - (* SUB *)
    apply halts_next_token; [exact Hs|rewrite Hk; discriminate|]. intros s1 Hs1 H1.
    eapply halts_bind; [mono|intros a; mono|apply (IH s1 Hs1 H1)|].
    intros x s2 H2. apply halts_ret.
    apply (consumed_trans s s1 s2 x _ H1 H2).
    apply well_formed_normal, bigint_neg_value, (proj1 H2).
  - (* LP *)
    apply halts_next_token; [exact Hs|rewrite Hk; discriminate|]. intros s1 Hs1 H1.
    eapply halts_bind; [mono|intros a; mono|apply (IH s1 Hs1 H1)|].
    intros x s2 (Nx & Hs2 & H2). cbv beta.
    apply halts_get_token. cbv beta.
    destruct (kind (current_token s2)) eqn:Hk2;
      try (apply (halts_bind_const (error _)); discriminate).
    apply (halts_bind_const (ret tt)); [discriminate|discriminate|].
    intros a s3 E. inversion E; subst s3.
    apply halts_next_token; [exact Hs2|rewrite Hk2; discriminate|]. intros s3 Hs3 H3.
    apply halts_ret. split; [exact Nx|]. split; [exact Hs3|lia].
  - (* NUM *)
    destruct (proj2 Hs Hk) as (z & Hz & Wz).
    eapply halts_lift; [exact Hz|].
    apply halts_next_token; [exact Hs|rewrite Hk; discriminate|]. intros s1 Hs1 H1.
    apply halts_ret. split; [by apply well_formed_normal|]. by split.
Qed.

Lemma kept_trans s s2 x s' :
  (pending s2 < pending s)%nat -> kept s2 x s' -> kept s x s'.
Proof. intros H (Nx & Hok & Hle). split; [exact Nx|]. split; [exact Hok|lia]. Qed.

Lemma term_loop_halts (s : state) :
  token_ok s ->
  (forall s1, token_ok s1 -> (pending s1 < pending s)%nat ->
     halts factor s1 (consumed s1) /\
     forall x, normal (data x) -> halts (fun f => term_loop f x) s1 (kept s1)) ->
  forall x, normal (data x) -> halts (fun f => term_loop f x) s (kept s).
Proof.
  intros Hs IH x Nx.
  eapply halts_shift; [intros f; apply term_loop_S|].
  apply halts_get_token. cbv beta.
  destruct (kind (current_token s)) eqn:Hk;
    try (apply halts_ret; split; [exact Nx|]; split; [exact Hs|lia]).
  - (* MUL *)
    apply halts_next_token; [exact Hs|rewrite Hk; discriminate|]. intros s1 Hs1 H1.
    eapply halts_bind; [mono|intros a; mono|apply (IH s1 Hs1 H1)|].
    intros y s2 (Ny & Hs2 & H2). cbv beta.
    destruct (bigint_mul_spec x y (proj1 Nx) (proj1 Ny)) as (t & Ht & Wt & _).
    eapply halts_lift; [exact Ht|].
    eapply halts_weaken;
      [apply (IH s2 Hs2 ltac:(lia)); by apply well_formed_normal|].
    intros a s' H. apply (kept_trans s s2 a s' ltac:(lia) H).
  - (* DIV *)
    apply halts_next_token; [exact Hs|rewrite Hk; discriminate|]. intros s1 Hs1 H1.
    eapply halts_bind; [mono|intros a; mono|apply (IH s1 Hs1 H1)|].
    intros y s2 (Ny & Hs2 & H2). cbv beta.
    destruct (bigint_is_zero y) eqn:Hz.
    { apply (halts_bind_const (error _)); discriminate. }
    apply (halts_bind_const (ret tt)); [discriminate|discriminate|].
    intros u s3 E. inversion E; subst s3.
    destruct (bigint_div_normal x y Nx Ny Hz) as (t & Ht & Nt & _).
    eapply halts_lift; [exact Ht|].
    eapply halts_weaken; [apply (IH s2 Hs2 ltac:(lia)); exact Nt|].
    intros a s' H. apply (kept_trans s s2 a s' ltac:(lia) H).
Qed.

Lemma term_halts (s : state) :
  halts factor s (consumed s) ->
  (forall s1, token_ok s1 -> (pending s1 < pending s)%nat ->
     forall x, normal (data x) -> halts (fun f => term_loop f x) s1 (kept s1)) ->
  halts term s (consumed s).
Proof.
  intros HF IH.
  eapply halts_shift; [intros f; apply term_S|].
  eapply halts_bind; [mono|intros a; mono|exact HF|].
  intros x s1 (Nx & Hs1 & H1). cbv beta.
  eapply halts_weaken; [apply (IH s1 Hs1 H1 x Nx)|].
  intros a s' (Na & Hs' & H). split; [exact Na|]. split; [exact Hs'|lia].
Qed.

Lemma sum_loop_halts (s : state) :
  token_ok s ->
  (forall s1, token_ok s1 -> (pending s1 < pending s)%nat ->
     halts term s1 (consumed s1) /\
     forall x, normal (data x) -> halts (fun f => sum_loop f x) s1 (kept s1)) ->
  forall x, normal (data x) -> halts (fun f => sum_loop f x) s (kept s).
Proof.
  intros Hs IH x Nx.
  eapply halts_shift; [intros f; apply sum_loop_S|].
  apply halts_get_token. cbv beta.
  destruct (kind (current_token s)) eqn:Hk;
    try (apply halts_ret; split; [exact Nx|]; split; [exact Hs|lia]).
  - (* ADD *)
    apply halts_next_token; [exact Hs|rewrite Hk; discriminate|]. intros s1 Hs1 H1.
    eapply halts_bind; [mono|intros a; mono|apply (IH s1 Hs1 H1)|].
    intros y s2 (Ny & Hs2 & H2). cbv beta.
    destruct (bigint_add_spec x y Nx Ny) as (t & Ht & Nt & _).
    eapply halts_lift; [exact Ht|].
    eapply halts_weaken; [apply (IH s2 Hs2 ltac:(lia)); exact Nt|].
    intros a s' H. apply (kept_trans s s2 a s' ltac:(lia) H).
  - (* SUB *)
    apply halts_next_token; [exact Hs|rewrite Hk; discriminate|]. intros s1 Hs1 H1.
    eapply halts_bind; [mono|intros a; mono|apply (IH s1 Hs1 H1)|].
    intros y s2 (Ny & Hs2 & H2). cbv beta.
    destruct (bigint_sub_spec x y Nx Ny) as (t & Ht & Nt & _).
    eapply halts_lift; [exact Ht|].
    eapply halts_weaken; [apply (IH s2 Hs2 ltac:(lia)); exact Nt|].
    intros a s' H. apply (kept_trans s s2 a s' ltac:(lia) H).
Qed.

Lemma sum_halts (s : state) :
  halts term s (consumed s) ->
  (forall s1, token_ok s1 -> (pending s1 < pending s)%nat ->
     forall x, normal (data x) -> halts (fun f => sum_loop f x) s1 (kept s1)) ->
  halts sum s (consumed s).
Proof.
  intros HT IH.
  eapply halts_shift; [intros f; apply sum_S|].
  eapply halts_bind; [mono|intros a; mono|exact HT|].
  intros x s1 (Nx & Hs1 & H1). cbv beta.
  eapply halts_weaken; [apply (IH s1 Hs1 H1 x Nx)|].
  intros a s' (Na & Hs' & H). split; [exact Na|]. split; [exact Hs'|lia].
Qed.

(** Whatever the token and the characters to read, each routine of the
    parser returns or leaves through [error]; what it returns is a bignum
    with normal limbs, in a state with less left to read. *)
Lemma parser_halts (n : nat) :
  forall s, (pending s < n)%nat -> token_ok s ->
    halts factor s (consumed s) /\
    (forall x, normal (data x) -> halts (fun f => term_loop f x) s (kept s)) /\
    halts term s (consumed s) /\
    (forall x, normal (data x) -> halts (fun f => sum_loop f x) s (kept s)) /\
    halts sum s (consumed s).
Proof.
  induction n as [|n IH]; intros s Hn Hs; [lia|].
  assert (HF : halts factor s (consumed s)).
  { apply factor_halts; [exact Hs|].
    intros s1 Hs1 H1. split; by apply (IH s1 ltac:(lia) Hs1). }
  assert (HTL : forall x, normal (data x) ->
                          halts (fun f => term_loop f x) s (kept s)).
  { apply term_loop_halts; [exact Hs|].
    intros s1 Hs1 H1. split; by apply (IH s1 ltac:(lia) Hs1). }
  assert (HT : halts term s (consumed s)).
  { apply term_halts; [exact HF|]. intros s1 Hs1 H1. by apply (IH s1 ltac:(lia) Hs1). }
  assert (HSL : forall x, normal (data x) ->
                          halts (fun f => sum_loop f x) s (kept s)).
  { apply sum_loop_halts; [exact Hs|].
    intros s1 Hs1 H1. split; by apply (IH s1 ltac:(lia) Hs1). }
  repeat split; try assumption.
  apply sum_halts; [exact HT|]. intros s1 Hs1 H1. by apply (IH s1 ltac:(lia) Hs1).
Qed.

(** ** The main loop halts *)

Lemma expr_S fuel :
  expr fuel =
  (let! tok := get_token in
   match kind tok with
   | END => ret None
   | _ =>
       let! res := sum fuel in
       let! tok := get_token in
       match kind tok with
       | EOL => ret (Some res)
       | _ => error "trailing character(s)"
       end
   end).
Proof. reflexivity. Qed.

Lemma expr_monotone : monotone expr.
Proof.
  intros f f' Hle. rewrite !expr_S.
  apply extends_bind; [apply extends_refl|]. intros tok.
  destruct (kind tok); first [apply extends_refl | idtac];
    (apply extends_bind; [by apply sum_monotone|intros ?; apply extends_refl]).
Qed.

(** [expr] returns the null pointer, or a bignum with normal limbs at the
    end of a line. *)
Lemma expr_halts (s : state) :
  token_ok s ->
  halts expr s
    (fun o s' =>
       match o with
       | Some x =>
           normal (data x) /\ token_ok s' /\ kind (current_token s') = EOL /\
           (pending s' < pending s)%nat
       | None => True
       end).
Proof.
  intros Hs.
  destruct (parser_halts (S (pending s)) s ltac:(lia) Hs) as (_ & _ & _ & _ & HS).
  assert (Hrest : halts (fun f => let! res := sum f in
                                  let! tok := get_token in
                                  match kind tok with
                                  | EOL => ret (Some res)
                                  | _ => error "trailing character(s)"
                                  end) s
                    (fun o s' =>
                       match o with
                       | Some x =>
                           normal (data x) /\ token_ok s' /\
                           kind (current_token s') = EOL /\
                           (pending s' < pending s)%nat
                       | None => True
                       end)).
  { eapply halts_bind; [mono|intros a; mono|exact HS|].
    intros res s1 (Nres & Hs1 & H1). cbv beta.
    apply halts_const.
    - unfold bind, get_token. destruct (kind (current_token s1)); discriminate.
    - unfold bind, get_token. destruct (kind (current_token s1)); discriminate.
    - intros a s'. unfold bind, get_token.
      destruct (kind (current_token s1)) eqn:Hk1; try discriminate.
      intros E; inversion E; subst.
      split; [assumption|]. split; [assumption|]. split; assumption. }
  destruct Hrest as (r & (f & Hf & Hne) & HQ).
  destruct (kind (current_token s)) eqn:Hk.
  9: { exists (Return None s). split.
       - exists 0%nat. split; [|discriminate].
         rewrite expr_S. unfold bind, get_token. by rewrite Hk.
       - split; [discriminate|]. intros a s' E. by inversion E. }
  all: exists r; (split; [|exact HQ]); exists f; (split; [|exact Hne]);
    rewrite expr_S; unfold bind at 1; unfold get_token at 1; rewrite Hk; exact Hf.
Qed.

(** [bigint_tostring] fails no assertion on a value with normal limbs, so
    [bigint_print] returns and touches the output only. *)
Lemma bigint_print_returns x s :
  normal (data x) ->
  exists out,
    bigint_print x s =
      Return tt {| stdin := stdin s; stdout := out; buffer := buffer s;
                   current_token := current_token s |}.
Proof.
  intros Nx. destruct (well_formed_dec x Nx) as [Wx|Hnw].
  - destruct (bigint_print_spec x Wx) as (str & _ & _ & _ & Hprint).
    rewrite Hprint. by eexists.
  - rewrite (normal_not_well_formed x Nx Hnw). by eexists.
Qed.

Lemma main_loop_monotone : monotone main_loop.
Proof.
  intros f. induction f as [|f IH]; intros f' Hle.
  - apply extends_out_of_fuel.
  - destruct f' as [|f']; [lia|]. rewrite !main_loop_S.
    apply extends_bind; [apply extends_refl|]. intros _.
    apply extends_bind; [apply expr_monotone; lia|]. intros [x|]; [|apply extends_refl].
    apply extends_bind; [apply extends_refl|]. intros _.
    apply extends_bind; [apply extends_refl|]. intros _.
    apply IH. lia.
Qed.

Lemma main_loop_halts (n : nat) :
  forall s, (pending s < n)%nat -> token_ok s -> kind (current_token s) <> END ->
    halts main_loop s (fun a _ => a = 0).
Proof.
  induction n as [|n IH]; intros s Hn Hs Hk; [lia|].
  eapply halts_shift; [intros f; apply main_loop_S|].
  apply halts_next_token; [exact Hs|exact Hk|]. intros s1 Hs1 H1.
  eapply halts_bind;
    [apply expr_monotone
    |intros [x|]; [|apply monotone_const];
     apply monotone_bind_const; intros _; apply monotone_bind_const; intros _;
     apply main_loop_monotone
    |apply (expr_halts s1 Hs1)|].
  intros [x|] s2 H2; cbv beta in H2; [|by apply halts_ret].
  destruct H2 as (Nx & (Hbuf & Hnum) & Hk2 & H2).
  destruct (bigint_print_returns x s2 Nx) as (out & Hprint).
  apply halts_bind_const; [rewrite Hprint; discriminate|rewrite Hprint; discriminate|].
  intros [] s3 H3. rewrite Hprint in H3. inversion H3; subst s3.
  apply halts_bind_const; [discriminate|discriminate|].
  intros [] s4 H4. unfold write in H4. inversion H4; subst s4.
  cbn [stdin stdout buffer current_token].
  apply IH.
  - unfold pending in *. cbn [stdin current_token]. lia.
  - split; [exact Hbuf|exact Hnum].
  - cbn [current_token]. rewrite Hk2. discriminate.
Qed.

(** X30. [main] terminates on every input, well-formed or not, and it
    ends by returning 0 or by leaving through [error]: from some amount of
    fuel on the run has one and the same outcome, which is neither the
    lack of fuel nor a failed assertion.  Every call of [next_token]
    shortens what is left to read, which bounds the recursion of the
    parser and the loop of [main]; every bignum the parser holds has normal
    limbs, on which no routine of the bignum core fails an assertion or
    runs out of the bound of a loop; and [next_token] is never called
    after the end of the input.  Whether the string fits the array of
    [bigint_print] is not part of the outcome. *)
Theorem main_terminates (input : list ascii) :
  exists f0 r,
    (forall fuel, (f0 <= fuel)%nat -> main fuel input = r) /\
    ((exists s', r = Return 0 s') \/ (exists msg, r = Exit msg)).
Proof.
  destruct (main_loop_halts (S (pending (initial_state input))) (initial_state input)
              ltac:(lia)) as (r & Hr & Hna & HQ).
  { split; [apply length_replicate|]. simpl. discriminate. }
  { simpl. discriminate. }
  pose proof Hr as (f & _ & Hne).
  destruct (runs_monotone main_loop _ _ main_loop_monotone Hr) as (f0 & Hf0).
  exists f0, r. split; [intros fuel Hfuel; by apply Hf0|].
  destruct r as [a s'|msg| |]; [|right; by eexists|contradiction|contradiction].
  left. exists s'. by rewrite (HQ a s' eq_refl).
Qed.

End Termination.
